(** * QMK keymap text: parser, evaluator and text-splice editor

    A shallow embedding of [src/QMK/parsing.ts]:
    [tryParseKeymapsText], [trySetKeymapsKey], [addLayerKeymaps] and
    [evalKeyExpression], followed by the properties of the specification.

    Conventions of the embedding.
    - A JavaScript string is a list of UTF-16 code units, each an [N].
    - [pos] and [pcount], which the source shares between the closures of one
      parse, are threaded explicitly in a [shared] record; [start], [arr] and
      [lastToken], which are local to one activation of [main], live in a
      [frame].
    - A JavaScript exception is [Throw e]; [Fuel] marks a loop that was cut
      because the iteration budget of the embedding ran out (the theorems
      show that the budget given by the text length is never exhausted).
    - The symbol table of the evaluator is an object: the embedding keeps
      what [name in executor] answers and what
      [executor[name].apply(null, params)] returns or throws, and an
      evaluation [Returns] a value or [Raises] an exception. *)

From Stdlib Require Import String Ascii Decimal DecimalString.
From Stdlib Require Import NArith ZArith Arith Bool Lia List.
Import ListNotations.

Set Warnings "-register-all".

(** ** Characters and strings *)

Definition char := N.
Definition str := list char.

Definition ch (a : ascii) : char := N_of_ascii a.

Fixpoint lit (s : string) : str :=
  match s with
  | EmptyString => []
  | String a s' => ch a :: lit s'
  end.

Definition c_space  : char := 32%N.
Definition c_comma  : char := 44%N.
Definition c_lparen : char := 40%N.
Definition c_rparen : char := 41%N.
Definition c_slash  : char := 47%N.
Definition c_star   : char := 42%N.
Definition c_bslash : char := 92%N.
Definition c_nl     : char := 10%N.

(** The character class [\s] of JavaScript regular expressions:
    WhiteSpace and LineTerminator code units. *)
Definition isWhite (c : char) : bool :=
  ((9 <=? c) && (c <=? 13) || (c =? 32) || (c =? 160) || (c =? 5760)
   || (8192 <=? c) && (c <=? 8202) || (c =? 8232) || (c =? 8233)
   || (c =? 8239) || (c =? 8287) || (c =? 12288) || (c =? 65279))%N.

(** [s.slice(a, b)] for non-negative [a] and [b]. *)
Definition slice (s : str) (a b : nat) : str := firstn (b - a) (skipn a s).

(** [s.substr(0, n)] and [s.substr(n)]. *)
Definition substr0 (s : str) (n : nat) : str := firstn n s.
Definition substrFrom (s : str) (n : nat) : str := skipn n s.

Fixpoint takeWhile (p : char -> bool) (s : str) : str :=
  match s with
  | [] => []
  | c :: s' => if p c then c :: takeWhile p s' else []
  end.

Fixpoint isPrefix (needle hay : str) : bool :=
  match needle, hay with
  | [], _ => true
  | _ :: _, [] => false
  | a :: needle', b :: hay' => (a =? b)%N && isPrefix needle' hay'
  end.

Fixpoint indexOfFrom (needle hay : str) (i : nat) : option nat :=
  if isPrefix needle hay then Some i
  else match hay with
       | [] => None
       | _ :: hay' => indexOfFrom needle hay' (S i)
       end.

(** [hay.indexOf(needle, from)]; [None] stands for [-1]. *)
Definition indexOf (needle hay : str) (from : nat) : option nat :=
  indexOfFrom needle (skipn from hay) from.

Fixpoint join (sep : str) (l : list str) : str :=
  match l with
  | [] => []
  | [x] => x
  | x :: l' => x ++ sep ++ join sep l'
  end.

(** Decimal rendering of a natural number, as [String(n)] does. *)
Definition showNat (n : nat) : str := lit (NilZero.string_of_uint (Nat.to_uint n)).

(** ** Syntax tree *)

Inductive AstNode : Type :=
| AstWord (content : str) (offset end_ : nat)
| AstFunction (func : str) (params : list AstNode) (offset end_ : nat) (content : str).

Definition KeymapParseResult := list (list AstNode).

Definition node_offset (n : AstNode) : nat :=
  match n with
  | AstWord _ o _ => o
  | AstFunction _ _ o _ _ => o
  end.

Definition node_end (n : AstNode) : nat :=
  match n with
  | AstWord _ _ e => e
  | AstFunction _ _ _ e _ => e
  end.

Definition node_content (n : AstNode) : str :=
  match n with
  | AstWord c _ _ => c
  | AstFunction _ _ _ _ c => c
  end.

(** ** Outcomes *)

Inductive error : Type :=
| MissingToken (at_ : nat)              (* "Missing token at: " + pos *)
| WhitespacesNotAllowed (at_ : nat)     (* "Whitespaces are not allowed at: " *)
| FunctionNameRequired (at_ : nat)      (* "Function name required at: " *)
| FunctionNameSpaces (at_ : nat)        (* "Function name can't have spaces ..." *)
| Unbalanced                            (* "KEYMAP parenthesis unbalanced" *)
| IncompatibleLayers                    (* "Incompatible amount of keys in layers" *)
| WrongKeyCount (got : nat) (expected : Z)  (* "Number of keys in KEYMAP are incorrect ..." *)
| KeymapsNotFound                       (* "KEYMAPS not found" *)
| TypeError.                            (* reading a property of [undefined] *)

(** The errors the parser raises with [throw new Error(...)]. *)
Definition isParseError (e : error) : bool :=
  match e with
  | TypeError => false
  | _ => true
  end.

Inductive outcome (A : Type) : Type :=
| Done (a : A)
| Throw (e : error)
| Fuel.

Arguments Done {A} a.
Arguments Throw {A} e.
Arguments Fuel {A}.

Definition bind {A B : Type} (m : outcome A) (k : A -> outcome B) : outcome B :=
  match m with
  | Done a => k a
  | Throw e => Throw e
  | Fuel => Fuel
  end.

Notation "x <- m ;; k" := (bind m (fun x => k))
  (at level 61, m at next level, right associativity).
Notation "' p <- m ;; k" := (bind m (fun p => k))
  (at level 61, p pattern, m at next level, right associativity).

(** ** The parser *)

Record shared : Type := { pos : nat; pcount : Z }.
Record frame : Type := { start : nat; arr : list AstNode; lastToken : Z }.

Definition set_pos (g : shared) (p : nat) : shared :=
  {| pos := p; pcount := pcount g |}.
Definition set_pcount (g : shared) (c : Z) : shared :=
  {| pos := pos g; pcount := c |}.
Definition set_start (f : frame) (s : nat) : frame :=
  {| start := s; arr := arr f; lastToken := lastToken f |}.
Definition push (f : frame) (n : AstNode) : frame :=
  {| start := start f; arr := arr f ++ [n]; lastToken := lastToken f |}.
Definition new_frame (s : nat) : frame :=
  {| start := s; arr := []; lastToken := (-1)%Z |}.

Definition isEmpty (s : str) : bool :=
  match s with [] => true | _ => false end.

(** [tokenWithoutSpaces]: the number of leading white characters and the
    string without its leading and trailing white characters. *)
Definition tokenWithoutSpaces (s : str) : nat * str :=
  let start := length (takeWhile isWhite s) in
  let end_ := length s - length (takeWhile isWhite (rev s)) in
  (start, slice s start end_).

(** The inner loop of the [/*] case, run on the text from [pos] on:
    the position it leaves and whether it found the closing pair (and so
    reset [start]). *)
Fixpoint blockComment (rest : str) (p : nat) : nat * bool :=
  match rest with
  | [] => (p, false)
  | c :: rest' =>
      match rest' with
      | nx :: _ =>
          if ((c =? c_star) && (nx =? c_slash))%N then (p + 2, true)
          else blockComment rest' (S p)
      | [] => blockComment rest' (S p)
      end
  end.

(** The inner loop of the [//] case: after the newline is read, [pos] is
    incremented once more before [start] is set. *)
Fixpoint lineComment (rest : str) (p : nat) : nat * bool :=
  match rest with
  | [] => (p, false)
  | c :: rest' =>
      if (c =? c_nl)%N then (p + 2, true) else lineComment rest' (S p)
  end.

Section Parse.

Variable expr : str.

Definition ensureTokenExists (f : frame) (g : shared) : outcome frame :=
  if ((lastToken f =? Z.of_nat (length (arr f)))%Z || (length (arr f) =? 0))%bool
  then Throw (MissingToken (pos g))
  else Done {| start := start f; arr := arr f;
               lastToken := Z.of_nat (length (arr f)) |}.

(** [addWord]; the boolean it returns is ignored at every call site. *)
Definition addWord (f : frame) (end_ : nat) : outcome frame :=
  if end_ <=? start f then Done f
  else
    let '(offset, token) := tokenWithoutSpaces (slice expr (start f) end_) in
    if isEmpty token then Done f
    else if existsb isWhite token
    then Throw (WhitespacesNotAllowed (start f + offset))
    else Done (push f (AstWord token (start f + offset) end_)).

(** [addFunc], with the recursive activation [main(end + 1)] passed in. *)
Definition addFunc
    (main : nat -> shared -> outcome (list AstNode * shared))
    (f : frame) (g : shared) (end_ : nat) : outcome (frame * shared) :=
  if end_ <=? start f then Throw (FunctionNameRequired end_)
  else
    let '(offset, token) := tokenWithoutSpaces (slice expr (start f) end_) in
    if isEmpty token then Throw (FunctionNameRequired (start f + offset))
    else if existsb isWhite token
    then Throw (FunctionNameSpaces (start f + offset))
    else
      '(params, g) <- main (end_ + 1) g ;;
      match last (map Some params) None with
      | None => Throw TypeError          (* params.slice(-1)[0] is undefined *)
      | Some l =>
          let paramsend := node_end l in
          Done (push f (AstFunction token params (start f + offset)
                          (paramsend + 1)
                          (slice expr (start f + offset) (paramsend + 1))),
                g)
      end.

(** The first [switch (char + next)] of the loop body; [g] already has
    [pos] past [char]. *)
Definition firstSwitch (c : char) (next : option char) (f : frame) (g : shared)
  : outcome (frame * shared) :=
  match next with
  | None => Done (f, g)
  | Some nx =>
      if ((c =? c_bslash) && (nx =? c_nl))%N then
        let g := set_pos g (pos g + 1) in
        Done (set_start f (pos g), g)
      else if ((c =? c_slash) && (nx =? c_star))%N then
        f <- addWord f (pos g - 1) ;;
        let '(p, closed) := blockComment (skipn (pos g) expr) (pos g) in
        Done (if closed then set_start f p else f, set_pos g p)
      else if ((c =? c_slash) && (nx =? c_slash))%N then
        f <- addWord f (pos g - 1) ;;
        let '(p, closed) := lineComment (skipn (pos g) expr) (pos g) in
        Done (if closed then set_start f p else f, set_pos g p)
      else Done (f, g)
  end.

(** One iteration of the [while (pos < expr.length)] loop of [main], entered
    with [pos < expr.length]; [rec] runs the iterations that follow, and on a
    fresh frame it is the recursive activation [main(end + 1)]. *)
Definition loop_body
    (rec : frame -> shared -> outcome (list AstNode * shared))
    (f : frame) (g : shared) : outcome (list AstNode * shared) :=
  let c := nth (pos g) expr 0%N in
  let g := set_pos g (pos g + 1) in
  let next := nth_error expr (pos g) in
  '(f, g) <- firstSwitch c next f g ;;
  if (c =? c_space)%N then rec f g
  else if (c =? c_comma)%N then
    f <- addWord f (pos g - 1) ;;
    f <- ensureTokenExists f g ;;
    rec (set_start f (pos g)) g
  else if (c =? c_lparen)%N then
    '(f, g) <- addFunc (fun s g => rec (new_frame s) g) f g (pos g - 1) ;;
    let g := set_pcount g (pcount g + 1) in
    rec (set_start f (pos g)) g
  else if (c =? c_rparen)%N then
    f <- addWord f (pos g - 1) ;;
    f <- ensureTokenExists f g ;;
    Done (arr f, set_pcount g (pcount g - 1))
  else rec f g.

Fixpoint main_loop (fuel : nat) (f : frame) (g : shared) {struct fuel}
  : outcome (list AstNode * shared) :=
  if length expr <=? pos g then Done (arr f, g)
  else
    match fuel with
    | O => Fuel
    | S fuel' => loop_body (main_loop fuel') f g
    end.

Definition main (fuel : nat) (s : nat) (g : shared)
  : outcome (list AstNode * shared) :=
  main_loop fuel (new_frame s) g.

Definition marker : str := lit "KEYMAP(".

(** The outer [while (expr.indexOf("KEYMAP(", pos) !== -1)] loop: the layers
    found and the final [pos]. *)
Fixpoint scan (fuel : nat) (p : nat) (keymaps : KeymapParseResult) {struct fuel}
  : outcome (KeymapParseResult * nat) :=
  match indexOf marker expr p with
  | None => Done (keymaps, p)
  | Some i =>
      match fuel with
      | O => Fuel
      | S fuel' =>
          '(keymap, g) <- main (length expr) (i + 7) {| pos := i + 7; pcount := 1 |} ;;
          if (pcount g =? 0)%Z then scan fuel' (pos g) (keymaps ++ [keymap])
          else Throw Unbalanced
      end
  end.

(** The checks that follow the scan; [keyCount] is [null] or an integer. *)
Definition validate (keymaps : KeymapParseResult) (keyCount : option Z)
  : outcome unit :=
  match keymaps with
  | [] => Throw KeymapsNotFound
  | k0 :: _ =>
      if existsb (fun t => negb (length t =? length k0)) keymaps
      then Throw IncompatibleLayers
      else match keyCount with
           | Some kc =>
               if negb (Z.of_nat (length k0) =? kc)%Z
               then Throw (WrongKeyCount (length k0) kc)
               else Done tt
           | None => Done tt
           end
  end.

(** [tryParseKeymapsText]: the layers and, when [_returnOnlyEndHack] is set,
    the [_endParsingPosition] property attached to them. *)
Definition tryParseKeymapsText (keyCount : option Z) (returnOnlyEndHack : bool)
  : outcome (KeymapParseResult * option nat) :=
  '(keymaps, p) <- scan (length expr) 0 [] ;;
  _ <- validate keymaps keyCount ;;
  Done (keymaps, if returnOnlyEndHack then Some p else None).

End Parse.

(** ** The editor *)

(** [arr[i]] for a JavaScript number [i] that is an integer. *)
Definition index {A : Type} (l : list A) (i : Z) : option A :=
  if (i <? 0)%Z then None else nth_error l (Z.to_nat i).

Definition trySetKeymapsKey (keymapText : str) (layer key : Z) (newValue : str)
    (keyCount : option Z) : outcome str :=
  '(keymapParsed, _) <- tryParseKeymapsText keymapText keyCount false ;;
  match index keymapParsed layer with
  | None => Done keymapText
  | Some layerKeys =>
      match index layerKeys key with
      | None => Done keymapText
      | Some keyValue =>
          let head := substr0 keymapText (node_offset keyValue) in
          let tail := substrFrom keymapText
                        (node_offset keyValue + length (node_content keyValue)) in
          let newKeymap := head ++ newValue ++ tail in
          _ <- tryParseKeymapsText newKeymap keyCount false ;;
          Done newKeymap
      end
  end.

Definition placeholder : str := lit "KC_TRANSPARENT".

(** The text [addLayerKeymaps] inserts for [n] layers of [k] keys. *)
Definition newLayerText (n k : nat) : str :=
  c_comma :: c_nl :: lit " [" ++ showNat n ++ lit "] = KEYMAP("
    ++ join [c_comma] (repeat placeholder k) ++ lit ")".

(** The part of that text before the macro name. *)
Definition newLayerLead (n : nat) : str :=
  c_comma :: c_nl :: lit " [" ++ showNat n ++ lit "] = ".

Definition addLayerKeymaps (keymapText : str) : outcome str :=
  match tryParseKeymapsText keymapText None true with
  | Throw _ => Done keymapText                       (* catch (e) *)
  | Fuel => Fuel
  | Done (keymaps, endPos) =>
      match endPos, keymaps with
      | Some p, k0 :: _ =>
          let n := length keymaps in
          let empties := map (fun _ => placeholder) k0 in
          Done (substr0 keymapText p
                  ++ c_comma :: c_nl :: lit " [" ++ showNat n ++ lit "] = KEYMAP("
                  ++ join [c_comma] empties ++ lit ")"
                  ++ substrFrom keymapText p)
      | _, _ => Throw TypeError                      (* keymaps[0] is undefined *)
      end
  end.

(** ** The evaluator *)

Section Eval.

(** The JavaScript values other than [null] and the strings; the evaluator
    needs to know of them only whether [||] takes them for true. *)
Variable T : Type.
Variable truthy : T -> bool.

Inductive value : Type :=
| VNull
| VString (s : str)
| VCustom (t : T).

(** An exception: a TypeError of the engine, or the value a function of the
    table throws. *)
Inductive thrown : Type :=
| EngineTypeError
| Thrown (v : value).

(** What a call or an evaluation comes to. *)
Inductive completion (A : Type) : Type :=
| Returns (a : A)
| Raises (x : thrown).

Arguments Returns {A} a.
Arguments Raises {A} x.

(** The symbol table as the evaluator uses it.  [has name] is
    [name in executor], which also finds what the object inherits;
    [call name params] is [executor[name].apply(null, params)], which raises
    when what is found there is no function and when the function throws.
    The functions of a table are taken to depend on their arguments only. *)
Record Executor : Type := {
  has : str -> bool;
  call : str -> list value -> completion value
}.

(** [v || null]. *)
Definition orNull (v : value) : value :=
  match v with
  | VNull => VNull
  | VString [] => VNull
  | VString s => VString s
  | VCustom t => if truthy t then VCustom t else VNull
  end.

(** The parameters are evaluated from left to right; the first exception
    ends the evaluation. *)
Fixpoint sequence (rs : list (completion value)) : completion (list value) :=
  match rs with
  | [] => Returns []
  | Raises x :: _ => Raises x
  | Returns v :: rs' =>
      match sequence rs' with
      | Returns vs => Returns (v :: vs)
      | Raises x => Raises x
      end
  end.

Fixpoint evalNode (executor : Executor) (n : AstNode) : completion value :=
  match n with
  | AstWord content _ _ => Returns (VString content)
  | AstFunction func params _ _ _ =>
      match sequence (map (evalNode executor) params) with
      | Raises x => Raises x
      | Returns evaledParams =>
          if has executor func then
            match call executor func evaledParams with
            | Returns v => Returns (orNull v)
            | Raises x => Raises x
            end
          else Returns VNull
      end
  end.

Inductive evalInput : Type :=
| INull
| IString (s : str)
| INode (n : AstNode).

Definition evalKeyExpression (e : evalInput) (executor : Executor)
  : completion value :=
  match e with
  | INull => Returns VNull
  | IString s => Returns (VString s)
  | INode n => evalNode executor n
  end.

End Eval.

Arguments VNull {T}.
Arguments VString {T} s.
Arguments VCustom {T} t.
Arguments EngineTypeError {T}.
Arguments Thrown {T} v.
Arguments Returns {T A} a.
Arguments Raises {T A} x.
Arguments has {T} e name.
Arguments call {T} e name params.
Arguments orNull {T} truthy v.
Arguments sequence {T} rs.
Arguments evalNode {T} truthy executor n.
Arguments evalKeyExpression {T} truthy e executor.

(** ** Tables that are plain objects

    A table written as an object literal inherits the members of
    [Object.prototype], which [in] finds as it finds the properties of the
    table itself. *)

(** The values the members of [Object.prototype] return that are neither
    [null] nor strings: [false] and objects. *)
Inductive other : Type := OFalse | OObject.

Definition otherTruthy (o : other) : bool :=
  match o with
  | OFalse => false
  | OObject => true
  end.

Definition sameStr (a b : str) : bool := isPrefix a b && isPrefix b a.

(** The functions of [Object.prototype] that start by converting [this],
    which is [null] here, to an object, and its accessor [__proto__], whose
    value has no [apply]: the call raises a TypeError. *)
Definition raisingMembers : list str :=
  [ lit "valueOf"; lit "toLocaleString"; lit "hasOwnProperty";
    lit "propertyIsEnumerable"; lit "__defineGetter__"; lit "__defineSetter__";
    lit "__lookupGetter__"; lit "__lookupSetter__"; lit "__proto__" ].

(** [Object.prototype[name].apply(null, params)], for the names
    [Object.prototype] has: [toString] answers for [null], [constructor]
    makes an object of its argument, [isPrototypeOf] answers [false] unless
    its argument is an object. *)
Definition objectPrototype (name : str) (params : list (value other))
  : option (completion other (value other)) :=
  if sameStr name (lit "toString")
  then Some (Returns (VString (lit "[object Null]")))
  else if sameStr name (lit "constructor")
  then Some (Returns (VCustom OObject))
  else if sameStr name (lit "isPrototypeOf")
  then Some (match params with
             | VCustom OObject :: _ => Raises EngineTypeError
             | _ => Returns (VCustom OFalse)
             end)
  else if existsb (sameStr name) raisingMembers
  then Some (Raises EngineTypeError)
  else None.

Definition member : Type :=
  list (value other) -> completion other (value other).

(** The own property [name] of an object with the properties [own], of
    which a later one replaces an earlier one of the same name. *)
Fixpoint ownMember (own : list (str * member)) (name : str) : option member :=
  match own with
  | [] => None
  | (k, f) :: rest =>
      match ownMember rest name with
      | Some g => Some g
      | None => if sameStr k name then Some f else None
      end
  end.

Definition isSome {A : Type} (o : option A) : bool :=
  match o with Some _ => true | None => false end.

(** The object with the own properties [own], each a function, that
    inherits from [Object.prototype]. *)
Definition plainObject (own : list (str * member)) : Executor other :=
  {| has := fun name =>
       isSome (ownMember own name) || isSome (objectPrototype name []);
     call := fun name params =>
       match ownMember own name with
       | Some f => f params
       | None =>
           match objectPrototype name params with
           | Some r => r
           | None => Raises EngineTypeError   (* [undefined] has no [apply] *)
           end
       end |}.

(** ** Plain argument lists

    The texts of the form [KEYMAP(] a{_1} [,] ... [,] a{_k} [)] whose
    arguments are plain words surrounded by white space, and the nodes the
    parser builds for them. *)

(** Characters on which the loop of [main] only advances [pos]. *)
Definition inert (c : char) : bool :=
  negb ((c =? c_comma) || (c =? c_lparen) || (c =? c_rparen)
        || (c =? c_slash) || (c =? c_bslash))%N.

(** Characters of a plain word: neither white nor one of [, ( ) / * \]. *)
Definition plainChar (c : char) : bool :=
  negb (isWhite c) && inert c && negb (c =? c_star)%N.

Definition plainWord (w : str) : bool :=
  negb (isEmpty w) && forallb plainChar w.

Record item : Type := { lead : str; word : str; trail : str }.

Definition bare (w : str) : item := {| lead := []; word := w; trail := [] |}.

Definition wfItem (it : item) : bool :=
  forallb isWhite (lead it) && plainWord (word it) && forallb isWhite (trail it).

Definition itemText (it : item) : str := lead it ++ word it ++ trail it.

Definition argsText (items : list item) : str :=
  join [c_comma] (map itemText items).

(** The Word nodes of the arguments [items] when the first one starts at
    [base]. *)
Fixpoint wordsAt (base : nat) (items : list item) : list AstNode :=
  match items with
  | [] => []
  | it :: rest =>
      AstWord (word it) (base + length (lead it)) (base + length (itemText it))
        :: wordsAt (base + length (itemText it) + 1) rest
  end.

Definition noParen (s : str) : bool :=
  forallb (fun c => negb (c =? c_lparen)%N) s.

(** Whether [char + next] is one of the three cases of the first switch. *)
Definition triggers (c : char) (next : option char) : bool :=
  match next with
  | None => false
  | Some nx =>
      ((c =? c_bslash) && (nx =? c_nl)
       || (c =? c_slash) && (nx =? c_star)
       || (c =? c_slash) && (nx =? c_slash))%N
  end.

(** ** The span of a Word

    The content of a Word is the text at its offset, and only white space
    separates it from the delimiter at its end. *)
Definition wordSpan (t : str) (x : AstNode) : Prop :=
  match x with
  | AstWord c o e =>
      c <> [] /\ existsb isWhite c = false /\ o + length c <= e /\
      slice t o (o + length c) = c /\
      forallb isWhite (slice t (o + length c) e) = true
  | AstFunction _ _ _ _ _ => True
  end.

(** ** Texts with a common prefix *)

(** [t1] and [t2] have the same first [q] characters. *)
Definition agree (q : nat) (t1 t2 : str) : Prop :=
  firstn q t1 = firstn q t2 /\ q <= length t1 /\ q <= length t2.

(** ** Nodes moved with the text

    When the text from [b1] on is moved to [b2], the nodes that lie in it
    keep their content and have their positions moved likewise. *)

Definition shiftPos (b1 b2 x : nat) : nat := x - b1 + b2.

Fixpoint shiftNode (b1 b2 : nat) (n : AstNode) : AstNode :=
  match n with
  | AstWord c o e => AstWord c (shiftPos b1 b2 o) (shiftPos b1 b2 e)
  | AstFunction fn ps o e c =>
      AstFunction fn (map (shiftNode b1 b2) ps)
        (shiftPos b1 b2 o) (shiftPos b1 b2 e) c
  end.

Definition shiftFrame (b1 b2 : nat) (arr2 : list AstNode) (f : frame) : frame :=
  {| start := shiftPos b1 b2 (start f); arr := arr2; lastToken := lastToken f |}.

Definition shiftShared (b1 b2 : nat) (g : shared) : shared :=
  {| pos := shiftPos b1 b2 (pos g); pcount := pcount g |}.

(** ** Sample texts *)

Definition sampleItems : list item :=
  [ {| lead := []; word := lit "KC_A"; trail := [c_space] |};
    {| lead := [c_space]; word := lit "KC_B"; trail := [] |} ].

(** The table [{LT: () => ""}] and the empty table [{}]. *)
Definition sampleExecutor : Executor other :=
  plainObject [(lit "LT", fun _ => Returns (VString []))].

Definition emptyTable : Executor other := plainObject [].

(** ** Errors by origin *)

(** The position an error message reports, when it reports one. *)
Definition errorPos (e : error) : option nat :=
  match e with
  | MissingToken p | WhitespacesNotAllowed p
  | FunctionNameRequired p | FunctionNameSpaces p => Some p
  | _ => None
  end.

(** The errors that arise inside [main]. *)
Definition fromMain (e : error) : bool :=
  match e with
  | MissingToken _ | WhitespacesNotAllowed _
  | FunctionNameRequired _ | FunctionNameSpaces _ | TypeError => true
  | _ => false
  end.

(** ** The shape of the nodes of a text *)

(** Siblings in text order: each node has a non-empty span, and ends before
    the next one starts. *)
Fixpoint ordered (l : list AstNode) : Prop :=
  match l with
  | [] => True
  | x :: l' =>
      node_offset x < node_end x /\
      match l' with
      | [] => True
      | y :: _ => node_end x <= node_offset y
      end /\
      ordered l'
  end.

(** How a node lies in the text [t].  A Word is found at its offset, is
    followed by white space up to its end, and ends on the delimiter that
    flushed it.  A Function has its name at its offset, white space up to
    the opening parenthesis, its parameters in order behind it, and the text
    from its offset to its end as content. *)
Fixpoint nodeSpan (t : str) (x : AstNode) : Prop :=
  match x with
  | AstWord c o e =>
      wordSpan t (AstWord c o e) /\ e < length t /\
      In (nth e t 0%N) [c_comma; c_rparen; c_slash]
  | AstFunction fn ps o e c =>
      fn <> [] /\ existsb isWhite fn = false /\
      slice t o (o + length fn) = fn /\
      (exists q, o + length fn <= q /\
         forallb isWhite (slice t (o + length fn) q) = true /\
         nth_error t q = Some c_lparen /\
         forall p, In p ps -> q < node_offset p) /\
      c = slice t o e /\ e <= length t /\
      (exists l, last (map Some ps) None = Some l /\ e = node_end l + 1) /\
      ordered ps /\
      (fix all (l : list AstNode) : Prop :=
         match l with
         | [] => True
         | p :: l' => nodeSpan t p /\ all l'
         end) ps
  end.

(** Layers in text order: between the nodes of one invocation and those of
    the next lies the marker of the latter. *)
Fixpoint layersOrdered (ls : KeymapParseResult) : Prop :=
  match ls with
  | [] => True
  | la :: ls' =>
      match ls' with
      | [] => True
      | lb :: _ =>
          forall x y, In x la -> In y lb -> node_end x + 7 < node_offset y
      end /\
      layersOrdered ls'
  end.

(** ** Runs of the loop, whatever the budget *)

(** The loop of [main], started in the state [(f, g)], ends with [R]. *)
Definition yields (expr : str) (f : frame) (g : shared)
    (R : outcome (list AstNode * shared)) : Prop :=
  R <> Fuel /\ exists n, main_loop expr n f g = R.

(** From [(f, g)] the loop comes to [(f', g')], from where it goes on as it
    would when started there. *)
Definition reaches (expr : str) (f : frame) (g : shared)
    (f' : frame) (g' : shared) : Prop :=
  forall R, yields expr f' g' R -> yields expr f g R.

(** ** Well-formed sources

    The texts made of invocations whose arguments are plain words and calls
    of plain names, nested at will, with comments and line continuations
    before the arguments and comments behind the words, and the nodes these
    texts stand for. *)

(** What may stand before an argument: white space and a block comment;
    white space, a line comment, its newline and the character after it;
    text that ends with a backslash and a newline. *)
Inductive gap : Type :=
| GBlock (w body : str)
| GLine (w body : str) (x : char)
| GCont (junk : str).

Definition gapText (g : gap) : str :=
  match g with
  | GBlock w body => w ++ c_slash :: c_star :: body ++ [c_star; c_slash]
  | GLine w body x => w ++ c_slash :: c_slash :: body ++ [c_nl; x]
  | GCont junk => junk ++ [c_bslash; c_nl]
  end.

(** No [*/] begins in [s]. *)
Fixpoint noClose (s : str) : bool :=
  match s with
  | [] => true
  | c :: s' =>
      match s' with
      | [] => true
      | nx :: _ => negb ((c =? c_star) && (nx =? c_slash))%N && noClose s'
      end
  end.

Definition wfGap (g : gap) : bool :=
  match g with
  | GBlock w body => forallb isWhite w && noClose (c_star :: body ++ [c_star])
  | GLine w body _ =>
      forallb isWhite w && forallb (fun c => negb (c =? c_nl)%N) body
  | GCont junk => forallb inert junk
  end.

Definition gapsText (gs : list gap) : str := concat (map gapText gs).

(** The text of a gap before its comment or continuation, and whether the
    gap is a comment. *)
Definition gapLead (g : gap) : str :=
  match g with
  | GBlock w _ => w
  | GLine w _ _ => w
  | GCont junk => junk
  end.

Definition isComment (g : gap) : bool :=
  match g with
  | GCont _ => false
  | _ => true
  end.

(** An argument is a word, a word with comments behind it, or a call. *)
Inductive arg : Type :=
| AWord (gaps : list gap) (it : item)
| ATrail (gaps : list gap) (it : item) (first : gap) (more : list gap)
    (tail : str)
| ACall (gaps : list gap) (lead name : str) (args : list arg) (trail : str).

Fixpoint argText (a : arg) : str :=
  match a with
  | AWord gs it => gapsText gs ++ itemText it
  | ATrail gs it first more tl =>
      gapsText gs ++ itemText it ++ gapText first ++ gapsText more ++ tl
  | ACall gs l nm args tr =>
      gapsText gs ++ l ++ nm
        ++ c_lparen :: join [c_comma] (map argText args) ++ c_rparen :: tr
  end.

Definition treeText (args : list arg) : str :=
  join [c_comma] (map argText args).

(** An argument is tight when its node ends where its text ends: a word
    with no comment behind it, a call with its closing parenthesis as last
    character. *)
Definition tight (a : arg) : bool :=
  match a with
  | AWord _ _ => true
  | ATrail _ _ _ _ _ => false
  | ACall _ _ _ _ tr => isEmpty tr
  end.

Fixpoint lastTight (args : list arg) : bool :=
  match args with
  | [] => true
  | a :: r => match r with [] => tight a | _ :: _ => lastTight r end
  end.

Definition nonEmpty {A : Type} (l : list A) : bool :=
  match l with [] => false | _ :: _ => true end.

Fixpoint wfArg (a : arg) : bool :=
  match a with
  | AWord gs it => forallb wfGap gs && wfItem it
  | ATrail gs it first more tl =>
      forallb wfGap gs && wfItem it && isComment first && wfGap first
      && forallb wfGap more && forallb isWhite tl
  | ACall gs l nm args tr =>
      forallb wfGap gs && forallb isWhite l && plainWord nm
      && nonEmpty args && forallb wfArg args && lastTight args
      && forallb isWhite tr
  end.

(** The node of the argument [a] whose text starts at [base]. *)
Fixpoint nodeAt (base : nat) (a : arg) : AstNode :=
  match a with
  | AWord gs it =>
      let b := base + length (gapsText gs) in
      AstWord (word it) (b + length (lead it)) (b + length (itemText it))
  | ATrail gs it first _ _ =>
      let b := base + length (gapsText gs) in
      AstWord (word it) (b + length (lead it))
        (b + length (itemText it) + length (gapLead first))
  | ACall gs l nm args tr =>
      let o := base + length (gapsText gs) + length l in
      let inner := join [c_comma] (map argText args) in
      AstFunction nm
        ((fix go (b : nat) (l : list arg) : list AstNode :=
            match l with
            | [] => []
            | x :: l' => nodeAt b x :: go (b + length (argText x) + 1) l'
            end) (o + length nm + 1) args)
        o (o + length nm + 1 + length inner + 1)
        (nm ++ c_lparen :: inner ++ [c_rparen])
  end.

Fixpoint nodesAt (base : nat) (args : list arg) : list AstNode :=
  match args with
  | [] => []
  | a :: r => nodeAt base a :: nodesAt (base + length (argText a) + 1) r
  end.

(** The arguments, each followed by a comma. *)
Definition prefixText (args : list arg) : str :=
  concat (map (fun a => argText a ++ [c_comma]) args).

Record invocation : Type := { before : str; arguments : list arg }.

Definition invocationText (i : invocation) : str :=
  before i ++ marker ++ treeText (arguments i) ++ [c_rparen].

Definition wfInvocation (i : invocation) : bool :=
  noParen (before i) && nonEmpty (arguments i) && forallb wfArg (arguments i).

Definition sourceText (invs : list invocation) (post : str) : str :=
  concat (map invocationText invs) ++ post.

Fixpoint layersAt (base : nat) (invs : list invocation) : KeymapParseResult :=
  match invs with
  | [] => []
  | i :: r =>
      nodesAt (base + length (before i) + 7) (arguments i)
        :: layersAt (base + length (invocationText i)) r
  end.

(** The frame of [main] once the node [x] of an argument is flushed and the
    next argument starts at [b]. *)
Definition flushed (f : frame) (b : nat) (x : AstNode) : frame :=
  {| start := b; arr := arr f ++ [x];
     lastToken := Z.of_nat (length (arr f) + 1) |}.

(** How the loop of [main] runs over the argument [a], when the argument
    starts where the loop stands and a comma or a closing parenthesis
    follows it. *)
Definition argRuns (expr : str) (a : arg) : Prop :=
  forall r f g,
    wfArg a = true -> start f = pos g ->
    (lastToken f <= Z.of_nat (length (arr f)))%Z ->
    (skipn (pos g) expr = argText a ++ c_comma :: r ->
     reaches expr f g
       (flushed f (pos g + length (argText a) + 1) (nodeAt (pos g) a))
       (set_pos g (pos g + length (argText a) + 1))) /\
    (skipn (pos g) expr = argText a ++ c_rparen :: r ->
     yields expr f g
       (Done (arr f ++ [nodeAt (pos g) a],
              {| pos := pos g + length (argText a) + 1;
                 pcount := pcount g - 1 |}))).

(** ** Tokens without delimiters *)

(** The characters that end an argument or open a call. *)
Definition isDelim (c : char) : bool :=
  ((c =? c_comma) || (c =? c_lparen) || (c =? c_rparen))%N.

Definition tokenChar (c : char) : bool := negb (isDelim c || isWhite c).

(** No Word and no name of a Function of the node, at any depth, holds a
    delimiter or a white character. *)
Fixpoint cleanNode (x : AstNode) : bool :=
  match x with
  | AstWord c _ _ => forallb tokenChar c
  | AstFunction fn ps _ _ _ => forallb tokenChar fn && forallb cleanNode ps
  end.

(** ** The key at a place *)

(** [keymapParsed[layer][key]], when the layer exists. *)
Definition keyAt (layers : KeymapParseResult) (L K : Z) : option AstNode :=
  match index layers L with
  | Some l => index l K
  | None => None
  end.

(** ** The names a node calls *)

Fixpoint funcNames (n : AstNode) : list str :=
  match n with
  | AstWord _ _ _ => []
  | AstFunction fn ps _ _ _ => fn :: concat (map funcNames ps)
  end.

(** ** Nodes a word can take the place of *)

(** A Call ends at its closing parenthesis when that parenthesis stands
    right at the end of its last parameter: a Word ends on its delimiter, a
    Call that ends at its own closing parenthesis ends just behind it. *)
Fixpoint closed (t : str) (x : AstNode) : bool :=
  match x with
  | AstWord _ _ _ => true
  | AstFunction _ ps _ _ _ =>
      (fix lastClosed (l : list AstNode) : bool :=
         match l with
         | [] => false
         | p :: l' =>
             match l' with
             | [] =>
                 closed t p
                 && match nth_error t (node_end p) with
                    | Some c => (c =? c_rparen)%N
                    | None => false
                    end
             | _ :: _ => lastClosed l'
             end
         end) ps
  end.

(** The first position from [e] on that holds no white character. *)
Definition flushPoint (t : str) (e : nat) : nat :=
  e + length (takeWhile isWhite (skipn e t)).

(** At [d] stands a comma, a closing parenthesis or the start of a
    comment. *)
Definition flushesAt (t : str) (d : nat) : bool :=
  match nth_error t d with
  | Some c =>
      ((c =? c_comma) || (c =? c_rparen)
       || (c =? c_slash)
          && match nth_error t (d + 1) with
             | Some nx => (nx =? c_star) || (nx =? c_slash)
             | None => false
             end)%N
  | None => false
  end.

(** The keys a plain word can take the place of: every Word, and the Calls
    that end at their closing parenthesis and have only white space between
    that parenthesis and the next comma, closing parenthesis or comment. *)
Definition settable (t : str) (x : AstNode) : bool :=
  match x with
  | AstWord _ _ _ => true
  | AstFunction _ _ _ e _ => closed t x && flushesAt t (flushPoint t e)
  end.

(** The two comment cases of the first switch. *)
Definition skim (nx : char) : str -> nat -> nat * bool :=
  if (nx =? c_star)%N then blockComment else lineComment.

(** ** Sample sources *)

Definition sampleCall : arg :=
  ACall [] [c_space] (lit "LT")
    [AWord [] (bare (lit "1"));
     AWord [] {| lead := [c_space]; word := lit "KC_B"; trail := [] |}]
    [c_nl].

(** Two invocations of two arguments each, with a block comment, a call, a
    line comment, a line continuation and a comment behind a word. *)
Definition sampleSource : list invocation :=
  [ {| before := lit "x = ";
       arguments := [AWord [GBlock [] (lit " c ")] (bare (lit "KC_A"));
                     sampleCall] |};
    {| before := lit ", ";
       arguments := [AWord [GLine [] (lit " n") c_space] (bare (lit "KC_C"));
                     ATrail [GCont [c_space]] (bare (lit "KC_D"))
                       (GBlock [c_space] (lit "d")) [] [c_nl]] |} ].

Definition sampleHead : list arg := [AWord [] (bare (lit "KC_A")); sampleCall].

(** * Properties *)

(** ** Outcomes and basic string facts *)

Lemma bind_Done {A B : Type} (m : outcome A) (k : A -> outcome B) (b : B) :
  bind m k = Done b -> exists a, m = Done a /\ k a = Done b.
Proof. destruct m; simpl; intros H; try discriminate; eauto. Qed.

Lemma bind_not_Fuel {A B : Type} (m : outcome A) (k : A -> outcome B) :
  m <> Fuel -> (forall a, m = Done a -> k a <> Fuel) -> bind m k <> Fuel.
Proof. destruct m; simpl; intros H1 H2; auto; discriminate. Qed.

Ltac bind_inv H :=
  let a := fresh "a" in
  let Ha := fresh "Hm" in
  apply bind_Done in H; destruct H as (a & Ha & H).

Lemma blockComment_pos rest : forall p q b,
  blockComment rest p = (q, b) -> p <= q.
Proof.
  induction rest as [|c rest IH]; intros p q b H; simpl in H.
  - inversion H; lia.
  - destruct rest as [|nx rest'].
    + simpl in H. inversion H; lia.
    + destruct ((c =? c_star)%N && (nx =? c_slash)%N).
      * inversion H; lia.
      * apply IH in H. lia.
Qed.

Lemma lineComment_pos rest : forall p q b,
  lineComment rest p = (q, b) -> p <= q.
Proof.
  induction rest as [|c rest IH]; intros p q b H; simpl in H.
  - inversion H; lia.
  - destruct (c =? c_nl)%N.
    + inversion H; lia.
    + apply IH in H. lia.
Qed.

Lemma isPrefix_app needle hay :
  isPrefix needle hay = true <-> exists rest, hay = needle ++ rest.
Proof.
  revert hay. induction needle as [|a needle IH]; intros hay; simpl.
  - split; eauto.
  - destruct hay as [|b hay].
    + split; [discriminate|]. intros [r H]; discriminate.
    + rewrite andb_true_iff, N.eqb_eq, IH. split.
      * intros [-> [r ->]]. eauto.
      * intros [r H]. inversion H; subst. eauto.
Qed.

Lemma isPrefix_length needle hay :
  isPrefix needle hay = true -> length needle <= length hay.
Proof.
  intros H. apply isPrefix_app in H. destruct H as [r ->].
  rewrite length_app. lia.
Qed.

(** [indexOfFrom] returns the first position at which the needle occurs. *)
Lemma indexOfFrom_Some needle hay : forall i j,
  indexOfFrom needle hay i = Some j <->
  exists k, j = i + k /\ isPrefix needle (skipn k hay) = true /\
            forall k', k' < k -> isPrefix needle (skipn k' hay) = false.
Proof.
  induction hay as [|b hay IH]; intros i j.
  - simpl. destruct (isPrefix needle []) eqn:E.
    + split.
      * intros H; inversion H; subst. exists 0. rewrite Nat.add_0_r.
        repeat split; auto. intros k' Hk; lia.
      * intros (k & -> & H1 & H2). destruct k; [f_equal; lia|].
        specialize (H2 0 ltac:(lia)). simpl in H2. congruence.
    + split; [discriminate|]. intros (k & -> & H1 & H2).
      rewrite skipn_nil in H1. congruence.
  - cbn [indexOfFrom]. destruct (isPrefix needle (b :: hay)) eqn:E.
    + split.
      * intros H; inversion H; subst. exists 0. rewrite Nat.add_0_r.
        repeat split; auto. intros k' Hk; lia.
      * intros (k & -> & H1 & H2). destruct k; [f_equal; lia|].
        specialize (H2 0 ltac:(lia)). simpl in H2. congruence.
    + rewrite IH. split.
      * intros (k & -> & H1 & H2). exists (S k).
        split; [lia|]. split; [exact H1|].
        intros [|k'] Hk; [exact E|]. apply H2. lia.
      * intros (k & -> & H1 & H2). destruct k as [|k]; [simpl in H1; congruence|].
        exists k. split; [lia|]. split; [exact H1|].
        intros k' Hk. apply (H2 (S k')). lia.
Qed.

Lemma indexOfFrom_None needle hay : forall i,
  indexOfFrom needle hay i = None <->
  forall k, isPrefix needle (skipn k hay) = false.
Proof.
  induction hay as [|b hay IH]; intros i.
  - simpl. destruct (isPrefix needle []) eqn:E.
    + split; [discriminate|]. intros H. specialize (H 0). simpl in H. congruence.
    + split; auto. intros _ k. rewrite skipn_nil. auto.
  - cbn [indexOfFrom]. destruct (isPrefix needle (b :: hay)) eqn:E.
    + split; [discriminate|]. intros H. specialize (H 0). simpl in H. congruence.
    + rewrite IH. split.
      * intros H [|k]; auto. apply H.
      * intros H k. apply (H (S k)).
Qed.

Lemma indexOf_Some needle hay p j :
  indexOf needle hay p = Some j <->
  p <= j /\ isPrefix needle (skipn j hay) = true /\
  forall j', p <= j' < j -> isPrefix needle (skipn j' hay) = false.
Proof.
  unfold indexOf. rewrite indexOfFrom_Some. split.
  - intros (k & -> & H1 & H2). rewrite skipn_skipn in H1.
    replace (p + k) with (k + p) by lia.
    split; [lia|]. split; [exact H1|].
    intros j' Hj. specialize (H2 (j' - p)). rewrite skipn_skipn in H2.
    replace (j' - p + p) with j' in H2 by lia. apply H2. lia.
  - intros (Hp & H1 & H2). exists (j - p). rewrite skipn_skipn.
    replace (j - p + p) with j by lia.
    split; [lia|]. split; [exact H1|].
    intros k' Hk. rewrite skipn_skipn. apply H2. lia.
Qed.

Lemma indexOf_None needle hay p :
  indexOf needle hay p = None <->
  forall j, p <= j -> isPrefix needle (skipn j hay) = false.
Proof.
  unfold indexOf. rewrite indexOfFrom_None. split.
  - intros H j Hj. specialize (H (j - p)). rewrite skipn_skipn in H.
    replace (j - p + p) with j in H by lia. auto.
  - intros H k. rewrite skipn_skipn. apply H. lia.
Qed.

Section ParseFacts.

Variable expr : str.

Lemma addWord_Done f e f' :
  addWord expr f e = Done f' ->
  start f' = start f /\ lastToken f' = lastToken f.
Proof.
  unfold addWord. destruct (e <=? start f).
  - intros H; inversion H; auto.
  - destruct (tokenWithoutSpaces _) as [o t].
    destruct (isEmpty t); [intros H; inversion H; auto|].
    destruct (existsb isWhite t); [discriminate|].
    intros H; inversion H; auto.
Qed.

Lemma firstSwitch_Done c nx f g f' g' :
  firstSwitch expr c nx f g = Done (f', g') ->
  pos g <= pos g' /\ pcount g' = pcount g.
Proof.
  unfold firstSwitch. destruct nx as [nx|]; [|intros H; inversion H; auto].
  destruct ((c =? c_bslash)%N && (nx =? c_nl)%N).
  { intros H; inversion H; simpl; split; [lia|auto]. }
  destruct ((c =? c_slash)%N && (nx =? c_star)%N).
  { intros H. bind_inv H.
    destruct (blockComment _ _) as [p b] eqn:E. apply blockComment_pos in E.
    inversion H; simpl; auto. }
  destruct ((c =? c_slash)%N && (nx =? c_slash)%N).
  { intros H. bind_inv H.
    destruct (lineComment _ _) as [p b] eqn:E. apply lineComment_pos in E.
    inversion H; simpl; auto. }
  intros H; inversion H; auto.
Qed.

Lemma ensureTokenExists_Done f g f' :
  ensureTokenExists f g = Done f' ->
  start f' = start f /\ arr f' = arr f /\ arr f <> [] /\
  lastToken f' = Z.of_nat (length (arr f)).
Proof.
  unfold ensureTokenExists.
  destruct (lastToken f =? _)%Z; simpl; [discriminate|].
  destruct (length (arr f) =? 0) eqn:E; [discriminate|].
  intros H; inversion H; simpl. repeat split; auto.
  intros E'. rewrite E' in E. discriminate.
Qed.

(** One activation of [main] moves [pos] forward only and lowers [pcount]
    by at most one; it lowers it only by consuming a closing parenthesis. *)
Lemma main_loop_mono n : forall f g a g',
  main_loop expr n f g = Done (a, g') ->
  pos g <= pos g' /\ (pcount g - 1 <= pcount g')%Z /\
  ((pcount g' = pcount g - 1)%Z -> pos g < pos g').
Proof.
  induction n as [|n IH]; intros f g a g' H; simpl in H.
  - destruct (length expr <=? pos g); [|discriminate].
    inversion H; subst. repeat split; lia.
  - destruct (length expr <=? pos g).
    { inversion H; subst. repeat split; lia. }
    unfold loop_body in H.
    bind_inv H. destruct a0 as [f1 g1].
    apply firstSwitch_Done in Hm. simpl in Hm. destruct Hm as [Hp Hc].
    destruct (_ =? c_space)%N.
    { apply IH in H. lia. }
    destruct (_ =? c_comma)%N.
    { bind_inv H. bind_inv H. apply IH in H. lia. }
    destruct (_ =? c_lparen)%N.
    { bind_inv H. destruct a0 as [f2 g2].
      unfold addFunc in Hm.
      destruct (_ <=? _); [discriminate|].
      destruct (tokenWithoutSpaces _) as [o t].
      destruct (isEmpty t); [discriminate|].
      destruct (existsb isWhite t); [discriminate|].
      bind_inv Hm. destruct a0 as [ps g3].
      destruct (last _ _); [|discriminate]. inversion Hm; subst.
      apply IH in Hm0. apply IH in H. simpl in H. lia. }
    destruct (_ =? c_rparen)%N.
    { bind_inv H. bind_inv H. inversion H; subst. simpl. lia. }
    apply IH in H. lia.
Qed.

Lemma addWord_not_Fuel f e : addWord expr f e <> Fuel.
Proof.
  unfold addWord. destruct (e <=? start f); [discriminate|].
  destruct (tokenWithoutSpaces _) as [o t].
  destruct (isEmpty t); [discriminate|].
  destruct (existsb isWhite t); discriminate.
Qed.

Lemma ensureTokenExists_not_Fuel f g : ensureTokenExists f g <> Fuel.
Proof. unfold ensureTokenExists. destruct (_ || _)%bool; discriminate. Qed.

Lemma firstSwitch_not_Fuel c nx f g : firstSwitch expr c nx f g <> Fuel.
Proof.
  unfold firstSwitch. destruct nx as [nx|]; [|discriminate].
  destruct (_ && _); [discriminate|].
  destruct (_ && _).
  { apply bind_not_Fuel; [apply addWord_not_Fuel|].
    intros a _. destruct (blockComment _ _). discriminate. }
  destruct (_ && _); [|discriminate].
  apply bind_not_Fuel; [apply addWord_not_Fuel|].
  intros a _. destruct (lineComment _ _). discriminate.
Qed.

Lemma addFunc_Done rec f g e f' g' :
  addFunc expr rec f g e = Done (f', g') ->
  exists o t ps l,
    start f < e /\
    tokenWithoutSpaces (slice expr (start f) e) = (o, t) /\
    t <> [] /\ existsb isWhite t = false /\
    rec (e + 1) g = Done (ps, g') /\
    last (map Some ps) None = Some l /\
    f' = push f (AstFunction t ps (start f + o) (node_end l + 1)
                   (slice expr (start f + o) (node_end l + 1))).
Proof.
  unfold addFunc. destruct (e <=? start f) eqn:E; [discriminate|].
  apply Nat.leb_gt in E.
  destruct (tokenWithoutSpaces _) as [o t].
  destruct t as [|c t]; [discriminate|]. simpl isEmpty. cbv iota.
  destruct (existsb isWhite (c :: t)) eqn:W; [discriminate|].
  intros H. bind_inv H. destruct a as [ps g3].
  destruct (last _ _) as [l|] eqn:L; [|discriminate]. inversion H; subst.
  exists o, (c :: t), ps, l. repeat split; auto. discriminate.
Qed.

Lemma addFunc_not_Fuel rec f g e :
  (forall s, rec s g <> Fuel) -> addFunc expr rec f g e <> Fuel.
Proof.
  intros Hrec. unfold addFunc. destruct (e <=? start f); [discriminate|].
  destruct (tokenWithoutSpaces _) as [o t].
  destruct (isEmpty t); [discriminate|].
  destruct (existsb isWhite t); [discriminate|].
  apply bind_not_Fuel; [apply Hrec|].
  intros [ps g3] _. destruct (last _ _); discriminate.
Qed.

(** The budget [length expr - pos] is enough: the loop is never cut. *)
Lemma main_loop_total n : forall f g,
  length expr <= pos g + n -> main_loop expr n f g <> Fuel.
Proof.
  induction n as [|n IH]; intros f g Hn; simpl.
  - destruct (length expr <=? pos g) eqn:E; [discriminate|].
    apply Nat.leb_gt in E. lia.
  - destruct (length expr <=? pos g) eqn:E; [discriminate|].
    unfold loop_body.
    apply bind_not_Fuel; [apply firstSwitch_not_Fuel|].
    intros [f1 g1] H1. apply firstSwitch_Done in H1. simpl in H1.
    destruct H1 as [Hp _].
    destruct (_ =? c_space)%N; [apply IH; lia|].
    destruct (_ =? c_comma)%N.
    { apply bind_not_Fuel; [apply addWord_not_Fuel|]. intros f2 _.
      apply bind_not_Fuel; [apply ensureTokenExists_not_Fuel|]. intros f3 _.
      apply IH. simpl. lia. }
    destruct (_ =? c_lparen)%N.
    { apply bind_not_Fuel.
      - apply addFunc_not_Fuel. intros s. apply IH. lia.
      - intros [f2 g2] H2. apply addFunc_Done in H2.
        destruct H2 as (o & t & ps & l & _ & _ & _ & _ & H2 & _).
        apply main_loop_mono in H2. apply IH. simpl. lia. }
    destruct (_ =? c_rparen)%N.
    { apply bind_not_Fuel; [apply addWord_not_Fuel|]. intros f2 _.
      apply bind_not_Fuel; [apply ensureTokenExists_not_Fuel|]. intros f3 _.
      discriminate. }
    apply IH. lia.
Qed.

(** A run that is not cut does not depend on the budget. *)
Lemma main_loop_fuel n : forall m f g,
  n <= m -> main_loop expr n f g <> Fuel ->
  main_loop expr m f g = main_loop expr n f g.
Proof.
  induction n as [|n IH]; intros m f g Hm H; simpl in *.
  - destruct m; simpl; destruct (length expr <=? pos g); auto; contradiction.
  - destruct m as [|m]; [lia|]. simpl.
    destruct (length expr <=? pos g); auto.
    unfold loop_body in *.
    destruct (firstSwitch _ _ _ _ _) as [[f1 g1]| |]; simpl in *; auto.
    destruct (_ =? c_space)%N; [apply IH; auto; lia|].
    destruct (_ =? c_comma)%N.
    { destruct (addWord _ _ _); simpl in *; auto.
      destruct (ensureTokenExists _ _); simpl in *; auto.
      apply IH; auto; lia. }
    destruct (_ =? c_lparen)%N.
    { unfold addFunc in *. destruct (_ <=? _); auto.
      destruct (tokenWithoutSpaces _) as [o t].
      destruct (isEmpty t); auto.
      destruct (existsb isWhite t); auto.
      destruct (main_loop expr n _ g1) as [[ps g2]| |] eqn:E.
      - rewrite (IH m) by (try lia; congruence). rewrite E. simpl in *.
        destruct (last _ _); simpl in *; auto.
        apply IH; auto; lia.
      - rewrite (IH m) by (try lia; congruence). rewrite E. reflexivity.
      - simpl in H. contradiction. }
    destruct (_ =? c_rparen)%N; auto.
    apply IH; auto; lia.
Qed.

Lemma main_loop_enough n f g r :
  main_loop expr n f g = Done r ->
  main_loop expr (length expr) f g = Done r.
Proof.
  intros H. destruct (Nat.le_ge_cases n (length expr)) as [L|L].
  - rewrite (main_loop_fuel n (length expr) f g L); congruence.
  - rewrite <- (main_loop_fuel (length expr) n f g L); auto.
    apply main_loop_total. lia.
Qed.

Lemma indexOf_marker_bound p i :
  indexOf marker expr p = Some i -> p <= i /\ i + 7 <= length expr.
Proof.
  intros H. apply indexOf_Some in H. destruct H as (Hp & H & _).
  split; auto. apply isPrefix_length in H. rewrite length_skipn in H.
  change (length marker) with 7 in H. lia.
Qed.

Lemma scan_total n : forall p kms,
  length expr <= p + n -> scan expr n p kms <> Fuel.
Proof.
  induction n as [|n IH]; intros p kms Hn; simpl.
  - destruct (indexOf marker expr p) as [i|] eqn:E; [|discriminate].
    apply indexOf_marker_bound in E. lia.
  - destruct (indexOf marker expr p) as [i|] eqn:E; [|discriminate].
    apply indexOf_marker_bound in E.
    apply bind_not_Fuel.
    + apply main_loop_total. lia.
    + intros [km g] H. apply main_loop_mono in H. simpl in H.
      destruct (pcount g =? 0)%Z; [|discriminate].
      apply IH. lia.
Qed.

Lemma validate_not_Fuel kms kc : validate kms kc <> Fuel.
Proof.
  unfold validate. destruct kms as [|k0 kms]; [discriminate|].
  destruct (existsb _ _); [discriminate|].
  destruct kc as [kc|]; [|discriminate].
  destruct (negb _); discriminate.
Qed.

(** The parser terminates on every text: it returns or throws. *)
Lemma tryParseKeymapsText_total kc hack :
  tryParseKeymapsText expr kc hack <> Fuel.
Proof.
  unfold tryParseKeymapsText.
  apply bind_not_Fuel; [apply scan_total; lia|].
  intros [kms p] _.
  apply bind_not_Fuel; [apply validate_not_Fuel|].
  intros _ _. discriminate.
Qed.

Lemma validate_Done kms kc u :
  validate kms kc = Done u ->
  exists k0 rest, kms = k0 :: rest /\
    (forall t, In t kms -> length t = length k0) /\
    (forall k, kc = Some k -> Z.of_nat (length k0) = k).
Proof.
  unfold validate. destruct kms as [|k0 rest]; [discriminate|].
  destruct (existsb _ _) eqn:E; [discriminate|].
  intros H. exists k0, rest. split; auto. split.
  - intros t Ht.
    destruct (Nat.eq_dec (length t) (length k0)) as [|N]; auto.
    exfalso. assert (X : existsb (fun t => negb (length t =? length k0)) (k0 :: rest) = true).
    { apply existsb_exists. exists t. split; auto.
      apply negb_true_iff, Nat.eqb_neq; auto. }
    congruence.
  - intros k ->. destruct (Z.eqb_spec (Z.of_nat (length k0)) k); auto.
    simpl in H. discriminate.
Qed.

Lemma tryParseKeymapsText_Done kc hack kms endPos :
  tryParseKeymapsText expr kc hack = Done (kms, endPos) ->
  exists p, scan expr (length expr) 0 [] = Done (kms, p) /\
            validate kms kc = Done tt /\
            endPos = (if hack then Some p else None).
Proof.
  unfold tryParseKeymapsText. intros H. bind_inv H. destruct a as [kms' p].
  bind_inv H. destruct a. inversion H; subst. eauto.
Qed.

End ParseFacts.

(** ** Stepping the loop of [main] over plain text *)

Lemma skipn_cons_inv {A : Type} (d : A) (l : list A) : forall p c r,
  skipn p l = c :: r ->
  p < length l /\ nth p l d = c /\ skipn (p + 1) l = r.
Proof.
  induction l as [|a l IH]; intros p c r H.
  - rewrite skipn_nil in H. discriminate.
  - destruct p as [|p]; simpl in *.
    + inversion H; subst. repeat split; auto. lia.
    + apply IH in H. destruct H as (H1 & H2 & H3). repeat split; auto. lia.
Qed.

Lemma nth_error_skipn_hd {A : Type} (l : list A) : forall p,
  nth_error l p = hd_error (skipn p l).
Proof.
  induction l as [|a l IH]; intros [|p]; simpl; auto.
Qed.

Lemma skipn_app_inv {A : Type} (l : list A) : forall p w r,
  skipn p l = w ++ r ->
  skipn (p + length w) l = r /\ firstn (length w) (skipn p l) = w.
Proof.
  intros p w r H. split.
  - rewrite Nat.add_comm, <- skipn_skipn, H, skipn_app, skipn_all, Nat.sub_diag.
    reflexivity.
  - rewrite H, firstn_app, firstn_all, Nat.sub_diag. simpl. apply app_nil_r.
Qed.

Lemma skipn_app_length {A : Type} (a b : list A) n :
  n = length a -> skipn n (a ++ b) = b.
Proof.
  intros ->. rewrite skipn_app, skipn_all, Nat.sub_diag. reflexivity.
Qed.

Lemma slice_of_skipn (s : str) a w r :
  skipn a s = w ++ r -> slice s a (a + length w) = w.
Proof.
  intros H. unfold slice. replace (a + length w - a) with (length w) by lia.
  apply skipn_app_inv in H. tauto.
Qed.

Lemma isWhite_inert c : isWhite c = true -> inert c = true.
Proof.
  intros H. unfold inert.
  destruct (N.eqb_spec c c_comma) as [->|]; [vm_compute in H; discriminate|].
  destruct (N.eqb_spec c c_lparen) as [->|]; [vm_compute in H; discriminate|].
  destruct (N.eqb_spec c c_rparen) as [->|]; [vm_compute in H; discriminate|].
  destruct (N.eqb_spec c c_slash) as [->|]; [vm_compute in H; discriminate|].
  destruct (N.eqb_spec c c_bslash) as [->|]; [vm_compute in H; discriminate|].
  reflexivity.
Qed.

Lemma plainChar_inert c : plainChar c = true -> inert c = true.
Proof.
  unfold plainChar. rewrite !andb_true_iff. tauto.
Qed.

Lemma plainChar_notWhite c : plainChar c = true -> isWhite c = false.
Proof.
  unfold plainChar. rewrite !andb_true_iff, negb_true_iff. tauto.
Qed.

Lemma inert_neq c :
  inert c = true ->
  (c =? c_comma)%N = false /\ (c =? c_lparen)%N = false /\
  (c =? c_rparen)%N = false /\ (c =? c_slash)%N = false /\
  (c =? c_bslash)%N = false.
Proof.
  unfold inert. rewrite negb_true_iff, !orb_false_iff. tauto.
Qed.

Lemma takeWhile_app_stop p (l : str) c r :
  forallb p l = true -> p c = false -> takeWhile p (l ++ c :: r) = l.
Proof.
  induction l as [|a l IH]; simpl; intros Hl Hc.
  - rewrite Hc. reflexivity.
  - apply andb_true_iff in Hl. destruct Hl as [Ha Hl].
    rewrite Ha, IH; auto.
Qed.

Lemma forallb_rev {A : Type} (p : A -> bool) (l : list A) :
  forallb p (rev l) = forallb p l.
Proof.
  induction l as [|a l IH]; simpl; auto.
  rewrite forallb_app, IH. simpl. rewrite andb_true_r. apply andb_comm.
Qed.

Lemma existsb_forallb_neg {A : Type} (p : A -> bool) (l : list A) :
  forallb (fun x => negb (p x)) l = true -> existsb p l = false.
Proof.
  induction l as [|a l IH]; simpl; auto.
  rewrite andb_true_iff, negb_true_iff. intros [-> H]. simpl. auto.
Qed.

Lemma plainWord_facts w :
  plainWord w = true ->
  w <> [] /\ forallb inert w = true /\ existsb isWhite w = false /\
  (exists c r, w = c :: r /\ isWhite c = false) /\
  (exists r c, w = r ++ [c] /\ isWhite c = false).
Proof.
  unfold plainWord. rewrite andb_true_iff. intros [Hne Hall].
  assert (Hw : forall c, In c w -> plainChar c = true)
    by (apply forallb_forall; auto).
  split; [destruct w; [discriminate|congruence]|].
  split; [apply forallb_forall; intros c Hc; apply plainChar_inert; auto|].
  split.
  { apply existsb_forallb_neg, forallb_forall. intros c Hc.
    rewrite (plainChar_notWhite c); auto. }
  split.
  - destruct w as [|c r]; [discriminate|]. exists c, r. split; auto.
    apply plainChar_notWhite, Hw. left; auto.
  - destruct (exists_last (l:=w)) as (r & c & E); [destruct w; [discriminate|congruence]|].
    exists r, c. split; auto. apply plainChar_notWhite, Hw.
    rewrite E. apply in_or_app. right. left. auto.
Qed.

(** Trimming a plain word with white space around it gives the word back. *)
Lemma tokenWithoutSpaces_item it :
  wfItem it = true ->
  tokenWithoutSpaces (itemText it) = (length (lead it), word it).
Proof.
  unfold wfItem, itemText. rewrite !andb_true_iff. intros [[Hl Hw] Hr].
  apply plainWord_facts in Hw.
  destruct Hw as (_ & _ & _ & (c & r & E1 & Hc) & (r' & c' & E2 & Hc')).
  unfold tokenWithoutSpaces.
  assert (T1 : takeWhile isWhite (lead it ++ word it ++ trail it) = lead it).
  { rewrite E1. simpl. apply takeWhile_app_stop; auto. }
  assert (T2 : takeWhile isWhite (rev (lead it ++ word it ++ trail it)) = rev (trail it)).
  { rewrite !rev_app_distr, E2 at 1. rewrite rev_app_distr. simpl.
    rewrite <- !app_assoc. simpl.
    apply takeWhile_app_stop; auto. rewrite forallb_rev. auto. }
  rewrite T1, T2. f_equal. unfold slice.
  rewrite skipn_app, skipn_all, Nat.sub_diag. simpl.
  rewrite !length_app, length_rev.
  replace (length (lead it) + (length (word it) + length (trail it))
           - length (trail it) - length (lead it)) with (length (word it)) by lia.
  rewrite firstn_app, firstn_all, Nat.sub_diag. simpl. apply app_nil_r.
Qed.

Lemma takeWhile_firstn p (s : str) :
  firstn (length (takeWhile p s)) s = takeWhile p s
  /\ forallb p (takeWhile p s) = true.
Proof.
  induction s as [|a s [IH1 IH2]]; simpl; auto.
  destruct (p a) eqn:E; simpl; auto. rewrite IH1, E, IH2. auto.
Qed.

(** What [tokenWithoutSpaces] removes is white space. *)
Lemma tokenWithoutSpaces_inv s o tok :
  tokenWithoutSpaces s = (o, tok) -> tok <> [] ->
  exists lead trail,
    s = lead ++ tok ++ trail /\ length lead = o /\
    forallb isWhite lead = true /\ forallb isWhite trail = true.
Proof.
  unfold tokenWithoutSpaces. intros H Hne. inversion H as [[Ho Ht]].
  set (tr := length (takeWhile isWhite (rev s))) in *.
  set (m := length s - tr) in *.
  destruct (takeWhile_firstn isWhite s) as [L1 L2].
  destruct (takeWhile_firstn isWhite (rev s)) as [R1 R2].
  fold tr in R1. rewrite Ho in L1.
  assert (Hom : o < m).
  { destruct (Nat.lt_ge_cases o m) as [|G]; auto. exfalso. apply Hne.
    rewrite <- Ht. unfold slice. replace (m - length (takeWhile isWhite s))
      with 0 by lia. reflexivity. }
  assert (Htr : tr <= length s).
  { assert (X : length (firstn tr (rev s)) = tr) by (rewrite R1; reflexivity).
    rewrite length_firstn, length_rev in X. lia. }
  exists (firstn o s), (skipn m s). repeat split.
  - rewrite Ho. unfold slice.
    rewrite <- (firstn_skipn o s) at 1. f_equal.
    rewrite <- (firstn_skipn (m - o) (skipn o s)) at 1. f_equal.
    rewrite skipn_skipn. f_equal. lia.
  - rewrite length_firstn. unfold m in Hom. lia.
  - rewrite L1. exact L2.
  - rewrite firstn_rev in R1. fold m in R1.
    rewrite <- (rev_involutive (skipn m s)), R1, forallb_rev. exact R2.
Qed.

Lemma addWord_wordSpan t f e f' :
  addWord t f e = Done f' -> e <= length t ->
  exists new, arr f' = arr f ++ new /\
    forall x, In x new ->
      wordSpan t x /\ (exists c o, x = AstWord c o e) /\
      start f <= node_offset x /\ node_offset x < e.
Proof.
  unfold addWord. intros H He.
  destruct (e <=? start f) eqn:E.
  { inversion H; subst. exists []. rewrite app_nil_r. split; auto.
    intros x []. }
  apply Nat.leb_gt in E.
  destruct (tokenWithoutSpaces _) as [o tok] eqn:Et.
  destruct tok as [|c0 tok].
  { inversion H; subst. exists []. rewrite app_nil_r. split; auto.
    intros x []. }
  simpl isEmpty in H. cbv iota in H.
  destruct (existsb isWhite (c0 :: tok)) eqn:W; [discriminate|].
  inversion H; subst. simpl. eexists. split; [reflexivity|].
  intros x [<-|[]].
  destruct (tokenWithoutSpaces_inv _ _ _ Et ltac:(discriminate))
    as (lead & trail & Es & Lo & Wl & Wt).
  assert (Ls : length (slice t (start f) e) = e - start f).
  { unfold slice. rewrite length_firstn, length_skipn. lia. }
  rewrite Es, !length_app in Ls.
  assert (Sk : skipn (start f) t
               = (lead ++ (c0 :: tok) ++ trail) ++ skipn e t).
  { rewrite <- Es. unfold slice.
    rewrite <- (firstn_skipn (e - start f) (skipn (start f) t)) at 1.
    f_equal. rewrite skipn_skipn. f_equal. lia. }
  rewrite <- !app_assoc in Sk.
  apply skipn_app_inv in Sk. destruct Sk as [Sk _]. rewrite Lo in Sk.
  assert (L1 : 1 <= length (c0 :: tok)) by (simpl; lia).
  split; [|split; [eauto|cbn [node_offset]; lia]].
  cbn [wordSpan]. split; [discriminate|]. split; [exact W|]. split; [lia|].
  split.
  - apply slice_of_skipn with (r := trail ++ skipn e t). exact Sk.
  - apply skipn_app_inv in Sk. destruct Sk as [Sk _].
    replace e with (start f + o + length (c0 :: tok) + length trail) at 1
      by lia.
    rewrite (slice_of_skipn _ _ _ _ Sk). exact Wt.
Qed.

Section ParseSteps.

Variable expr : str.

Lemma main_loop_S n f g :
  main_loop expr (S n) f g
  = if length expr <=? pos g then Done (arr f, g)
    else loop_body expr (main_loop expr n) f g.
Proof. reflexivity. Qed.

Lemma main_loop_inert1 c r n f g :
  skipn (pos g) expr = c :: r -> inert c = true ->
  main_loop expr (S n) f g = main_loop expr n f (set_pos g (pos g + 1)).
Proof.
  intros Hs Hc. apply (@skipn_cons_inv char 0%N) in Hs. destruct Hs as (Hlt & Hn & _).
  apply inert_neq in Hc. destruct Hc as (C1 & C2 & C3 & C4 & C5).
  rewrite main_loop_S. replace (length expr <=? pos g) with false
    by (symmetry; apply Nat.leb_gt; auto).
  unfold loop_body. rewrite Hn. unfold firstSwitch.
  rewrite C1, C2, C3, C4, C5. simpl.
  destruct (nth_error expr _); simpl; destruct (c =? c_space)%N; reflexivity.
Qed.

Lemma main_loop_inert w : forall r n f g,
  skipn (pos g) expr = w ++ r -> forallb inert w = true ->
  main_loop expr (length w + n) f g
  = main_loop expr n f (set_pos g (pos g + length w)).
Proof.
  induction w as [|c w IH]; intros r n f g Hs Hw; cbn [length Nat.add].
  - destruct g; unfold set_pos; simpl pos. rewrite Nat.add_0_r. reflexivity.
  - simpl in Hw. apply andb_true_iff in Hw. destruct Hw as [Hc Hw].
    rewrite (main_loop_inert1 c (w ++ r)); auto.
    rewrite (IH r); auto.
    + unfold set_pos; simpl. do 2 f_equal. lia.
    + simpl. apply (@skipn_cons_inv char 0%N) in Hs. tauto.
Qed.

Lemma main_loop_comma r n f g :
  skipn (pos g) expr = c_comma :: r ->
  main_loop expr (S n) f g
  = (f1 <- addWord expr f (pos g) ;;
     f2 <- ensureTokenExists f1 (set_pos g (pos g + 1)) ;;
     main_loop expr n (set_start f2 (pos g + 1)) (set_pos g (pos g + 1))).
Proof.
  intros Hs. apply (@skipn_cons_inv char 0%N) in Hs. destruct Hs as (Hlt & Hn & _).
  rewrite main_loop_S. replace (length expr <=? pos g) with false
    by (symmetry; apply Nat.leb_gt; auto).
  unfold loop_body. rewrite Hn. unfold firstSwitch. simpl.
  destruct (nth_error expr _); simpl; rewrite Nat.add_sub; reflexivity.
Qed.

Lemma main_loop_rparen r n f g :
  skipn (pos g) expr = c_rparen :: r ->
  main_loop expr (S n) f g
  = (f1 <- addWord expr f (pos g) ;;
     f2 <- ensureTokenExists f1 (set_pos g (pos g + 1)) ;;
     Done (arr f2, set_pcount (set_pos g (pos g + 1)) (pcount g - 1))).
Proof.
  intros Hs. apply (@skipn_cons_inv char 0%N) in Hs. destruct Hs as (Hlt & Hn & _).
  rewrite main_loop_S. replace (length expr <=? pos g) with false
    by (symmetry; apply Nat.leb_gt; auto).
  unfold loop_body. rewrite Hn. unfold firstSwitch. simpl.
  destruct (nth_error expr _); simpl; rewrite Nat.add_sub; reflexivity.
Qed.

Lemma main_loop_lparen r n f g :
  skipn (pos g) expr = c_lparen :: r ->
  main_loop expr (S n) f g
  = ('(f2, g2) <- addFunc expr (fun s g0 => main_loop expr n (new_frame s) g0)
                    f (set_pos g (pos g + 1)) (pos g) ;;
     main_loop expr n (set_start f2 (pos g2)) (set_pcount g2 (pcount g2 + 1))).
Proof.
  intros Hs. apply (@skipn_cons_inv char 0%N) in Hs. destruct Hs as (Hlt & Hn & _).
  rewrite main_loop_S. replace (length expr <=? pos g) with false
    by (symmetry; apply Nat.leb_gt; auto).
  unfold loop_body. rewrite Hn. unfold firstSwitch. simpl.
  destruct (nth_error expr _); simpl; rewrite Nat.add_sub; reflexivity.
Qed.

Lemma main_loop_skip c r n f g :
  skipn (pos g) expr = c :: r ->
  (c =? c_comma)%N = false -> (c =? c_lparen)%N = false ->
  (c =? c_rparen)%N = false ->
  main_loop expr (S n) f g
  = ('(f1, g2) <- firstSwitch expr c (nth_error expr (pos g + 1)) f
                    (set_pos g (pos g + 1)) ;;
     main_loop expr n f1 g2).
Proof.
  intros Hs C1 C2 C3. apply (@skipn_cons_inv char 0%N) in Hs.
  destruct Hs as (Hlt & Hn & _).
  rewrite main_loop_S. replace (length expr <=? pos g) with false
    by (symmetry; apply Nat.leb_gt; auto).
  unfold loop_body. rewrite Hn. cbn [pos set_pos].
  destruct (firstSwitch _ _ _ _ _) as [[f1 g2]| |]; cbn [bind]; auto.
  rewrite C1, C2, C3. destruct (c =? c_space)%N; reflexivity.
Qed.

(** Flushing the span of one plain argument pushes its Word node. *)
Lemma addWord_item it f e :
  wfItem it = true ->
  slice expr (start f) e = itemText it ->
  addWord expr f e
  = Done (push f (AstWord (word it) (start f + length (lead it)) e)).
Proof.
  intros Hwf Hs. unfold addWord.
  assert (Hw := Hwf). unfold wfItem in Hw. rewrite !andb_true_iff in Hw.
  destruct Hw as [[_ Hw] _]. apply plainWord_facts in Hw.
  destruct Hw as (Hne & _ & Hex & _).
  destruct (e <=? start f) eqn:E.
  { apply Nat.leb_le in E. unfold slice in Hs.
    replace (e - start f) with 0 in Hs by lia. simpl in Hs.
    unfold itemText in Hs. symmetry in Hs.
    apply app_eq_nil in Hs. destruct Hs as [_ Hs].
    apply app_eq_nil in Hs. tauto. }
  rewrite Hs, tokenWithoutSpaces_item by auto.
  destruct (word it); [congruence|]. simpl isEmpty. cbv iota.
  rewrite Hex. reflexivity.
Qed.

Lemma wfItem_inert it : wfItem it = true -> forallb inert (itemText it) = true.
Proof.
  unfold wfItem, itemText. rewrite !andb_true_iff. intros [[Hl Hw] Hr].
  apply plainWord_facts in Hw. destruct Hw as (_ & Hw & _).
  rewrite !forallb_app, Hw, !andb_true_iff. repeat split; auto.
  - apply forallb_forall. intros c Hc. apply isWhite_inert.
    revert c Hc. apply forallb_forall. auto.
  - apply forallb_forall. intros c Hc. apply isWhite_inert.
    revert c Hc. apply forallb_forall. auto.
Qed.

Lemma ensureTokenExists_pushed f g w :
  (lastToken f <= Z.of_nat (length (arr f)))%Z ->
  ensureTokenExists (push f w) g
  = Done {| start := start f; arr := arr f ++ [w];
            lastToken := Z.of_nat (length (arr f) + 1) |}.
Proof.
  intros H. unfold ensureTokenExists, push. simpl.
  rewrite length_app. simpl.
  replace (lastToken f =? _)%Z with false by (symmetry; apply Z.eqb_neq; lia).
  replace (length (arr f) + 1 =? 0) with false
    by (symmetry; apply Nat.eqb_neq; lia).
  reflexivity.
Qed.

(** The loop over one plain argument and the comma that ends it. *)
Lemma main_loop_item_comma it r n f g :
  wfItem it = true -> start f = pos g ->
  skipn (pos g) expr = itemText it ++ c_comma :: r ->
  (lastToken f <= Z.of_nat (length (arr f)))%Z ->
  main_loop expr (length (itemText it) + S n) f g
  = main_loop expr n
      {| start := pos g + length (itemText it) + 1;
         arr := arr f ++ [AstWord (word it) (pos g + length (lead it))
                            (pos g + length (itemText it))];
         lastToken := Z.of_nat (length (arr f) + 1) |}
      (set_pos g (pos g + length (itemText it) + 1)).
Proof.
  intros Hwf Hst Hs Hlt.
  rewrite (main_loop_inert (itemText it) (c_comma :: r)); auto using wfItem_inert.
  apply skipn_app_inv in Hs. destruct Hs as [Hs1 Hs2].
  rewrite (main_loop_comma r); [|exact Hs1].
  simpl pos. rewrite (addWord_item it); auto.
  - simpl. rewrite ensureTokenExists_pushed by auto. simpl.
    unfold set_start, set_pos. simpl. rewrite Hst. reflexivity.
  - unfold slice. rewrite Hst.
    replace (pos g + length (itemText it) - pos g) with (length (itemText it)) by lia.
    exact Hs2.
Qed.

Lemma main_loop_item_rparen it r n f g :
  wfItem it = true -> start f = pos g ->
  skipn (pos g) expr = itemText it ++ c_rparen :: r ->
  (lastToken f <= Z.of_nat (length (arr f)))%Z ->
  main_loop expr (length (itemText it) + S n) f g
  = Done (arr f ++ [AstWord (word it) (pos g + length (lead it))
                      (pos g + length (itemText it))],
          {| pos := pos g + length (itemText it) + 1;
             pcount := pcount g - 1 |}).
Proof.
  intros Hwf Hst Hs Hlt.
  rewrite (main_loop_inert (itemText it) (c_rparen :: r)); auto using wfItem_inert.
  apply skipn_app_inv in Hs. destruct Hs as [Hs1 Hs2].
  rewrite (main_loop_rparen r); [|exact Hs1].
  simpl pos. rewrite (addWord_item it); auto.
  - simpl. rewrite ensureTokenExists_pushed by auto. simpl.
    rewrite Hst. reflexivity.
  - unfold slice. rewrite Hst.
    replace (pos g + length (itemText it) - pos g) with (length (itemText it)) by lia.
    exact Hs2.
Qed.

Lemma argsText_cons2 it it2 items :
  argsText (it :: it2 :: items)
  = itemText it ++ c_comma :: argsText (it2 :: items).
Proof. reflexivity. Qed.

(** The loop over a non-empty list of plain arguments closed by [)]. *)
Lemma main_loop_items items : forall r n f g,
  items <> [] -> forallb wfItem items = true -> start f = pos g ->
  skipn (pos g) expr = argsText items ++ c_rparen :: r ->
  (lastToken f <= Z.of_nat (length (arr f)))%Z ->
  main_loop expr (length (argsText items) + S n) f g
  = Done (arr f ++ wordsAt (pos g) items,
          {| pos := pos g + length (argsText items) + 1;
             pcount := pcount g - 1 |}).
Proof.
  induction items as [|it items IH]; intros r n f g Hne Hwf Hst Hs Hlt;
    [congruence|].
  simpl in Hwf. apply andb_true_iff in Hwf. destruct Hwf as [Hit Hwf].
  destruct items as [|it2 items].
  - unfold argsText in *. simpl in *.
    rewrite (main_loop_item_rparen it r); auto.
  - rewrite argsText_cons2 in Hs |- *.
    rewrite <- app_assoc in Hs. rewrite <- app_comm_cons in Hs.
    rewrite !length_app. cbn [length].
    replace (length (itemText it) + S (length (argsText (it2 :: items))) + S n)
      with (length (itemText it) + S (length (argsText (it2 :: items)) + S n)) by lia.
    rewrite (main_loop_item_comma it (argsText (it2 :: items) ++ c_rparen :: r)); auto.
    rewrite (IH r); auto; try discriminate.
    + cbn [arr pos set_pos wordsAt]. rewrite <- app_assoc. simpl app.
      do 3 f_equal. lia.
    + cbn [pos set_pos]. apply skipn_app_inv in Hs. destruct Hs as [Hs _].
      apply (@skipn_cons_inv char 0%N) in Hs. destruct Hs as (_ & _ & Hs).
      rewrite <- Hs. f_equal.
    + cbn [arr lastToken]. rewrite length_app. simpl. lia.
Qed.

End ParseSteps.

(** ** Runs that close their parenthesis

    An activation of [main] that lowers [pcount] has returned at a closing
    parenthesis, and so have the activations it started.  Such a run reads
    the text only below its final position. *)

Section CleanRuns.

Variable expr : str.

Lemma firstSwitch_noop c nx f g :
  (c =? c_bslash)%N = false -> (c =? c_slash)%N = false ->
  firstSwitch expr c nx f g = Done (f, g).
Proof.
  intros H1 H2. unfold firstSwitch. rewrite H1, H2. simpl.
  destruct nx; reflexivity.
Qed.

Lemma main_loop_clean_inv n f g a g' :
  main_loop expr (S n) f g = Done (a, g') ->
  pcount g' = (pcount g - 1)%Z ->
  pos g < length expr /\
  let c := nth (pos g) expr 0%N in
  let g1 := set_pos g (pos g + 1) in
  ((exists f1 g2,
      firstSwitch expr c (nth_error expr (pos g + 1)) f g1 = Done (f1, g2) /\
      pcount g2 = pcount g /\ pos g + 1 <= pos g2 /\
      (c =? c_comma)%N = false /\ (c =? c_lparen)%N = false /\
      (c =? c_rparen)%N = false /\
      main_loop expr n f1 g2 = Done (a, g'))
   \/ (c = c_comma /\ exists f2 f3,
         addWord expr f (pos g) = Done f2 /\
         ensureTokenExists f2 g1 = Done f3 /\
         main_loop expr n (set_start f3 (pos g + 1)) g1 = Done (a, g'))
   \/ (c = c_lparen /\ exists o tok ps l g2,
         start f < pos g /\
         tokenWithoutSpaces (slice expr (start f) (pos g)) = (o, tok) /\
         tok <> [] /\ existsb isWhite tok = false /\
         main_loop expr n (new_frame (pos g + 1)) g1 = Done (ps, g2) /\
         pcount g2 = (pcount g - 1)%Z /\
         last (map Some ps) None = Some l /\
         main_loop expr n
           (set_start
              (push f (AstFunction tok ps (start f + o) (node_end l + 1)
                         (slice expr (start f + o) (node_end l + 1))))
              (pos g2))
           (set_pcount g2 (pcount g2 + 1)) = Done (a, g'))
   \/ (c = c_rparen /\ exists f2 f3,
         addWord expr f (pos g) = Done f2 /\
         ensureTokenExists f2 g1 = Done f3 /\
         a = arr f3 /\ g' = set_pcount g1 (pcount g - 1))).
Proof.
  intros H Hc. rewrite main_loop_S in H.
  destruct (length expr <=? pos g) eqn:E.
  { inversion H; subst. lia. }
  apply Nat.leb_gt in E. split; [exact E|].
  intros c g1. unfold loop_body in H. fold c in H. fold g1 in H.
  destruct (N.eqb_spec c c_comma) as [Ec|Nc].
  { right; left. split; [exact Ec|].
    rewrite firstSwitch_noop in H by (rewrite Ec; reflexivity).
    cbn [bind] in H. rewrite Ec in H. simpl in H.
    rewrite Nat.add_sub in H.
    bind_inv H. bind_inv H. eauto. }
  destruct (N.eqb_spec c c_lparen) as [El|Nl].
  { right; right; left. split; [exact El|].
    rewrite firstSwitch_noop in H by (rewrite El; reflexivity).
    cbn [bind] in H. rewrite El in H. simpl in H.
    rewrite Nat.add_sub in H.
    bind_inv H. destruct a0 as [f2 g2].
    apply addFunc_Done in Hm.
    destruct Hm as (o & tok & ps & l & H1 & H2 & H3 & H4 & H5 & H6 & ->).
    exists o, tok, ps, l, g2.
    assert (M1 := main_loop_mono _ _ _ _ _ _ H5).
    assert (M2 := main_loop_mono _ _ _ _ _ _ H).
    simpl in M1, M2.
    repeat split; auto. lia. }
  destruct (N.eqb_spec c c_rparen) as [Er|Nr].
  { right; right; right. split; [exact Er|].
    rewrite firstSwitch_noop in H by (rewrite Er; reflexivity).
    cbn [bind] in H. rewrite Er in H. simpl in H.
    rewrite Nat.add_sub in H.
    bind_inv H. bind_inv H. inversion H; subst. eauto 10. }
  left. bind_inv H. destruct a0 as [f1 g2].
  exists f1, g2. assert (F := firstSwitch_Done _ _ _ _ _ _ _ Hm).
  simpl in F. destruct F as [F1 F2].
  repeat split; auto.
  destruct (c =? c_space)%N; exact H.
Qed.

Lemma last_Some_In {A : Type} (l : list A) x :
  last (map Some l) None = Some x -> In x l.
Proof.
  induction l as [|a l IH]; simpl; [discriminate|].
  destruct l as [|b l].
  - simpl. intros H; inversion H; auto.
  - intros H. right. apply IH. exact H.
Qed.

Lemma addWord_arr f e f' :
  addWord expr f e = Done f' ->
  arr f' = arr f \/ exists c o, arr f' = arr f ++ [AstWord c o e].
Proof.
  unfold addWord. destruct (e <=? start f).
  - intros H; inversion H; auto.
  - destruct (tokenWithoutSpaces _) as [o t].
    destruct (isEmpty t); [intros H; inversion H; auto|].
    destruct (existsb isWhite t); [discriminate|].
    intros H; inversion H; simpl. right. eauto.
Qed.

(** A run that closes its parenthesis ends just after a [)], and the nodes
    it returns end before that position. *)
Lemma main_loop_clean_ends n : forall f g a g',
  main_loop expr n f g = Done (a, g') ->
  pcount g' = (pcount g - 1)%Z ->
  (forall x, In x (arr f) -> node_end x <= pos g) ->
  pos g' <= length expr /\
  nth_error expr (pos g' - 1) = Some c_rparen /\
  a <> [] /\
  forall x, In x a -> node_end x < pos g'.
Proof.
  induction n as [|n IH]; intros f g a g' H Hc Hf.
  { simpl in H. destruct (length expr <=? pos g); [|discriminate].
    inversion H; subst. lia. }
  destruct (main_loop_clean_inv _ _ _ _ _ H Hc) as [Hlt Hcases].
  cbv zeta in Hcases.
  destruct Hcases as [(f1 & g2 & Hfs & Hp2 & Hpos & _ & _ & _ & Hrec)
                     |[(Ec & f2 & f3 & Ha & He & Hrec)
                     |[(El & o & tok & ps & l & g2 & _ & _ & _ & _ & Hin & Hp2
                           & Hl & Hrec)
                      |(Er & f2 & f3 & Ha & He & -> & ->)]]].
  - apply (IH f1 g2); auto; [lia|].
    intros x Hx. assert (Hx' : In x (arr f) \/ node_end x = pos g).
    { revert Hfs Hx. unfold firstSwitch.
      destruct (nth_error expr (pos g + 1)) as [nx|];
        [|intros E; inversion E; subst; auto].
      destruct (_ && _).
      { intros E; inversion E; subst; auto. }
      destruct (_ && _).
      { intros E. bind_inv E. destruct (blockComment _ _) as [p b].
        inversion E; subst. simpl in Hm. rewrite Nat.add_sub in Hm.
        apply addWord_arr in Hm.
        assert (Ea : arr (if b then set_start a0 p else a0) = arr a0)
          by (destruct b; reflexivity).
        rewrite Ea. destruct Hm as [->|(c' & o' & ->)]; auto.
        intros Hx. apply in_app_or in Hx. destruct Hx as [|[<-|[]]]; auto. }
      destruct (_ && _).
      { intros E. bind_inv E. destruct (lineComment _ _) as [p b].
        inversion E; subst. simpl in Hm. rewrite Nat.add_sub in Hm.
        apply addWord_arr in Hm.
        assert (Ea : arr (if b then set_start a0 p else a0) = arr a0)
          by (destruct b; reflexivity).
        rewrite Ea. destruct Hm as [->|(c' & o' & ->)]; auto.
        intros Hx. apply in_app_or in Hx. destruct Hx as [|[<-|[]]]; auto. }
      intros E; inversion E; subst; auto. }
    destruct Hx' as [Hx'|Hx']; [apply Hf in Hx'|]; lia.
  - apply ensureTokenExists_Done in He. destruct He as (_ & He & _).
    apply (IH _ _ _ _ Hrec); auto.
    simpl. rewrite He. intros x Hx.
    apply addWord_arr in Ha. destruct Ha as [Ha|(c' & o' & Ha)];
      rewrite Ha in Hx.
    + apply Hf in Hx. lia.
    + apply in_app_or in Hx. destruct Hx as [Hx|[<-|[]]]; simpl; [|lia].
      apply Hf in Hx. lia.
  - assert (Hps := IH _ _ _ _ Hin).
    simpl in Hps. destruct Hps as (_ & _ & _ & Hps); [lia|intros x []|].
    assert (M := main_loop_mono _ _ _ _ _ _ Hrec). simpl in M.
    apply (IH _ _ _ _ Hrec); simpl; [lia|].
    intros x Hx. apply in_app_or in Hx. destruct Hx as [Hx|[<-|[]]].
    + apply Hf in Hx. assert (M' := main_loop_mono _ _ _ _ _ _ Hin).
      simpl in M'. lia.
    + simpl. apply last_Some_In in Hl. apply Hps in Hl. lia.
  - simpl. apply ensureTokenExists_Done in He.
    destruct He as (_ & He & Hne & _). rewrite He.
    split; [lia|]. split.
    { rewrite Nat.add_sub. fold c_rparen in Er. rewrite <- Er.
      apply nth_error_nth'. exact Hlt. }
    split; [exact Hne|].
    intros x Hx. apply addWord_arr in Ha.
    destruct Ha as [Ha|(c' & o' & Ha)]; rewrite Ha in Hx.
    + apply Hf in Hx. lia.
    + apply in_app_or in Hx. destruct Hx as [Hx|[<-|[]]]; simpl; [|lia].
      apply Hf in Hx. lia.
Qed.

(** The nodes a run adds lie between the [start] and [pos] it begins with
    and the [pos] it ends with. *)
Lemma main_loop_clean_new n : forall f g a g',
  main_loop expr n f g = Done (a, g') ->
  pcount g' = (pcount g - 1)%Z ->
  start f <= pos g ->
  exists new, a = arr f ++ new /\
    forall x, In x new ->
      start f <= node_offset x /\ pos g <= node_end x /\ node_end x < pos g'
      /\ wordSpan expr x.
Proof.
  induction n as [|n IH]; intros f g a g' H Hc Hst.
  { simpl in H. destruct (length expr <=? pos g); [|discriminate].
    inversion H; subst. lia. }
  assert (Hw : forall f0 e0 f2 q,
             addWord expr f0 e0 = Done f2 -> e0 < q -> e0 <= length expr ->
             exists new, arr f2 = arr f0 ++ new /\
               forall x, In x new ->
                 start f0 <= node_offset x /\ e0 <= node_end x /\ node_end x < q
                 /\ wordSpan expr x).
  { intros f0 e0 f2 q Hw Hq Hl.
    destruct (addWord_wordSpan _ _ _ _ Hw Hl) as (new & En & Hn).
    exists new. split; [exact En|]. intros x Hx.
    destruct (Hn x Hx) as (W & (c' & o' & ->) & O1 & O2).
    cbn [node_offset node_end] in *.
    split; [lia|]. split; [lia|]. split; [lia|]. exact W. }
  destruct (main_loop_clean_inv _ _ _ _ _ H Hc) as [Hlt Hcases].
  cbv zeta in Hcases.
  destruct Hcases as [(f1 & g2 & Hfs & Hp2 & Hpos & _ & _ & _ & Hrec)
                     |[(Ec & f2 & f3 & Ha & He & Hrec)
                     |[(El & o & tok & ps & l & g2 & Hs & _ & _ & _ & Hin & Hp2
                           & Hl & Hrec)
                      |(Er & f2 & f3 & Ha & He & -> & ->)]]].
  - assert (M := main_loop_mono _ _ _ _ _ _ Hrec).
    destruct M as (M1 & _ & M2). specialize (M2 ltac:(lia)).
    assert (Hf1 : start f <= start f1 /\ start f1 <= pos g2 /\
                  exists new, arr f1 = arr f ++ new /\
                    forall x, In x new ->
                      start f <= node_offset x /\ pos g <= node_end x
                      /\ node_end x < pos g' /\ wordSpan expr x).
    { revert Hfs. unfold firstSwitch.
      destruct (nth_error expr (pos g + 1)) as [nx|].
      2:{ intros E; inversion E; subst. simpl in *. split; [lia|]. split; [lia|].
          exists []. rewrite app_nil_r. split; auto. intros x []. }
      destruct (_ && _).
      { intros E; inversion E; subst. simpl in *. split; [lia|]. split; [lia|].
        exists []. rewrite app_nil_r. split; auto. intros x []. }
      destruct (_ && _).
      { intros E. bind_inv E. destruct (blockComment _ _) as [p b] eqn:Eb.
        apply blockComment_pos in Eb. inversion E; subst. simpl in *.
        rewrite Nat.add_sub in Hm.
        assert (S1 := addWord_Done _ _ _ _ Hm).
        destruct (Hw _ _ _ (pos g') Hm ltac:(lia) ltac:(lia)) as (new & En & Hn).
        split; [destruct b; simpl; lia|]. split; [destruct b; simpl; lia|].
        exists new. split; [destruct b; exact En|exact Hn]. }
      destruct (_ && _).
      { intros E. bind_inv E. destruct (lineComment _ _) as [p b] eqn:Eb.
        apply lineComment_pos in Eb. inversion E; subst. simpl in *.
        rewrite Nat.add_sub in Hm.
        assert (S1 := addWord_Done _ _ _ _ Hm).
        destruct (Hw _ _ _ (pos g') Hm ltac:(lia) ltac:(lia)) as (new & En & Hn).
        split; [destruct b; simpl; lia|]. split; [destruct b; simpl; lia|].
        exists new. split; [destruct b; exact En|exact Hn]. }
      intros E; inversion E; subst. simpl in *. split; [lia|]. split; [lia|].
      exists []. rewrite app_nil_r. split; auto. intros x []. }
    destruct Hf1 as (S1 & S2 & new1 & E1 & Hn1).
    destruct (IH _ _ _ _ Hrec ltac:(lia) S2) as (new2 & E2 & Hn2).
    exists (new1 ++ new2). rewrite E2, E1, app_assoc. split; [reflexivity|].
    intros x Hx. apply in_app_or in Hx. destruct Hx as [Hx|Hx].
    + apply Hn1 in Hx. repeat split; try tauto; lia.
    + apply Hn2 in Hx. repeat split; try tauto; lia.
  - assert (M := main_loop_mono _ _ _ _ _ _ Hrec). simpl in M.
    destruct M as (M1 & _ & M2). specialize (M2 ltac:(lia)).
    destruct (Hw _ _ _ (pos g') Ha ltac:(lia) ltac:(lia)) as (new1 & E1 & Hn1).
    apply ensureTokenExists_Done in He. destruct He as (_ & He & _).
    destruct (IH _ _ _ _ Hrec ltac:(simpl; lia) ltac:(simpl; lia))
      as (new2 & E2 & Hn2).
    simpl in E2, Hn2. rewrite He, E1 in E2.
    exists (new1 ++ new2). rewrite E2, app_assoc. split; [reflexivity|].
    intros x Hx. apply in_app_or in Hx. destruct Hx as [Hx|Hx].
    + apply Hn1 in Hx. repeat split; try tauto; lia.
    + apply Hn2 in Hx. repeat split; try tauto; lia.
  - assert (M := main_loop_mono _ _ _ _ _ _ Hrec). simpl in M.
    destruct M as (M1 & _ & M2). specialize (M2 ltac:(lia)).
    assert (Mi := main_loop_mono _ _ _ _ _ _ Hin). simpl in Mi.
    destruct (IH _ _ _ _ Hin ltac:(simpl; lia) ltac:(simpl; lia))
      as (newi & Ei & Hni).
    simpl in Ei, Hni. subst newi.
    assert (Hle := Hni l (last_Some_In _ _ Hl)).
    destruct (IH _ _ _ _ Hrec ltac:(simpl; lia) ltac:(simpl; lia))
      as (new2 & E2 & Hn2).
    simpl in E2, Hn2. rewrite <- app_assoc in E2.
    eexists. split; [exact E2|].
    intros x Hx. apply in_app_or in Hx. destruct Hx as [[<-|[]]|Hx].
    + simpl. repeat split; auto; lia.
    + apply Hn2 in Hx. repeat split; try tauto; lia.
  - simpl. destruct (Hw _ _ _ (pos g + 1) Ha ltac:(lia) ltac:(lia)) as (new1 & E1 & Hn1).
    apply ensureTokenExists_Done in He. destruct He as (_ & He & _).
    rewrite He, E1. exists new1. split; auto.
Qed.

End CleanRuns.

(** ** The parser on texts with a common prefix *)

Lemma agree_le q q' t1 t2 : q' <= q -> agree q t1 t2 -> agree q' t1 t2.
Proof.
  intros Hq (H & L1 & L2). split; [|lia].
  rewrite <- (Nat.min_l q' q) by exact Hq.
  rewrite <- !firstn_firstn, H. reflexivity.
Qed.

Lemma agree_nth q t1 t2 i d : agree q t1 t2 -> i < q -> nth i t1 d = nth i t2 d.
Proof.
  intros (H & _) Hi.
  assert (E : forall t : str, nth i t d = nth i (firstn q t) d).
  { intros t. rewrite nth_firstn.
    replace (i <? q) with true by (symmetry; apply Nat.ltb_lt; exact Hi).
    reflexivity. }
  rewrite (E t1), (E t2), H. reflexivity.
Qed.

Lemma agree_nth_error q t1 t2 i :
  agree q t1 t2 -> i < q -> nth_error t1 i = nth_error t2 i.
Proof.
  intros (H & _) Hi.
  assert (E : forall t : str, nth_error t i = nth_error (firstn q t) i).
  { intros t. rewrite nth_error_firstn.
    replace (i <? q) with true by (symmetry; apply Nat.ltb_lt; exact Hi).
    reflexivity. }
  rewrite (E t1), (E t2), H. reflexivity.
Qed.

Lemma slice_firstn (t : str) a b : slice t a b = skipn a (firstn b t).
Proof. unfold slice. rewrite skipn_firstn_comm. reflexivity. Qed.

Lemma agree_slice q t1 t2 a b :
  agree q t1 t2 -> b <= q -> slice t1 a b = slice t2 a b.
Proof.
  intros H Hb. apply (agree_le q b) in H; [|exact Hb].
  destruct H as (H & _). rewrite !slice_firstn, H. reflexivity.
Qed.

Lemma agree_skipn_firstn q t1 t2 p k :
  agree q t1 t2 -> p + k <= q ->
  firstn k (skipn p t1) = firstn k (skipn p t2).
Proof.
  intros H Hk. apply (agree_le q (p + k)) in H; [|exact Hk].
  destruct H as (H & _). rewrite !firstn_skipn_comm, H. reflexivity.
Qed.

Lemma agree_splice t p ins :
  p <= length t -> agree p t (firstn p t ++ ins ++ skipn p t).
Proof.
  intros Hp. split; [|split; [exact Hp|]].
  - rewrite firstn_app, firstn_firstn, Nat.min_id, length_firstn.
    replace (p - Nat.min p (length t)) with 0 by lia.
    simpl. rewrite app_nil_r. reflexivity.
  - rewrite length_app, length_firstn. lia.
Qed.

Lemma skipn_nth_cons {A : Type} (d : A) (l : list A) : forall p,
  p < length l -> skipn p l = nth p l d :: skipn (p + 1) l.
Proof.
  induction l as [|a l IH]; intros p Hp; simpl in Hp; [lia|].
  destruct p as [|p]; simpl; [reflexivity|].
  apply IH. lia.
Qed.

Lemma blockComment_found rest : forall p q,
  blockComment rest p = (q, true) -> p + 2 <= q.
Proof.
  induction rest as [|c rest IH]; intros p q H; simpl in H; [discriminate|].
  destruct rest as [|nx rest'].
  - simpl in H. discriminate.
  - destruct (_ && _).
    + inversion H. lia.
    + apply IH in H. lia.
Qed.

Lemma blockComment_open rest : forall p q,
  blockComment rest p = (q, false) -> q = p + length rest.
Proof.
  induction rest as [|c rest IH]; intros p q H; simpl in H.
  - inversion H. simpl. lia.
  - destruct rest as [|nx rest'].
    + simpl in H. inversion H. simpl. lia.
    + destruct (_ && _); [discriminate|].
      apply IH in H. simpl in *. lia.
Qed.

Lemma blockComment_cons2 c nx r p :
  blockComment (c :: nx :: r) p
  = if ((c =? c_star) && (nx =? c_slash))%N then (p + 2, true)
    else blockComment (nx :: r) (S p).
Proof. reflexivity. Qed.

Lemma blockComment_agree r1 : forall p q r2,
  blockComment r1 p = (q, true) ->
  firstn (q - p) r1 = firstn (q - p) r2 ->
  blockComment r2 p = (q, true).
Proof.
  induction r1 as [|c r1 IH]; intros p q r2 H Hf; simpl in H; [discriminate|].
  destruct r1 as [|nx r1'].
  { simpl in H. discriminate. }
  destruct ((c =? c_star)%N && (nx =? c_slash)%N) eqn:E.
  - inversion H; subst. replace (p + 2 - p) with 2 in Hf by lia.
    simpl in Hf. destruct r2 as [|c2 [|nx2 r2']]; try discriminate.
    inversion Hf; subst. simpl. rewrite E. reflexivity.
  - assert (Hq := blockComment_found _ _ _ H).
    replace (q - p) with (S (S (q - S (S p)))) in Hf by lia.
    simpl in Hf. destruct r2 as [|c2 [|nx2 r2']]; try discriminate.
    inversion Hf; subst. rewrite blockComment_cons2, E.
    apply IH; [exact H|].
    replace (q - S p) with (S (q - S (S p))) by lia.
    simpl. f_equal. assumption.
Qed.

Lemma lineComment_found rest : forall p q,
  lineComment rest p = (q, true) -> p + 2 <= q.
Proof.
  induction rest as [|c rest IH]; intros p q H; simpl in H; [discriminate|].
  destruct (_ =? _)%N.
  - inversion H. lia.
  - apply IH in H. lia.
Qed.

Lemma lineComment_open rest : forall p q,
  lineComment rest p = (q, false) -> q = p + length rest.
Proof.
  induction rest as [|c rest IH]; intros p q H; simpl in H.
  - inversion H. simpl. lia.
  - destruct (_ =? _)%N; [discriminate|].
    apply IH in H. simpl. lia.
Qed.

Lemma lineComment_agree r1 : forall p q r2,
  lineComment r1 p = (q, true) ->
  firstn (q - p - 1) r1 = firstn (q - p - 1) r2 ->
  lineComment r2 p = (q, true).
Proof.
  induction r1 as [|c r1 IH]; intros p q r2 H Hf; simpl in H; [discriminate|].
  destruct (c =? c_nl)%N eqn:E.
  - inversion H; subst. replace (p + 2 - p - 1) with 1 in Hf by lia.
    simpl in Hf. destruct r2 as [|c2 r2]; try discriminate.
    inversion Hf; subst. simpl. rewrite E. reflexivity.
  - assert (Hq := lineComment_found _ _ _ H).
    replace (q - p - 1) with (S (q - S p - 1)) in Hf by lia.
    simpl in Hf. destruct r2 as [|c2 r2]; try discriminate.
    inversion Hf; subst. simpl. rewrite E.
    apply IH; assumption.
Qed.

Section Agree.

Variables t1 t2 : str.

Lemma addWord_agree q f e :
  agree q t1 t2 -> e <= q -> addWord t1 f e = addWord t2 f e.
Proof.
  intros H He. unfold addWord. rewrite (agree_slice q t1 t2); auto.
Qed.

Lemma firstSwitch_agree q c nx f g f' g' :
  firstSwitch t1 c nx f g = Done (f', g') ->
  agree q t1 t2 -> pos g' <= q -> pos g' < length t1 -> pos g <= q ->
  firstSwitch t2 c nx f g = Done (f', g').
Proof.
  unfold firstSwitch. intros H Ha Hq Hl Hg.
  destruct nx as [nx|]; [|exact H].
  destruct (_ && _); [exact H|].
  destruct (_ && _).
  { bind_inv H. rewrite <- (addWord_agree q) by (auto; lia).
    rewrite Hm. cbn [bind].
    destruct (blockComment (skipn (pos g) t1) (pos g)) as [p b] eqn:E.
    inversion H; subst. simpl in Hq, Hl.
    destruct b.
    - rewrite (blockComment_agree _ _ _ _ E); [reflexivity|].
      apply (agree_skipn_firstn q); auto.
      apply blockComment_found in E. lia.
    - apply blockComment_open in E. rewrite length_skipn in E. lia. }
  destruct (_ && _); [|exact H].
  bind_inv H. rewrite <- (addWord_agree q) by (auto; lia).
  rewrite Hm. cbn [bind].
  destruct (lineComment (skipn (pos g) t1) (pos g)) as [p b] eqn:E.
  inversion H; subst. simpl in Hq, Hl.
  destruct b.
  - rewrite (lineComment_agree _ _ _ _ E); [reflexivity|].
    apply (agree_skipn_firstn q); auto.
    apply lineComment_found in E. lia.
  - apply lineComment_open in E. rewrite length_skipn in E. lia.
Qed.

(** A run that closes its parenthesis is the same on every text that has
    the characters below its final position. *)
Lemma main_loop_agree n : forall f g a g',
  main_loop t1 n f g = Done (a, g') ->
  pcount g' = (pcount g - 1)%Z ->
  agree (pos g') t1 t2 ->
  main_loop t2 n f g = Done (a, g').
Proof.
  induction n as [|n IH]; intros f g a g' H Hc Ha.
  { simpl in H. destruct (length t1 <=? pos g); [|discriminate].
    inversion H; subst. lia. }
  assert (M := main_loop_mono _ _ _ _ _ _ H).
  destruct M as (_ & _ & M). specialize (M Hc).
  destruct (main_loop_clean_inv _ _ _ _ _ _ H Hc) as [Hlt Hcases].
  cbv zeta in Hcases.
  assert (Hlt2 : pos g < length t2) by (destruct Ha as (_ & _ & L); lia).
  assert (Hs2 := skipn_nth_cons 0%N t2 (pos g) Hlt2).
  rewrite <- (agree_nth (pos g') t1 t2) in Hs2 by auto.
  destruct Hcases as [(f1 & g2 & Hfs & Hp2 & Hpos & C1 & C2 & C3 & Hrec)
                     |[(Ec & f2 & f3 & Haw & He & Hrec)
                     |[(El & o & tok & ps & l & g2 & Hst & Htok & Hne & Hw
                           & Hin & Hp2 & Hl & Hrec)
                      |(Er & f2 & f3 & Haw & He & -> & ->)]]].
  - rewrite (main_loop_skip t2 _ _ n f g Hs2 C1 C2 C3).
    assert (M2 := main_loop_mono _ _ _ _ _ _ Hrec).
    destruct M2 as (_ & _ & M2). specialize (M2 ltac:(lia)).
    rewrite <- (agree_nth_error (pos g') t1 t2) by (auto; lia).
    rewrite (firstSwitch_agree (pos g') _ _ _ _ _ _ Hfs);
      auto; try (simpl; lia); [|destruct Ha as (_ & L & _); lia].
    cbn [bind]. apply IH; auto. lia.
  - rewrite Ec in Hs2. rewrite (main_loop_comma t2 _ n f g Hs2).
    rewrite <- (addWord_agree (pos g')) by (auto; lia).
    rewrite Haw. cbn [bind]. rewrite He. cbn [bind].
    apply IH; auto.
  - rewrite El in Hs2. rewrite (main_loop_lparen t2 _ n f g Hs2).
    assert (M2 := main_loop_mono _ _ _ _ _ _ Hrec). simpl in M2.
    assert (M1 := main_loop_mono _ _ _ _ _ _ Hin). simpl in M1.
    assert (Hps := main_loop_clean_ends t1 n _ _ _ _ Hin).
    simpl in Hps. destruct Hps as (_ & _ & _ & Hps); [lia|intros x []|].
    assert (Hle : node_end l + 1 <= pos g2).
    { apply last_Some_In in Hl. apply Hps in Hl. lia. }
    unfold addFunc.
    replace (pos g <=? start f) with false by (symmetry; apply Nat.leb_gt; lia).
    rewrite <- (agree_slice (pos g') t1 t2) by (auto; lia).
    rewrite Htok. destruct tok as [|c0 tok]; [congruence|].
    simpl isEmpty. cbv iota. rewrite Hw.
    rewrite (IH _ _ _ _ Hin); simpl; auto; try lia.
    + cbn [bind]. rewrite Hl.
      rewrite <- (agree_slice (pos g') t1 t2) by (auto; lia).
      cbn [bind]. apply IH; simpl; auto. lia.
    + apply (agree_le (pos g')); auto. lia.
  - rewrite Er in Hs2. rewrite (main_loop_rparen t2 _ n f g Hs2).
    simpl in Ha.
    rewrite <- (addWord_agree (pos g + 1)) by (auto; lia).
    rewrite Haw. cbn [bind]. rewrite He. cbn [bind]. reflexivity.
Qed.

End Agree.

(** ** The parser on a moved text

    When the text from [b1] on in [t1] is the text from [b2] on in [t2], a
    run on [t1] that stays at or after [b1] is matched by the run on [t2]
    from the moved state, which adds the moved nodes. *)

Lemma blockComment_shift r : forall p q b p',
  blockComment r p = (q, b) -> blockComment r p' = (q - p + p', b).
Proof.
  induction r as [|c r IH]; intros p q b p' H; simpl in H |- *.
  - inversion H; subst. f_equal. lia.
  - destruct r as [|nx r'].
    + simpl in H |- *. inversion H; subst. f_equal. lia.
    + destruct (_ && _).
      * inversion H; subst. f_equal. lia.
      * assert (P := blockComment_pos _ _ _ _ H).
        rewrite (IH _ _ _ (S p') H). f_equal. lia.
Qed.

Lemma lineComment_shift r : forall p q b p',
  lineComment r p = (q, b) -> lineComment r p' = (q - p + p', b).
Proof.
  induction r as [|c r IH]; intros p q b p' H; simpl in H |- *.
  - inversion H; subst. f_equal. lia.
  - destruct (_ =? _)%N.
    + inversion H; subst. f_equal. lia.
    + assert (P := lineComment_pos _ _ _ _ H).
      rewrite (IH _ _ _ (S p') H). f_equal. lia.
Qed.

Lemma last_map_Some {A B : Type} (h : A -> B) (l : list A) x :
  last (map Some l) None = Some x ->
  last (map Some (map h l)) None = Some (h x).
Proof.
  induction l as [|a l IH]; simpl; [discriminate|].
  destruct l as [|b l].
  - simpl. intros H; inversion H; auto.
  - intros H. apply IH in H. exact H.
Qed.

Lemma shiftNode_end b1 b2 x :
  node_end (shiftNode b1 b2 x) = shiftPos b1 b2 (node_end x).
Proof. destruct x; reflexivity. Qed.

Lemma shiftNode_content b1 b2 x :
  node_content (shiftNode b1 b2 x) = node_content x.
Proof. destruct x; reflexivity. Qed.

Section Shift.

Variables t1 t2 : str.
Variables b1 b2 : nat.
Hypothesis Hsuf : skipn b1 t1 = skipn b2 t2.
Hypothesis Hb1 : b1 <= length t1.
Hypothesis Hb2 : b2 <= length t2.

Local Abbreviation sh := (shiftPos b1 b2).
Local Abbreviation shN := (shiftNode b1 b2).
Local Abbreviation shF := (shiftFrame b1 b2).
Local Abbreviation shG := (shiftShared b1 b2).

Lemma skipn_shift p : b1 <= p -> skipn (sh p) t2 = skipn p t1.
Proof.
  intros Hp. unfold shiftPos.
  rewrite <- skipn_skipn, <- Hsuf, skipn_skipn. f_equal. lia.
Qed.

Lemma nth_error_shift p : b1 <= p -> nth_error t2 (sh p) = nth_error t1 p.
Proof.
  intros Hp. rewrite <- !hd_error_skipn, skipn_shift; auto.
Qed.

Lemma slice_shift a b :
  b1 <= a -> b1 <= b -> slice t2 (sh a) (sh b) = slice t1 a b.
Proof.
  intros Ha Hb. unfold slice. rewrite skipn_shift by auto.
  f_equal. unfold shiftPos. lia.
Qed.

Lemma addWord_shift f arr2 e f' :
  addWord t1 f e = Done f' -> b1 <= start f -> b1 <= e ->
  exists new, arr f' = arr f ++ new /\
    addWord t2 (shF arr2 f) (sh e) = Done (shF (arr2 ++ map shN new) f').
Proof.
  unfold addWord. intros H Hs He. cbn [start shiftFrame].
  replace (sh e <=? sh (start f)) with (e <=? start f).
  2:{ unfold shiftPos. destruct (Nat.leb_spec e (start f));
      symmetry; [apply Nat.leb_le|apply Nat.leb_gt]; lia. }
  destruct (e <=? start f).
  { inversion H; subst. exists []. rewrite !app_nil_r. auto. }
  rewrite slice_shift by auto.
  destruct (tokenWithoutSpaces _) as [o t].
  destruct (isEmpty t).
  { inversion H; subst. exists []. rewrite !app_nil_r. auto. }
  destruct (existsb isWhite t); [discriminate|].
  inversion H; subst. exists [AstWord t (start f + o) e].
  split; [reflexivity|]. unfold push, shiftFrame. simpl.
  replace (sh (start f + o)) with (sh (start f) + o)
    by (unfold shiftPos; lia).
  reflexivity.
Qed.

Lemma ensureTokenExists_shift f g arr2 f' :
  ensureTokenExists f g = Done f' -> length arr2 = length (arr f) ->
  ensureTokenExists (shF arr2 f) (shG g) = Done (shF arr2 f').
Proof.
  unfold ensureTokenExists. simpl. intros H L. rewrite L.
  destruct (_ || _)%bool; [discriminate|]. inversion H; subst. reflexivity.
Qed.

Lemma firstSwitch_shift c nx f g arr2 f' g' :
  firstSwitch t1 c nx f g = Done (f', g') ->
  b1 <= start f -> start f <= pos g -> b1 + 1 <= pos g ->
  exists new, arr f' = arr f ++ new /\
    b1 <= start f' /\ start f' <= pos g' /\
    firstSwitch t2 c nx (shF arr2 f) (shG g)
    = Done (shF (arr2 ++ map shN new) f', shG g').
Proof.
  unfold firstSwitch. intros H Hs Hsp Hp.
  assert (Triv : forall f0 g0, b1 <= start f0 -> start f0 <= pos g0 ->
            exists new, arr f0 = arr f0 ++ new /\
              b1 <= start f0 /\ start f0 <= pos g0 /\
              @Done (frame * shared) (shF arr2 f0, shG g0)
              = Done (shF (arr2 ++ map shN new) f0, shG g0)).
  { intros f0 g0 ? ?. exists []. rewrite !app_nil_r. auto. }
  destruct nx as [nx|]; [|inversion H; subst; apply Triv; auto].
  destruct (_ && _).
  { inversion H; subst. exists []. rewrite !app_nil_r. simpl.
    repeat split; auto; try lia.
    unfold shiftFrame, shiftShared, set_start, set_pos. simpl.
    do 3 f_equal; unfold shiftPos; lia. }
  destruct (_ && _).
  { bind_inv H. assert (S1 := addWord_Done _ _ _ _ Hm).
    destruct (addWord_shift _ arr2 _ _ Hm Hs ltac:(lia)) as (new & En & Hw).
    change (pos (shG g)) with (sh (pos g)).
    replace (sh (pos g) - 1) with (sh (pos g - 1)) by (unfold shiftPos; lia).
    rewrite Hw. cbn [bind]. rewrite skipn_shift by lia.
    destruct (blockComment (skipn (pos g) t1) (pos g)) as [p b] eqn:Eb.
    rewrite (blockComment_shift _ _ _ _ (sh (pos g)) Eb).
    apply blockComment_pos in Eb. inversion H; subst.
    exists new. split; [destruct b; exact En|].
    split; [destruct b; simpl; lia|]. split; [destruct b; simpl; lia|].
    f_equal. f_equal.
    - destruct b; unfold shiftFrame, set_start; simpl; f_equal;
        unfold shiftPos; lia.
    - unfold shiftShared, set_pos. simpl. f_equal. unfold shiftPos. lia. }
  destruct (_ && _); [|inversion H; subst; apply Triv; auto].
  bind_inv H. assert (S1 := addWord_Done _ _ _ _ Hm).
  destruct (addWord_shift _ arr2 _ _ Hm Hs ltac:(lia)) as (new & En & Hw).
  change (pos (shG g)) with (sh (pos g)).
  replace (sh (pos g) - 1) with (sh (pos g - 1)) by (unfold shiftPos; lia).
  rewrite Hw. cbn [bind]. rewrite skipn_shift by lia.
  destruct (lineComment (skipn (pos g) t1) (pos g)) as [p b] eqn:Eb.
  rewrite (lineComment_shift _ _ _ _ (sh (pos g)) Eb).
  apply lineComment_pos in Eb. inversion H; subst.
  exists new. split; [destruct b; exact En|].
  split; [destruct b; simpl; lia|]. split; [destruct b; simpl; lia|].
  f_equal. f_equal.
  - destruct b; unfold shiftFrame, set_start; simpl; f_equal;
      unfold shiftPos; lia.
  - unfold shiftShared, set_pos. simpl. f_equal. unfold shiftPos. lia.
Qed.

Lemma shiftShared_set_pos g p :
  b1 <= pos g ->
  set_pos (shG g) (pos (shG g) + p) = shG (set_pos g (pos g + p)).
Proof.
  intros H. unfold shiftShared, set_pos. simpl. f_equal. unfold shiftPos. lia.
Qed.

Lemma skipn_shift_cons g :
  b1 <= pos g -> pos g < length t1 ->
  skipn (pos (shG g)) t2 = nth (pos g) t1 0%N :: skipn (pos g + 1) t1.
Proof.
  intros H L. change (pos (shG g)) with (sh (pos g)).
  rewrite skipn_shift by auto. apply skipn_nth_cons. exact L.
Qed.

(** A run on [t1] from [b1] on and the run on [t2] from the moved state. *)
Lemma main_loop_shift n : forall f g a g' arr2,
  main_loop t1 n f g = Done (a, g') ->
  pcount g' = (pcount g - 1)%Z ->
  b1 <= start f -> start f <= pos g ->
  length arr2 = length (arr f) ->
  exists new, a = arr f ++ new /\
    main_loop t2 n (shF arr2 f) (shG g) = Done (arr2 ++ map shN new, shG g').
Proof.
  induction n as [|n IH]; intros f g a g' arr2 H Hc Hs Hsp La.
  { simpl in H. destruct (length t1 <=? pos g); [|discriminate].
    inversion H; subst. lia. }
  destruct (main_loop_clean_inv _ _ _ _ _ _ H Hc) as [Hlt Hcases].
  cbv zeta in Hcases.
  assert (Hp : b1 <= pos g) by lia.
  assert (Hs2 := skipn_shift_cons g Hp Hlt).
  destruct Hcases as [(f1 & g2 & Hfs & Hp2 & Hpos & C1 & C2 & C3 & Hrec)
                     |[(Ec & f2 & f3 & Haw & He & Hrec)
                     |[(El & o & tok & ps & l & g2 & Hst & Htok & Hne & Hw
                           & Hin & Hp2 & Hl & Hrec)
                      |(Er & f2 & f3 & Haw & He & -> & ->)]]].
  - rewrite (main_loop_skip t2 _ _ n _ _ Hs2 C1 C2 C3).
    rewrite shiftShared_set_pos by auto.
    change (pos (shG g) + 1) with (sh (pos g) + 1).
    replace (sh (pos g) + 1) with (sh (pos g + 1)) by (unfold shiftPos; lia).
    rewrite nth_error_shift by lia.
    destruct (firstSwitch_shift _ _ _ _ arr2 _ _ Hfs Hs
                ltac:(simpl; lia) ltac:(simpl; lia))
      as (new1 & E1 & S1 & S2 & Hf2).
    rewrite Hf2. cbn [bind].
    destruct (IH _ _ _ _ (arr2 ++ map shN new1) Hrec ltac:(lia) S1 S2)
      as (new2 & E2 & Hr2).
    { rewrite E1, !length_app, length_map. lia. }
    exists (new1 ++ new2). rewrite E2, E1, <- app_assoc. split; [reflexivity|].
    rewrite Hr2, map_app, app_assoc. reflexivity.
  - rewrite Ec in Hs2. rewrite (main_loop_comma t2 _ n _ _ Hs2).
    change (pos (shG g)) with (sh (pos g)).
    destruct (addWord_shift _ arr2 _ _ Haw Hs Hp) as (new1 & E1 & Hw2).
    rewrite Hw2. cbn [bind].
    change (sh (pos g)) with (pos (shG g)).
    rewrite shiftShared_set_pos by auto.
    rewrite (ensureTokenExists_shift _ _ _ _ He)
      by (rewrite E1, !length_app, length_map; lia).
    cbn [bind].
    assert (S3 := ensureTokenExists_Done _ _ _ He).
    destruct S3 as (S3 & S4 & _).
    assert (S5 := addWord_Done _ _ _ _ Haw).
    destruct (IH _ _ _ _ (arr2 ++ map shN new1) Hrec
                ltac:(simpl; lia) ltac:(simpl; lia) ltac:(simpl; lia))
      as (new2 & E2 & Hr2).
    { simpl. rewrite S4, E1, !length_app, length_map. lia. }
    simpl in E2. rewrite S4, E1 in E2.
    exists (new1 ++ new2). rewrite E2, <- app_assoc. split; [reflexivity|].
    rewrite map_app, app_assoc, <- Hr2. f_equal.
    unfold set_start, shiftFrame. simpl. f_equal. unfold shiftPos. lia.
  - rewrite El in Hs2. rewrite (main_loop_lparen t2 _ n _ _ Hs2).
    assert (Mi := main_loop_mono _ _ _ _ _ _ Hin). simpl in Mi.
    destruct (main_loop_clean_new t1 n _ _ _ _ Hin
                ltac:(simpl; lia) ltac:(simpl; lia)) as (newi & Ei & Hni).
    simpl in Ei, Hni. subst newi.
    assert (Hle := Hni l (last_Some_In _ _ Hl)).
    destruct (IH _ _ _ _ [] Hin ltac:(simpl; lia) ltac:(simpl; lia)
                ltac:(simpl; lia) eq_refl) as (newi & Ei & Hri).
    simpl in Ei. subst newi. simpl app in Hri.
    unfold addFunc. cbn [start shiftFrame].
    change (pos (shG g)) with (sh (pos g)).
    replace (sh (pos g) <=? sh (start f)) with false
      by (symmetry; apply Nat.leb_gt; unfold shiftPos; lia).
    rewrite slice_shift by auto. rewrite Htok.
    destruct tok as [|c0 tok]; [congruence|]. simpl isEmpty. cbv iota.
    rewrite Hw.
    change (sh (pos g)) with (pos (shG g)).
    rewrite shiftShared_set_pos by auto.
    replace (new_frame (pos (shG g) + 1))
      with (shF [] (new_frame (pos g + 1)))
      by (unfold new_frame, shiftFrame; simpl; f_equal; unfold shiftPos; lia).
    rewrite Hri. cbn [bind].
    rewrite (last_map_Some shN ps l Hl). rewrite shiftNode_end.
    cbn [bind].
    set (node := AstFunction (c0 :: tok) ps (start f + o) (node_end l + 1)
                   (slice t1 (start f + o) (node_end l + 1))) in *.
    destruct (IH _ _ _ _ (arr2 ++ [shN node]) Hrec
                ltac:(simpl; lia) ltac:(simpl; lia) ltac:(simpl; lia))
      as (new2 & E2 & Hr2).
    { simpl. rewrite !length_app. simpl. lia. }
    simpl in E2. rewrite <- app_assoc in E2.
    exists ([node] ++ new2). split; [exact E2|].
    rewrite map_app, app_assoc.
    change (map shN [node]) with [shN node]. rewrite <- Hr2.
    replace (sh (start f) + o) with (sh (start f + o))
      by (unfold shiftPos; lia).
    replace (sh (node_end l) + 1) with (sh (node_end l + 1))
      by (unfold shiftPos; lia).
    rewrite slice_shift by lia. reflexivity.
  - rewrite Er in Hs2. rewrite (main_loop_rparen t2 _ n _ _ Hs2).
    change (pos (shG g)) with (sh (pos g)).
    destruct (addWord_shift _ arr2 _ _ Haw Hs Hp) as (new1 & E1 & Hw2).
    rewrite Hw2. cbn [bind].
    change (sh (pos g)) with (pos (shG g)).
    rewrite shiftShared_set_pos by auto.
    rewrite (ensureTokenExists_shift _ _ _ _ He)
      by (rewrite E1, !length_app, length_map; lia).
    cbn [bind].
    assert (S3 := ensureTokenExists_Done _ _ _ He).
    destruct S3 as (_ & S4 & _).
    exists new1. rewrite S4, E1. split; [reflexivity|]. reflexivity.
Qed.

End Shift.

(** ** Replacing a Word of the text *)

Lemma firstSwitch_quiet t c nx f g :
  triggers c nx = false -> firstSwitch t c nx f g = Done (f, g).
Proof.
  unfold triggers, firstSwitch. destruct nx as [nx|]; auto.
  rewrite !orb_false_iff. intros [[-> ->] ->]. reflexivity.
Qed.

(** A first switch that fires flushes at most one Word, which ends before
    [char], and resets [start] to the new [pos] unless it runs to the end
    of the text. *)
Lemma firstSwitch_loud t c nx f g f1 g2 :
  triggers c nx = true ->
  firstSwitch t c nx f g = Done (f1, g2) ->
  1 <= pos g -> pos g < length t ->
  pos g + 1 <= pos g2 /\
  (start f1 = pos g2 \/ length t <= pos g2) /\
  lastToken f1 = lastToken f /\
  exists fl, arr f1 = arr f ++ fl /\
    forall x, In x fl -> exists c' o', x = AstWord c' o' (pos g - 1).
Proof.
  unfold triggers, firstSwitch. destruct nx as [nx|]; [|discriminate].
  intros Ht H Hp Hl.
  destruct (_ && _).
  { inversion H; subst. simpl. split; [lia|]. split; [auto|]. split; [auto|].
    exists []. rewrite app_nil_r. split; auto. intros x []. }
  destruct (_ && _).
  { bind_inv H. destruct (blockComment _ _) as [p b] eqn:Eb.
    inversion H; subst. simpl.
    destruct (addWord_wordSpan _ _ _ _ Hm ltac:(lia)) as (fl & Efl & Hfl).
    assert (S1 := addWord_Done _ _ _ _ Hm).
    destruct b.
    - apply blockComment_found in Eb. split; [lia|]. split; [auto|].
      split; [simpl; tauto|].
      exists fl. split; [exact Efl|]. intros x Hx. apply Hfl in Hx. tauto.
    - apply blockComment_open in Eb. rewrite length_skipn in Eb.
      split; [lia|]. split; [right; lia|]. split; [tauto|].
      exists fl. split; [exact Efl|]. intros x Hx. apply Hfl in Hx. tauto. }
  destruct (_ && _); [|discriminate].
  bind_inv H. destruct (lineComment _ _) as [p b] eqn:Eb.
  inversion H; subst. simpl.
  destruct (addWord_wordSpan _ _ _ _ Hm ltac:(lia)) as (fl & Efl & Hfl).
  assert (S1 := addWord_Done _ _ _ _ Hm).
  destruct b.
  - apply lineComment_found in Eb. split; [lia|]. split; [auto|].
    split; [simpl; tauto|].
    exists fl. split; [exact Efl|]. intros x Hx. apply Hfl in Hx. tauto.
  - apply lineComment_open in Eb. rewrite length_skipn in Eb.
    split; [lia|]. split; [right; lia|]. split; [tauto|].
    exists fl. split; [exact Efl|]. intros x Hx. apply Hfl in Hx. tauto.
Qed.

Lemma split_at_node (x : AstNode) fl : forall new pre post,
  fl ++ new = pre ++ x :: post -> ~ In x fl ->
  exists pre', pre = fl ++ pre' /\ new = pre' ++ x :: post.
Proof.
  induction fl as [|y fl IH]; intros new pre post E Hn; simpl in *.
  - exists pre. auto.
  - destruct pre as [|z pre]; simpl in E; inversion E; subst.
    + exfalso. apply Hn. left. reflexivity.
    + destruct (IH new pre post H1) as (pre' & -> & ->); [tauto|].
      exists pre'. auto.
Qed.

Lemma addWord_cases t f e f' :
  addWord t f e = Done f' ->
  f' = f \/
  exists o tok, start f < e /\
    tokenWithoutSpaces (slice t (start f) e) = (o, tok) /\ tok <> [] /\
    f' = push f (AstWord tok (start f + o) e).
Proof.
  unfold addWord. destruct (e <=? start f) eqn:E.
  { intros H; inversion H; auto. }
  apply Nat.leb_gt in E.
  destruct (tokenWithoutSpaces _) as [o tok].
  destruct tok as [|c0 tok]; [intros H; inversion H; auto|].
  simpl isEmpty. cbv iota.
  destruct (existsb isWhite (c0 :: tok)); [discriminate|].
  intros H; inversion H; subst. right. exists o, (c0 :: tok).
  repeat split; auto. discriminate.
Qed.

Lemma skipn_slice (t : str) a b :
  a <= b -> b <= length t -> skipn a t = slice t a b ++ skipn b t.
Proof.
  intros Hab Hb. unfold slice.
  rewrite <- (firstn_skipn (b - a) (skipn a t)) at 1. f_equal.
  rewrite skipn_skipn. f_equal. lia.
Qed.

Lemma firstn_add {A : Type} (l : list A) a b :
  a <= length l -> firstn (a + b) l = firstn a l ++ firstn b (skipn a l).
Proof.
  intros Ha. rewrite <- (firstn_skipn a l) at 1.
  assert (L : length (firstn a l) = a) by (rewrite length_firstn; lia).
  rewrite <- L at 1. apply firstn_app_2.
Qed.

Lemma ensureTokenExists_same f g f' f2 g2 :
  ensureTokenExists f g = Done f' ->
  length (arr f2) = length (arr f) -> lastToken f2 = lastToken f ->
  ensureTokenExists f2 g2
  = Done {| start := start f2; arr := arr f2; lastToken := lastToken f' |}.
Proof.
  unfold ensureTokenExists. intros H L T. rewrite L, T.
  destruct (_ || _)%bool; [discriminate|]. inversion H; subst. reflexivity.
Qed.

Lemma main_loop_more t n m f g r :
  main_loop t n f g = Done r -> n <= m -> main_loop t m f g = Done r.
Proof.
  intros H L. rewrite (main_loop_fuel t n m f g L); [exact H|].
  rewrite H. discriminate.
Qed.

Lemma triggers_plain c v : plainChar v = true -> triggers c (Some v) = false.
Proof.
  unfold plainChar, triggers. rewrite !andb_true_iff, !negb_true_iff.
  intros [[W I] S]. apply inert_neq in I. destruct I as (_ & _ & _ & I4 & _).
  rewrite S, I4, !andb_false_r, !orb_false_r.
  destruct (N.eqb_spec v c_nl) as [->|]; [|apply andb_false_r].
  vm_compute in W. discriminate.
Qed.

Section Cross.

(** The text [t1] holds the Word [c] at [off]; in [t2] the plain word [V]
    stands in its place. *)
Variable t1 : str.
Variables c V : str.
Variables off e : nat.

Hypothesis HV : plainWord V = true.
Hypothesis Hspan : wordSpan t1 (AstWord c off e).
Hypothesis He : e < length t1.

Local Abbreviation b1 := (off + length c).
Local Abbreviation b2 := (off + length V).
Local Abbreviation t2 := (firstn off t1 ++ V ++ skipn (off + length c) t1).
Local Abbreviation target := (AstWord c off e).
Local Abbreviation target' :=
  (AstWord V off (shiftPos (off + length c) (off + length V) e)).
Local Abbreviation sh := (shiftPos (off + length c) (off + length V)).
Local Abbreviation shN := (shiftNode (off + length c) (off + length V)).
Local Abbreviation shF := (shiftFrame (off + length c) (off + length V)).
Local Abbreviation shG := (shiftShared (off + length c) (off + length V)).

Lemma cross_bounds : 1 <= length c /\ off + length c <= e.
Proof.
  destruct Hspan as (Hne & _ & Hle & _). split; [|exact Hle].
  destruct c; [congruence|simpl; lia].
Qed.

Lemma cross_length_firstn : length (firstn off t1) = off.
Proof. destruct cross_bounds. rewrite length_firstn. lia. Qed.

Lemma cross_agree : agree off t1 t2.
Proof.
  destruct cross_bounds. split; [|split; [lia|]].
  - rewrite firstn_app, firstn_firstn, Nat.min_id, cross_length_firstn.
    rewrite Nat.sub_diag. simpl. rewrite app_nil_r. reflexivity.
  - rewrite length_app, cross_length_firstn. lia.
Qed.

Lemma cross_suffix : skipn b1 t1 = skipn b2 t2.
Proof.
  rewrite app_assoc. rewrite skipn_app_length; [reflexivity|].
  rewrite length_app, cross_length_firstn. reflexivity.
Qed.

Lemma cross_b2 : b2 <= length t2.
Proof. rewrite !length_app, cross_length_firstn. lia. Qed.

Lemma cross_b1 : b1 <= length t1.
Proof. destruct cross_bounds. lia. Qed.

(** No node the parser adds once [start] is past [off] is the Word. *)
Lemma no_later_target n f g a g' fl pre post f0 :
  main_loop t1 n f g = Done (a, g') ->
  pcount g' = (pcount g - 1)%Z ->
  start f <= pos g -> off < start f ->
  arr f = arr f0 ++ fl -> ~ In target fl ->
  a = arr f0 ++ pre ++ target :: post -> False.
Proof.
  intros Hr Hc Hs Ho Ea Hn Eq.
  destruct (main_loop_clean_new t1 n _ _ _ _ Hr Hc Hs) as (new & E & Hnew).
  rewrite E, Ea, <- app_assoc in Eq. apply app_inv_head in Eq.
  destruct (split_at_node _ _ _ _ _ Eq Hn) as (pre' & _ & E2).
  assert (Hin : In target new) by (rewrite E2; apply in_or_app; right; left; auto).
  apply Hnew in Hin. simpl in Hin. lia.
Qed.

Lemma word_end_not_target (fl : list AstNode) p :
  p <> e ->
  (forall x, In x fl -> exists c' o', x = AstWord c' o' p) ->
  ~ In target fl.
Proof.
  intros Hp Hfl Hin. apply Hfl in Hin. destruct Hin as (c' & o' & E).
  inversion E. congruence.
Qed.

Lemma main_loop_eof t n f g :
  length t <= pos g -> main_loop t n f g = Done (arr f, g).
Proof.
  intros H. destruct n; simpl;
    (replace (length t <=? pos g) with true
       by (symmetry; apply Nat.leb_le; exact H)); reflexivity.
Qed.

Lemma set_pos_same g : set_pos g (pos g) = g.
Proof. destruct g; reflexivity. Qed.

(** From [off] to the delimiter at [e] the loop only advances [pos]. *)
Lemma span_run n : forall f g a g' pre post,
  main_loop t1 n f g = Done (a, g') ->
  pcount g' = (pcount g - 1)%Z ->
  start f <= off -> off <= pos g -> pos g <= e ->
  a = arr f ++ pre ++ target :: post ->
  exists n', main_loop t1 n' f (set_pos g e) = Done (a, g').
Proof.
  induction n as [|n IH]; intros f g a g' pre post Hr Hc Hs Ho Hpe Ea.
  { simpl in Hr. destruct (length t1 <=? pos g); [|discriminate].
    inversion Hr; subst. lia. }
  destruct (Nat.eq_dec (pos g) e) as [Ee|Ne].
  { exists (S n). rewrite <- Ee, set_pos_same. exact Hr. }
  destruct (main_loop_clean_inv _ _ _ _ _ _ Hr Hc) as [Hlt Hcases].
  cbv zeta in Hcases.
  destruct Hcases as [(f1 & g2 & Hfs & Hp2 & Hpos & C1 & C2 & C3 & Hrec)
                     |[(Ec & f2 & f3 & Haw & Hens & Hrec)
                     |[(El & o & tok & ps & l & g2 & Hst & Htok & Hne & Hw
                           & Hin & Hp2 & Hl & Hrec)
                      |(Er & f2 & f3 & Haw & Hens & -> & ->)]]].
  - destruct (triggers (nth (pos g) t1 0%N) (nth_error t1 (pos g + 1))) eqn:Tr.
    + exfalso.
      assert (Hnx : pos g + 1 < length t1).
      { apply nth_error_Some. intros E. rewrite E in Tr. discriminate. }
      destruct (firstSwitch_loud _ _ _ _ _ _ _ Tr Hfs ltac:(simpl; lia)
                  ltac:(simpl; lia))
        as (P1 & P2 & _ & fl & Efl & Hfl).
      simpl in P1, Hfl. rewrite Nat.add_sub in Hfl.
      assert (M := main_loop_mono _ _ _ _ _ _ Hrec).
      destruct M as (_ & _ & M). specialize (M ltac:(lia)).
      destruct P2 as [P2|P2].
      * apply (no_later_target _ _ _ _ _ fl pre post f Hrec); auto; try lia.
        apply (word_end_not_target fl (pos g)); auto.
      * rewrite (main_loop_eof t1 n f1 g2 P2) in Hrec.
        inversion Hrec; subst. lia.
    + rewrite firstSwitch_quiet in Hfs by exact Tr.
      injection Hfs as Ef Eg. rewrite <- Ef, <- Eg in Hrec.
      destruct (IH _ _ _ _ pre post Hrec ltac:(simpl; lia) Hs
                  ltac:(simpl; lia) ltac:(simpl; lia) Ea) as (n' & Hn').
      exists n'. exact Hn'.
  - exfalso.
    destruct (addWord_wordSpan _ _ _ _ Haw ltac:(lia)) as (fl & Efl & Hfl).
    apply ensureTokenExists_Done in Hens. destruct Hens as (_ & E3 & _).
    apply (no_later_target _ _ _ _ _ fl pre post f Hrec); simpl; auto; try lia.
    + rewrite E3. exact Efl.
    + apply (word_end_not_target fl (pos g)); auto.
      intros x Hx. apply Hfl in Hx. tauto.
  - exfalso.
    assert (Mi := main_loop_mono _ _ _ _ _ _ Hin). simpl in Mi.
    apply (no_later_target _ _ _ _ _
             [AstFunction tok ps (start f + o) (node_end l + 1)
                (slice t1 (start f + o) (node_end l + 1))]
             pre post f Hrec); simpl; auto; try lia.
    intros [X|[]]. discriminate.
  - exfalso.
    destruct (addWord_wordSpan _ _ _ _ Haw ltac:(lia)) as (fl & Efl & Hfl).
    apply ensureTokenExists_Done in Hens. destruct Hens as (_ & E3 & _).
    rewrite E3, Efl in Ea. apply app_inv_head in Ea.
    assert (Hin : In target fl).
    { rewrite Ea. apply in_or_app. right. left. reflexivity. }
    revert Hin. apply (word_end_not_target fl (pos g)); auto.
    intros x Hx. apply Hfl in Hx. tauto.
Qed.

Lemma cross_skipn_off : skipn off t2 = V ++ skipn b1 t1.
Proof. apply skipn_app_length. symmetry. apply cross_length_firstn. Qed.

Lemma cross_trail_white : forallb isWhite (slice t1 b1 e) = true.
Proof. destruct Hspan as (_ & _ & _ & _ & W). exact W. Qed.

Lemma cross_sh_e : sh e = off + length V + (e - b1).
Proof. destruct cross_bounds. unfold shiftPos. lia. Qed.

(** On [t2] the loop passes over [V] and the white space after it. *)
Lemma cross_inert_run f g m :
  pos g = off ->
  main_loop t2 (length V + (e - b1) + m) f g
  = main_loop t2 m f (set_pos g (sh e)).
Proof.
  intros Hp. destruct cross_bounds as [B1 B2].
  assert (Hs : skipn (pos g) t2 = (V ++ slice t1 b1 e) ++ skipn e t1).
  { rewrite Hp, cross_skipn_off, <- app_assoc. f_equal.
    apply skipn_slice; lia. }
  assert (Hl : length (V ++ slice t1 b1 e) = length V + (e - b1)).
  { rewrite length_app. f_equal. unfold slice.
    rewrite length_firstn, length_skipn. lia. }
  rewrite <- Hl. rewrite (main_loop_inert t2 _ _ m f g Hs).
  - rewrite Hl, Hp, cross_sh_e. f_equal. f_equal. lia.
  - rewrite forallb_app. apply andb_true_iff. split.
    + apply plainWord_facts in HV. tauto.
    + apply forallb_forall. intros x Hx. apply isWhite_inert.
      revert x Hx. apply forallb_forall. apply cross_trail_white.
Qed.

(** Where [t1] flushes the Word [c], [t2] flushes the Word [V]. *)
Lemma addWord_target' f o :
  start f <= off ->
  tokenWithoutSpaces (slice t1 (start f) e) = (o, c) ->
  start f + o = off ->
  addWord t2 f (sh e) = Done (push f target').
Proof.
  intros Hs Ht Ho. destruct cross_bounds as [B1 B2].
  destruct Hspan as (Hne & _ & _ & _ & _).
  destruct (tokenWithoutSpaces_inv _ _ _ Ht Hne)
    as (lead & trail & Es & Lo & Wl & Wt).
  assert (Ls : length (slice t1 (start f) e) = e - start f).
  { unfold slice. rewrite length_firstn, length_skipn. lia. }
  rewrite Es, !length_app in Ls.
  assert (Sk : skipn (start f) t1 = lead ++ c ++ trail ++ skipn e t1).
  { rewrite (skipn_slice t1 (start f) e) by lia.
    rewrite Es, <- !app_assoc. reflexivity. }
  assert (Sb : skipn b1 t1 = trail ++ skipn e t1).
  { apply skipn_app_inv in Sk. destruct Sk as [Sk _].
    apply skipn_app_inv in Sk. destruct Sk as [Sk _].
    rewrite <- Sk. f_equal. lia. }
  assert (Fo : firstn off t1 = firstn (start f) t1 ++ lead).
  { rewrite <- Ho, firstn_add by lia. f_equal.
    rewrite Sk, <- Lo. rewrite firstn_app, firstn_all, Nat.sub_diag.
    simpl. apply app_nil_r. }
  set (it := {| lead := lead; word := V; trail := trail |}).
  assert (Hit : wfItem it = true).
  { unfold wfItem. simpl. rewrite Wl, HV, Wt. reflexivity. }
  assert (Sl : slice t2 (start f) (sh e) = itemText it).
  { unfold slice, itemText. simpl.
    rewrite Fo, Sb, <- !app_assoc.
    rewrite skipn_app_length by (rewrite length_firstn; lia).
    replace (sh e - start f) with (length (lead ++ V ++ trail))
      by (rewrite !length_app, cross_sh_e; lia).
    rewrite !app_assoc. rewrite firstn_app, firstn_all, Nat.sub_diag.
    simpl. rewrite app_nil_r, <- !app_assoc. reflexivity. }
  rewrite (addWord_item t2 it f (sh e) Hit Sl). simpl.
  rewrite Lo, Ho. reflexivity.
Qed.

(** The Word a flush at [e] adds is the target when the target is still to
    come and [start] then moves past [off]. *)
Lemma flushed_is_target n f fa f1 g2 a g' pre post :
  addWord t1 f e = Done fa ->
  main_loop t1 n f1 g2 = Done (a, g') ->
  pcount g' = (pcount g2 - 1)%Z ->
  start f1 <= pos g2 -> off < start f1 ->
  arr f1 = arr fa ->
  a = arr f ++ pre ++ target :: post ->
  pre = [] /\
  (exists o, tokenWithoutSpaces (slice t1 (start f) e) = (o, c)
             /\ start f + o = off) /\
  arr fa = arr f ++ [target] /\
  exists new, a = arr f1 ++ new /\ post = new.
Proof.
  intros Haw Hr Hc Hs Ho Ea Eq.
  destruct (main_loop_clean_new t1 n _ _ _ _ Hr Hc Hs) as (new & E & Hnew).
  destruct (addWord_cases _ _ _ _ Haw) as [->|(o & tok & _ & Ht & _ & ->)].
  - exfalso. apply (no_later_target n f1 g2 a g' [] pre post f); auto.
    rewrite app_nil_r. exact Ea.
  - simpl in Ea. rewrite E, Ea, <- app_assoc in Eq. apply app_inv_head in Eq.
    destruct pre as [|y pre]; simpl in Eq.
    + inversion Eq; subst. split; [reflexivity|]. split; [eauto|].
      split; [reflexivity|]. exists post. rewrite Ea. auto.
    + exfalso. inversion Eq; subst.
      assert (Hin : In target (pre ++ target :: post))
        by (apply in_or_app; right; left; auto).
      apply Hnew in Hin. simpl in Hin. lia.
Qed.

(** The iteration at [e]: it flushes the Word, and the run on [t2] from the
    moved position does the same with [V]. *)
Lemma flush n : forall f g a g' pre post,
  main_loop t1 n f g = Done (a, g') ->
  pcount g' = (pcount g - 1)%Z ->
  start f <= off -> pos g = e ->
  a = arr f ++ pre ++ target :: post ->
  pre = [] /\
  main_loop t2 n f (shG g) = Done (arr f ++ target' :: map shN post, shG g').
Proof.
  intros f g a g' pre post Hr Hc Hs Hpe Ea.
  destruct cross_bounds as [B1 B2].
  destruct n as [|n].
  { simpl in Hr. destruct (length t1 <=? pos g); [|discriminate].
    inversion Hr; subst. lia. }
  destruct (main_loop_clean_inv _ _ _ _ _ _ Hr Hc) as [Hlt Hcases].
  cbv zeta in Hcases.
  assert (Hs2 := skipn_shift_cons t1 t2 b1 b2 cross_suffix cross_b1 cross_b2
                   g ltac:(lia) Hlt).
  assert (Eg1 : set_pos (shG g) (pos (shG g) + 1) = shG (set_pos g (pos g + 1))).
  { unfold shiftShared, set_pos. simpl. f_equal. unfold shiftPos. lia. }
  assert (Epos : pos (shG g) = sh e) by (simpl; rewrite Hpe; reflexivity).
  destruct Hcases as [(f1 & g2 & Hfs & Hp2 & Hpos & C1 & C2 & C3 & Hrec)
                     |[(Ec & f2 & f3 & Haw & Hens & Hrec)
                     |[(El & o & tok & ps & l & g2 & Hst & Htok & Hne & Hw
                           & Hin & Hp2 & Hl & Hrec)
                      |(Er & f2 & f3 & Haw & Hens & -> & ->)]]].
  - (* a comment opens at [e], or nothing is flushed *)
    destruct (triggers (nth (pos g) t1 0%N) (nth_error t1 (pos g + 1))) eqn:Tr.
    2:{ exfalso. rewrite firstSwitch_quiet in Hfs by exact Tr.
        injection Hfs as Ef Eg. rewrite <- Ef, <- Eg in Hrec.
        destruct (main_loop_clean_new t1 n _ _ _ _ Hrec ltac:(simpl; lia)
                    ltac:(simpl; lia)) as (new & E & Hnew).
        rewrite E in Ea. apply app_inv_head in Ea.
        assert (Hin : In target new)
          by (rewrite Ea; apply in_or_app; right; left; auto).
        apply Hnew in Hin. simpl in Hin. lia. }
    assert (Hnx : pos g + 1 < length t1).
    { apply nth_error_Some. intros E. rewrite E in Tr. discriminate. }
    destruct (firstSwitch_loud _ _ _ _ _ _ _ Tr Hfs ltac:(simpl; lia)
                ltac:(simpl; lia))
      as (P1 & P2 & P3 & fl & Efl & Hfl).
    simpl in P1.
    assert (M := main_loop_mono _ _ _ _ _ _ Hrec).
    destruct M as (_ & _ & M). specialize (M ltac:(lia)).
    destruct P2 as [P2|P2].
    2:{ exfalso. rewrite (main_loop_eof t1 n f1 g2 P2) in Hrec.
        inversion Hrec; subst. lia. }
    rewrite (main_loop_skip t2 _ _ n f (shG g) Hs2 C1 C2 C3).
    rewrite Eg1.
    replace (pos (shG g) + 1) with (sh (pos g + 1))
      by (simpl; unfold shiftPos; lia).
    rewrite (nth_error_shift t1 t2 b1 b2 cross_suffix cross_b1 cross_b2)
      by lia.
    revert Hfs. unfold firstSwitch.
    destruct (nth_error t1 (pos g + 1)) as [nx|]; [|discriminate].
    unfold triggers in Tr.
    destruct ((nth (pos g) t1 0 =? c_bslash)%N && (nx =? c_nl)%N).
    { intros E. exfalso. injection E as Ef1 Eg2.
      apply (no_later_target _ _ _ _ _ [] pre post f Hrec);
        auto; try lia.
      rewrite <- Ef1. simpl. rewrite app_nil_r. reflexivity. }
    destruct ((nth (pos g) t1 0 =? c_slash)%N && (nx =? c_star)%N).
    { intros E. bind_inv E. simpl pos in Hm. rewrite Nat.add_sub, Hpe in Hm.
      destruct (blockComment _ _) as [p b] eqn:Eb.
      injection E as Ef1 Eg2.
      assert (Hb : b = true).
      { destruct b; auto. exfalso.
        apply blockComment_open in Eb. rewrite length_skipn in Eb.
        simpl pos in Eb.
        rewrite (main_loop_eof t1 n f1 g2) in Hrec
          by (rewrite <- Eg2; simpl; lia).
        injection Hrec as _ Eg'. rewrite Eg' in M. lia. }
      subst b.
      destruct (flushed_is_target n f a0 f1 g2 a g' pre post Hm Hrec
                  ltac:(lia) ltac:(lia) ltac:(lia))
        as (-> & (o & Ht & Ho) & Ea0 & new & En & ->);
        [rewrite <- Ef1; reflexivity|exact Ea|].
      split; [reflexivity|].
      simpl pos.
      replace (sh (pos g + 1) - 1) with (sh e)
        by (rewrite Hpe; unfold shiftPos; lia).
      rewrite (addWord_target' f o Hs Ht Ho). cbn [bind].
      rewrite (skipn_shift t1 t2 b1 b2 cross_suffix cross_b1 cross_b2)
        by lia.
      simpl pos in Eb.
      rewrite (blockComment_shift _ _ _ _ (sh (pos g + 1)) Eb).
      cbn [bind].
      destruct (main_loop_shift t1 t2 b1 b2 cross_suffix cross_b1 cross_b2
                  n f1 g2 a g' (arr f ++ [target']) Hrec ltac:(lia)
                  ltac:(lia) ltac:(lia))
        as (new' & En' & Hr2).
      { rewrite <- Ef1. simpl. rewrite Ea0, !length_app. reflexivity. }
      rewrite En in En'. apply app_inv_head in En'. subst new'.
      rewrite <- app_assoc in Hr2. simpl app in Hr2. rewrite <- Hr2.
      apply blockComment_found in Eb.
      f_equal.
      - rewrite <- Ef1. unfold shiftFrame, set_start, push. simpl.
        apply addWord_Done in Hm. destruct Hm as [_ ->].
        f_equal. unfold shiftPos. lia.
      - rewrite <- Eg2. unfold shiftShared, set_pos. simpl.
        f_equal. unfold shiftPos. lia. }
    destruct ((nth (pos g) t1 0 =? c_slash)%N && (nx =? c_slash)%N);
      [|simpl in Tr; discriminate].
    intros E. bind_inv E. simpl pos in Hm. rewrite Nat.add_sub, Hpe in Hm.
    destruct (lineComment _ _) as [p b] eqn:Eb.
    injection E as Ef1 Eg2.
    assert (Hb : b = true).
    { destruct b; auto. exfalso.
      apply lineComment_open in Eb. rewrite length_skipn in Eb.
      simpl pos in Eb.
      rewrite (main_loop_eof t1 n f1 g2) in Hrec
        by (rewrite <- Eg2; simpl; lia).
      injection Hrec as _ Eg'. rewrite Eg' in M. lia. }
    subst b.
    destruct (flushed_is_target n f a0 f1 g2 a g' pre post Hm Hrec
                ltac:(lia) ltac:(lia) ltac:(lia))
      as (-> & (o & Ht & Ho) & Ea0 & new & En & ->);
      [rewrite <- Ef1; reflexivity|exact Ea|].
    split; [reflexivity|].
    simpl pos.
    replace (sh (pos g + 1) - 1) with (sh e)
      by (rewrite Hpe; unfold shiftPos; lia).
    rewrite (addWord_target' f o Hs Ht Ho). cbn [bind].
    rewrite (skipn_shift t1 t2 b1 b2 cross_suffix cross_b1 cross_b2)
      by lia.
    simpl pos in Eb.
    rewrite (lineComment_shift _ _ _ _ (sh (pos g + 1)) Eb).
    cbn [bind].
    destruct (main_loop_shift t1 t2 b1 b2 cross_suffix cross_b1 cross_b2
                n f1 g2 a g' (arr f ++ [target']) Hrec ltac:(lia)
                ltac:(lia) ltac:(lia))
      as (new' & En' & Hr2).
    { rewrite <- Ef1. simpl. rewrite Ea0, !length_app. reflexivity. }
    rewrite En in En'. apply app_inv_head in En'. subst new'.
    rewrite <- app_assoc in Hr2. simpl app in Hr2. rewrite <- Hr2.
    apply lineComment_found in Eb.
    f_equal.
    + rewrite <- Ef1. unfold shiftFrame, set_start, push. simpl.
      apply addWord_Done in Hm. destruct Hm as [_ ->].
      f_equal. unfold shiftPos. lia.
    + rewrite <- Eg2. unfold shiftShared, set_pos. simpl.
      f_equal. unfold shiftPos. lia.
  - (* a comma at [e] *)
    rewrite Hpe in Haw.
    assert (S3 := ensureTokenExists_Done _ _ _ Hens).
    destruct S3 as (S3 & S4 & _ & S5).
    assert (S6 := addWord_Done _ _ _ _ Haw). destruct S6 as [S6 S7].
    destruct (flushed_is_target n f f2 _ _ a g' pre post Haw Hrec
                ltac:(simpl; lia) ltac:(simpl; lia) ltac:(simpl; lia))
      as (-> & (o & Ht & Ho) & Ea0 & new & En & ->);
      [simpl; exact S4|exact Ea|].
    split; [reflexivity|].
    rewrite Ec in Hs2. rewrite (main_loop_comma t2 _ n f (shG g) Hs2).
    rewrite Epos, (addWord_target' f o Hs Ht Ho). cbn [bind].
    rewrite (ensureTokenExists_same _ _ _ (push f target') _ Hens)
      by (simpl; rewrite ?Ea0, ?length_app; auto).
    cbn [bind].
    destruct (main_loop_shift t1 t2 b1 b2 cross_suffix cross_b1 cross_b2
                n _ _ a g' (arr f ++ [target']) Hrec ltac:(simpl; lia)
                ltac:(simpl; lia) ltac:(simpl; lia))
      as (new' & En' & Hr2).
    { simpl. rewrite S4, Ea0, !length_app. reflexivity. }
    rewrite En in En'. apply app_inv_head in En'. subst new'.
    rewrite <- app_assoc in Hr2. simpl app in Hr2. rewrite <- Hr2.
    rewrite <- Epos, Eg1. f_equal.
    unfold shiftFrame, set_start, push. simpl. f_equal.
    unfold shiftPos. lia.
  - (* an opening parenthesis at [e] *)
    exfalso.
    assert (Mi := main_loop_mono _ _ _ _ _ _ Hin). simpl in Mi.
    apply (no_later_target _ _ _ _ _
             [AstFunction tok ps (start f + o) (node_end l + 1)
                (slice t1 (start f + o) (node_end l + 1))]
             pre post f Hrec); simpl; auto; try lia.
    intros [X|[]]. discriminate.
  - (* the closing parenthesis at [e] *)
    rewrite Hpe in Haw.
    assert (S3 := ensureTokenExists_Done _ _ _ Hens).
    destruct S3 as (S3 & S4 & _ & S5).
    destruct (addWord_cases _ _ _ _ Haw) as [->|(o & tok & _ & Ht & _ & ->)].
    { exfalso. rewrite S4 in Ea. rewrite <- (app_nil_r (arr f)) in Ea at 1.
      apply app_inv_head in Ea. destruct pre; discriminate. }
    simpl in S4. rewrite S4 in Ea. apply app_inv_head in Ea.
    destruct pre as [|y pre]; simpl in Ea.
    2:{ exfalso. injection Ea as _ Ea. destruct pre; discriminate. }
    injection Ea as Etok Eoff Epost. rewrite Etok in Ht, Hens.
    rewrite <- Epost. split; [reflexivity|].
    rewrite Er in Hs2. rewrite (main_loop_rparen t2 _ n f (shG g) Hs2).
    rewrite Epos, (addWord_target' f o Hs Ht Eoff). cbn [bind].
    rewrite (ensureTokenExists_same _ _ _ (push f target') _ Hens)
      by (simpl; rewrite ?length_app; auto).
    cbn [bind]. simpl. rewrite <- Epos, Eg1. reflexivity.
Qed.

Lemma cross_first_char :
  exists v0, nth_error t2 off = Some v0 /\ plainChar v0 = true.
Proof.
  rewrite nth_error_skipn_hd, cross_skipn_off.
  assert (P := HV). unfold plainWord in P. apply andb_true_iff in P.
  destruct P as [P1 P2]. destruct V as [|v0 V']; [discriminate|].
  exists v0. split; [reflexivity|]. simpl in P2.
  apply andb_true_iff in P2. tauto.
Qed.

(** From [off] on: the Word is flushed at [e]. *)
Lemma cross_at n f g a g' pre post :
  main_loop t1 n f g = Done (a, g') ->
  pcount g' = (pcount g - 1)%Z ->
  start f <= off -> pos g = off ->
  a = arr f ++ pre ++ target :: post ->
  pre = [] /\
  exists m, main_loop t2 m f g
            = Done (arr f ++ target' :: map shN post, shG g').
Proof.
  intros Hr Hc Hs Hp Ea. destruct cross_bounds as [B1 B2].
  destruct (span_run n f g a g' pre post Hr Hc Hs ltac:(lia) ltac:(lia) Ea)
    as (n' & Hn').
  destruct (flush n' f (set_pos g e) a g' pre post Hn' Hc Hs eq_refl Ea)
    as (Hpre & Hf).
  split; [exact Hpre|].
  exists (length V + (e - b1) + n').
  rewrite (cross_inert_run f g n' Hp). exact Hf.
Qed.

(** The run that holds the Word, from a state before it. *)
Lemma cross n : forall f g a g' pre post,
  main_loop t1 n f g = Done (a, g') ->
  pcount g' = (pcount g - 1)%Z ->
  start f <= pos g -> pos g <= off ->
  a = arr f ++ pre ++ target :: post ->
  exists m, main_loop t2 m f g
            = Done (arr f ++ pre ++ target' :: map shN post, shG g').
Proof.
  induction n as [|n IH]; intros f g a g' pre post Hr Hc Hs Hp Ea.
  { simpl in Hr. destruct (length t1 <=? pos g); [|discriminate].
    injection Hr as _ Eg. rewrite <- Eg in Hc. lia. }
  destruct cross_bounds as [B1 B2].
  destruct (Nat.eq_dec (pos g) off) as [Eo|No].
  { destruct (cross_at (S n) f g a g' pre post Hr Hc ltac:(lia) Eo Ea)
      as (-> & m & Hm).
    exists m. exact Hm. }
  assert (Ag := cross_agree).
  destruct (main_loop_clean_inv _ _ _ _ _ _ Hr Hc) as [Hlt Hcases].
  cbv zeta in Hcases.
  assert (Hlt2 : pos g < length t2) by (destruct Ag as (_ & _ & L); lia).
  assert (Hs2 := skipn_nth_cons 0%N t2 (pos g) Hlt2).
  rewrite <- (agree_nth off t1 t2) in Hs2 by (auto; lia).
  (* what the nodes flushed at this iteration are *)
  assert (Hfl : forall fl f1 g2,
             main_loop t1 n f1 g2 = Done (a, g') ->
             pcount g' = (pcount g2 - 1)%Z ->
             start f1 <= pos g2 -> pos g2 <= off ->
             arr f1 = arr f ++ fl -> ~ In target fl ->
             exists m, main_loop t2 m f1 g2
                       = Done (arr f ++ pre ++ target' :: map shN post,
                               shG g')).
  { intros fl f1 g2 Hrec Hc2 Hs1 Hp1 Efl Hn.
    destruct (main_loop_clean_new t1 n _ _ _ _ Hrec Hc2 Hs1)
      as (new & En & _).
    assert (Eq := Ea). rewrite En, Efl, <- app_assoc in Eq.
    apply app_inv_head in Eq.
    destruct (split_at_node _ _ _ _ _ Eq Hn) as (pre' & Ep & Enew).
    destruct (IH f1 g2 a g' pre' post Hrec Hc2 Hs1 Hp1) as (m & Hm).
    { rewrite En, Enew. reflexivity. }
    exists m. rewrite Hm, Efl, Ep, <- !app_assoc. reflexivity. }
  destruct Hcases as [(f1 & g2 & Hfs & Hp2 & Hpos & C1 & C2 & C3 & Hrec)
                     |[(Ec & f2 & f3 & Haw & Hens & Hrec)
                     |[(El & o & tok & ps & l & g2 & Hst & Htok & Hne & Hw
                           & Hin & Hp2 & Hl & Hrec)
                      |(Er & f2 & f3 & Haw & Hens & Ea3 & Eg3)]]].
  - destruct (triggers (nth (pos g) t1 0%N) (nth_error t1 (pos g + 1))) eqn:Tr.
    + (* a comment or a continuation before the Word *)
      assert (Hnx : pos g + 1 < length t1).
      { apply nth_error_Some. intros E. rewrite E in Tr. discriminate. }
      destruct (firstSwitch_loud _ _ _ _ _ _ _ Tr Hfs ltac:(simpl; lia)
                  ltac:(simpl; lia))
        as (P1 & P2 & P3 & fl & Efl & Hwl).
      simpl in P1, Hwl. rewrite Nat.add_sub in Hwl.
      assert (M := main_loop_mono _ _ _ _ _ _ Hrec).
      destruct M as (_ & _ & M). specialize (M ltac:(lia)).
      destruct P2 as [P2|P2].
      2:{ exfalso. rewrite (main_loop_eof t1 n f1 g2 P2) in Hrec.
          injection Hrec as _ Eg. rewrite Eg in M. lia. }
      assert (Hnt : ~ In target fl)
        by (apply (word_end_not_target fl (pos g)); auto; lia).
      destruct (Nat.lt_ge_cases off (pos g2)) as [L|L].
      { exfalso.
        apply (no_later_target _ _ _ _ _ fl pre post f Hrec); auto; lia. }
      destruct (Hfl fl f1 g2 Hrec ltac:(lia) ltac:(lia) L Efl Hnt)
        as (m & Hm).
      exists (S m).
      rewrite (main_loop_skip t2 _ _ m f g Hs2 C1 C2 C3).
      rewrite <- (agree_nth_error off t1 t2) by (auto; lia).
      rewrite (firstSwitch_agree t1 t2 off _ _ _ _ _ _ Hfs);
        auto; try (simpl; lia).
    + (* an inert character before the Word *)
      rewrite firstSwitch_quiet in Hfs by exact Tr.
      injection Hfs as Ef Eg. rewrite <- Ef, <- Eg in Hrec.
      destruct (Hfl [] f _ Hrec ltac:(simpl; lia) ltac:(simpl; lia)
                  ltac:(simpl; lia)) as (m & Hm).
      { rewrite app_nil_r. reflexivity. }
      { intros []. }
      exists (S m).
      rewrite (main_loop_skip t2 _ _ m f g Hs2 C1 C2 C3).
      rewrite firstSwitch_quiet; [exact Hm|].
      destruct (Nat.eq_dec (pos g + 1) off) as [E1|N1].
      * rewrite E1. destruct cross_first_char as (v0 & -> & Pv).
        apply triggers_plain. exact Pv.
      * rewrite <- (agree_nth_error off t1 t2) by (auto; lia). exact Tr.
  - (* a comma before the Word *)
    destruct (addWord_wordSpan _ _ _ _ Haw ltac:(lia)) as (fl & Efl & Hwl).
    assert (S3 := ensureTokenExists_Done _ _ _ Hens).
    destruct S3 as (S3 & S4 & _).
    assert (S5 := addWord_Done _ _ _ _ Haw).
    destruct (Hfl fl _ _ Hrec ltac:(simpl; lia) ltac:(simpl; lia)
                ltac:(simpl; lia)) as (m & Hm).
    { simpl. rewrite S4. exact Efl. }
    { apply (word_end_not_target fl (pos g)); [lia|].
      intros x Hx. apply Hwl in Hx. tauto. }
    exists (S m). rewrite Ec in Hs2.
    rewrite (main_loop_comma t2 _ m f g Hs2).
    rewrite <- (addWord_agree t1 t2 off) by (auto; lia).
    rewrite Haw. cbn [bind]. rewrite Hens. cbn [bind]. exact Hm.
  - (* a call before the Word *)
    assert (Mi := main_loop_mono _ _ _ _ _ _ Hin). simpl in Mi.
    set (node := AstFunction tok ps (start f + o) (node_end l + 1)
                   (slice t1 (start f + o) (node_end l + 1))) in *.
    assert (Hnt : ~ In target [node]) by (intros [X|[]]; discriminate).
    destruct (Nat.lt_ge_cases off (pos g2)) as [L|L].
    { exfalso.
      apply (no_later_target _ _ _ _ _ [node] pre post f Hrec);
        simpl; auto; lia. }
    destruct (Hfl [node] _ _ Hrec ltac:(simpl; lia) ltac:(simpl; lia)
                ltac:(simpl; lia) eq_refl Hnt) as (m & Hm).
    destruct (main_loop_clean_new t1 n _ _ _ _ Hin
                ltac:(simpl; lia) ltac:(simpl; lia)) as (newi & Ei & Hni).
    simpl in Ei. subst newi.
    assert (Hle := Hni l (last_Some_In _ _ Hl)).
    assert (Hin2 : main_loop t2 n (new_frame (pos g + 1))
                     (set_pos g (pos g + 1)) = Done (ps, g2)).
    { apply (main_loop_agree t1 t2 n _ _ _ _ Hin); [simpl; lia|].
      apply (agree_le off); auto. }
    exists (S (Nat.max n m)). rewrite El in Hs2.
    rewrite (main_loop_lparen t2 _ _ f g Hs2).
    unfold addFunc.
    replace (pos g <=? start f) with false by (symmetry; apply Nat.leb_gt; lia).
    rewrite <- (agree_slice off t1 t2) by (auto; lia).
    rewrite Htok. destruct tok as [|c0 tok]; [congruence|].
    simpl isEmpty. cbv iota. rewrite Hw.
    rewrite (main_loop_more t2 n _ _ _ _ Hin2) by lia.
    cbn [bind]. rewrite Hl.
    rewrite <- (agree_slice off t1 t2) by (auto; lia).
    cbn [bind].
    apply (main_loop_more t2 m); [exact Hm|lia].
  - (* the closing parenthesis before the Word *)
    exfalso.
    destruct (addWord_wordSpan _ _ _ _ Haw ltac:(lia)) as (fl & Efl & Hwl).
    apply ensureTokenExists_Done in Hens. destruct Hens as (_ & E3 & _).
    rewrite Ea3, E3, Efl in Ea. apply app_inv_head in Ea.
    assert (Hi : In target fl).
    { rewrite Ea. apply in_or_app. right. left. reflexivity. }
    revert Hi. apply (word_end_not_target fl (pos g)); [lia|].
    intros x Hx. apply Hwl in Hx. tauto.
Qed.

End Cross.

(** ** Finding the invocations *)

Lemma isPrefix_marker_paren s : isPrefix marker s = true -> In c_lparen s.
Proof.
  intros H. apply isPrefix_app in H. destruct H as [r ->].
  apply in_or_app. left. vm_compute. tauto.
Qed.

Lemma noParen_In s : noParen s = true -> ~ In c_lparen s.
Proof.
  intros H Hin. unfold noParen in H.
  rewrite forallb_forall in H. specialize (H _ Hin).
  rewrite N.eqb_refl in H. discriminate.
Qed.

Lemma noParen_skipn s n : noParen s = true -> noParen (skipn n s) = true.
Proof.
  unfold noParen. rewrite !forallb_forall. intros H c Hc. apply H.
  rewrite <- (firstn_skipn n s). apply in_or_app. auto.
Qed.

(** No occurrence of the marker starts inside a text without [(] that is
    followed by the marker. *)
Lemma marker_not_before pre rest :
  pre <> [] -> noParen pre = true ->
  isPrefix marker (pre ++ marker ++ rest) = false.
Proof.
  intros Hne Hp.
  destruct (isPrefix marker (pre ++ marker ++ rest)) eqn:E; auto. exfalso.
  apply isPrefix_app in E. destruct E as [r E].
  assert (H6 : nth_error (pre ++ marker ++ rest) 6 = Some c_lparen)
    by (rewrite E; reflexivity).
  destruct (Nat.lt_ge_cases 6 (length pre)) as [L|L].
  - rewrite nth_error_app1 in H6 by auto.
    apply nth_error_In in H6. apply noParen_In in Hp. contradiction.
  - rewrite nth_error_app2 in H6 by auto.
    destruct pre as [|a pre]; [congruence|]. simpl length in *.
    remember (6 - S (length pre)) as k eqn:K.
    assert (Hk : k < 6) by lia.
    do 6 (destruct k as [|k]; [vm_compute in H6; discriminate|]). lia.
Qed.

Lemma indexOf_marker_after a pre rest :
  noParen pre = true ->
  indexOf marker (a ++ pre ++ marker ++ rest) (length a)
  = Some (length a + length pre).
Proof.
  intros Hp. apply indexOf_Some. split; [lia|]. split.
  - rewrite app_assoc, skipn_app, <- length_app, skipn_all, Nat.sub_diag.
    simpl skipn. apply isPrefix_app. exists rest. reflexivity.
  - intros j [Hj1 Hj2].
    rewrite skipn_app, skipn_all2 by lia. simpl app.
    rewrite skipn_app. replace (j - length a - length pre) with 0 by lia.
    simpl skipn. apply marker_not_before.
    + intros E. assert (L : length (skipn (j - length a) pre) = 0)
        by (rewrite E; auto).
      rewrite length_skipn in L. lia.
    + apply noParen_skipn; auto.
Qed.

Lemma indexOf_marker_none a post :
  noParen post = true -> indexOf marker (a ++ post) (length a) = None.
Proof.
  intros Hp. apply indexOf_None. intros j Hj.
  rewrite skipn_app, skipn_all2 by lia. simpl app.
  destruct (isPrefix marker _) eqn:E; auto. exfalso.
  apply isPrefix_marker_paren in E. revert E. apply noParen_In.
  apply noParen_skipn; auto.
Qed.

Lemma scan_step text n p kms i km g :
  indexOf marker text p = Some i ->
  main text (length text) (i + 7) {| pos := i + 7; pcount := 1 |} = Done (km, g) ->
  pcount g = 0%Z ->
  scan text (S n) p kms = scan text n (pos g) (kms ++ [km]).
Proof.
  intros Hi Hm Hc. simpl. rewrite Hi, Hm. simpl. rewrite Hc. reflexivity.
Qed.

Lemma scan_stop text n p kms :
  indexOf marker text p = None -> scan text n p kms = Done (kms, p).
Proof. intros H. destruct n; simpl; rewrite H; reflexivity. Qed.

(** A text with one invocation, between texts without [(]. *)
Lemma scan_single pre body post km :
  noParen pre = true -> noParen post = true ->
  main (pre ++ marker ++ body ++ post) (length (pre ++ marker ++ body ++ post))
       (length pre + 7) {| pos := length pre + 7; pcount := 1 |}
  = Done (km, {| pos := length pre + 7 + length body; pcount := 0 |}) ->
  scan (pre ++ marker ++ body ++ post) (length (pre ++ marker ++ body ++ post)) 0 []
  = Done ([km], length pre + 7 + length body).
Proof.
  intros Hpre Hpost Hm.
  remember (pre ++ marker ++ body ++ post) as text eqn:Et.
  assert (L : length text = S (length text - 1)).
  { rewrite Et, !length_app. change (length marker) with 7. lia. }
  rewrite L at 1.
  rewrite (scan_step text _ 0 [] (length pre) km
             {| pos := length pre + 7 + length body; pcount := 0 |}); auto.
  - simpl pos. simpl app. apply scan_stop.
    rewrite Et.
    replace (length pre + 7 + length body)
      with (length (pre ++ marker ++ body))
      by (rewrite !length_app; change (length marker) with 7; lia).
    replace (pre ++ marker ++ body ++ post) with ((pre ++ marker ++ body) ++ post)
      by (rewrite <- !app_assoc; reflexivity).
    apply indexOf_marker_none; auto.
  - rewrite Et. apply (indexOf_marker_after [] pre (body ++ post)); auto.
Qed.

Lemma wordsAt_length items : forall base,
  length (wordsAt base items) = length items.
Proof. induction items as [|it items IH]; intros base; simpl; auto. Qed.

Lemma validate_single km kc :
  kc = None \/ kc = Some (Z.of_nat (length km)) ->
  validate [km] kc = Done tt.
Proof.
  intros H. unfold validate. simpl. rewrite Nat.eqb_refl. simpl.
  destruct H as [->| ->]; auto. rewrite Z.eqb_refl. reflexivity.
Qed.

(** Parsing one invocation with plain arguments. *)
Lemma parse_plain pre items post kc hack :
  noParen pre = true -> noParen post = true ->
  items <> [] -> forallb wfItem items = true ->
  kc = None \/ kc = Some (Z.of_nat (length items)) ->
  tryParseKeymapsText (pre ++ marker ++ (argsText items ++ [c_rparen]) ++ post)
    kc hack
  = Done ([wordsAt (length pre + 7) items],
          if hack then Some (length pre + 7 + length (argsText items) + 1)
          else None).
Proof.
  intros Hpre Hpost Hne Hwf Hkc. unfold tryParseKeymapsText.
  rewrite (scan_single pre (argsText items ++ [c_rparen]) post
             (wordsAt (length pre + 7) items)); auto.
  - cbn [bind]. rewrite validate_single; [|rewrite wordsAt_length; auto].
    cbn [bind]. rewrite length_app. simpl length. rewrite Nat.add_assoc.
    reflexivity.
  - unfold main. apply main_loop_enough with (n := length (argsText items) + 1).
    rewrite (main_loop_items _ items post 0); auto.
    + simpl. rewrite length_app. simpl. do 2 f_equal. f_equal. lia.
    + simpl pos. rewrite (app_assoc pre marker).
      rewrite skipn_app_length.
      * rewrite <- app_assoc. reflexivity.
      * rewrite length_app. reflexivity.
    + simpl. lia.
Qed.

(** ** The scan on texts with a common prefix *)

Lemma isPrefix_firstn needle : forall s,
  isPrefix needle (firstn (length needle) s) = isPrefix needle s.
Proof.
  induction needle as [|a needle IH]; intros s; simpl; auto.
  destruct s as [|b s]; simpl; auto. rewrite IH. reflexivity.
Qed.

Lemma agree_isPrefix q t1 t2 j :
  agree q t1 t2 -> j + 7 <= q ->
  isPrefix marker (skipn j t1) = isPrefix marker (skipn j t2).
Proof.
  intros H Hj.
  rewrite <- (isPrefix_firstn marker (skipn j t1)).
  rewrite <- (isPrefix_firstn marker (skipn j t2)).
  change (length marker) with 7.
  rewrite (agree_skipn_firstn q t1 t2 j 7); auto.
Qed.

Lemma agree_indexOf q t1 t2 p i :
  agree q t1 t2 -> indexOf marker t1 p = Some i -> i + 7 <= q ->
  indexOf marker t2 p = Some i.
Proof.
  intros H Hi Hq. apply indexOf_Some in Hi. destruct Hi as (Hp & H1 & H2).
  apply indexOf_Some. split; [exact Hp|]. split.
  - rewrite <- (agree_isPrefix q t1 t2); auto.
  - intros j Hj. rewrite <- (agree_isPrefix q t1 t2); auto. lia.
Qed.

Lemma scan_fuel text n : forall m p kms,
  n <= m -> scan text n p kms <> Fuel ->
  scan text m p kms = scan text n p kms.
Proof.
  induction n as [|n IH]; intros m p kms Hm H; simpl in *.
  - destruct m; simpl; destruct (indexOf marker text p); auto; contradiction.
  - destruct m as [|m]; [lia|]. simpl.
    destruct (indexOf marker text p); auto.
    destruct (main text _ _ _) as [[km g]| |]; simpl in *; auto.
    destruct (pcount g =? 0)%Z; auto. apply IH; auto. lia.
Qed.

Lemma scan_enough text n p kms r :
  scan text n p kms = Done r -> scan text (length text) p kms = Done r.
Proof.
  intros H. destruct (Nat.le_ge_cases n (length text)) as [L|L].
  - rewrite (scan_fuel text n (length text) p kms L); congruence.
  - rewrite <- (scan_fuel text (length text) n p kms L); auto.
    apply scan_total. lia.
Qed.

(** Where a successful scan ends. *)
Lemma scan_end text n : forall p kms kms' q,
  scan text n p kms = Done (kms', q) ->
  p <= q /\ indexOf marker text q = None /\
  exists more, kms' = kms ++ more /\
    (forall l, In l more -> l <> []) /\
    (more = [] -> q = p) /\
    (more <> [] ->
       q <= length text /\ nth_error text (q - 1) = Some c_rparen).
Proof.
  induction n as [|n IH]; intros p kms kms' q H; simpl in H.
  - destruct (indexOf marker text p) eqn:E; [discriminate|].
    inversion H; subst. split; [lia|]. split; [exact E|].
    exists []. rewrite app_nil_r. repeat split; auto; try contradiction.
  - destruct (indexOf marker text p) as [i|] eqn:E.
    + bind_inv H. destruct a as [km g].
      destruct (pcount g =? 0)%Z eqn:Ec; [|discriminate].
      apply Z.eqb_eq in Ec.
      apply indexOf_marker_bound in E.
      assert (M := main_loop_mono _ _ _ _ _ _ Hm). simpl in M.
      assert (C := main_loop_clean_ends text _ _ _ _ _ Hm).
      simpl in C. destruct C as (C1 & C2 & C3 & _); [lia|intros x []|].
      apply IH in H. destruct H as (Hq & Hn & more & -> & Hne & H0 & H1).
      split; [lia|]. split; [exact Hn|].
      exists (km :: more). rewrite <- app_assoc. split; [reflexivity|].
      split; [|split; [discriminate|]].
      * intros l [<-|Hl]; auto.
      * intros _. destruct more as [|l more].
        -- rewrite (H0 eq_refl). auto.
        -- apply H1. discriminate.
    + inversion H; subst. split; [lia|]. split; [exact E|].
      exists []. rewrite app_nil_r. repeat split; auto; try contradiction.
Qed.

Lemma scan_agree t1 t2 n : forall p kms kms' q,
  scan t1 n p kms = Done (kms', q) -> agree q t1 t2 ->
  exists j, forall m, scan t2 (j + m) p kms = scan t2 m q kms'.
Proof.
  induction n as [|n IH]; intros p kms kms' q H Ha; simpl in H.
  - destruct (indexOf marker t1 p) eqn:E; [discriminate|].
    inversion H; subst. exists 0. reflexivity.
  - destruct (indexOf marker t1 p) as [i|] eqn:E.
    + bind_inv H. destruct a as [km g].
      destruct (pcount g =? 0)%Z eqn:Ec; [|discriminate].
      apply Z.eqb_eq in Ec.
      assert (M := main_loop_mono _ _ _ _ _ _ Hm). simpl in M.
      assert (Hq := scan_end _ _ _ _ _ _ H). destruct Hq as (Hq & _).
      destruct (IH _ _ _ _ H Ha) as (j & Hj).
      exists (S j). intros m.
      rewrite <- Hj. change (S j + m) with (S (j + m)).
      apply (scan_step t2 (j + m) p kms i km g).
      * apply (agree_indexOf q t1); auto. lia.
      * unfold main. apply main_loop_enough with (n := length t1).
        apply (main_loop_agree t1); auto.
        apply (agree_le q); auto.
      * exact Ec.
    + inversion H; subst. exists 0. reflexivity.
Qed.

(** ** The scan on a moved text and on a text with a Word replaced *)

(** The nodes of the layers a scan adds. *)
Lemma scan_nodes text n : forall p kms kms' q,
  scan text n p kms = Done (kms', q) ->
  exists more, kms' = kms ++ more /\
    forall layer x, In layer more -> In x layer ->
      p + 7 <= node_offset x /\ node_end x < q /\ q <= length text /\
      wordSpan text x.
Proof.
  induction n as [|n IH]; intros p kms kms' q H; simpl in H.
  - destruct (indexOf marker text p) eqn:E; [discriminate|].
    inversion H; subst. exists []. rewrite app_nil_r. split; auto.
    intros layer x [].
  - destruct (indexOf marker text p) as [i|] eqn:E.
    + bind_inv H. destruct a as [km g].
      destruct (pcount g =? 0)%Z eqn:Ec; [|discriminate].
      apply Z.eqb_eq in Ec.
      apply indexOf_marker_bound in E.
      destruct (main_loop_clean_new text _ _ _ _ _ Hm
                  ltac:(simpl; lia) ltac:(simpl; lia)) as (new & En & Hn).
      simpl in En, Hn. subst new.
      assert (He := scan_end _ _ _ _ _ _ H).
      destruct He as (Hq & _ & more0 & _ & _ & Hq0 & Hq1).
      assert (C := main_loop_clean_ends text _ _ _ _ _ Hm).
      simpl in C. destruct C as (C1 & _); [lia|intros x []|].
      assert (Hql : q <= length text).
      { destruct more0; [rewrite (Hq0 eq_refl); exact C1|].
        apply Hq1. discriminate. }
      destruct (IH _ _ _ _ H) as (more & Em & Hmore).
      exists (km :: more). rewrite <- app_assoc in Em. split; [exact Em|].
      assert (M := main_loop_mono _ _ _ _ _ _ Hm). simpl in M.
      intros layer x [<-|Hl] Hx.
      * apply Hn in Hx. destruct Hx as (A & _ & B & D).
        split; [lia|]. split; [lia|]. split; [exact Hql|exact D].
      * destruct (Hmore layer x Hl Hx) as (A & B & C' & D).
        split; [lia|]. split; [exact B|]. split; [exact C'|exact D].
    + inversion H; subst. exists []. rewrite app_nil_r. split; auto.
      intros layer x [].
Qed.

Section ShiftScan.

Variables t1 t2 : str.
Variables b1 b2 : nat.
Hypothesis Hsuf : skipn b1 t1 = skipn b2 t2.
Hypothesis Hb1 : b1 <= length t1.
Hypothesis Hb2 : b2 <= length t2.

Local Abbreviation sh := (shiftPos b1 b2).
Local Abbreviation shN := (shiftNode b1 b2).

Lemma indexOf_shift_Some p i :
  b1 <= p -> indexOf marker t1 p = Some i ->
  indexOf marker t2 (sh p) = Some (sh i).
Proof.
  intros Hp H. apply indexOf_Some in H. destruct H as (Hpi & H1 & H2).
  apply indexOf_Some. split; [unfold shiftPos; lia|]. split.
  - rewrite (skipn_shift t1 t2 b1 b2 Hsuf Hb1 Hb2) by lia. exact H1.
  - intros j Hj.
    replace j with (sh (j - b2 + b1)) by (unfold shiftPos in *; lia).
    rewrite (skipn_shift t1 t2 b1 b2 Hsuf Hb1 Hb2)
      by (unfold shiftPos in *; lia).
    apply H2. unfold shiftPos in *. lia.
Qed.

Lemma indexOf_shift_None p :
  b1 <= p -> indexOf marker t1 p = None ->
  indexOf marker t2 (sh p) = None.
Proof.
  intros Hp H. rewrite indexOf_None in H. apply indexOf_None.
  intros j Hj.
  replace j with (sh (j - b2 + b1)) by (unfold shiftPos in *; lia).
  rewrite (skipn_shift t1 t2 b1 b2 Hsuf Hb1 Hb2)
    by (unfold shiftPos in *; lia).
  apply H. unfold shiftPos in *. lia.
Qed.

Lemma scan_shift n : forall p kms kms' q kms2,
  scan t1 n p kms = Done (kms', q) -> b1 <= p ->
  exists more, kms' = kms ++ more /\
    scan t2 n (sh p) kms2 = Done (kms2 ++ map (map shN) more, sh q).
Proof.
  induction n as [|n IH]; intros p kms kms' q kms2 H Hp; simpl in H |- *.
  - destruct (indexOf marker t1 p) eqn:E; [discriminate|].
    rewrite (indexOf_shift_None p Hp E).
    inversion H; subst. exists []. rewrite !app_nil_r. auto.
  - destruct (indexOf marker t1 p) as [i|] eqn:E.
    + rewrite (indexOf_shift_Some p i Hp E).
      bind_inv H. destruct a as [km g].
      destruct (pcount g =? 0)%Z eqn:Ec; [|discriminate].
      assert (Ec' := Ec). apply Z.eqb_eq in Ec'.
      apply indexOf_marker_bound in E.
      assert (M := main_loop_mono _ _ _ _ _ _ Hm). simpl in M.
      destruct (main_loop_shift t1 t2 b1 b2 Hsuf Hb1 Hb2 _ _ _ _ _ []
                  Hm ltac:(simpl; lia) ltac:(simpl; lia) ltac:(simpl; lia)
                  eq_refl) as (new & En & Hr2).
      simpl in En. subst new. simpl app in Hr2.
      apply main_loop_enough in Hr2.
      unfold main.
      replace (new_frame (sh i + 7))
        with (shiftFrame b1 b2 [] (new_frame (i + 7)))
        by (unfold new_frame, shiftFrame; simpl; f_equal; unfold shiftPos; lia).
      replace {| pos := sh i + 7; pcount := 1 |}
        with (shiftShared b1 b2 {| pos := i + 7; pcount := 1 |})
        by (unfold shiftShared; simpl; f_equal; unfold shiftPos; lia).
      rewrite Hr2. cbn [bind]. simpl pcount. rewrite Ec.
      destruct (IH _ _ _ _ (kms2 ++ [map shN km]) H ltac:(lia))
        as (more & Em & Hr3).
      exists (km :: more). rewrite <- app_assoc in Em. split; [exact Em|].
      simpl pos. rewrite Hr3, <- app_assoc. reflexivity.
    + rewrite (indexOf_shift_None p Hp E).
      inversion H; subst. exists []. rewrite !app_nil_r. auto.
Qed.

End ShiftScan.

Section CrossScan.

Variable t1 : str.
Variables c V : str.
Variables off e : nat.

Hypothesis HV : plainWord V = true.
Hypothesis Hspan : wordSpan t1 (AstWord c off e).
Hypothesis He : e < length t1.

Local Abbreviation b1 := (off + length c).
Local Abbreviation b2 := (off + length V).
Local Abbreviation t2 := (firstn off t1 ++ V ++ skipn (off + length c) t1).
Local Abbreviation target := (AstWord c off e).
Local Abbreviation target' :=
  (AstWord V off (shiftPos (off + length c) (off + length V) e)).
Local Abbreviation sh := (shiftPos (off + length c) (off + length V)).
Local Abbreviation shN := (shiftNode (off + length c) (off + length V)).

Lemma scan_cross n : forall p kms kms' q bl pre post al,
  scan t1 n p kms = Done (kms', q) ->
  kms' = kms ++ bl ++ (pre ++ target :: post) :: al ->
  p <= off ->
  exists m, scan t2 m p kms
            = Done (kms ++ bl ++ (pre ++ target' :: map shN post)
                                   :: map (map shN) al,
                    sh q).
Proof.
  assert (Ag := cross_agree t1 c V off e Hspan He).
  assert (Sf := cross_suffix t1 c V off e Hspan He).
  assert (B1 := cross_b1 t1 c off e Hspan He).
  assert (B2 := cross_b2 t1 c V off e Hspan He).
  assert (Bd := cross_bounds t1 c off e Hspan).
  induction n as [|n IH]; intros p kms kms' q bl pre post al H Ek Hp;
    simpl in H.
  { destruct (indexOf marker t1 p) eqn:E; [discriminate|].
    exfalso. injection H as E1 _. rewrite <- E1 in Ek.
    rewrite <- (app_nil_r kms) in Ek at 1. apply app_inv_head in Ek.
    destruct bl; discriminate. }
  destruct (indexOf marker t1 p) as [i|] eqn:E.
  2:{ exfalso. injection H as E1 _. rewrite <- E1 in Ek.
      rewrite <- (app_nil_r kms) in Ek at 1. apply app_inv_head in Ek.
      destruct bl; discriminate. }
  bind_inv H. destruct a as [km g].
  destruct (pcount g =? 0)%Z eqn:Ec; [|discriminate].
  assert (Ec' := Ec). apply Z.eqb_eq in Ec'.
  assert (Eb := indexOf_marker_bound _ _ _ E).
  assert (M := main_loop_mono _ _ _ _ _ _ Hm). simpl in M.
  destruct (main_loop_clean_new t1 _ _ _ _ _ Hm
              ltac:(simpl; lia) ltac:(simpl; lia)) as (new & En & Hn).
  simpl in En, Hn. subst new.
  destruct (scan_nodes _ _ _ _ _ _ H) as (more & Em & Hmore).
  rewrite Em, <- app_assoc in Ek. apply app_inv_head in Ek. simpl in Ek.
  destruct bl as [|l0 bl]; simpl in Ek; injection Ek as Ekm Emore.
  - (* the Word is in this layer *)
    assert (Hin : In target km)
      by (rewrite Ekm; apply in_or_app; right; left; auto).
    apply Hn in Hin. simpl in Hin.
    destruct (cross t1 c V off e HV Hspan He _ _ _ _ _ pre post Hm
                ltac:(simpl; lia) ltac:(simpl; lia) ltac:(simpl; lia) Ekm)
      as (m & Hr2).
    simpl app in Hr2. apply main_loop_enough in Hr2.
    destruct (scan_shift t1 t2 b1 b2 Sf B1 B2 _ _ _ _ _
                (kms ++ [pre ++ target' :: map shN post]) H ltac:(lia))
      as (more' & Em' & Hr3).
    rewrite Em in Em'. apply app_inv_head in Em'. subst more'.
    exists (S n). simpl.
    rewrite (agree_indexOf off t1 t2 p i Ag E) by lia.
    unfold main. rewrite Hr2. cbn [bind]. simpl pcount. rewrite Ec.
    simpl pos. rewrite Hr3, <- app_assoc, Emore. reflexivity.
  - (* the Word is in a later layer *)
    assert (Hpo : pos g <= off).
    { assert (Hin : In (pre ++ target :: post) more)
        by (rewrite Emore; apply in_or_app; right; left; auto).
      assert (Hx : In target (pre ++ target :: post))
        by (apply in_or_app; right; left; auto).
      destruct (Hmore _ _ Hin Hx) as (A & _). simpl in A. lia. }
    destruct (IH (pos g) (kms ++ [km]) kms' q bl pre post al H) as (m & Hr3).
    { rewrite Em, Emore, <- app_assoc. reflexivity. }
    { exact Hpo. }
    exists (S m). simpl.
    rewrite (agree_indexOf off t1 t2 p i Ag E) by lia.
    unfold main.
    rewrite (main_loop_enough t2 (length t1) _ _ (km, g)).
    + cbn [bind]. rewrite Ec. rewrite Hr3, <- app_assoc, Ekm. reflexivity.
    + apply (main_loop_agree t1 t2 _ _ _ _ _ Hm); [simpl; lia|].
      apply (agree_le off); auto.
Qed.

End CrossScan.

(** ** Plain arguments *)

Lemma argsText_cons_split it items :
  exists r, argsText (it :: items) = itemText it ++ r /\
            (items <> [] -> r = c_comma :: argsText items).
Proof.
  destruct items as [|it2 items].
  - exists []. unfold argsText. simpl. rewrite app_nil_r. split; congruence.
  - exists (c_comma :: argsText (it2 :: items)). split; auto.
Qed.

(** The Word node of each argument of a plain argument list: where it
    starts, where it ends and the delimiter found at its end. *)
Lemma wordsAt_nth text items : forall base r i it,
  skipn base text = argsText items ++ c_rparen :: r ->
  nth_error items i = Some it ->
  exists o e,
    nth_error (wordsAt base items) i = Some (AstWord (word it) o e) /\
    slice text o (o + length (word it)) = word it /\
    e = o + length (word it) + length (trail it) /\
    slice text o e = word it ++ trail it /\
    nth_error text e
    = Some (if S i =? length items then c_rparen else c_comma).
Proof.
  induction items as [|it0 items IH]; intros base r i it Hs Hi.
  { destruct i; discriminate. }
  destruct (argsText_cons_split it0 items) as (r' & E & Er).
  rewrite E, <- app_assoc in Hs.
  destruct i as [|i].
  - injection Hi as ->. cbn [wordsAt nth_error].
    exists (base + length (lead it)), (base + length (itemText it)).
    split; [reflexivity|].
    assert (Hs0 := Hs). unfold itemText in Hs0. rewrite <- !app_assoc in Hs0.
    apply skipn_app_inv in Hs0. destruct Hs0 as [Hs0 _].
    split; [apply slice_of_skipn with (r := trail it ++ r' ++ c_rparen :: r);
            exact Hs0|].
    split; [unfold itemText; rewrite !length_app; lia|].
    split.
    { replace (base + length (itemText it))
        with (base + length (lead it) + length (word it ++ trail it))
        by (unfold itemText; rewrite !length_app; lia).
      apply slice_of_skipn with (r := r' ++ c_rparen :: r).
      rewrite <- app_assoc. exact Hs0. }
    apply skipn_app_inv in Hs. destruct Hs as [Hs _].
    rewrite nth_error_skipn_hd, Hs.
    destruct items as [|it2 items].
    + assert (X : r' = []).
      { unfold argsText in E. simpl in E.
        rewrite <- (app_nil_r (itemText it)) in E at 1.
        apply app_inv_head in E. auto. }
      rewrite X. reflexivity.
    + rewrite Er by discriminate. reflexivity.
  - cbn [nth_error] in Hi. cbn [wordsAt nth_error].
    assert (Hne : items <> []) by (intros ->; destruct i; discriminate).
    rewrite (Er Hne) in Hs.
    apply skipn_app_inv in Hs. destruct Hs as [Hs _].
    apply (@skipn_cons_inv char 0%N) in Hs. destruct Hs as (_ & _ & Hs).
    destruct (IH _ _ _ _ Hs Hi) as (o & e & H1 & H2 & H3 & H4 & H5).
    exists o, e. repeat (split; [assumption|]).
    rewrite H5. cbn [length]. reflexivity.
Qed.

Lemma C1_counterexample :
  tryParseKeymapsText (lit "KEYMAP(KC_A , KC_B)") None false
  = Done ([[AstWord (lit "KC_A") 7 12; AstWord (lit "KC_B") 14 18]], None)
  /\ slice (lit "KEYMAP(KC_A , KC_B)") 7 12 = lit "KC_A "
  /\ node_content (AstWord (lit "KC_A") 7 12)
     <> slice (lit "KEYMAP(KC_A , KC_B)") 7 12.
Proof. repeat split; try reflexivity. vm_compute. discriminate. Qed.

(** C1 (amended).  A text with a single invocation whose [k] arguments are
    plain words, each possibly surrounded by white space, parses to exactly
    one Layer of [k] Word nodes, one for each argument and in their order.
    The content of a node is the word of its argument, which is the
    substring of the text at [offset, offset + length content).  Its end is
    the index of the delimiter that closes the argument (a comma, or the
    closing parenthesis for the last one), so the substring at its
    [offset, end) span is the word followed by the white space of the
    argument behind it: it equals the content exactly when the argument has
    no trailing white space. *)
Theorem C1_plain_arguments pre items post kc :
  noParen pre = true -> noParen post = true ->
  items <> [] -> forallb wfItem items = true ->
  kc = None \/ kc = Some (Z.of_nat (length items)) ->
  let text := pre ++ marker ++ (argsText items ++ [c_rparen]) ++ post in
  exists layer,
    tryParseKeymapsText text kc false = Done ([layer], None) /\
    layer = wordsAt (length pre + 7) items /\
    length layer = length items /\
    forall i it, nth_error items i = Some it ->
      exists o e,
        nth_error layer i = Some (AstWord (word it) o e) /\
        slice text o (o + length (word it)) = word it /\
        e = o + length (word it) + length (trail it) /\
        slice text o e = word it ++ trail it /\
        nth_error text e
        = Some (if S i =? length items then c_rparen else c_comma) /\
        (slice text o e = word it <-> trail it = []).
Proof.
  intros Hpre Hpost Hne Hwf Hkc text.
  exists (wordsAt (length pre + 7) items).
  split; [apply parse_plain; auto|]. split; [reflexivity|].
  split; [apply wordsAt_length|].
  intros i it Hi.
  assert (Hs : skipn (length pre + 7) text = argsText items ++ c_rparen :: post).
  { unfold text. rewrite (app_assoc pre marker), skipn_app_length.
    - rewrite <- app_assoc. reflexivity.
    - rewrite length_app. reflexivity. }
  destruct (wordsAt_nth text items _ _ i it Hs Hi)
    as (o & e & H1 & H2 & H3 & H4 & H5).
  exists o, e. repeat (split; [assumption|]).
  rewrite H4. split.
  - intros E. rewrite <- (app_nil_r (word it)) in E at 2.
    apply app_inv_head in E. exact E.
  - intros ->. apply app_nil_r.
Qed.

Lemma C1_plain_arguments_witness :
  let text := [] ++ marker ++ (argsText sampleItems ++ [c_rparen]) ++ [] in
  exists layer,
    tryParseKeymapsText text None false = Done ([layer], None) /\
    layer = wordsAt (length (@nil char) + 7) sampleItems /\
    length layer = length sampleItems /\
    forall i it, nth_error sampleItems i = Some it ->
      exists o e,
        nth_error layer i = Some (AstWord (word it) o e) /\
        slice text o (o + length (word it)) = word it /\
        e = o + length (word it) + length (trail it) /\
        slice text o e = word it ++ trail it /\
        nth_error text e
        = Some (if S i =? length sampleItems then c_rparen else c_comma) /\
        (slice text o e = word it <-> trail it = []).
Proof.
  apply (C1_plain_arguments [] sampleItems [] None).
  - reflexivity.
  - reflexivity.
  - discriminate.
  - reflexivity.
  - left. reflexivity.
Defined.

(** ** Failures of the parser *)

(** C3.  On the text [KEYMAP(LT(] the recursive activation of [main] returns
    an empty parameter list and [addFunc] reads [.end] of [undefined]: the
    parser fails with a TypeError, which is none of its parse errors. *)
Theorem C3_unterminated_call_type_error :
  tryParseKeymapsText (lit "KEYMAP(LT(") None false = Throw TypeError
  /\ isParseError TypeError = false
  /\ main (lit "KEYMAP(LT(") 10 10 {| pos := 10; pcount := 1 |}
     = Done ([], {| pos := 10; pcount := 1 |}).
Proof. repeat split; reflexivity. Qed.

(** ** Line continuation *)

(** C4.  The case of a backslash followed by a newline sets [start] behind
    the pair and flushes nothing, where the two comment cases next to it
    first flush the pending span with [addWord(pos - 1)]; a token being one
    slice of the text, what is pending before the pair is lost.  In
    [KEYMAP(KC\<newline>_A, KC_B)] the first key is the Word [_A] at offset
    11, not [KC_A].  A word that is complete before the pair is lost too:
    [KEYMAP(KC_A, KC_D \<newline>)] fails with "Missing token at: 21", where
    the same text with a comment in the place of the pair has the two keys
    [KC_A] and [KC_D]. *)
Theorem C4_line_continuation_drops_pending_token :
  tryParseKeymapsText (lit "KEYMAP(KC" ++ [c_bslash; c_nl] ++ lit "_A, KC_B)")
    None false
  = Done ([[AstWord (lit "_A") 11 13; AstWord (lit "KC_B") 15 19]], None)
  /\ tryParseKeymapsText
       (lit "KEYMAP(KC_A, KC_D " ++ [c_bslash; c_nl] ++ lit ")") None false
     = Throw (MissingToken 21)
  /\ tryParseKeymapsText (lit "KEYMAP(KC_A, KC_D /**/)") None false
     = Done ([[AstWord (lit "KC_A") 7 11; AstWord (lit "KC_D") 13 18]], None).
Proof. repeat split; reflexivity. Qed.

Lemma main_loop_bslash_nl expr r n f g :
  skipn (pos g) expr = c_bslash :: c_nl :: r ->
  main_loop expr (S n) f g
  = main_loop expr n (set_start f (pos g + 2)) (set_pos g (pos g + 2)).
Proof.
  intros Hs. apply (@skipn_cons_inv char 0%N) in Hs.
  destruct Hs as (Hlt & Hn & Hs).
  rewrite main_loop_S. replace (length expr <=? pos g) with false
    by (symmetry; apply Nat.leb_gt; auto).
  unfold loop_body. rewrite Hn. cbn [pos set_pos].
  rewrite nth_error_skipn_hd, Hs. simpl.
  unfold set_start, set_pos. simpl.
  replace (pos g + 1 + 1) with (pos g + 2) by lia. reflexivity.
Qed.

(** How the loop runs over a line continuation: the pending span restarts
    behind the pair, and the Words that follow are those of the text behind
    it. *)
Lemma line_continuation_restarts_span pre junk items post kc :
  noParen pre = true -> noParen post = true ->
  forallb inert junk = true ->
  items <> [] -> forallb wfItem items = true ->
  kc = None \/ kc = Some (Z.of_nat (length items)) ->
  tryParseKeymapsText
    (pre ++ marker
         ++ (junk ++ c_bslash :: c_nl :: argsText items ++ [c_rparen]) ++ post)
    kc false
  = Done ([wordsAt (length pre + 7 + length junk + 2) items], None).
Proof.
  intros Hpre Hpost Hj Hne Hwf Hkc. unfold tryParseKeymapsText.
  rewrite (scan_single pre _ post
             (wordsAt (length pre + 7 + length junk + 2) items)); auto.
  - cbn [bind]. rewrite validate_single; [|rewrite wordsAt_length; auto].
    reflexivity.
  - unfold main.
    apply main_loop_enough
      with (n := length junk + S (length (argsText items) + 1)).
    assert (Hs : skipn (length pre + 7)
                   (pre ++ marker ++ (junk ++ c_bslash :: c_nl
                                       :: argsText items ++ [c_rparen]) ++ post)
                 = junk ++ c_bslash :: c_nl :: argsText items ++ c_rparen :: post).
    { rewrite (app_assoc pre marker), skipn_app_length.
      - rewrite <- app_assoc. simpl. rewrite <- app_assoc. reflexivity.
      - rewrite length_app. reflexivity. }
    rewrite (main_loop_inert _ junk
               (c_bslash :: c_nl :: argsText items ++ c_rparen :: post));
      auto.
    apply skipn_app_inv in Hs. destruct Hs as [Hs _].
    rewrite (main_loop_bslash_nl _ (argsText items ++ c_rparen :: post));
      [|exact Hs].
    cbn [pos set_pos].
    rewrite (main_loop_items _ items post 0); auto.
    + simpl. rewrite !length_app. simpl. rewrite length_app. simpl.
      do 2 f_equal. f_equal. lia.
    + cbn [pos set_pos].
      apply (@skipn_cons_inv char 0%N) in Hs. destruct Hs as (_ & _ & Hs).
      apply (@skipn_cons_inv char 0%N) in Hs. destruct Hs as (_ & _ & Hs).
      rewrite <- Hs. f_equal. lia.
    + simpl. lia.
Qed.

(** ** Line comments *)

(** C5.  After the newline that ends a [//] comment the parser advances
    [pos] once more, so the character that follows the newline is skipped:
    in [KEYMAP(KC_A, // c<newline>KC_B)] the second key is the Word [C_B]
    at offset 19, not [KC_B] at offset 18. *)
Theorem C5_line_comment_skips_next_char :
  tryParseKeymapsText (lit "KEYMAP(KC_A, // c" ++ [c_nl] ++ lit "KC_B)")
    None false
  = Done ([[AstWord (lit "KC_A") 7 11; AstWord (lit "C_B") 19 22]], None)
  /\ lineComment (lit "/ c" ++ [c_nl] ++ lit "KC_B)") 14 = (19, true)
  /\ nth_error (lit "KEYMAP(KC_A, // c" ++ [c_nl] ++ lit "KC_B)") 18
     = Some (ch "K").
Proof. repeat split; reflexivity. Qed.

(** ** Layer sizes *)

(** C6.  A ParseResult is returned only when all Layers have the length of
    the first one (and the expected key count, when one is given).  When the
    scan of the invocations succeeds, two Layers of different lengths make
    the parse fail with "Incompatible amount of keys in layers"; otherwise a
    given expected key count that differs from the length of the first Layer
    makes it fail with "Number of keys in KEYMAP are incorrect". *)
Theorem C6_layer_sizes text kc hack :
  (forall kms e, tryParseKeymapsText text kc hack = Done (kms, e) ->
     exists k0 rest, kms = k0 :: rest /\
       (forall t, In t kms -> length t = length k0) /\
       (forall k, kc = Some k -> Z.of_nat (length k0) = k)) /\
  (forall kms p t t',
     scan text (length text) 0 [] = Done (kms, p) ->
     In t kms -> In t' kms -> length t <> length t' ->
     tryParseKeymapsText text kc hack = Throw IncompatibleLayers) /\
  (forall k0 rest p k,
     scan text (length text) 0 [] = Done (k0 :: rest, p) ->
     (forall t, In t rest -> length t = length k0) ->
     kc = Some k -> Z.of_nat (length k0) <> k ->
     tryParseKeymapsText text kc hack = Throw (WrongKeyCount (length k0) k)).
Proof.
  split; [|split].
  - intros kms e H. apply tryParseKeymapsText_Done in H.
    destruct H as (p & _ & Hv & _). apply validate_Done in Hv. exact Hv.
  - intros kms p t t' Hs Ht Ht' Hne. unfold tryParseKeymapsText.
    rewrite Hs. cbn [bind]. unfold validate.
    destruct kms as [|k0 rest]; [contradiction|].
    replace (existsb (fun t0 => negb (length t0 =? length k0)) (k0 :: rest))
      with true; [reflexivity|].
    symmetry. apply existsb_exists.
    destruct (Nat.eq_dec (length t) (length k0)) as [E|E].
    + exists t'. split; auto. apply negb_true_iff, Nat.eqb_neq. congruence.
    + exists t. split; auto. apply negb_true_iff, Nat.eqb_neq. congruence.
  - intros k0 rest p k Hs Hall -> Hne. unfold tryParseKeymapsText.
    rewrite Hs. cbn [bind]. unfold validate.
    replace (existsb (fun t0 => negb (length t0 =? length k0)) (k0 :: rest))
      with false.
    + replace (Z.of_nat (length k0) =? k)%Z with false
        by (symmetry; apply Z.eqb_neq; auto).
      reflexivity.
    + symmetry. apply not_true_is_false. intros H.
      apply existsb_exists in H. destruct H as (t & Ht & H).
      apply negb_true_iff, Nat.eqb_neq in H. apply H.
      destruct Ht as [<-|Ht]; auto.
Qed.

Lemma C6_layer_sizes_witness :
  (exists k0 rest,
     [[AstWord (lit "A") 7 8; AstWord (lit "B") 9 10]] = k0 :: rest /\
     (forall t, In t [[AstWord (lit "A") 7 8; AstWord (lit "B") 9 10]] ->
        length t = length k0) /\
     (forall k, Some 2%Z = Some k -> Z.of_nat (length k0) = k)) /\
  tryParseKeymapsText (lit "KEYMAP(A,B) ... KEYMAP(A,B,C)") None false
  = Throw IncompatibleLayers /\
  tryParseKeymapsText (lit "KEYMAP(A,B)") (Some 3%Z) false
  = Throw (WrongKeyCount 2 3).
Proof.
  split; [|split].
  - apply (proj1 (C6_layer_sizes (lit "KEYMAP(A,B)") (Some 2%Z) false)
             [[AstWord (lit "A") 7 8; AstWord (lit "B") 9 10]] None).
    reflexivity.
  - apply (proj1 (proj2 (C6_layer_sizes (lit "KEYMAP(A,B) ... KEYMAP(A,B,C)")
                           None false))
             [[AstWord (lit "A") 7 8; AstWord (lit "B") 9 10];
              [AstWord (lit "A") 23 24; AstWord (lit "B") 25 26;
               AstWord (lit "C") 27 28]]
             29
             [AstWord (lit "A") 7 8; AstWord (lit "B") 9 10]
             [AstWord (lit "A") 23 24; AstWord (lit "B") 25 26;
              AstWord (lit "C") 27 28]).
    + reflexivity.
    + simpl. auto.
    + simpl. auto.
    + simpl. lia.
  - apply (proj2 (proj2 (C6_layer_sizes (lit "KEYMAP(A,B)") (Some 3%Z) false))
             [AstWord (lit "A") 7 8; AstWord (lit "B") 9 10] [] 11 3%Z).
    + reflexivity.
    + simpl. intros t [].
    + reflexivity.
    + simpl. lia.
Defined.

(** ** Appending a layer to a text that does not parse *)

(** C8.  [addLayerKeymaps] returns a text for every input, and when parsing
    the input fails, whatever the failure, that text is the input. *)
Theorem C8_append_layer_lenient text :
  (exists r, addLayerKeymaps text = Done r) /\
  (forall e, tryParseKeymapsText text None true = Throw e ->
     addLayerKeymaps text = Done text).
Proof.
  split.
  - unfold addLayerKeymaps.
    destruct (tryParseKeymapsText text None true) as [[kms endPos]|e|] eqn:E.
    + apply tryParseKeymapsText_Done in E. destruct E as (p & _ & Hv & ->).
      apply validate_Done in Hv. destruct Hv as (k0 & rest & -> & _).
      eauto.
    + eauto.
    + exfalso. revert E. apply tryParseKeymapsText_total.
  - intros e H. unfold addLayerKeymaps. rewrite H. reflexivity.
Qed.

Lemma C8_append_layer_lenient_witness :
  (exists r, addLayerKeymaps (lit "KEYMAP(LT(") = Done r) /\
  addLayerKeymaps (lit "KEYMAP(LT(") = Done (lit "KEYMAP(LT(").
Proof.
  split.
  - apply (proj1 (C8_append_layer_lenient (lit "KEYMAP(LT("))).
  - apply (proj2 (C8_append_layer_lenient (lit "KEYMAP(LT(")) TypeError).
    reflexivity.
Defined.

(** ** The evaluator *)

(** C9.  [expr.func in executor] is also true of the members a table
    inherits from [Object.prototype], and the evaluator then calls them with
    [this] set to [null].  With the empty table [{}], the key [valueOf(A)]
    of the text [KEYMAP(valueOf(A), toString(A))] makes the evaluation raise
    a TypeError, and the key [toString(A)] evaluates to the string
    [[object Null]]: neither name is a property of the table, and neither
    key evaluates to null. *)
Theorem C9_inherited_member_is_called :
  tryParseKeymapsText (lit "KEYMAP(valueOf(A), toString(A))") None false
  = Done ([[AstFunction (lit "valueOf") [AstWord (lit "A") 15 16] 7 17
              (lit "valueOf(A)");
            AstFunction (lit "toString") [AstWord (lit "A") 28 29] 19 30
              (lit "toString(A)")]], None)
  /\ ownMember [] (lit "valueOf") = None
  /\ ownMember [] (lit "toString") = None
  /\ has emptyTable (lit "valueOf") = true
  /\ has emptyTable (lit "toString") = true
  /\ evalKeyExpression otherTruthy
       (INode (AstFunction (lit "valueOf") [AstWord (lit "A") 15 16] 7 17
                 (lit "valueOf(A)")))
       emptyTable
     = Raises EngineTypeError
  /\ evalKeyExpression otherTruthy
       (INode (AstFunction (lit "toString") [AstWord (lit "A") 28 29] 19 30
                 (lit "toString(A)")))
       emptyTable
     = Returns (VString (lit "[object Null]")).
Proof. repeat split; reflexivity. Qed.

(** ** Invocations inside comments *)

(** C10.  The search for the marker ignores comments: an occurrence inside a
    comment that lies outside every argument list starts a Layer of its own,
    while an occurrence inside a comment of an argument list is skipped with
    the comment. *)
Theorem C10_marker_in_comment :
  tryParseKeymapsText (lit "/* KEYMAP(KC_A) */ KEYMAP(KC_B)") None false
  = Done ([[AstWord (lit "KC_A") 10 14]; [AstWord (lit "KC_B") 26 30]], None)
  /\ tryParseKeymapsText (lit "// KEYMAP(KC_A)" ++ [c_nl] ++ lit "KEYMAP(KC_B)")
       None false
     = Done ([[AstWord (lit "KC_A") 10 14]; [AstWord (lit "KC_B") 23 27]], None)
  /\ tryParseKeymapsText (lit "KEYMAP(/* KEYMAP(KC_A) */ KC_B)") None false
     = Done ([[AstWord (lit "KC_B") 26 30]], None).
Proof. repeat split; reflexivity. Qed.

(** ** Appending a layer *)

Lemma digits_noParen d : noParen (lit (NilEmpty.string_of_uint d)) = true.
Proof. induction d; simpl; auto. Qed.

Lemma showNat_noParen n : noParen (showNat n) = true.
Proof.
  unfold showNat, NilZero.string_of_uint.
  destruct (Nat.to_uint n) eqn:E; try reflexivity;
    rewrite <- E; apply digits_noParen.
Qed.

Lemma noParen_app a b : noParen (a ++ b) = noParen a && noParen b.
Proof. apply forallb_app. Qed.

Lemma newLayerLead_noParen n : noParen (newLayerLead n) = true.
Proof.
  unfold newLayerLead.
  change (c_comma :: c_nl :: lit " [" ++ showNat n ++ lit "] = ")
    with ((c_comma :: c_nl :: lit " [") ++ showNat n ++ lit "] = ").
  rewrite !noParen_app, showNat_noParen. reflexivity.
Qed.

Lemma argsText_repeat_bare w k :
  argsText (repeat (bare w) k) = join [c_comma] (repeat w k).
Proof.
  unfold argsText. f_equal.
  induction k as [|k IH]; simpl; auto.
  rewrite IH. unfold itemText. simpl. rewrite app_nil_r. reflexivity.
Qed.

Lemma newLayerText_split n k :
  newLayerText n k
  = newLayerLead n ++ marker
      ++ (argsText (repeat (bare placeholder) k) ++ [c_rparen]).
Proof.
  unfold newLayerText, newLayerLead. rewrite argsText_repeat_bare.
  simpl. rewrite <- !app_assoc. reflexivity.
Qed.

Lemma map_const_repeat {A B : Type} (b : B) (l : list A) :
  map (fun _ => b) l = repeat b (length l).
Proof. induction l as [|a l IH]; simpl; congruence. Qed.

Lemma wfItem_repeat_placeholder k :
  forallb wfItem (repeat (bare placeholder) k) = true.
Proof. induction k as [|k IH]; simpl; auto. Qed.

Lemma wordsAt_repeat_bare w k : forall base x,
  In x (wordsAt base (repeat (bare w) k)) ->
  exists o e, x = AstWord w o e.
Proof.
  induction k as [|k IH]; intros base x; simpl; [contradiction|].
  intros [<-|H]; eauto.
Qed.

Lemma addLayerKeymaps_Done text k0 rest p :
  tryParseKeymapsText text None true = Done (k0 :: rest, Some p) ->
  addLayerKeymaps text
  = Done (firstn p text ++ newLayerText (length (k0 :: rest)) (length k0)
            ++ skipn p text).
Proof.
  intros H. unfold addLayerKeymaps. rewrite H.
  unfold newLayerText, substr0, substrFrom.
  rewrite map_const_repeat. do 2 f_equal.
  rewrite <- !app_comm_cons, <- !app_assoc. reflexivity.
Qed.

Lemma validate_app k0 rest kc new :
  validate (k0 :: rest) kc = Done tt -> length new = length k0 ->
  validate ((k0 :: rest) ++ [new]) kc = Done tt.
Proof.
  unfold validate. intros H Hn. cbn [app].
  change (k0 :: rest ++ [new]) with ((k0 :: rest) ++ [new]).
  rewrite existsb_app.
  destruct (existsb _ (k0 :: rest)); [discriminate|].
  simpl. rewrite Hn, Nat.eqb_refl. simpl. exact H.
Qed.

Lemma validate_None kms kc :
  validate kms kc = Done tt -> validate kms None = Done tt.
Proof.
  unfold validate. destruct kms as [|k0 rest]; auto.
  destruct (existsb _ _); auto.
Qed.

(** The scan of the text with the new layer inserted at [p]. *)
Lemma scan_append text layers p n k :
  scan text (length text) 0 [] = Done (layers, p) ->
  p <= length text -> 1 <= k ->
  let text' := firstn p text ++ newLayerText n k ++ skipn p text in
  scan text' (length text') 0 []
  = Done (layers ++ [wordsAt (p + length (newLayerLead n) + 7)
                       (repeat (bare placeholder) k)],
          p + length (newLayerText n k)).
Proof.
  intros Hs Hp Hk text'.
  assert (Hend := scan_end _ _ _ _ _ _ Hs). destruct Hend as (_ & Hnone & _).
  destruct (scan_agree text text' _ _ _ _ _ Hs (agree_splice text p _ Hp))
    as (j & Hj).
  apply scan_enough with (n := j + 1). rewrite Hj.
  set (items := repeat (bare placeholder) k).
  set (i := p + length (newLayerLead n)).
  assert (Et : text' = firstn p text ++ newLayerLead n ++ marker
                 ++ (argsText items ++ [c_rparen]) ++ skipn p text).
  { unfold text'. rewrite newLayerText_split. fold items.
    rewrite <- !app_assoc. reflexivity. }
  assert (Lp : length (firstn p text) = p) by (rewrite length_firstn; lia).
  assert (Hi : indexOf marker text' p = Some i).
  { rewrite Et. unfold i.
    assert (X := indexOf_marker_after (firstn p text) (newLayerLead n)
                   ((argsText items ++ [c_rparen]) ++ skipn p text)
                   (newLayerLead_noParen n)).
    rewrite Lp in X. exact X. }
  assert (Hsk : skipn (i + 7) text'
                = argsText items ++ c_rparen :: skipn p text).
  { rewrite Et.
    replace (firstn p text ++ newLayerLead n ++ marker
               ++ (argsText items ++ [c_rparen]) ++ skipn p text)
      with ((firstn p text ++ newLayerLead n ++ marker)
              ++ (argsText items ++ c_rparen :: skipn p text))
      by (rewrite <- !app_assoc; reflexivity).
    apply skipn_app_length.
    rewrite !length_app, Lp. unfold i. change (length marker) with 7. lia. }
  assert (Hmain : main text' (length text') (i + 7)
                    {| pos := i + 7; pcount := 1 |}
                  = Done (wordsAt (i + 7) items,
                          {| pos := i + 7 + length (argsText items) + 1;
                             pcount := 0 |})).
  { unfold main.
    apply main_loop_enough with (n := length (argsText items) + 1).
    rewrite (main_loop_items text' items (skipn p text) 0); auto.
    - unfold items. destruct k; [lia|]. discriminate.
    - apply wfItem_repeat_placeholder.
    - simpl. lia. }
  rewrite (scan_step text' 0 p layers i _ _ Hi Hmain eq_refl).
  cbn [pos]. rewrite scan_stop.
  - do 2 f_equal. rewrite newLayerText_split. fold items.
    rewrite !length_app. unfold i. change (length marker) with 7.
    simpl length. lia.
  - apply indexOf_None. intros j' Hj'.
    assert (E : skipn j' text' = skipn (p + (j' - (i + 7 + length (argsText items) + 1))) text).
    { rewrite Et.
      replace (firstn p text ++ newLayerLead n ++ marker
                 ++ (argsText items ++ [c_rparen]) ++ skipn p text)
        with ((firstn p text ++ newLayerLead n ++ marker
                 ++ argsText items ++ [c_rparen]) ++ skipn p text)
        by (rewrite <- !app_assoc; reflexivity).
      assert (L : length (firstn p text ++ newLayerLead n ++ marker
                            ++ argsText items ++ [c_rparen])
                  = i + 7 + length (argsText items) + 1).
      { rewrite !length_app, Lp. unfold i. change (length marker) with 7.
        simpl length. lia. }
      rewrite skipn_app, skipn_all2 by lia.
      rewrite L, app_nil_l, skipn_skipn. f_equal. lia. }
    rewrite E. rewrite indexOf_None in Hnone. apply Hnone. lia.
Qed.

(** C7.  When the parser accepts a text as [n] Layers of [k] keys,
    [addLayerKeymaps] returns the text with [newLayerText n k] (comma,
    newline, the annotation of index [n], the macro name applied to [k]
    placeholder tokens joined by commas) inserted at the position [p] that
    follows the closing parenthesis of the last invocation, the characters
    before and after [p] being kept; and the parser accepts the result as
    the same Layers followed by one Layer of [k] Words, each the
    placeholder token. *)
Theorem C7_append_layer text kc layers :
  tryParseKeymapsText text kc false = Done (layers, None) ->
  let n := length layers in
  let k := length (hd [] layers) in
  (forall l, In l layers -> length l = k) /\ 1 <= k /\
  exists p newLayer,
    tryParseKeymapsText text None true = Done (layers, Some p) /\
    p <= length text /\ nth_error text (p - 1) = Some c_rparen /\
    indexOf marker text p = None /\
    addLayerKeymaps text
    = Done (firstn p text ++ newLayerText n k ++ skipn p text) /\
    tryParseKeymapsText (firstn p text ++ newLayerText n k ++ skipn p text)
      kc false
    = Done (layers ++ [newLayer], None) /\
    length newLayer = k /\
    (forall x, In x newLayer -> exists o e, x = AstWord placeholder o e) /\
    (forall l, In l (layers ++ [newLayer]) -> length l = k).
Proof.
  intros H n k.
  apply tryParseKeymapsText_Done in H. destruct H as (p & Hs & Hv & _).
  assert (Hv' := validate_Done _ _ _ Hv).
  destruct Hv' as (k0 & rest & El & Hall & _).
  assert (Hend := scan_end _ _ _ _ _ _ Hs).
  destruct Hend as (_ & Hnone & more & Em & Hne & _ & Hp).
  simpl in Em. subst more.
  destruct Hp as [Hp Hr]; [rewrite El; discriminate|].
  assert (Hk : 1 <= k).
  { unfold k. rewrite El. simpl.
    assert (N : k0 <> []) by (apply Hne; rewrite El; left; auto).
    destruct k0; [congruence|simpl; lia]. }
  assert (Ek : k = length k0) by (unfold k; rewrite El; reflexivity).
  split; [intros l Hl; rewrite Ek; auto|]. split; [exact Hk|].
  set (newLayer := wordsAt (p + length (newLayerLead n) + 7)
                     (repeat (bare placeholder) k)).
  assert (Ln : length newLayer = k).
  { unfold newLayer. rewrite wordsAt_length, repeat_length. reflexivity. }
  exists p, newLayer.
  assert (Hparse : tryParseKeymapsText text None true = Done (layers, Some p)).
  { unfold tryParseKeymapsText. rewrite Hs. cbn [bind].
    rewrite (validate_None _ _ Hv). reflexivity. }
  split; [exact Hparse|]. split; [exact Hp|]. split; [exact Hr|].
  split; [exact Hnone|]. split.
  { unfold n. rewrite Ek. rewrite El in Hparse |- *.
    apply addLayerKeymaps_Done. exact Hparse. }
  split.
  { unfold tryParseKeymapsText.
    rewrite (scan_append text layers p n k Hs Hp Hk). cbn [bind].
    fold newLayer. rewrite El. rewrite validate_app.
    - reflexivity.
    - rewrite <- El. exact Hv.
    - rewrite Ln. exact Ek. }
  split; [exact Ln|]. split.
  { intros x Hx. apply (wordsAt_repeat_bare _ _ _ _ Hx). }
  intros l Hl. apply in_app_or in Hl. destruct Hl as [Hl|[<-|[]]].
  - rewrite Ek. auto.
  - exact Ln.
Qed.

Lemma C7_append_layer_witness :
  let text := lit "x KEYMAP(A,B) y" in
  let layers := [[AstWord (lit "A") 9 10; AstWord (lit "B") 11 12]] in
  let n := length layers in
  let k := length (hd [] layers) in
  (forall l, In l layers -> length l = k) /\ 1 <= k /\
  exists p newLayer,
    tryParseKeymapsText text None true = Done (layers, Some p) /\
    p <= length text /\ nth_error text (p - 1) = Some c_rparen /\
    indexOf marker text p = None /\
    addLayerKeymaps text
    = Done (firstn p text ++ newLayerText n k ++ skipn p text) /\
    tryParseKeymapsText (firstn p text ++ newLayerText n k ++ skipn p text)
      None false
    = Done (layers ++ [newLayer], None) /\
    length newLayer = k /\
    (forall x, In x newLayer -> exists o e, x = AstWord placeholder o e) /\
    (forall l, In l (layers ++ [newLayer]) -> length l = k).
Proof.
  apply (C7_append_layer (lit "x KEYMAP(A,B) y") None
           [[AstWord (lit "A") 9 10; AstWord (lit "B") 11 12]]).
  reflexivity.
Defined.

(** ** Setting a key *)

Lemma validate_lengths kms1 kms2 kc :
  map (@length AstNode) kms1 = map (@length AstNode) kms2 ->
  validate kms1 kc = validate kms2 kc.
Proof.
  unfold validate. destruct kms1 as [|k1 r1], kms2 as [|k2 r2];
    simpl; try discriminate; auto.
  intros H. injection H as Hk Hr. rewrite Hk.
  replace (existsb (fun t => negb (length t =? length k2)) r1)
    with (existsb (fun t => negb (length t =? length k2)) r2); [reflexivity|].
  clear Hk. revert r2 Hr. induction r1 as [|a r1 IH]; intros [|b r2] Hr;
    simpl in *; try discriminate; auto.
  injection Hr as Ha Hr. rewrite Ha, (IH r2 Hr). reflexivity.
Qed.

Lemma index_app_middle {A : Type} (l : list A) x r :
  index (l ++ x :: r) (Z.of_nat (length l)) = Some x.
Proof.
  unfold index.
  replace (Z.of_nat (length l) <? 0)%Z with false
    by (symmetry; apply Z.ltb_ge; lia).
  rewrite Nat2Z.id, nth_error_app2, Nat.sub_diag by lia. reflexivity.
Qed.

(** * Further properties of the code *)

(** ** Trimming *)

Lemma takeWhile_rest p (s : str) :
  exists r, s = takeWhile p s ++ r /\
    forallb p (takeWhile p s) = true /\
    (forall c, hd_error r = Some c -> p c = false).
Proof.
  induction s as [|a s (r & E & F & H)]; simpl.
  - exists []. repeat split; auto. discriminate.
  - destruct (p a) eqn:Pa.
    + exists r. simpl. rewrite Pa, F. repeat split; auto. f_equal. exact E.
    + exists (a :: s). repeat split; auto. simpl. intros c Hc. congruence.
Qed.

Lemma tokenWithoutSpaces_parts (s : str) :
  exists lead trail,
    s = lead ++ snd (tokenWithoutSpaces s) ++ trail /\
    fst (tokenWithoutSpaces s) = length lead /\
    forallb isWhite lead = true /\ forallb isWhite trail = true /\
    (forall c, hd_error (snd (tokenWithoutSpaces s)) = Some c -> isWhite c = false) /\
    (forall c, hd_error (rev (snd (tokenWithoutSpaces s))) = Some c ->
       isWhite c = false) /\
    (snd (tokenWithoutSpaces s) = [] -> trail = []).
Proof.
  destruct (takeWhile_rest isWhite s) as (r & Es & Fl & Hr).
  destruct (takeWhile_rest isWhite (rev s)) as (r' & Es' & Fl' & Hr').
  set (A := takeWhile isWhite s) in *.
  set (B := takeWhile isWhite (rev s)) in *.
  unfold tokenWithoutSpaces. fold A. fold B. cbn [fst snd].
  destruct r as [|c r].
  - (* all white *)
    rewrite app_nil_r in Es.
    assert (EB : B = rev s).
    { unfold B. clear -Es Fl. rewrite Es.
      assert (W : forallb isWhite (rev A) = true) by (rewrite forallb_rev; auto).
      revert W. generalize (rev A). clear.
      induction l as [|a l IH]; simpl; auto.
      rewrite andb_true_iff. intros [-> H]. rewrite IH; auto. }
    exists A, []. rewrite EB, length_rev, Nat.sub_diag.
    unfold slice. simpl. rewrite app_nil_r.
    repeat split; auto; try discriminate.
  - assert (Hc : isWhite c = false) by (apply Hr; reflexivity).
    (* the white tail of [s] lies inside [c :: r] *)
    assert (Hrev : rev s = rev r ++ c :: rev A).
    { rewrite Es at 1. rewrite rev_app_distr. simpl. rewrite <- app_assoc.
      reflexivity. }
    assert (HB : exists m, rev r = B ++ m).
    { unfold B. rewrite Hrev. clear -Hc. generalize (rev r) as l.
      induction l as [|a l [m IH]]; simpl.
      - rewrite Hc. exists []. reflexivity.
      - destruct (isWhite a).
        + exists m. simpl. f_equal. exact IH.
        + exists (a :: l). reflexivity. }
    destruct HB as [m Hm].
    assert (Er' : r' = m ++ c :: rev A).
    { apply (app_inv_head B). rewrite <- Es', Hrev, Hm, <- app_assoc.
      reflexivity. }
    assert (Er : c :: r = (c :: rev m) ++ rev B).
    { simpl. f_equal. rewrite <- (rev_involutive r), Hm, rev_app_distr.
      reflexivity. }
    exists A, (rev B).
    assert (Et : slice s (length A) (length s - length B) = c :: rev m).
    { unfold slice. rewrite Es at 2. rewrite skipn_app, skipn_all, Nat.sub_diag.
      simpl skipn. rewrite Es at 1. rewrite Er.
      rewrite !length_app, length_rev.
      replace (length A + (length (c :: rev m) + length B) - length B - length A)
        with (length (c :: rev m)) by lia.
      rewrite app_nil_l, firstn_app, firstn_all, Nat.sub_diag.
      cbn [firstn]. apply app_nil_r. }
    rewrite Et. repeat split; auto.
    + rewrite Es at 1. rewrite Er. reflexivity.
    + rewrite forallb_rev. exact Fl'.
    + simpl. rewrite rev_involutive. intros c0 E.
      destruct m as [|a m]; simpl in E.
      * injection E as <-. exact Hc.
      * apply Hr'. rewrite Er'. exact E.
    + discriminate.
Qed.

Lemma tokenWithoutSpaces_fixed (tok : str) :
  (forall c, hd_error tok = Some c -> isWhite c = false) ->
  (forall c, hd_error (rev tok) = Some c -> isWhite c = false) ->
  tokenWithoutSpaces tok = (0, tok).
Proof.
  intros H1 H2. unfold tokenWithoutSpaces.
  assert (T : forall l : str,
            (forall c, hd_error l = Some c -> isWhite c = false) ->
            takeWhile isWhite l = []).
  { intros [|a l] H; [reflexivity|]. simpl. rewrite H; reflexivity. }
  rewrite (T tok H1), (T (rev tok) H2). cbn [length]. f_equal.
  unfold slice. rewrite !Nat.sub_0_r. cbn [skipn]. apply firstn_all.
Qed.

(** [tokenWithoutSpaces] splits a string into white space, the token and
    white space: the offset it returns is the length of the white space in
    front, and the token neither starts nor ends with a white character
    (it is empty when the string is white space only).  Trimming the token
    again changes nothing. *)
Theorem tokenWithoutSpaces_trims (s : str) :
  (exists lead trail,
     s = lead ++ snd (tokenWithoutSpaces s) ++ trail /\
     fst (tokenWithoutSpaces s) = length lead /\
     forallb isWhite lead = true /\ forallb isWhite trail = true /\
     (snd (tokenWithoutSpaces s) = [] -> trail = [])) /\
  (forall c, hd_error (snd (tokenWithoutSpaces s)) = Some c -> isWhite c = false) /\
  (forall c, hd_error (rev (snd (tokenWithoutSpaces s))) = Some c ->
     isWhite c = false) /\
  tokenWithoutSpaces (snd (tokenWithoutSpaces s))
  = (0, snd (tokenWithoutSpaces s)).
Proof.
  destruct (tokenWithoutSpaces_parts s)
    as (lead & trail & E & O & Wl & Wt & H1 & H2 & N).
  split; [exists lead, trail; auto|]. split; [exact H1|]. split; [exact H2|].
  apply tokenWithoutSpaces_fixed; assumption.
Qed.
(** ** Errors of the parser *)

Lemma tokenWithoutSpaces_offset s : fst (tokenWithoutSpaces s) <= length s.
Proof.
  unfold tokenWithoutSpaces. simpl.
  destruct (takeWhile_firstn isWhite s) as [E _].
  rewrite <- E at 1. rewrite length_firstn. lia.
Qed.

Lemma slice_length (t : str) a b : b <= length t -> length (slice t a b) = b - a.
Proof. intros H. unfold slice. rewrite length_firstn, length_skipn. lia. Qed.

Lemma addWord_Throw expr f e err :
  addWord expr f e = Throw err -> e <= length expr ->
  fromMain err = true /\ forall p, errorPos err = Some p -> p <= e.
Proof.
  unfold addWord. intros H He.
  destruct (e <=? start f) eqn:E; [discriminate|]. apply Nat.leb_gt in E.
  assert (O := tokenWithoutSpaces_offset (slice expr (start f) e)).
  rewrite slice_length in O by auto.
  destruct (tokenWithoutSpaces _) as [o t]. simpl in O.
  destruct (isEmpty t); [discriminate|].
  destruct (existsb isWhite t); [|discriminate].
  inversion H; subst. simpl. split; auto. intros p Hp. inversion Hp. lia.
Qed.

Lemma ensureTokenExists_Throw f g err :
  ensureTokenExists f g = Throw err -> err = MissingToken (pos g).
Proof.
  unfold ensureTokenExists. destruct (_ || _); intros H; inversion H; auto.
Qed.

Lemma firstSwitch_start expr c nx f g f' g' :
  firstSwitch expr c nx f g = Done (f', g') ->
  start f <= pos g -> start f' <= pos g'.
Proof.
  unfold firstSwitch. destruct nx as [nx|]; [|intros H; inversion H; auto].
  destruct (_ && _).
  { intros H; inversion H; simpl; lia. }
  destruct (_ && _).
  { intros H. bind_inv H. apply addWord_Done in Hm.
    destruct (blockComment _ _) as [p b] eqn:E. apply blockComment_pos in E.
    inversion H; subst. destruct b; simpl; lia. }
  destruct (_ && _).
  { intros H. bind_inv H. apply addWord_Done in Hm.
    destruct (lineComment _ _) as [p b] eqn:E. apply lineComment_pos in E.
    inversion H; subst. destruct b; simpl; lia. }
  intros H; inversion H; subst; auto.
Qed.

Lemma firstSwitch_Throw expr c nx f g err :
  firstSwitch expr c nx f g = Throw err -> pos g <= length expr -> 1 <= pos g ->
  fromMain err = true /\ forall p, errorPos err = Some p -> p <= length expr.
Proof.
  unfold firstSwitch. destruct nx as [nx|]; [|discriminate].
  destruct (_ && _); [discriminate|].
  destruct (_ && _).
  { intros H Hp H1. destruct (addWord _ _ _) eqn:E; simpl in H.
    - destruct (blockComment _ _); discriminate.
    - inversion H; subst. apply addWord_Throw in E; [|lia].
      destruct E as [E1 E2]. split; auto. intros p Hq. apply E2 in Hq. lia.
    - discriminate. }
  destruct (_ && _).
  { intros H Hp H1. destruct (addWord _ _ _) eqn:E; simpl in H.
    - destruct (lineComment _ _); discriminate.
    - inversion H; subst. apply addWord_Throw in E; [|lia].
      destruct E as [E1 E2]. split; auto. intros p Hq. apply E2 in Hq. lia.
    - discriminate. }
  discriminate.
Qed.

(** What [main] throws is one of its own errors, and the position it
    reports lies in the text. *)
Lemma main_loop_Throw expr n : forall f g err,
  main_loop expr n f g = Throw err -> start f <= pos g ->
  fromMain err = true /\ forall p, errorPos err = Some p -> p <= length expr.
Proof.
  induction n as [|n IH]; intros f g err H Hst.
  { simpl in H. destruct (length expr <=? pos g); discriminate. }
  rewrite main_loop_S in H.
  destruct (length expr <=? pos g) eqn:E; [discriminate|].
  apply Nat.leb_gt in E. unfold loop_body in H.
  destruct (firstSwitch _ _ _ _ _) as [[f1 g1]|e1|] eqn:Fs; cbn [bind] in H;
    [|inversion H; subst; apply (firstSwitch_Throw _ _ _ _ _ _ Fs); simpl; lia
     |discriminate].
  assert (S1 := firstSwitch_start _ _ _ _ _ _ _ Fs ltac:(simpl; lia)).
  assert (Hns : forall c', (nth (pos g) expr 0%N =? c')%N = true ->
                 (c' =? c_bslash)%N = false -> (c' =? c_slash)%N = false ->
                 f1 = f /\ g1 = set_pos g (pos g + 1)).
  { intros c' Hc B1 B2. apply N.eqb_eq in Hc.
    rewrite firstSwitch_noop in Fs by (rewrite Hc; auto).
    inversion Fs; auto. }
  destruct (_ =? c_space)%N; [apply (IH _ _ _ H); auto|].
  destruct (_ =? c_comma)%N eqn:Cc.
  { destruct (Hns _ Cc eq_refl eq_refl) as [-> ->]. simpl in H.
    rewrite Nat.add_sub in H.
    destruct (addWord expr f (pos g)) as [f2|e2|] eqn:Aw; cbn [bind] in H;
      [|inversion H; subst; apply addWord_Throw in Aw; [|lia];
        destruct Aw as [A1 A2]; split; auto; intros p Hp; apply A2 in Hp; lia
       |discriminate].
    destruct (ensureTokenExists f2 _) as [f3|e3|] eqn:En; cbn [bind] in H;
      [|inversion H; subst; apply ensureTokenExists_Throw in En; subst;
        simpl; split; auto; intros p Hp; inversion Hp; lia
       |discriminate].
    apply (IH _ _ _ H). simpl. lia. }
  destruct (_ =? c_lparen)%N eqn:Cl.
  { destruct (Hns _ Cl eq_refl eq_refl) as [-> ->]. simpl in H.
    rewrite Nat.add_sub in H.
    destruct (addFunc _ _ _ _ _) as [[f2 g2]|e2|] eqn:Af; cbn [bind] in H;
      [apply (IH _ _ _ H); simpl; lia| |discriminate].
    inversion H; subst. clear H. unfold addFunc in Af.
    destruct (pos g <=? start f) eqn:Ps.
    { inversion Af; subst. simpl. split; auto. intros p Hp. inversion Hp. lia. }
    apply Nat.leb_gt in Ps.
    assert (O := tokenWithoutSpaces_offset (slice expr (start f) (pos g))).
    rewrite slice_length in O by lia.
    destruct (tokenWithoutSpaces _) as [o t]. simpl in O.
    destruct (isEmpty t).
    { inversion Af; subst. simpl. split; auto. intros p Hp. inversion Hp. lia. }
    destruct (existsb isWhite t).
    { inversion Af; subst. simpl. split; auto. intros p Hp. inversion Hp. lia. }
    destruct (main_loop expr n _ _) as [[ps g3]|e3|] eqn:In; cbn [bind] in Af.
    - destruct (last _ _); [discriminate|]. inversion Af; subst. simpl.
      split; auto. discriminate.
    - inversion Af; subst. apply (IH _ _ _ In). simpl. lia.
    - discriminate. }
  destruct (_ =? c_rparen)%N eqn:Cr.
  { destruct (Hns _ Cr eq_refl eq_refl) as [-> ->]. simpl in H.
    rewrite Nat.add_sub in H.
    destruct (addWord expr f (pos g)) as [f2|e2|] eqn:Aw; cbn [bind] in H;
      [|inversion H; subst; apply addWord_Throw in Aw; [|lia];
        destruct Aw as [A1 A2]; split; auto; intros p Hp; apply A2 in Hp; lia
       |discriminate].
    destruct (ensureTokenExists f2 _) as [f3|e3|] eqn:En; cbn [bind] in H;
      [discriminate| |discriminate].
    inversion H; subst. apply ensureTokenExists_Throw in En. subst.
    simpl. split; auto. intros p Hp. inversion Hp. lia. }
  apply (IH _ _ _ H); auto.
Qed.

Lemma scan_Throw text n : forall p kms err,
  scan text n p kms = Throw err ->
  indexOf marker text p <> None /\
  (err = Unbalanced \/
   fromMain err = true /\ forall q, errorPos err = Some q -> q <= length text).
Proof.
  induction n as [|n IH]; intros p kms err H; simpl in H.
  - destruct (indexOf marker text p); discriminate.
  - destruct (indexOf marker text p) as [i|] eqn:E; [|discriminate].
    split; [discriminate|].
    destruct (main text (length text) (i + 7) _) as [[km g]|e|] eqn:M;
      cbn [bind] in H.
    + destruct (pcount g =? 0)%Z.
      * apply IH in H. tauto.
      * inversion H; auto.
    + inversion H; subst. right. apply (main_loop_Throw _ _ _ _ _ M). simpl. lia.
    + discriminate.
Qed.

Lemma scan_Done_nonempty text n : forall p kms kms' q,
  scan text n p kms = Done (kms', q) ->
  indexOf marker text p <> None \/ kms <> [] -> kms' <> [].
Proof.
  intros p kms kms' q H Hor.
  destruct (scan_end _ _ _ _ _ _ H) as (_ & _ & more & -> & _ & Hm & _).
  destruct Hor as [Hi|Hk].
  - destruct more as [|m more].
    + exfalso. destruct n; simpl in H.
      * destruct (indexOf marker text p); [discriminate|congruence].
      * destruct (indexOf marker text p) as [i|] eqn:E; [|congruence].
        bind_inv H. destruct a as [km g].
        destruct (pcount g =? 0)%Z; [|discriminate].
        destruct (scan_end _ _ _ _ _ _ H) as (_ & _ & more' & E' & _).
        rewrite app_nil_r in E'. rewrite <- app_assoc in E'.
        rewrite <- (app_nil_r kms) in E' at 1.
        apply app_inv_head in E'. discriminate.
    + intros X. apply app_eq_nil in X. destruct X; discriminate.
  - intros X. apply app_eq_nil in X. tauto.
Qed.

(** The parser and the editor terminate on every input: each loop of the
    source moves [pos] forward, so that as many iterations as the text has
    characters are enough. *)
Theorem parser_terminates text kc hack layer key newValue :
  tryParseKeymapsText text kc hack <> Fuel /\
  trySetKeymapsKey text layer key newValue kc <> Fuel /\
  addLayerKeymaps text <> Fuel.
Proof.
  split; [apply tryParseKeymapsText_total|]. split.
  - unfold trySetKeymapsKey. apply bind_not_Fuel.
    + apply tryParseKeymapsText_total.
    + intros [kms e] _. destruct (index kms layer) as [l|]; [|discriminate].
      destruct (index l key) as [k|]; [|discriminate].
      apply bind_not_Fuel; [apply tryParseKeymapsText_total|].
      intros; discriminate.
  - unfold addLayerKeymaps.
    destruct (tryParseKeymapsText text None true) as [[kms e]| |] eqn:E;
      [|discriminate|exfalso; revert E; apply tryParseKeymapsText_total].
    apply tryParseKeymapsText_Done in E. destruct E as (p & _ & Hv & ->).
    apply validate_Done in Hv. destruct Hv as (k0 & rest & -> & _).
    discriminate.
Qed.

(** "KEYMAPS not found" is the answer to exactly the texts that do not
    contain the marker; the empty text is one of them. *)
Theorem keymaps_not_found_iff text kc hack :
  tryParseKeymapsText text kc hack = Throw KeymapsNotFound
  <-> indexOf marker text 0 = None.
Proof.
  unfold tryParseKeymapsText. split.
  - intros H.
    destruct (scan text (length text) 0 []) as [[kms p]|e|] eqn:S;
      cbn [bind] in H.
    + destruct (indexOf marker text 0) eqn:I; auto. exfalso.
      assert (N := scan_Done_nonempty _ _ _ _ _ _ S
                     ltac:(left; rewrite I; discriminate)).
      unfold validate in H. destruct kms as [|k0 r]; [congruence|].
      destruct (existsb _ _); [discriminate|].
      destruct kc; [destruct (negb _)|]; discriminate.
    + inversion H; subst. apply scan_Throw in S.
      destruct S as [_ [S|[S _]]]; discriminate.
    + discriminate.
  - intros H. rewrite scan_stop by exact H. reflexivity.
Qed.

(** The position that a parse error reports is a position of the text. *)
Theorem error_position_in_text text kc hack err p :
  tryParseKeymapsText text kc hack = Throw err ->
  errorPos err = Some p -> p <= length text.
Proof.
  unfold tryParseKeymapsText. intros H Hp.
  destruct (scan text (length text) 0 []) as [[kms q]|e|] eqn:S;
    cbn [bind] in H.
  - unfold validate in H. destruct kms as [|k0 r];
      [inversion H; subst; discriminate|].
    destruct (existsb _ _); [inversion H; subst; discriminate|].
    destruct kc; [destruct (negb _)|]; inversion H; subst; discriminate.
  - inversion H; subst. apply scan_Throw in S.
    destruct S as [_ [->|[_ S]]]; [discriminate|auto].
  - discriminate.
Qed.

Lemma error_position_in_text_witness : 8 <= length (lit "KEYMAP(,)").
Proof.
  apply (error_position_in_text (lit "KEYMAP(,)") None false (MissingToken 8) 8);
    reflexivity.
Defined.
(** ** The editor at its bounds *)

Lemma index_None {A : Type} (l : list A) i :
  (i < 0 \/ Z.of_nat (length l) <= i)%Z -> index l i = None.
Proof.
  intros H. unfold index. destruct (i <? 0)%Z eqn:E; auto.
  apply Z.ltb_ge in E. apply nth_error_None. lia.
Qed.

Lemma index_Some {A : Type} (l : list A) i x :
  index l i = Some x -> (0 <= i < Z.of_nat (length l))%Z /\ In x l.
Proof.
  unfold index. destruct (i <? 0)%Z eqn:E; [discriminate|].
  apply Z.ltb_ge in E. intros H. split.
  - assert (X : nth_error l (Z.to_nat i) <> None) by congruence.
    apply nth_error_Some in X. lia.
  - eapply nth_error_In; eauto.
Qed.

(** A layer or key number that is negative or too large leaves an accepted
    text as it is. *)
Theorem set_key_out_of_range text kc layers L K V :
  tryParseKeymapsText text kc false = Done (layers, None) ->
  (L < 0 \/ Z.of_nat (length layers) <= L \/
   K < 0 \/ Z.of_nat (length (hd [] layers)) <= K)%Z ->
  trySetKeymapsKey text L K V kc = Done text.
Proof.
  intros H Hout. unfold trySetKeymapsKey. rewrite H. cbn [bind].
  destruct (index layers L) as [l|] eqn:El; [|reflexivity].
  destruct (index_Some _ _ _ El) as [HL Hin].
  apply tryParseKeymapsText_Done in H. destruct H as (p & _ & Hv & _).
  apply validate_Done in Hv. destruct Hv as (k0 & rest & -> & Hall & _).
  simpl hd in Hout. rewrite <- (Hall l Hin) in Hout.
  rewrite index_None; [reflexivity|]. lia.
Qed.

Lemma set_key_out_of_range_witness :
  trySetKeymapsKey (lit "KEYMAP(A,B)") 0 2 (lit "X") None
  = Done (lit "KEYMAP(A,B)").
Proof.
  apply (set_key_out_of_range (lit "KEYMAP(A,B)") None
           [[AstWord (lit "A") 7 8; AstWord (lit "B") 9 10]] 0 2 (lit "X")).
  - reflexivity.
  - simpl. lia.
Defined.

(** ** The nodes of an accepted text *)

Lemma nodeSpan_all t ps :
  (fix all (l : list AstNode) : Prop :=
     match l with
     | [] => True
     | p :: l' => nodeSpan t p /\ all l'
     end) ps <-> Forall (nodeSpan t) ps.
Proof.
  induction ps as [|p ps IH]; simpl.
  - split; auto.
  - rewrite IH. split.
    + intros [H1 H2]. constructor; auto.
    + intros H. inversion H; auto.
Qed.

Lemma ordered_In l x : ordered l -> In x l -> node_offset x < node_end x.
Proof.
  induction l as [|a l IH]; simpl; [tauto|].
  intros (H1 & _ & H3) [<-|Hx]; auto.
Qed.

Lemma ordered_app l1 l2 :
  ordered l1 -> ordered l2 ->
  (forall x y, In x l1 -> In y l2 -> node_end x <= node_offset y) ->
  ordered (l1 ++ l2).
Proof.
  induction l1 as [|a l1 IH]; simpl; auto.
  intros (H1 & H2 & H3) O2 Hxy. split; [exact H1|]. split.
  - destruct l1 as [|b l1]; simpl.
    + destruct l2 as [|y l2]; auto. apply Hxy; simpl; auto.
    + exact H2.
  - apply IH; auto.
Qed.

(** The token found between [s] and [e] lies in the text where its offset
    says, with white space only behind it. *)
Lemma token_span (t : str) s e o tok :
  tokenWithoutSpaces (slice t s e) = (o, tok) -> tok <> [] ->
  s < e -> e <= length t ->
  s + o + length tok <= e /\
  slice t (s + o) (s + o + length tok) = tok /\
  forallb isWhite (slice t (s + o + length tok) e) = true.
Proof.
  intros Et Hne Hse He.
  destruct (tokenWithoutSpaces_inv _ _ _ Et Hne)
    as (lead & trail & Es & Lo & Wl & Wt).
  assert (Ls := slice_length t s e He).
  rewrite Es, !length_app in Ls.
  assert (Sk : skipn s t = (lead ++ tok ++ trail) ++ skipn e t).
  { rewrite <- Es. unfold slice.
    rewrite <- (firstn_skipn (e - s) (skipn s t)) at 1.
    f_equal. rewrite skipn_skipn. f_equal. lia. }
  rewrite <- !app_assoc in Sk.
  apply skipn_app_inv in Sk. destruct Sk as [Sk _]. rewrite Lo in Sk.
  split; [lia|]. split.
  - apply slice_of_skipn with (r := trail ++ skipn e t). exact Sk.
  - apply skipn_app_inv in Sk. destruct Sk as [Sk _].
    replace e with (s + o + length tok + length trail) at 1 by lia.
    rewrite (slice_of_skipn _ _ _ _ Sk). exact Wt.
Qed.

Lemma addWord_span expr f e f' :
  addWord expr f e = Done f' -> e < length expr ->
  In (nth e expr 0%N) [c_comma; c_rparen; c_slash] ->
  exists new, arr f' = arr f ++ new /\ ordered new /\
    forall x, In x new ->
      start f <= node_offset x /\ node_end x = e /\ nodeSpan expr x.
Proof.
  intros H He Hd.
  destruct (addWord_cases _ _ _ _ H) as [->|(o & tok & Hs & Et & Hne & ->)].
  - exists []. rewrite app_nil_r. split; [reflexivity|]. split; [exact I|].
    intros x [].
  - exists [AstWord tok (start f + o) e]. split; [reflexivity|].
    destruct (addWord_wordSpan _ _ _ _ H ltac:(lia)) as (new & En & Hn).
    simpl in En. apply app_inv_head in En. subst new.
    destruct (Hn _ (or_introl eq_refl)) as (W & _ & O1 & O2).
    cbn [node_offset] in O1, O2. split.
    + simpl. auto.
    + intros x [<-|[]]. cbn [node_offset node_end nodeSpan].
      repeat split; auto; apply W.
Qed.

Section CleanSpans.

Variable expr : str.

(** The nodes that a run which closes its parenthesis adds. *)
Lemma main_loop_clean_span n : forall f g a g',
  main_loop expr n f g = Done (a, g') ->
  pcount g' = (pcount g - 1)%Z ->
  start f <= pos g ->
  pos g' <= length expr /\
  exists new, a = arr f ++ new /\ ordered new /\
    forall x, In x new ->
      start f <= node_offset x /\ node_end x < pos g' /\ nodeSpan expr x.
Proof.
  induction n as [|n IH]; intros f g a g' H Hc Hst.
  { simpl in H. destruct (length expr <=? pos g); [|discriminate].
    inversion H; subst. lia. }
  (* joining the nodes of one step with those of the steps that follow *)
  assert (Join : forall new1 new2 mid,
            ordered new1 -> ordered new2 ->
            (forall x, In x new1 ->
               start f <= node_offset x /\ node_end x <= mid /\ nodeSpan expr x) ->
            (forall x, In x new2 ->
               mid <= node_offset x /\ node_end x < pos g' /\ nodeSpan expr x) ->
            start f <= mid -> mid < pos g' ->
            ordered (new1 ++ new2) /\
            forall x, In x (new1 ++ new2) ->
              start f <= node_offset x /\ node_end x < pos g' /\ nodeSpan expr x).
  { intros new1 new2 mid O1 O2 H1 H2 L1 L2. split.
    - apply ordered_app; auto. intros x y Hx Hy.
      apply H1 in Hx. apply H2 in Hy. lia.
    - intros x Hx. apply in_app_or in Hx. destruct Hx as [Hx|Hx].
      + apply H1 in Hx. repeat split; try tauto; lia.
      + apply H2 in Hx. repeat split; try tauto; lia. }
  destruct (main_loop_clean_inv _ _ _ _ _ _ H Hc) as [Hlt Hcases].
  cbv zeta in Hcases.
  destruct Hcases as [(f1 & g2 & Hfs & Hp2 & Hpos & _ & _ & _ & Hrec)
                     |[(Ec & f2 & f3 & Ha & He & Hrec)
                     |[(El & o & tok & ps & l & g2 & Hs & Et & Hne & Hw & Hin
                           & Hp2 & Hl & Hrec)
                      |(Er & f2 & f3 & Ha & He & -> & ->)]]].
  - (* a character that neither separates nor nests *)
    assert (M := main_loop_mono _ _ _ _ _ _ Hrec).
    destruct M as (M1 & _ & M2). specialize (M2 ltac:(lia)).
    assert (Hf1 : exists new1 mid,
               arr f1 = arr f ++ new1 /\ ordered new1 /\
               start f1 = mid /\ start f <= mid /\ mid <= pos g2 /\
               forall x, In x new1 ->
                 start f <= node_offset x /\ node_end x <= mid
                 /\ nodeSpan expr x).
    { assert (Same : f1 = f /\ g2 = set_pos g (pos g + 1) ->
                exists new1 mid,
                  arr f1 = arr f ++ new1 /\ ordered new1 /\
                  start f1 = mid /\ start f <= mid /\ mid <= pos g2 /\
                  forall x, In x new1 ->
                    start f <= node_offset x /\ node_end x <= mid
                    /\ nodeSpan expr x).
      { intros [-> ->]. exists [], (start f). rewrite app_nil_r. simpl.
        split; [reflexivity|]. split; [exact I|]. split; [reflexivity|].
        split; [lia|]. split; [lia|]. intros x []. }
      revert Hfs. unfold firstSwitch.
      destruct (nth_error expr (pos g + 1)) as [nx|];
        [|intros E; inversion E; subst; apply Same; auto].
      destruct (_ && _).
      { intros E; inversion E; subst. simpl in *.
        exists [], (pos g + 1 + 1). rewrite app_nil_r.
        split; [reflexivity|]. split; [exact I|]. split; [reflexivity|].
        split; [lia|]. split; [lia|]. intros x []. }
      destruct ((nth (pos g) expr 0 =? c_slash)%N && (nx =? c_star)%N) eqn:B1.
      { intros E. bind_inv E. destruct (blockComment _ _) as [p b] eqn:Eb.
        inversion E; subst. simpl in *. rewrite Nat.add_sub in Hm.
        apply andb_true_iff in B1. destruct B1 as [B1 _]. apply N.eqb_eq in B1.
        destruct b.
        2:{ exfalso. apply blockComment_open in Eb. rewrite length_skipn in Eb.
            rewrite main_loop_eof in Hrec by (simpl; lia).
            inversion Hrec; subst. simpl in Hc. lia. }
        apply blockComment_found in Eb.
        destruct (addWord_span _ _ _ _ Hm Hlt ltac:(rewrite B1; simpl; auto))
          as (new1 & E1 & O1 & Hn1).
        exists new1, p. simpl.
        split; [exact E1|]. split; [exact O1|]. split; [reflexivity|].
        split; [lia|]. split; [lia|]. intros x Hx.
        destruct (Hn1 x Hx) as (X1 & X2 & X3). repeat split; auto; lia. }
      destruct ((nth (pos g) expr 0 =? c_slash)%N && (nx =? c_slash)%N) eqn:B2.
      { intros E. bind_inv E. destruct (lineComment _ _) as [p b] eqn:Eb.
        inversion E; subst. simpl in *. rewrite Nat.add_sub in Hm.
        apply andb_true_iff in B2. destruct B2 as [B2 _]. apply N.eqb_eq in B2.
        destruct b.
        2:{ exfalso. apply lineComment_open in Eb. rewrite length_skipn in Eb.
            rewrite main_loop_eof in Hrec by (simpl; lia).
            inversion Hrec; subst. simpl in Hc. lia. }
        apply lineComment_found in Eb.
        destruct (addWord_span _ _ _ _ Hm Hlt ltac:(rewrite B2; simpl; auto))
          as (new1 & E1 & O1 & Hn1).
        exists new1, p. simpl.
        split; [exact E1|]. split; [exact O1|]. split; [reflexivity|].
        split; [lia|]. split; [lia|]. intros x Hx.
        destruct (Hn1 x Hx) as (X1 & X2 & X3). repeat split; auto; lia. }
      intros E; inversion E; subst; apply Same; auto. }
    destruct Hf1 as (new1 & mid & E1 & O1 & S1 & L1 & L2 & Hn1).
    destruct (IH _ _ _ _ Hrec ltac:(lia) ltac:(lia))
      as (Hlen & new2 & E2 & O2 & Hn2).
    split; [exact Hlen|]. exists (new1 ++ new2).
    rewrite E2, E1, app_assoc. split; [reflexivity|].
    apply (Join new1 new2 mid); auto; try lia.
    intros x Hx. rewrite <- S1. apply Hn2. exact Hx.
  - (* a comma *)
    assert (M := main_loop_mono _ _ _ _ _ _ Hrec). simpl in M.
    destruct M as (M1 & _ & M2). specialize (M2 ltac:(lia)).
    destruct (addWord_span _ _ _ _ Ha Hlt ltac:(rewrite Ec; simpl; auto))
      as (new1 & E1 & O1 & Hn1).
    apply ensureTokenExists_Done in He. destruct He as (_ & He & _).
    destruct (IH _ _ _ _ Hrec ltac:(simpl; lia) ltac:(simpl; lia))
      as (Hlen & new2 & E2 & O2 & Hn2).
    simpl in E2, Hn2. rewrite He, E1 in E2.
    split; [exact Hlen|]. exists (new1 ++ new2).
    rewrite E2, app_assoc. split; [reflexivity|].
    apply (Join new1 new2 (pos g + 1)); auto; try lia.
    intros x Hx. destruct (Hn1 x Hx) as (X1 & X2 & X3).
    repeat split; auto; lia.
  - (* an opening parenthesis *)
    assert (M := main_loop_mono _ _ _ _ _ _ Hrec). simpl in M.
    destruct M as (M1 & _ & M2). specialize (M2 ltac:(lia)).
    assert (Mi := main_loop_mono _ _ _ _ _ _ Hin). simpl in Mi.
    destruct (IH _ _ _ _ Hin ltac:(simpl; lia) ltac:(simpl; lia))
      as (Hleni & newi & Ei & Oi & Hni).
    simpl in Ei, Hni. subst newi.
    assert (Hlast := Hni l (last_Some_In _ _ Hl)).
    assert (Ol := ordered_In _ _ Oi (last_Some_In _ _ Hl)).
    destruct (token_span expr _ _ _ _ Et Hne Hs ltac:(lia)) as (T1 & T2 & T3).
    destruct (IH _ _ _ _ Hrec ltac:(simpl; lia) ltac:(simpl; lia))
      as (Hlen & new2 & E2 & O2 & Hn2).
    simpl in E2, Hn2. rewrite <- app_assoc in E2.
    split; [exact Hlen|]. eexists. split; [exact E2|].
    apply (Join [_] new2 (pos g2)); auto; try lia.
    + simpl. repeat split; auto. lia.
    + intros x [<-|[]]. cbn [node_offset node_end nodeSpan].
      split; [lia|]. split; [lia|].
      split; [exact Hne|]. split; [exact Hw|]. split; [exact T2|].
      split.
      { exists (pos g). split; [lia|]. split; [exact T3|]. split.
        - rewrite (nth_error_nth' expr 0%N Hlt). f_equal. exact El.
        - intros p Hp. apply Hni in Hp. lia. }
      split; [reflexivity|]. split; [lia|].
      split; [exists l; auto|]. split; [exact Oi|].
      apply nodeSpan_all. apply Forall_forall. intros p Hp.
      apply Hni in Hp. tauto.
  - (* the closing parenthesis *)
    simpl. split; [lia|].
    destruct (addWord_span _ _ _ _ Ha Hlt ltac:(rewrite Er; simpl; auto))
      as (new1 & E1 & O1 & Hn1).
    apply ensureTokenExists_Done in He. destruct He as (_ & He & _).
    rewrite He, E1. exists new1. split; auto. split; auto.
    intros x Hx. destruct (Hn1 x Hx) as (X1 & X2 & X3).
    repeat split; auto; lia.
Qed.

End CleanSpans.
Lemma scan_spans text n : forall p kms kms' q,
  scan text n p kms = Done (kms', q) ->
  p <= q /\
  exists more, kms' = kms ++ more /\
    (forall layer, In layer more ->
       layer <> [] /\ ordered layer /\
       forall x, In x layer ->
         p + 7 <= node_offset x /\ node_end x < q /\ nodeSpan text x) /\
    layersOrdered more.
Proof.
  induction n as [|n IH]; intros p kms kms' q H; simpl in H.
  - destruct (indexOf marker text p) eqn:E; [discriminate|].
    inversion H; subst. split; [lia|]. exists []. rewrite app_nil_r.
    split; [reflexivity|]. split; [intros layer []|exact I].
  - destruct (indexOf marker text p) as [i|] eqn:E.
    2:{ inversion H; subst. split; [lia|]. exists []. rewrite app_nil_r.
        split; [reflexivity|]. split; [intros layer []|exact I]. }
    bind_inv H. destruct a as [km g].
    destruct (pcount g =? 0)%Z eqn:Ec; [|discriminate].
    apply Z.eqb_eq in Ec. apply indexOf_marker_bound in E.
    unfold main in Hm.
    destruct (main_loop_clean_span _ _ _ _ _ _ Hm ltac:(simpl; lia)
                ltac:(simpl; lia)) as (Hlen & new & En & On & Hn).
    simpl in En, Hn. subst new.
    destruct (main_loop_clean_ends _ _ _ _ _ _ Hm ltac:(simpl; lia)
                ltac:(simpl; intros x []))
      as (_ & _ & Hne & _).
    assert (M := main_loop_mono _ _ _ _ _ _ Hm). simpl in M.
    destruct (IH _ _ _ _ H) as (Hq & more & Em & Hmore & Om).
    split; [lia|]. exists (km :: more).
    rewrite Em, <- app_assoc. split; [reflexivity|]. split.
    + intros layer [<-|Hl].
      * split; [exact Hne|]. split; [exact On|].
        intros x Hx. apply Hn in Hx. repeat split; try tauto; lia.
      * destruct (Hmore layer Hl) as (L1 & L2 & L3).
        split; [exact L1|]. split; [exact L2|].
        intros x Hx. apply L3 in Hx. repeat split; try tauto; lia.
    + simpl. split; [|exact Om].
      destruct more as [|lb more]; [exact I|].
      intros x y Hx Hy. apply Hn in Hx.
      destruct (Hmore lb (or_introl eq_refl)) as (_ & _ & L3).
      apply L3 in Hy. lia.
Qed.

(** Every node of an accepted text, at any depth, lies in the text as its
    fields say: a Word is the text at its offset, followed by white space
    only up to the delimiter at its end; a Function has its name at its
    offset, its opening parenthesis after white space only, its parameters
    in order behind it, its end one past the end of its last parameter, and
    as content the text from its offset to its end. *)
Theorem parsed_nodes_lie_in_text text kc hack layers e layer x :
  tryParseKeymapsText text kc hack = Done (layers, e) ->
  In layer layers -> In x layer -> nodeSpan text x.
Proof.
  intros H Hl Hx. apply tryParseKeymapsText_Done in H.
  destruct H as (p & Hs & _ & _).
  destruct (scan_spans _ _ _ _ _ _ Hs) as (_ & more & Em & Hmore & _).
  simpl in Em. subst more.
  destruct (Hmore layer Hl) as (_ & _ & L3). apply L3. exact Hx.
Qed.

Lemma parsed_nodes_lie_in_text_witness :
  nodeSpan (lit "KEYMAP(LT(1, KC_A) , KC_B )")
    (AstFunction (lit "LT")
       [AstWord (lit "1") 10 11; AstWord (lit "KC_A") 13 17]
       7 18 (lit "LT(1, KC_A)")).
Proof.
  apply (parsed_nodes_lie_in_text (lit "KEYMAP(LT(1, KC_A) , KC_B )") None false
           [[AstFunction (lit "LT")
               [AstWord (lit "1") 10 11; AstWord (lit "KC_A") 13 17]
               7 18 (lit "LT(1, KC_A)");
             AstWord (lit "KC_B") 21 26]]
           None
           [AstFunction (lit "LT")
              [AstWord (lit "1") 10 11; AstWord (lit "KC_A") 13 17]
              7 18 (lit "LT(1, KC_A)");
            AstWord (lit "KC_B") 21 26]).
  - reflexivity.
  - simpl. auto.
  - simpl. auto.
Defined.

(** An accepted text has at least one layer and every layer at least one
    key; the keys of a layer have non-empty spans that follow one another
    in the text without overlap, and the layers follow one another in the
    text, the marker of the next between them. *)
Theorem parsed_layers_in_order text kc hack layers e :
  tryParseKeymapsText text kc hack = Done (layers, e) ->
  layers <> [] /\
  (forall layer, In layer layers -> layer <> [] /\ ordered layer) /\
  layersOrdered layers.
Proof.
  intros H. apply tryParseKeymapsText_Done in H.
  destruct H as (p & Hs & Hv & _).
  destruct (scan_spans _ _ _ _ _ _ Hs) as (_ & more & Em & Hmore & Om).
  simpl in Em. subst more.
  apply validate_Done in Hv. destruct Hv as (k0 & rest & E & _).
  split; [rewrite E; discriminate|]. split; [|exact Om].
  intros layer Hl. destruct (Hmore layer Hl) as (L1 & L2 & _). auto.
Qed.

Lemma parsed_layers_in_order_witness :
  [[AstWord (lit "A") 7 8; AstWord (lit "B") 9 10];
   [AstWord (lit "C") 19 20; AstWord (lit "D") 21 22]] <> [] /\
  (forall layer,
     In layer [[AstWord (lit "A") 7 8; AstWord (lit "B") 9 10];
               [AstWord (lit "C") 19 20; AstWord (lit "D") 21 22]] ->
     layer <> [] /\ ordered layer) /\
  layersOrdered [[AstWord (lit "A") 7 8; AstWord (lit "B") 9 10];
                 [AstWord (lit "C") 19 20; AstWord (lit "D") 21 22]].
Proof.
  apply (parsed_layers_in_order (lit "KEYMAP(A,B) KEYMAP(C,D)") None false
           [[AstWord (lit "A") 7 8; AstWord (lit "B") 9 10];
            [AstWord (lit "C") 19 20; AstWord (lit "D") 21 22]] None).
  reflexivity.
Defined.
(** ** The text around the invocations *)

Lemma scan_from text n p p' kms i :
  indexOf marker text p = Some i -> indexOf marker text p' = Some i ->
  scan text n p kms = scan text n p' kms.
Proof. intros H H'. destruct n; simpl; rewrite H, H'; reflexivity. Qed.

Lemma validate_map (h : AstNode -> AstNode) kms kc :
  validate (map (map h) kms) kc = validate kms kc.
Proof.
  apply validate_lengths. rewrite map_map. apply map_ext.
  intros l. apply length_map.
Qed.

(** What follows the closing parenthesis of the last invocation plays no
    part, as long as it does not bring a further marker. *)
Theorem parse_ignores_tail text kc layers p tail hack :
  tryParseKeymapsText text kc true = Done (layers, Some p) ->
  indexOf marker (firstn p text ++ tail) p = None ->
  tryParseKeymapsText (firstn p text ++ tail) kc hack
  = Done (layers, if hack then Some p else None).
Proof.
  intros H Hnone. apply tryParseKeymapsText_Done in H.
  destruct H as (q & Hs & Hv & Eq). injection Eq as ->.
  destruct (scan_end _ _ _ _ _ _ Hs) as (_ & _ & more & Em & _ & _ & Hq).
  simpl in Em. subst more.
  assert (Hne : layers <> []).
  { apply validate_Done in Hv. destruct Hv as (k0 & r & -> & _). discriminate. }
  destruct (Hq Hne) as [Hlen _].
  assert (Ag : agree q text (firstn q text ++ tail)).
  { unfold agree. split; [|split; [exact Hlen|]].
    - rewrite firstn_app, length_firstn.
      replace (q - Nat.min q (length text)) with 0 by lia.
      simpl. rewrite app_nil_r, firstn_firstn. f_equal. lia.
    - rewrite length_app, length_firstn. lia. }
  destruct (scan_agree _ _ _ _ _ _ _ Hs Ag) as (j & Hj).
  specialize (Hj 0). rewrite (scan_stop _ 0 q layers Hnone) in Hj.
  apply scan_enough in Hj.
  unfold tryParseKeymapsText. rewrite Hj. cbn [bind]. rewrite Hv. reflexivity.
Qed.

Lemma parse_ignores_tail_witness :
  tryParseKeymapsText (firstn 11 (lit "KEYMAP(A,B) }; // end") ++ lit ");")
    None false
  = Done ([[AstWord (lit "A") 7 8; AstWord (lit "B") 9 10]], None).
Proof.
  apply (parse_ignores_tail (lit "KEYMAP(A,B) }; // end") None
           [[AstWord (lit "A") 7 8; AstWord (lit "B") 9 10]] 11 (lit ");") false);
    reflexivity.
Defined.

(** What precedes the first invocation only moves the nodes: with another
    text without parenthesis in its place the parser builds the same nodes
    at the offsets moved by the difference of the lengths. *)
Theorem parse_moves_with_prefix pre1 pre2 body kc hack layers e :
  noParen pre1 = true -> noParen pre2 = true ->
  tryParseKeymapsText (pre1 ++ marker ++ body) kc hack = Done (layers, e) ->
  tryParseKeymapsText (pre2 ++ marker ++ body) kc hack
  = Done (map (map (shiftNode (length pre1) (length pre2))) layers,
          option_map (shiftPos (length pre1) (length pre2)) e).
Proof.
  intros H1 H2 H. apply tryParseKeymapsText_Done in H.
  destruct H as (q & Hs & Hv & ->).
  set (t1 := pre1 ++ marker ++ body) in *.
  set (t2 := pre2 ++ marker ++ body).
  assert (I1 : indexOf marker t1 0 = Some (length pre1))
    by exact (indexOf_marker_after [] pre1 body H1).
  assert (I2 : indexOf marker t2 0 = Some (length pre2))
    by exact (indexOf_marker_after [] pre2 body H2).
  assert (J : forall pre, indexOf marker (pre ++ marker ++ body) (length pre)
                          = Some (length pre)).
  { intros pre. rewrite <- (Nat.add_0_r (length pre)) at 2.
    exact (indexOf_marker_after pre [] body eq_refl). }
  assert (J1 := J pre1). assert (J2 := J pre2). fold t1 in J1. fold t2 in J2.
  rewrite (scan_from _ _ _ _ _ _ I1 J1) in Hs.
  assert (Hsuf : skipn (length pre1) t1 = skipn (length pre2) t2).
  { unfold t1, t2. rewrite !skipn_app, !skipn_all, !Nat.sub_diag. reflexivity. }
  destruct (scan_shift t1 t2 (length pre1) (length pre2) Hsuf
              ltac:(unfold t1; rewrite length_app; lia)
              ltac:(unfold t2; rewrite length_app; lia)
              _ _ _ _ _ [] Hs (Nat.le_refl _)) as (more & Em & Hs2).
  simpl in Em. subst more. simpl app in Hs2.
  unfold shiftPos in Hs2 at 1. rewrite Nat.sub_diag in Hs2. simpl in Hs2.
  rewrite <- (scan_from _ _ _ _ _ _ I2 J2) in Hs2. apply scan_enough in Hs2.
  unfold tryParseKeymapsText. fold t2. rewrite Hs2. cbn [bind].
  rewrite validate_map, Hv. cbn [bind]. destruct hack; reflexivity.
Qed.

Lemma parse_moves_with_prefix_witness :
  tryParseKeymapsText (lit "const x = " ++ marker ++ lit "A,B)") None true
  = Done (map (map (shiftNode (length (lit "ab ")) (length (lit "const x = "))))
            [[AstWord (lit "A") 10 11; AstWord (lit "B") 12 13]],
          option_map (shiftPos (length (lit "ab ")) (length (lit "const x = ")))
            (Some 14)).
Proof.
  apply (parse_moves_with_prefix (lit "ab ") (lit "const x = ") (lit "A,B)")
           None true
           [[AstWord (lit "A") 10 11; AstWord (lit "B") 12 13]] (Some 14));
    reflexivity.
Defined.
(** ** Runs of the loop over well-formed sources *)

Lemma tokenWithoutSpaces_white (l : str) :
  forallb isWhite l = true -> snd (tokenWithoutSpaces l) = [].
Proof.
  intros H. unfold tokenWithoutSpaces. simpl.
  assert (T : forall l, forallb isWhite l = true -> takeWhile isWhite l = l).
  { clear. induction l as [|a l IH]; simpl; auto.
    rewrite andb_true_iff. intros [-> Hl]. rewrite IH; auto. }
  rewrite !T by (try rewrite forallb_rev; auto).
  rewrite length_rev. unfold slice. rewrite Nat.sub_diag.
  replace (0 - length l) with 0 by lia. reflexivity.
Qed.

Lemma addWord_white expr f e :
  forallb isWhite (slice expr (start f) e) = true -> addWord expr f e = Done f.
Proof.
  intros H. unfold addWord. destruct (e <=? start f); [reflexivity|].
  apply tokenWithoutSpaces_white in H.
  destruct (tokenWithoutSpaces _) as [o t]. simpl in H. subst t. reflexivity.
Qed.

Lemma blockComment_close s : forall r p,
  noClose (s ++ [c_star]) = true ->
  blockComment (s ++ c_star :: c_slash :: r) p = (p + length s + 2, true).
Proof.
  induction s as [|c s IH]; intros r p H.
  - simpl. f_equal. lia.
  - cbn [app length]. destruct s as [|nx s'].
    + simpl in H |- *. rewrite andb_true_r in H. apply negb_true_iff in H.
      rewrite H. f_equal. lia.
    + cbn [app] in H |- *. cbn [noClose] in H.
      apply andb_true_iff in H. destruct H as [H1 H2].
      apply negb_true_iff in H1.
      rewrite blockComment_cons2, H1.
      change (nx :: s' ++ c_star :: c_slash :: r)
        with ((nx :: s') ++ c_star :: c_slash :: r).
      rewrite IH by exact H2. f_equal. simpl. lia.
Qed.

Lemma lineComment_close s : forall r p,
  forallb (fun c => negb (c =? c_nl)%N) s = true ->
  lineComment (s ++ c_nl :: r) p = (p + length s + 2, true).
Proof.
  induction s as [|c s IH]; intros r p H.
  - simpl. f_equal. lia.
  - simpl in H. apply andb_true_iff in H. destruct H as [H1 H2].
    apply negb_true_iff in H1. simpl. rewrite H1, IH by exact H2.
    f_equal. lia.
Qed.

Section Runs.

Variable expr : str.

Lemma yields_intro n f g R :
  main_loop expr n f g = R -> R <> Fuel -> yields expr f g R.
Proof. intros H N. split; eauto. Qed.

Lemma yields_length f g R :
  yields expr f g R -> main_loop expr (length expr) f g = R.
Proof.
  intros [N [n H]]. destruct (Nat.le_ge_cases n (length expr)) as [L|L].
  - rewrite (main_loop_fuel expr n (length expr) f g L); congruence.
  - rewrite <- (main_loop_fuel expr (length expr) n f g L); auto.
    apply main_loop_total. lia.
Qed.

Lemma yields_at f g R n m :
  main_loop expr n f g = R -> R <> Fuel -> n <= m -> main_loop expr m f g = R.
Proof.
  intros H N L. rewrite (main_loop_fuel expr n m f g L); congruence.
Qed.

Lemma reaches_refl f g : reaches expr f g f g.
Proof. intros R H. exact H. Qed.

Lemma reaches_trans f g f1 g1 f2 g2 :
  reaches expr f g f1 g1 -> reaches expr f1 g1 f2 g2 -> reaches expr f g f2 g2.
Proof. intros H1 H2 R H. apply H1, H2, H. Qed.

Lemma reaches_steps k f g f' g' :
  (forall n, main_loop expr (k + n) f g = main_loop expr n f' g') ->
  reaches expr f g f' g'.
Proof.
  intros H R [N [n Hn]]. split; [exact N|]. exists (k + n). rewrite H. exact Hn.
Qed.

Lemma reaches_inert w r f g :
  skipn (pos g) expr = w ++ r -> forallb inert w = true ->
  reaches expr f g f (set_pos g (pos g + length w)).
Proof.
  intros Hs Hw. apply (reaches_steps (length w)). intros n.
  apply (main_loop_inert expr w r); auto.
Qed.

Lemma white_inert w : forallb isWhite w = true -> forallb inert w = true.
Proof.
  rewrite !forallb_forall. intros H c Hc. apply isWhite_inert, H, Hc.
Qed.

Lemma skipn_more (t : str) p w r :
  skipn p t = w ++ r -> skipn (p + length w) t = r.
Proof. intros H. apply skipn_app_inv in H. tauto. Qed.

Lemma slice_here (t : str) p w r :
  skipn p t = w ++ r -> slice t p (p + length w) = w.
Proof. intros H. apply slice_of_skipn with (r := r). exact H. Qed.

Lemma set_start_pos_same f g :
  start f = pos g -> set_start f (pos g + 0) = f /\ set_pos g (pos g + 0) = g.
Proof.
  intros H. rewrite Nat.add_0_r. destruct f, g. unfold set_start, set_pos.
  simpl in *. subst. auto.
Qed.

Lemma firstSwitch_block f g r body :
  skipn (pos g) expr = c_star :: body ++ c_star :: c_slash :: r ->
  1 <= pos g ->
  forallb isWhite (slice expr (start f) (pos g - 1)) = true ->
  noClose (c_star :: body ++ [c_star]) = true ->
  firstSwitch expr c_slash (Some c_star) f g
  = Done (set_start f (pos g + length body + 3),
          set_pos g (pos g + length body + 3)).
Proof.
  intros Hs H1 Hw Hb. unfold firstSwitch.
  replace ((c_slash =? c_bslash)%N && (c_star =? c_nl)%N) with false
    by reflexivity.
  replace ((c_slash =? c_slash)%N && (c_star =? c_star)%N) with true
    by reflexivity.
  rewrite addWord_white by exact Hw. cbn [bind]. rewrite Hs.
  change (c_star :: body ++ c_star :: c_slash :: r)
    with ((c_star :: body) ++ c_star :: c_slash :: r).
  rewrite blockComment_close by exact Hb.
  cbv iota beta.
  assert (E : forall a b : nat, a = b ->
            @Done (frame * shared) (set_start f a, set_pos g a)
            = Done (set_start f b, set_pos g b))
    by (intros; subst; reflexivity).
  apply E. unfold char, str. simpl. lia.
Qed.

Lemma firstSwitch_line f g r body x :
  skipn (pos g) expr = c_slash :: body ++ c_nl :: x :: r ->
  1 <= pos g ->
  forallb isWhite (slice expr (start f) (pos g - 1)) = true ->
  forallb (fun c => negb (c =? c_nl)%N) body = true ->
  firstSwitch expr c_slash (Some c_slash) f g
  = Done (set_start f (pos g + length body + 3),
          set_pos g (pos g + length body + 3)).
Proof.
  intros Hs H1 Hw Hb. unfold firstSwitch.
  replace ((c_slash =? c_bslash)%N && (c_slash =? c_nl)%N) with false
    by reflexivity.
  replace ((c_slash =? c_slash)%N && (c_slash =? c_star)%N) with false
    by reflexivity.
  replace ((c_slash =? c_slash)%N && (c_slash =? c_slash)%N) with true
    by reflexivity.
  rewrite addWord_white by exact Hw. cbn [bind]. rewrite Hs.
  change (c_slash :: body ++ c_nl :: x :: r)
    with ((c_slash :: body) ++ c_nl :: x :: r).
  rewrite lineComment_close by (simpl; exact Hb).
  cbv iota beta.
  assert (E : forall a b : nat, a = b ->
            @Done (frame * shared) (set_start f a, set_pos g a)
            = Done (set_start f b, set_pos g b))
    by (intros; subst; reflexivity).
  apply E. unfold char, str. simpl. lia.
Qed.

(** The loop over what stands before an argument. *)
Lemma reaches_gap gp r f g :
  wfGap gp = true -> start f = pos g ->
  skipn (pos g) expr = gapText gp ++ r ->
  reaches expr f g (set_start f (pos g + length (gapText gp)))
    (set_pos g (pos g + length (gapText gp))).
Proof.
  intros Hwf Hst Hs. destruct gp as [w body|w body x|junk]; cbn [wfGap] in Hwf.
  - (* a block comment *)
    apply andb_true_iff in Hwf. destruct Hwf as [Hw Hb].
    assert (Hs' : skipn (pos g) expr
                  = w ++ c_slash :: c_star :: body ++ c_star :: c_slash :: r).
    { rewrite Hs. cbn [gapText]. rewrite <- app_assoc, <- !app_comm_cons.
      rewrite <- app_assoc. reflexivity. }
    assert (L : length (gapText (GBlock w body)) = length w + 1 + (length body + 3)).
    { cbn [gapText]. rewrite length_app. cbn [length]. rewrite length_app.
      simpl. lia. }
    rewrite L. clear Hs L.
    eapply reaches_trans;
      [apply (reaches_inert w _ f g Hs' (white_inert _ Hw))|].
    assert (Sl := slice_here _ _ _ _ Hs').
    apply skipn_more in Hs'.
    apply (reaches_steps 1). intros n. cbn [Nat.add].
    rewrite (main_loop_skip expr c_slash _ n f (set_pos g (pos g + length w)) Hs')
      by reflexivity.
    apply (@skipn_cons_inv char 0%N) in Hs'. destruct Hs' as (_ & _ & Hs2).
    cbn [pos set_pos] in Hs2 |- *.
    rewrite (nth_error_skipn_hd expr), Hs2. cbn [hd_error].
    rewrite (firstSwitch_block _ _ r body); cbn [pos set_pos]; auto; try lia.
    + cbn [bind]. f_equal.
      * f_equal. lia.
      * unfold set_pos. simpl. f_equal. lia.
    + rewrite Nat.add_sub, Hst, Sl. exact Hw.
  - (* a line comment *)
    apply andb_true_iff in Hwf. destruct Hwf as [Hw Hb].
    assert (Hs' : skipn (pos g) expr
                  = w ++ c_slash :: c_slash :: body ++ c_nl :: x :: r).
    { rewrite Hs. cbn [gapText]. rewrite <- app_assoc, <- !app_comm_cons.
      rewrite <- app_assoc. reflexivity. }
    assert (L : length (gapText (GLine w body x)) = length w + 1 + (length body + 3)).
    { cbn [gapText]. rewrite length_app. cbn [length]. rewrite length_app.
      simpl. lia. }
    rewrite L. clear Hs L.
    eapply reaches_trans;
      [apply (reaches_inert w _ f g Hs' (white_inert _ Hw))|].
    assert (Sl := slice_here _ _ _ _ Hs').
    apply skipn_more in Hs'.
    apply (reaches_steps 1). intros n. cbn [Nat.add].
    rewrite (main_loop_skip expr c_slash _ n f (set_pos g (pos g + length w)) Hs')
      by reflexivity.
    apply (@skipn_cons_inv char 0%N) in Hs'. destruct Hs' as (_ & _ & Hs2).
    cbn [pos set_pos] in Hs2 |- *.
    rewrite (nth_error_skipn_hd expr), Hs2. cbn [hd_error].
    rewrite (firstSwitch_line _ _ r body x); cbn [pos set_pos]; auto; try lia.
    + cbn [bind]. f_equal.
      * f_equal. lia.
      * unfold set_pos. simpl. f_equal. lia.
    + rewrite Nat.add_sub, Hst, Sl. exact Hw.
  - (* a line continuation *)
    assert (Hs' : skipn (pos g) expr = junk ++ c_bslash :: c_nl :: r).
    { rewrite Hs. cbn [gapText]. rewrite <- app_assoc. reflexivity. }
    assert (L : length (gapText (GCont junk)) = length junk + 2).
    { cbn [gapText]. rewrite length_app. reflexivity. }
    rewrite L. clear Hs L.
    eapply reaches_trans; [apply (reaches_inert junk _ f g Hs' Hwf)|].
    apply skipn_more in Hs'.
    apply (reaches_steps 1). intros n. cbn [Nat.add].
    rewrite (main_loop_bslash_nl expr r n f (set_pos g (pos g + length junk)) Hs').
    cbn [pos set_pos]. f_equal.
    + f_equal. lia.
    + unfold set_pos. simpl. f_equal. lia.
Qed.

Lemma reaches_gaps gs : forall r f g,
  forallb wfGap gs = true -> start f = pos g ->
  skipn (pos g) expr = gapsText gs ++ r ->
  reaches expr f g (set_start f (pos g + length (gapsText gs)))
    (set_pos g (pos g + length (gapsText gs))).
Proof.
  induction gs as [|gp gs IH]; intros r f g Hwf Hst Hs.
  - simpl. destruct (set_start_pos_same f g Hst) as [-> ->]. apply reaches_refl.
  - simpl in Hwf. apply andb_true_iff in Hwf. destruct Hwf as [H1 H2].
    unfold gapsText in *. cbn [map concat] in Hs |- *.
    rewrite <- app_assoc in Hs.
    eapply reaches_trans; [apply (reaches_gap gp _ f g H1 Hst Hs)|].
    assert (Hs1 := skipn_more _ _ _ _ Hs).
    eapply reaches_trans;
      [apply (IH r _ _ H2); [reflexivity|exact Hs1]|].
    cbn [pos set_pos start set_start]. rewrite length_app.
    replace (pos g + length (gapText gp) + length (concat (map gapText gs)))
      with (pos g + (length (gapText gp) + length (concat (map gapText gs))))
      by lia.
    apply reaches_refl.
Qed.

End Runs.
Lemma arg_ind' (P : arg -> Prop) :
  (forall gs it, P (AWord gs it)) ->
  (forall gs it first more tl, P (ATrail gs it first more tl)) ->
  (forall gs l nm args tr, Forall P args -> P (ACall gs l nm args tr)) ->
  forall a, P a.
Proof.
  intros HW HT HC. fix IH 1. intros [gs it|gs it first more tl|gs l nm args tr].
  - apply HW.
  - apply HT.
  - apply HC. revert args. fix IHl 1. intros [|a args].
    + constructor.
    + constructor; [apply IH|apply IHl].
Qed.

Lemma nodeAt_call base gs l nm args tr :
  nodeAt base (ACall gs l nm args tr)
  = AstFunction nm
      (nodesAt (base + length (gapsText gs) + length l + length nm + 1) args)
      (base + length (gapsText gs) + length l)
      (base + length (gapsText gs) + length l + length nm + 1
       + length (treeText args) + 1)
      (nm ++ c_lparen :: treeText args ++ [c_rparen]).
Proof.
  reflexivity.
Qed.

Lemma treeText_cons2 a a2 args :
  treeText (a :: a2 :: args) = argText a ++ c_comma :: treeText (a2 :: args).
Proof. reflexivity. Qed.

Lemma argText_call gs l nm args tr :
  argText (ACall gs l nm args tr)
  = gapsText gs ++ l ++ nm ++ c_lparen :: treeText args ++ c_rparen :: tr.
Proof. reflexivity. Qed.

Lemma node_end_tight b a :
  tight a = true -> node_end (nodeAt b a) = b + length (argText a).
Proof.
  destruct a as [gs it|gs it first more tl|gs l nm args tr]; intros H.
  - cbn [nodeAt node_end argText]. rewrite length_app. lia.
  - discriminate.
  - rewrite nodeAt_call, argText_call. cbn [node_end].
    simpl in H. destruct tr; [|discriminate].
    rewrite !length_app. cbn [length]. rewrite length_app. simpl. lia.
Qed.

Lemma last_nodesAt args : forall b,
  nonEmpty args = true -> lastTight args = true ->
  exists lst, last (map Some (nodesAt b args)) None = Some lst /\
              node_end lst = b + length (treeText args).
Proof.
  induction args as [|a args IH]; intros b Hne Ht; [discriminate|].
  destruct args as [|a2 args].
  - exists (nodeAt b a). split; [reflexivity|].
    apply node_end_tight. exact Ht.
  - destruct (IH (b + length (argText a) + 1) eq_refl Ht) as (lst & E1 & E2).
    exists lst. split.
    + cbn [nodesAt map] in E1 |- *. exact E1.
    + rewrite E2, treeText_cons2, length_app. simpl. lia.
Qed.

Lemma nodesAt_length args : forall b, length (nodesAt b args) = length args.
Proof. induction args as [|a args IH]; intros b; simpl; auto. Qed.

Section ArgRuns.

Variable expr : str.

Lemma ensureTokenExists_fresh f g :
  arr f <> [] -> (lastToken f < Z.of_nat (length (arr f)))%Z ->
  ensureTokenExists f g
  = Done {| start := start f; arr := arr f;
            lastToken := Z.of_nat (length (arr f)) |}.
Proof.
  intros Hne Hlt. unfold ensureTokenExists.
  replace (lastToken f =? _)%Z with false by (symmetry; apply Z.eqb_neq; lia).
  replace (length (arr f) =? 0) with false; [reflexivity|].
  symmetry. apply Nat.eqb_neq. destruct (arr f); [congruence|simpl; lia].
Qed.

(** White space and a comma behind a node that waits to be counted. *)
Lemma reaches_close_comma tr r f g :
  forallb isWhite tr = true -> start f = pos g ->
  arr f <> [] -> (lastToken f < Z.of_nat (length (arr f)))%Z ->
  skipn (pos g) expr = tr ++ c_comma :: r ->
  reaches expr f g
    {| start := pos g + length tr + 1; arr := arr f;
       lastToken := Z.of_nat (length (arr f)) |}
    (set_pos g (pos g + length tr + 1)).
Proof.
  intros Hw Hst Hne Hlt Hs.
  eapply reaches_trans;
    [apply (reaches_inert expr tr _ f g Hs (white_inert _ Hw))|].
  assert (Sl := slice_here _ _ _ _ Hs). apply skipn_more in Hs.
  apply (reaches_steps expr 1). intros n. cbn [Nat.add].
  rewrite (main_loop_comma expr r n f (set_pos g (pos g + length tr)) Hs).
  cbn [pos set_pos].
  rewrite addWord_white by (rewrite Hst, Sl; exact Hw). cbn [bind].
  rewrite ensureTokenExists_fresh by auto. cbn [bind].
  reflexivity.
Qed.

Lemma yields_close_rparen tr r f g :
  forallb isWhite tr = true -> start f = pos g ->
  arr f <> [] -> (lastToken f < Z.of_nat (length (arr f)))%Z ->
  skipn (pos g) expr = tr ++ c_rparen :: r ->
  yields expr f g
    (Done (arr f, {| pos := pos g + length tr + 1; pcount := pcount g - 1 |})).
Proof.
  intros Hw Hst Hne Hlt Hs.
  apply (reaches_inert expr tr _ f g Hs (white_inert _ Hw)).
  assert (Sl := slice_here _ _ _ _ Hs). apply skipn_more in Hs.
  apply (yields_intro expr 1); [|discriminate].
  rewrite (main_loop_rparen expr r 0 f (set_pos g (pos g + length tr)) Hs).
  cbn [pos set_pos].
  rewrite addWord_white by (rewrite Hst, Sl; exact Hw). cbn [bind].
  rewrite ensureTokenExists_fresh by auto. cbn [bind].
  reflexivity.
Qed.

(** An opening parenthesis behind a name, once the parameters are known. *)
Lemma reaches_lparen r f g o tok ps l g2 :
  skipn (pos g) expr = c_lparen :: r -> start f < pos g ->
  tokenWithoutSpaces (slice expr (start f) (pos g)) = (o, tok) ->
  tok <> [] -> existsb isWhite tok = false ->
  yields expr (new_frame (pos g + 1)) (set_pos g (pos g + 1)) (Done (ps, g2)) ->
  last (map Some ps) None = Some l ->
  reaches expr f g
    (set_start
       (push f (AstFunction tok ps (start f + o) (node_end l + 1)
                  (slice expr (start f + o) (node_end l + 1))))
       (pos g2))
    (set_pcount g2 (pcount g2 + 1)).
Proof.
  intros Hs Hlt Et Hne Hw [_ [n1 H1]] Hl R [N [n2 H2]]. split; [exact N|].
  exists (S (Nat.max n1 n2)).
  rewrite (main_loop_lparen expr r _ f g Hs). unfold addFunc.
  replace (pos g <=? start f) with false by (symmetry; apply Nat.leb_gt; lia).
  rewrite Et. destruct tok as [|c0 tok]; [congruence|].
  simpl isEmpty. cbv iota. rewrite Hw.
  rewrite (yields_at expr _ _ _ n1 (Nat.max n1 n2) H1) by (try discriminate; lia).
  cbn [bind]. rewrite Hl. cbn [bind].
  apply (yields_at expr _ _ _ n2); auto. lia.
Qed.

(** The loop over a list of arguments closed by a parenthesis. *)
Lemma yields_args_of args : forall r f g,
  Forall (argRuns expr) args ->
  nonEmpty args = true -> forallb wfArg args = true ->
  start f = pos g -> (lastToken f <= Z.of_nat (length (arr f)))%Z ->
  skipn (pos g) expr = treeText args ++ c_rparen :: r ->
  yields expr f g
    (Done (arr f ++ nodesAt (pos g) args,
           {| pos := pos g + length (treeText args) + 1;
              pcount := pcount g - 1 |})).
Proof.
  induction args as [|a args IH]; intros r f g HP Hne Hwf Hst Hlt Hs;
    [discriminate|].
  inversion HP as [|? ? Pa Pargs]; subst.
  simpl in Hwf. apply andb_true_iff in Hwf. destruct Hwf as [Wa Wargs].
  destruct args as [|a2 args].
  - destruct (Pa r f g Wa Hst Hlt) as [_ Hr].
    exact (Hr Hs).
  - rewrite treeText_cons2 in Hs |- *. rewrite <- app_assoc in Hs.
    rewrite <- app_comm_cons in Hs.
    destruct (Pa (treeText (a2 :: args) ++ c_rparen :: r) f g Wa Hst Hlt)
      as [Hc _].
    apply (Hc Hs).
    assert (Hs' : skipn (pos g + length (argText a) + 1) expr
                  = treeText (a2 :: args) ++ c_rparen :: r).
    { apply skipn_more in Hs. apply (@skipn_cons_inv char 0%N) in Hs.
      destruct Hs as (_ & _ & Hs). exact Hs. }
    assert (Y := IH r (flushed f (pos g + length (argText a) + 1)
                         (nodeAt (pos g) a))
                   (set_pos g (pos g + length (argText a) + 1))
                   Pargs eq_refl Wargs eq_refl
                   ltac:(simpl; rewrite length_app; simpl; lia) Hs').
    cbn [flushed arr pos set_pos pcount] in Y.
    rewrite <- app_assoc in Y. cbn [app] in Y.
    cbn [nodesAt]. rewrite length_app. cbn [length].
    replace (pos g + (length (argText a) + S (length (treeText (a2 :: args)))) + 1)
      with (pos g + length (argText a) + 1 + length (treeText (a2 :: args)) + 1)
      by lia.
    exact Y.
Qed.

End ArgRuns.
Section ArgRuns2.

Variable expr : str.

Lemma reaches_eq f g f1 g1 f2 g2 :
  f1 = f2 -> g1 = g2 -> reaches expr f g f1 g1 -> reaches expr f g f2 g2.
Proof. intros -> ->. auto. Qed.

Lemma yields_eq f g R1 R2 :
  R1 = R2 -> yields expr f g R1 -> yields expr f g R2.
Proof. intros ->. auto. Qed.

Lemma argRuns_word gs it : argRuns expr (AWord gs it).
Proof.
  intros r f g Hwf Hst Hlt. cbn [wfArg] in Hwf.
  apply andb_true_iff in Hwf. destruct Hwf as [Hg Hit].
  assert (L : length (argText (AWord gs it))
              = length (gapsText gs) + length (itemText it)).
  { cbn [argText]. apply length_app. }
  set (b := pos g + length (gapsText gs)).
  split; intros Hs; cbn [argText] in Hs; rewrite <- app_assoc in Hs.
  - eapply reaches_trans; [apply (reaches_gaps expr gs _ f g Hg Hst Hs)|].
    apply skipn_more in Hs. fold b in Hs |- *.
    eapply reaches_eq;
      [| |apply (reaches_steps expr (length (itemText it) + 1)); intros n;
          replace (length (itemText it) + 1 + n)
            with (length (itemText it) + S n) by lia;
          apply (main_loop_item_comma expr it r n (set_start f b) (set_pos g b));
          auto].
    + unfold flushed. cbn [arr set_start pos set_pos nodeAt]. fold b.
      f_equal. rewrite L. lia.
    + unfold set_pos. cbn [pos pcount]. f_equal. rewrite L. lia.
  - apply (reaches_gaps expr gs _ f g Hg Hst Hs).
    apply skipn_more in Hs. fold b in Hs |- *.
    eapply yields_eq;
      [|apply (yields_intro expr (length (itemText it) + 1));
        [apply (main_loop_item_rparen expr it r 0 (set_start f b) (set_pos g b));
         auto
        |discriminate]].
    cbn [arr set_start pos set_pos pcount nodeAt]. fold b.
    do 3 f_equal. rewrite L. lia.
Qed.

(** A comment behind a word flushes the word: its node ends on the slash. *)
Lemma firstSwitch_comment it first r f g :
  wfItem it = true -> isComment first = true -> wfGap first = true ->
  slice expr (start f) (pos g - 1) = itemText it ++ gapLead first ->
  skipn (pos g - 1) expr = skipn (length (gapLead first)) (gapText first) ++ r ->
  1 <= pos g ->
  firstSwitch expr c_slash (nth_error expr (pos g)) f g
  = Done (set_start
            (push f (AstWord (word it) (start f + length (lead it)) (pos g - 1)))
            (pos g - 1 + length (gapText first) - length (gapLead first)),
          set_pos g (pos g - 1 + length (gapText first) - length (gapLead first))).
Proof.
  intros Hit Hcm Hwf Sl Hs H1.
  assert (Aw : addWord expr f (pos g - 1)
               = Done (push f (AstWord (word it) (start f + length (lead it))
                                 (pos g - 1)))).
  { assert (Wl : forallb isWhite (gapLead first) = true).
    { destruct first as [w body|w body x|junk]; cbn [wfGap gapLead] in *;
        [| |discriminate]; apply andb_true_iff in Hwf; tauto. }
    apply (addWord_item expr {| lead := lead it; word := word it;
                                trail := trail it ++ gapLead first |}).
    - unfold wfItem in *. cbn [lead word trail].
      rewrite !andb_true_iff in Hit. destruct Hit as [[A B] C].
      rewrite A, B, forallb_app, C, Wl. reflexivity.
    - rewrite Sl. unfold itemText. cbn [lead word trail].
      rewrite <- !app_assoc. reflexivity. }
  assert (Hs1 : skipn (pos g) expr
                = tl (skipn (length (gapLead first)) (gapText first)) ++ r
                /\ hd_error (skipn (length (gapLead first)) (gapText first))
                   = Some c_slash).
  { destruct first as [w body|w body x|junk]; cbn [gapText gapLead] in *;
      [| |discriminate].
    - rewrite skipn_app, skipn_all, Nat.sub_diag in Hs |- *. cbn [skipn app] in *.
      split; [|reflexivity].
      apply (@skipn_cons_inv char 0%N) in Hs. destruct Hs as (_ & _ & Hs).
      replace (pos g - 1 + 1) with (pos g) in Hs by lia. exact Hs.
    - rewrite skipn_app, skipn_all, Nat.sub_diag in Hs |- *. cbn [skipn app] in *.
      split; [|reflexivity].
      apply (@skipn_cons_inv char 0%N) in Hs. destruct Hs as (_ & _ & Hs).
      replace (pos g - 1 + 1) with (pos g) in Hs by lia. exact Hs. }
  destruct Hs1 as [Hs1 _].
  rewrite (nth_error_skipn_hd expr), Hs1.
  destruct first as [w body|w body x|junk]; cbn [gapText gapLead wfGap] in *;
    [| |discriminate]; apply andb_true_iff in Hwf; destruct Hwf as [Hw Hb];
    rewrite skipn_app, skipn_all, Nat.sub_diag in Hs1 |- *;
    cbn [skipn app tl hd_error] in Hs1 |- *;
    unfold firstSwitch.
  - replace ((c_slash =? c_bslash)%N && (c_star =? c_nl)%N) with false
      by reflexivity.
    replace ((c_slash =? c_slash)%N && (c_star =? c_star)%N) with true
      by reflexivity.
    rewrite Aw. cbn [bind]. rewrite Hs1.
    replace (c_star :: (body ++ [c_star; c_slash]) ++ r)
      with ((c_star :: body) ++ c_star :: c_slash :: r)
      by (cbn [app]; rewrite <- app_assoc; reflexivity).
    rewrite blockComment_close by exact Hb.
    cbv iota beta.
    assert (E : forall (f0 : frame) (a b : nat), a = b ->
              @Done (frame * shared) (set_start f0 a, set_pos g a)
              = Done (set_start f0 b, set_pos g b))
      by (intros; subst; reflexivity).
    apply E. rewrite length_app. unfold char, str. simpl.
    rewrite length_app. simpl. lia.
  - replace ((c_slash =? c_bslash)%N && (c_slash =? c_nl)%N) with false
      by reflexivity.
    replace ((c_slash =? c_slash)%N && (c_slash =? c_star)%N) with false
      by reflexivity.
    replace ((c_slash =? c_slash)%N && (c_slash =? c_slash)%N) with true
      by reflexivity.
    rewrite Aw. cbn [bind]. rewrite Hs1.
    replace (c_slash :: (body ++ [c_nl; x]) ++ r)
      with ((c_slash :: body) ++ c_nl :: x :: r)
      by (cbn [app]; rewrite <- app_assoc; reflexivity).
    rewrite lineComment_close by (simpl; exact Hb).
    cbv iota beta.
    assert (E : forall (f0 : frame) (a b : nat), a = b ->
              @Done (frame * shared) (set_start f0 a, set_pos g a)
              = Done (set_start f0 b, set_pos g b))
      by (intros; subst; reflexivity).
    apply E. rewrite length_app. unfold char, str. simpl.
    rewrite length_app. simpl. lia.
Qed.

Lemma argRuns_trail gs it first more tl : argRuns expr (ATrail gs it first more tl).
Proof.
  intros r f g Hwf Hst Hlt. cbn [wfArg] in Hwf.
  rewrite !andb_true_iff in Hwf.
  destruct Hwf as [[[[[Hg Hit] Hcm] Hfirst] Hmore] Htl].
  set (a := ATrail gs it first more tl).
  set (b := pos g + length (gapsText gs)).
  set (s := b + length (itemText it) + length (gapLead first)).
  set (q := b + length (itemText it) + length (gapText first)
            + length (gapsText more)).
  assert (Wl : forallb isWhite (gapLead first) = true).
  { destruct first as [w body|w body x|junk]; cbn [wfGap gapLead] in *;
      [| |discriminate]; apply andb_true_iff in Hfirst; tauto. }
  assert (Gf : gapText first
               = gapLead first ++ skipn (length (gapLead first)) (gapText first)).
  { destruct first as [w body|w body x|junk]; cbn [gapText gapLead];
      rewrite skipn_app, skipn_all, Nat.sub_diag; reflexivity. }
  assert (Gs : exists rest, skipn (length (gapLead first)) (gapText first)
                            = c_slash :: rest).
  { destruct first as [w body|w body x|junk]; cbn [gapText gapLead] in *;
      [| |discriminate]; rewrite skipn_app, skipn_all, Nat.sub_diag;
      cbn [skipn app]; eauto. }
  destruct Gs as [rest0 Gs].
  assert (Lf : length (gapLead first) + 1 <= length (gapText first)).
  { rewrite Gf at 1. rewrite length_app, Gs. simpl. lia. }
  assert (L : length (argText a) = length (gapsText gs) + length (itemText it)
                + length (gapText first) + length (gapsText more) + length tl).
  { unfold a. cbn [argText]. rewrite !length_app. lia. }
  (* up to the end of the comments *)
  assert (Pre : forall rest,
            skipn (pos g) expr
            = gapsText gs ++ itemText it ++ gapText first ++ gapsText more
                ++ rest ->
            reaches expr f g
              {| start := q; arr := arr f ++ [nodeAt (pos g) a];
                 lastToken := lastToken f |}
              (set_pos g q)).
  { intros rest Hs.
    eapply reaches_trans; [apply (reaches_gaps expr gs _ f g Hg Hst Hs)|].
    apply skipn_more in Hs. fold b in Hs |- *.
    assert (Hs0 : skipn b expr
                  = (itemText it ++ gapLead first)
                      ++ skipn (length (gapLead first)) (gapText first)
                      ++ gapsText more ++ rest).
    { rewrite Hs. rewrite Gf at 1. rewrite <- !app_assoc. reflexivity. }
    assert (Hin : forallb inert (itemText it ++ gapLead first) = true)
      by (rewrite forallb_app, (wfItem_inert it Hit), (white_inert _ Wl);
          reflexivity).
    eapply reaches_trans;
      [apply (reaches_inert expr _ _ (set_start f b) (set_pos g b) Hs0 Hin)|].
    assert (Sl := slice_here _ _ _ _ Hs0).
    apply skipn_more in Hs0. cbn [pos set_pos] in Hs0, Sl |- *.
    assert (Es : b + length (itemText it ++ gapLead first) = s)
      by (unfold s; rewrite length_app; lia).
    rewrite Es in Hs0, Sl |- *.
    eapply reaches_trans.
    { apply (reaches_steps expr 1). intros n. cbn [Nat.add].
      assert (Hc : skipn s expr = c_slash :: rest0 ++ gapsText more ++ rest)
        by (rewrite Hs0, Gs; reflexivity).
      set (g0 := set_pos (set_pos g b) s).
      rewrite (main_loop_skip expr c_slash _ n (set_start f b) g0 Hc)
        by reflexivity.
      replace (nth_error expr (pos g0 + 1))
        with (nth_error expr (pos (set_pos g0 (pos g0 + 1)))) by reflexivity.
      rewrite (firstSwitch_comment it first (gapsText more ++ rest)
                 (set_start f b) (set_pos g0 (pos g0 + 1)));
        unfold g0; cbn [pos set_pos start set_start]; rewrite ?Nat.add_sub;
        auto; try lia.
      cbn [bind]. reflexivity. }
    assert (Hs1 : skipn (s + length (gapText first) - length (gapLead first)) expr
                  = gapsText more ++ rest).
    { replace (s + length (gapText first) - length (gapLead first))
        with (s + length (skipn (length (gapLead first)) (gapText first))).
      - apply (skipn_more _ _ _ _ Hs0).
      - rewrite length_skipn. lia. }
    eapply reaches_trans;
      [apply (reaches_gaps expr more rest _ _ Hmore);
       [reflexivity|cbn [pos set_pos]; exact Hs1]|].
    cbn [pos set_pos start set_start].
    eapply reaches_eq; [| |apply reaches_refl].
    - unfold set_start, push. cbn [start arr lastToken].
      assert (Eq1 : s + length (gapText first) - length (gapLead first)
                    + length (gapsText more) = q) by (unfold s, q; lia).
      rewrite Eq1. reflexivity.
    - unfold set_pos. cbn [pos pcount]. f_equal. unfold s, q. lia. }
  assert (Hq : pos g + length (argText a) + 1 = q + length tl + 1)
    by (rewrite L; unfold q, b; lia).
  split; intros Hs; unfold a in Hs; cbn [argText] in Hs.
  - assert (Hs' : skipn (pos g) expr
                  = gapsText gs ++ itemText it ++ gapText first
                      ++ gapsText more ++ tl ++ c_comma :: r)
      by (rewrite Hs, <- !app_assoc; reflexivity).
    eapply reaches_trans; [apply (Pre _ Hs')|].
    eapply reaches_eq;
      [| |apply (reaches_close_comma expr tl r); cbn [start arr lastToken pos set_pos];
          [exact Htl|reflexivity
          |intros X; apply app_eq_nil in X; destruct X; discriminate
          |rewrite length_app; simpl; lia|]].
    + unfold flushed. cbn [arr pos set_pos]. rewrite Hq, length_app.
      reflexivity.
    + unfold set_pos. cbn [pos pcount]. rewrite Hq. reflexivity.
    + clear -Hs'. rewrite !app_assoc in Hs'. rewrite <- (app_assoc _ tl) in Hs'.
      apply skipn_more in Hs'.
      replace q with (pos g + length (((gapsText gs ++ itemText it)
                                        ++ gapText first) ++ gapsText more)).
      * exact Hs'.
      * unfold q, b. rewrite !length_app. lia.
  - assert (Hs' : skipn (pos g) expr
                  = gapsText gs ++ itemText it ++ gapText first
                      ++ gapsText more ++ tl ++ c_rparen :: r)
      by (rewrite Hs, <- !app_assoc; reflexivity).
    apply (Pre _ Hs').
    eapply yields_eq;
      [|apply (yields_close_rparen expr tl r);
        cbn [start arr lastToken pos set_pos];
          [exact Htl|reflexivity
          |intros X; apply app_eq_nil in X; destruct X; discriminate
          |rewrite length_app; simpl; lia|]].
    + cbn [arr pos set_pos pcount]. rewrite Hq. reflexivity.
    + clear -Hs'. rewrite !app_assoc in Hs'. rewrite <- (app_assoc _ tl) in Hs'.
      apply skipn_more in Hs'.
      replace q with (pos g + length (((gapsText gs ++ itemText it)
                                        ++ gapText first) ++ gapsText more)).
      * exact Hs'.
      * unfold q, b. rewrite !length_app. lia.
Qed.

Lemma argRuns_call gs l nm args tr :
  Forall (argRuns expr) args -> argRuns expr (ACall gs l nm args tr).
Proof.
  intros IH r f g Hwf Hst Hlt. cbn [wfArg] in Hwf.
  rewrite !andb_true_iff in Hwf.
  destruct Hwf as [[[[[[Hg Hl] Hnm] Hne] Hargs] Htight] Htr].
  destruct (plainWord_facts nm Hnm) as (Nne & Ninert & Nwhite & _).
  set (a := ACall gs l nm args tr).
  set (b := pos g + length (gapsText gs)).
  set (e := b + length (l ++ nm)).
  set (q := e + 1 + length (treeText args) + 1).
  assert (L : length (argText a) = length (gapsText gs) + length (l ++ nm) + 1
                                   + length (treeText args) + 1 + length tr).
  { unfold a. rewrite argText_call. rewrite !length_app. cbn [length].
    rewrite !length_app. cbn [length]. lia. }
  assert (Lnm : 1 <= length nm) by (destruct nm; [congruence|simpl; lia]).
  (* up to the closing parenthesis of the call *)
  assert (Pre : forall rest,
            skipn (pos g) expr
            = gapsText gs ++ (l ++ nm) ++ c_lparen :: treeText args
                ++ c_rparen :: rest ->
            reaches expr f g
              {| start := q; arr := arr f ++ [nodeAt (pos g) a];
                 lastToken := lastToken f |}
              (set_pos g q)).
  { intros rest Hs.
    eapply reaches_trans; [apply (reaches_gaps expr gs _ f g Hg Hst Hs)|].
    apply skipn_more in Hs. fold b in Hs |- *.
    eapply reaches_trans;
      [apply (reaches_inert expr (l ++ nm) _ (set_start f b) (set_pos g b) Hs);
       rewrite forallb_app, (white_inert _ Hl), Ninert; reflexivity|].
    assert (Sl := slice_here _ _ _ _ Hs). assert (Hb := Hs).
    apply skipn_more in Hs. cbn [pos set_pos] in Hs, Sl, Hb |- *.
    fold e in Hs, Sl |- *.
    assert (Hin : skipn (e + 1) expr = treeText args ++ c_rparen :: rest).
    { apply (@skipn_cons_inv char 0%N) in Hs. tauto. }
    assert (Tok : tokenWithoutSpaces (slice expr b e) = (length l, nm)).
    { rewrite Sl.
      assert (T := tokenWithoutSpaces_item {| lead := l; word := nm; trail := [] |}).
      unfold itemText in T. cbn [lead word trail] in T.
      rewrite app_nil_r in T. apply T.
      unfold wfItem. cbn [lead word trail]. rewrite Hl, Hnm. reflexivity. }
    assert (Y := yields_args_of expr args rest (new_frame (e + 1))
                   (set_pos (set_pos (set_pos g b) e) (e + 1))
                   IH Hne Hargs eq_refl ltac:(simpl; lia) Hin).
    cbn [arr new_frame pos set_pos pcount app] in Y.
    destruct (last_nodesAt args (e + 1) Hne Htight) as (lst & Hlast & Hend).
    eapply reaches_eq;
      [| |eapply (reaches_lparen expr _ (set_start f b) (set_pos (set_pos g b) e)
                   (length l) nm _ lst _ Hs); cbn [start set_start pos set_pos];
             [unfold e; rewrite length_app; lia|exact Tok|exact Nne
             |exact Nwhite|exact Y|exact Hlast]].
    - unfold set_start, push. cbn [start arr lastToken pos].
      fold q. f_equal. f_equal. f_equal.
      unfold a. rewrite nodeAt_call. fold b.
      assert (E1 : b + length l + length nm + 1 = e + 1)
        by (unfold e; rewrite length_app; lia).
      assert (E2 : node_end lst + 1 = q) by (rewrite Hend; reflexivity).
      rewrite E1, E2. fold q. f_equal.
      assert (Hn : skipn (b + length l) expr
                   = (nm ++ c_lparen :: treeText args ++ [c_rparen]) ++ rest).
      { clear -Hb. rewrite <- app_assoc in Hb. apply skipn_more in Hb.
        rewrite Hb. rewrite <- app_assoc. cbn [app]. rewrite <- app_assoc.
        reflexivity. }
      apply slice_here in Hn.
      replace q with (b + length l
                      + length (nm ++ c_lparen :: treeText args ++ [c_rparen])).
      + exact Hn.
      + unfold q, e. rewrite !length_app. cbn [length].
        rewrite !length_app. simpl. lia.
    - unfold set_pcount, set_pos. cbn [pos pcount]. fold q. f_equal. lia. }
  assert (Hq : pos g + length (argText a) + 1 = q + length tr + 1)
    by (rewrite L; unfold q, e, b; lia).
  split; intros Hs; unfold a in Hs; rewrite argText_call in Hs.
  - assert (Hs' : skipn (pos g) expr
                  = gapsText gs ++ (l ++ nm) ++ c_lparen :: treeText args
                      ++ c_rparen :: tr ++ c_comma :: r).
    { rewrite Hs. rewrite <- !app_assoc. cbn [app]. rewrite <- !app_assoc.
      reflexivity. }
    eapply reaches_trans; [apply (Pre _ Hs')|].
    eapply reaches_eq;
      [| |apply (reaches_close_comma expr tr r); cbn [start arr lastToken pos set_pos];
          [exact Htr|reflexivity
          |intros X; apply app_eq_nil in X; destruct X; discriminate
          |rewrite length_app; simpl; lia|]].
    + unfold flushed. cbn [arr pos set_pos]. rewrite Hq, length_app.
      reflexivity.
    + unfold set_pos. cbn [pos pcount]. rewrite Hq. reflexivity.
    + clear -Hs'. rewrite app_assoc in Hs'. 
      assert (X := skipn_more _ _ _ _ Hs').
      replace (pos g + length (gapsText gs ++ l ++ nm)) with e in X
        by (unfold e, b; rewrite !length_app; lia).
      apply (@skipn_cons_inv char 0%N) in X. destruct X as (_ & _ & X).
      apply skipn_more in X.
      apply (@skipn_cons_inv char 0%N) in X. destruct X as (_ & _ & X).
      unfold q. exact X.
  - assert (Hs' : skipn (pos g) expr
                  = gapsText gs ++ (l ++ nm) ++ c_lparen :: treeText args
                      ++ c_rparen :: tr ++ c_rparen :: r).
    { rewrite Hs. rewrite <- !app_assoc. cbn [app]. rewrite <- !app_assoc.
      reflexivity. }
    apply (Pre _ Hs').
    eapply yields_eq;
      [|apply (yields_close_rparen expr tr r);
        cbn [start arr lastToken pos set_pos];
          [exact Htr|reflexivity
          |intros X; apply app_eq_nil in X; destruct X; discriminate
          |rewrite length_app; simpl; lia|]].
    + cbn [arr pos set_pos pcount]. rewrite Hq. reflexivity.
    + clear -Hs'. rewrite app_assoc in Hs'. 
      assert (X := skipn_more _ _ _ _ Hs').
      replace (pos g + length (gapsText gs ++ l ++ nm)) with e in X
        by (unfold e, b; rewrite !length_app; lia).
      apply (@skipn_cons_inv char 0%N) in X. destruct X as (_ & _ & X).
      apply skipn_more in X.
      apply (@skipn_cons_inv char 0%N) in X. destruct X as (_ & _ & X).
      unfold q. exact X.
Qed.

Lemma all_argRuns a : argRuns expr a.
Proof.
  induction a using arg_ind'.
  - apply argRuns_word.
  - apply argRuns_trail.
  - apply argRuns_call. assumption.
Qed.

End ArgRuns2.
(** ** Parsing a well-formed source *)

Lemma yields_args expr args r f g :
  nonEmpty args = true -> forallb wfArg args = true ->
  start f = pos g -> (lastToken f <= Z.of_nat (length (arr f)))%Z ->
  skipn (pos g) expr = treeText args ++ c_rparen :: r ->
  yields expr f g
    (Done (arr f ++ nodesAt (pos g) args,
           {| pos := pos g + length (treeText args) + 1;
              pcount := pcount g - 1 |})).
Proof.
  apply yields_args_of. apply Forall_forall. intros a _. apply all_argRuns.
Qed.

Lemma validate_uniform kms kc k :
  kms <> [] -> (forall l, In l kms -> length l = k) ->
  kc = None \/ kc = Some (Z.of_nat k) ->
  validate kms kc = Done tt.
Proof.
  intros Hne Hall Hkc. unfold validate. destruct kms as [|k0 rest]; [congruence|].
  replace (existsb (fun t => negb (length t =? length k0)) (k0 :: rest))
    with false.
  - destruct Hkc as [->| ->]; auto.
    rewrite (Hall k0 (or_introl eq_refl)), Z.eqb_refl. reflexivity.
  - symmetry. apply not_true_is_false. intros H.
    apply existsb_exists in H. destruct H as (t & Ht & H).
    apply negb_true_iff, Nat.eqb_neq in H. apply H.
    rewrite (Hall t Ht), (Hall k0 (or_introl eq_refl)). reflexivity.
Qed.

Lemma scan_invocations invs : forall done post kms,
  forallb wfInvocation invs = true -> noParen post = true ->
  exists n,
    scan (done ++ sourceText invs post) n (length done) kms
    = Done (kms ++ layersAt (length done) invs,
            length done + length (concat (map invocationText invs))).
Proof.
  induction invs as [|i invs IH]; intros done post kms Hwf Hpost.
  - exists 0. unfold sourceText. cbn [map concat app layersAt length].
    rewrite scan_stop by (apply indexOf_marker_none; exact Hpost).
    rewrite app_nil_r, Nat.add_0_r. reflexivity.
  - cbn [forallb] in Hwf. apply andb_true_iff in Hwf. destruct Hwf as [Hi Hwf].
    unfold wfInvocation in Hi. rewrite !andb_true_iff in Hi.
    destruct Hi as [[Hb Hne] Hargs].
    set (text := done ++ sourceText (i :: invs) post).
    set (p := length done + length (before i) + 7).
    assert (Et : text = done ++ before i ++ marker
                   ++ (treeText (arguments i) ++ c_rparen :: sourceText invs post)).
    { unfold text, sourceText, invocationText. cbn [map concat].
      rewrite <- !app_assoc. reflexivity. }
    assert (Et2 : text = (done ++ invocationText i) ++ sourceText invs post).
    { unfold text, sourceText. cbn [map concat]. rewrite <- !app_assoc.
      reflexivity. }
    assert (Hidx : indexOf marker text (length done)
                   = Some (length done + length (before i))).
    { rewrite Et. apply indexOf_marker_after. exact Hb. }
    assert (Hsk : skipn p text
                  = treeText (arguments i) ++ c_rparen :: sourceText invs post).
    { rewrite Et. rewrite (app_assoc done), (app_assoc (done ++ before i)).
      apply skipn_app_length.
      unfold p. rewrite !length_app. reflexivity. }
    assert (Y := yields_args text (arguments i) _ (new_frame p)
                   {| pos := p; pcount := 1 |} Hne Hargs eq_refl
                   ltac:(simpl; lia) Hsk).
    apply yields_length in Y. cbn [arr new_frame app pos pcount] in Y.
    destruct (IH (done ++ invocationText i) post
                (kms ++ [nodesAt p (arguments i)]) Hwf Hpost) as (n & Hn).
    rewrite <- Et2 in Hn. exists (S n).
    rewrite (scan_step text n (length done) kms _ _ _ Hidx Y eq_refl).
    cbn [pos].
    assert (Lp : p + length (treeText (arguments i)) + 1
                 = length (done ++ invocationText i)).
    { unfold p, invocationText. rewrite !length_app. cbn [length].
      change (length marker) with 7. lia. }
    rewrite Lp, Hn. cbn [layersAt map concat]. rewrite <- app_assoc.
    f_equal. f_equal.
    + cbn [app]. f_equal. rewrite length_app. reflexivity.
    + rewrite !length_app. lia.
Qed.

(** A source made of well-formed invocations with the same number of
    arguments parses to the nodes its arguments stand for: a Word for each
    plain word, a Function for each call, with the nodes of its arguments
    as parameters and its own text as content; the comments and line
    continuations before the arguments leave no trace but in the offsets. *)
Theorem parse_well_formed_source invs post kc hack k :
  invs <> [] -> forallb wfInvocation invs = true -> noParen post = true ->
  (forall i, In i invs -> length (arguments i) = k) ->
  kc = None \/ kc = Some (Z.of_nat k) ->
  tryParseKeymapsText (sourceText invs post) kc hack
  = Done (layersAt 0 invs,
          if hack then Some (length (concat (map invocationText invs)))
          else None).
Proof.
  intros Hne Hwf Hpost Hk Hkc.
  destruct (scan_invocations invs [] post [] Hwf Hpost) as (n & Hn).
  cbn [app length Nat.add] in Hn. apply scan_enough in Hn.
  unfold tryParseKeymapsText. rewrite Hn. cbn [bind].
  rewrite (validate_uniform _ kc k); auto.
  - destruct invs; [congruence|discriminate].
  - clear -Hk. generalize 0 as base. induction invs as [|i invs IH];
      intros base l Hl; [contradiction|].
    cbn [layersAt] in Hl. destruct Hl as [<-|Hl].
    + rewrite nodesAt_length. apply Hk. left; reflexivity.
    + apply (IH (fun j Hj => Hk j (or_intror Hj)) _ _ Hl).
Qed.

Lemma parse_well_formed_source_witness :
  tryParseKeymapsText (sourceText sampleSource (lit " };")) (Some 2%Z) true
  = Done (layersAt 0 sampleSource,
          Some (length (concat (map invocationText sampleSource)))).
Proof.
  apply (parse_well_formed_source sampleSource (lit " };") (Some 2%Z) true 2).
  - discriminate.
  - reflexivity.
  - reflexivity.
  - intros i [<-|[<-|[]]]; reflexivity.
  - right. reflexivity.
Defined.
(** ** Malformed argument lists *)

Section Prefix.

Variable expr : str.

(** The loop over arguments that are each followed by a comma. *)
Lemma reaches_prefix args : forall r f g,
  forallb wfArg args = true -> start f = pos g ->
  (lastToken f <= Z.of_nat (length (arr f)))%Z ->
  skipn (pos g) expr = prefixText args ++ r ->
  exists f',
    reaches expr f g f' (set_pos g (pos g + length (prefixText args))) /\
    start f' = pos g + length (prefixText args) /\
    arr f' = arr f ++ nodesAt (pos g) args /\
    (lastToken f' <= Z.of_nat (length (arr f')))%Z /\
    (args <> [] -> lastToken f' = Z.of_nat (length (arr f'))) /\
    (args = [] -> lastToken f' = lastToken f).
Proof.
  induction args as [|a args IH]; intros r f g Hwf Hst Hlt Hs.
  - exists f. cbn [prefixText map concat length nodesAt].
    rewrite app_nil_r, Nat.add_0_r.
    replace (set_pos g (pos g)) with g by (destruct g; reflexivity).
    split; [apply reaches_refl|]. split; [exact Hst|]. split; [reflexivity|].
    split; [exact Hlt|]. split; [congruence|reflexivity].
  - cbn [forallb] in Hwf. apply andb_true_iff in Hwf. destruct Hwf as [Wa Wargs].
    unfold prefixText in Hs |- *. cbn [map concat] in Hs |- *.
    fold (prefixText args) in Hs |- *.
    rewrite <- !app_assoc in Hs. cbn [app] in Hs.
    destruct (all_argRuns expr a (prefixText args ++ r) f g Wa Hst Hlt)
      as [Hc _]. specialize (Hc Hs).
    assert (Hs' : skipn (pos g + length (argText a) + 1) expr
                  = prefixText args ++ r).
    { apply skipn_more in Hs. apply (@skipn_cons_inv char 0%N) in Hs. tauto. }
    destruct (IH r (flushed f (pos g + length (argText a) + 1) (nodeAt (pos g) a))
                (set_pos g (pos g + length (argText a) + 1)) Wargs eq_refl
                ltac:(simpl; rewrite length_app; simpl; lia) Hs')
      as (f' & R & S1 & A1 & L1 & L2 & L3).
    cbn [pos set_pos flushed arr lastToken] in R, S1, A1, L3.
    exists f'.
    assert (E : pos g + length ((argText a ++ [c_comma]) ++ prefixText args)
                = pos g + length (argText a) + 1 + length (prefixText args)).
    { rewrite !length_app. simpl. lia. }
    rewrite E. split.
    { eapply reaches_trans; [exact Hc|]. exact R. }
    split; [exact S1|]. split.
    { rewrite A1, <- app_assoc. reflexivity. }
    split; [exact L1|]. split; [|discriminate].
    intros _. destruct args as [|a2 args].
    + rewrite (L3 eq_refl), A1. cbn [nodesAt]. rewrite app_nil_r, length_app.
      reflexivity.
    + apply L2. discriminate.
Qed.

End Prefix.

Lemma parse_first_throws pre body kc hack e :
  noParen pre = true ->
  yields (pre ++ marker ++ body) (new_frame (length pre + 7))
    {| pos := length pre + 7; pcount := 1 |} (Throw e) ->
  tryParseKeymapsText (pre ++ marker ++ body) kc hack = Throw e.
Proof.
  intros Hpre Y. apply yields_length in Y.
  set (text := pre ++ marker ++ body) in *.
  assert (I : indexOf marker text 0 = Some (length pre))
    by exact (indexOf_marker_after [] pre body Hpre).
  assert (L : length text = S (length text - 1)).
  { unfold text. rewrite !length_app. change (length marker) with 7. lia. }
  unfold tryParseKeymapsText. rewrite L at 1. cbn [scan]. rewrite I.
  unfold main. rewrite Y. reflexivity.
Qed.

Lemma parse_first_open pre body kc hack km g :
  noParen pre = true ->
  yields (pre ++ marker ++ body) (new_frame (length pre + 7))
    {| pos := length pre + 7; pcount := 1 |} (Done (km, g)) ->
  pcount g <> 0%Z ->
  tryParseKeymapsText (pre ++ marker ++ body) kc hack = Throw Unbalanced.
Proof.
  intros Hpre Y Hc. apply yields_length in Y.
  set (text := pre ++ marker ++ body) in *.
  assert (I : indexOf marker text 0 = Some (length pre))
    by exact (indexOf_marker_after [] pre body Hpre).
  assert (L : length text = S (length text - 1)).
  { unfold text. rewrite !length_app. change (length marker) with 7. lia. }
  unfold tryParseKeymapsText. rewrite L at 1. cbn [scan]. rewrite I.
  unfold main. rewrite Y. cbn [bind].
  replace (pcount g =? 0)%Z with false by (symmetry; apply Z.eqb_neq; exact Hc).
  reflexivity.
Qed.

(** The state of [main] behind the arguments [args] of the first
    invocation, each followed by a comma. *)
Lemma behind_prefix pre args rest :
  forallb wfArg args = true ->
  let text := pre ++ marker ++ prefixText args ++ rest in
  let p := length pre + 7 + length (prefixText args) in
  exists f',
    reaches text (new_frame (length pre + 7))
      {| pos := length pre + 7; pcount := 1 |}
      f' {| pos := p; pcount := 1 |} /\
    start f' = p /\ skipn p text = rest /\
    arr f' = nodesAt (length pre + 7) args /\
    (lastToken f' <= Z.of_nat (length (arr f')))%Z /\
    (lastToken f' = Z.of_nat (length (arr f')) \/ arr f' = []).
Proof.
  intros Hwf text p.
  assert (Hs : skipn (length pre + 7) text = prefixText args ++ rest).
  { unfold text. rewrite (app_assoc pre). apply skipn_app_length.
    rewrite length_app. reflexivity. }
  destruct (reaches_prefix text args rest (new_frame (length pre + 7))
              {| pos := length pre + 7; pcount := 1 |} Hwf eq_refl
              ltac:(simpl; lia) Hs) as (f' & R & S1 & A1 & L1 & L2 & L3).
  cbn [pos arr new_frame app lastToken] in R, S1, A1, L3.
  exists f'. split; [exact R|]. split; [exact S1|]. split.
  { apply skipn_more in Hs. exact Hs. }
  split; [exact A1|]. split; [exact L1|].
  destruct args as [|a args].
  - right. rewrite A1. reflexivity.
  - left. apply L2. discriminate.
Qed.

Lemma ensureTokenExists_stale f g :
  lastToken f = Z.of_nat (length (arr f)) \/ arr f = [] ->
  ensureTokenExists f g = Throw (MissingToken (pos g)).
Proof.
  intros H. unfold ensureTokenExists.
  replace ((lastToken f =? Z.of_nat (length (arr f)))%Z
           || (length (arr f) =? 0)) with true; [reflexivity|].
  symmetry. apply orb_true_iff. destruct H as [H|H].
  - left. apply Z.eqb_eq. exact H.
  - right. rewrite H. reflexivity.
Qed.

(** An argument that is empty or white space only, before a comma or the
    closing parenthesis, is a missing token; the position reported is the
    one behind the delimiter. *)
Theorem empty_argument_is_missing_token pre args w d rest kc hack :
  noParen pre = true -> forallb wfArg args = true ->
  forallb isWhite w = true -> d = c_comma \/ d = c_rparen ->
  tryParseKeymapsText (pre ++ marker ++ prefixText args ++ w ++ d :: rest)
    kc hack
  = Throw (MissingToken (length pre + 7 + length (prefixText args)
                         + length w + 1)).
Proof.
  intros Hpre Hwf Hw Hd. apply parse_first_throws; [exact Hpre|].
  destruct (behind_prefix pre args (w ++ d :: rest) Hwf)
    as (f' & R & S1 & Hs & A1 & L1 & L2).
  apply R.
  set (text := pre ++ marker ++ prefixText args ++ w ++ d :: rest) in *.
  set (p := length pre + 7 + length (prefixText args)) in *.
  apply (reaches_inert text w _ f' {| pos := p; pcount := 1 |} Hs
           (white_inert _ Hw)).
  assert (Sl := slice_here _ _ _ _ Hs). apply skipn_more in Hs.
  cbn [pos set_pos] in *.
  apply (yields_intro text 1); [|discriminate].
  destruct Hd as [-> | ->].
  - rewrite (main_loop_comma text rest 0 f' (set_pos _ (p + length w)) Hs).
    cbn [pos set_pos].
    rewrite addWord_white by (rewrite S1, Sl; exact Hw). cbn [bind].
    rewrite ensureTokenExists_stale by exact L2. reflexivity.
  - rewrite (main_loop_rparen text rest 0 f' (set_pos _ (p + length w)) Hs).
    cbn [pos set_pos].
    rewrite addWord_white by (rewrite S1, Sl; exact Hw). cbn [bind].
    rewrite ensureTokenExists_stale by exact L2. reflexivity.
Qed.

Lemma empty_argument_is_missing_token_witness :
  tryParseKeymapsText
    (lit "x " ++ marker ++ prefixText sampleHead ++ [c_space]
       ++ c_comma :: lit "KC_C)") None false
  = Throw (MissingToken (length (lit "x ") + 7 + length (prefixText sampleHead)
                         + length [c_space] + 1)).
Proof.
  apply (empty_argument_is_missing_token (lit "x ") sampleHead [c_space] c_comma
           (lit "KC_C)") None false).
  - reflexivity.
  - reflexivity.
  - reflexivity.
  - left. reflexivity.
Defined.
Lemma tokenWithoutSpaces_core (l tok t : str) c r1 r2 c' :
  forallb isWhite l = true -> forallb isWhite t = true ->
  tok = c :: r1 -> isWhite c = false ->
  tok = r2 ++ [c'] -> isWhite c' = false ->
  tokenWithoutSpaces (l ++ tok ++ t) = (length l, tok).
Proof.
  intros Hl Ht E1 Hc E2 Hc'. unfold tokenWithoutSpaces.
  assert (T1 : takeWhile isWhite (l ++ tok ++ t) = l).
  { rewrite E1. simpl. apply takeWhile_app_stop; auto. }
  assert (T2 : takeWhile isWhite (rev (l ++ tok ++ t)) = rev t).
  { rewrite !rev_app_distr, E2 at 1. rewrite rev_app_distr. simpl.
    rewrite <- !app_assoc. simpl.
    apply takeWhile_app_stop; auto. rewrite forallb_rev. auto. }
  rewrite T1, T2. f_equal. unfold slice.
  rewrite skipn_app, skipn_all, Nat.sub_diag. simpl.
  rewrite !length_app, length_rev.
  replace (length l + (length tok + length t) - length t - length l)
    with (length tok) by lia.
  rewrite firstn_app, firstn_all, Nat.sub_diag. simpl. apply app_nil_r.
Qed.

(** Two plain words with white space between them, as one token. *)
Lemma spaced_token w1 ws w2 :
  plainWord w1 = true -> plainWord w2 = true ->
  forallb isWhite ws = true -> ws <> [] ->
  let tok := w1 ++ ws ++ w2 in
  forallb inert tok = true /\ existsb isWhite tok = true /\ 1 <= length tok /\
  forall l t, forallb isWhite l = true -> forallb isWhite t = true ->
    tokenWithoutSpaces (l ++ tok ++ t) = (length l, tok).
Proof.
  intros H1 H2 Hws Hne tok.
  destruct (plainWord_facts w1 H1) as (N1 & I1 & _ & (c & r1 & E1 & Hc) & _).
  destruct (plainWord_facts w2 H2) as (N2 & I2 & _ & _ & (r2 & c' & E2 & Hc')).
  split; [|split; [|split]].
  - unfold tok. rewrite !forallb_app, I1, I2, (white_inert _ Hws). reflexivity.
  - unfold tok. rewrite !existsb_app. destruct ws as [|x ws]; [congruence|].
    simpl in Hws |- *. apply andb_true_iff in Hws. destruct Hws as [-> _].
    simpl. apply orb_true_r.
  - unfold tok. rewrite E1. simpl. lia.
  - intros l t Hl Ht.
    apply (tokenWithoutSpaces_core l tok t c (r1 ++ ws ++ w2) (w1 ++ ws ++ r2) c');
      auto.
    + unfold tok. rewrite E1. reflexivity.
    + unfold tok. rewrite E2, <- !app_assoc. reflexivity.
Qed.




(** White space inside the name of a call is refused; the position reported
    is the offset of the name. *)
Theorem space_inside_function_name pre args l w1 ws w2 t rest kc hack :
  noParen pre = true -> forallb wfArg args = true ->
  forallb isWhite l = true -> forallb isWhite t = true ->
  plainWord w1 = true -> plainWord w2 = true ->
  forallb isWhite ws = true -> ws <> [] ->
  tryParseKeymapsText
    (pre ++ marker ++ prefixText args
       ++ (l ++ (w1 ++ ws ++ w2) ++ t) ++ c_lparen :: rest) kc hack
  = Throw (FunctionNameSpaces
             (length pre + 7 + length (prefixText args) + length l)).
Proof.
  intros Hpre Hwf Hl Ht H1 H2 Hws Hne.
  destruct (spaced_token w1 ws w2 H1 H2 Hws Hne) as (Ti & Tw & Tl & Tt).
  set (tok := w1 ++ ws ++ w2) in *.
  apply parse_first_throws; [exact Hpre|].
  destruct (behind_prefix pre args ((l ++ tok ++ t) ++ c_lparen :: rest) Hwf)
    as (f' & R & S1 & Hs & _).
  apply R.
  set (text := pre ++ marker ++ prefixText args
                 ++ (l ++ tok ++ t) ++ c_lparen :: rest) in *.
  set (p := length pre + 7 + length (prefixText args)) in *.
  assert (Hin : forallb inert (l ++ tok ++ t) = true).
  { rewrite !forallb_app, Ti, (white_inert _ Hl), (white_inert _ Ht).
    reflexivity. }
  apply (reaches_inert text _ _ f' {| pos := p; pcount := 1 |} Hs Hin).
  assert (Sl := slice_here _ _ _ _ Hs). apply skipn_more in Hs.
  cbn [pos set_pos] in *.
  apply (yields_intro text 1); [|discriminate].
  rewrite (main_loop_lparen text rest 0 f' (set_pos _ _) Hs).
  cbn [pos set_pos]. unfold addFunc. rewrite S1.
  replace (p + length (l ++ tok ++ t) <=? p) with false
    by (symmetry; apply Nat.leb_gt; rewrite !length_app; lia).
  rewrite Sl, (Tt l t Hl Ht).
  destruct tok as [|c0 tok0]; [simpl in Tl; lia|].
  simpl isEmpty. cbv iota. rewrite Tw. reflexivity.
Qed.

Lemma space_inside_function_name_witness :
  tryParseKeymapsText
    (lit "x " ++ marker ++ prefixText sampleHead
       ++ ([c_space] ++ (lit "L" ++ [c_space] ++ lit "T") ++ [])
       ++ c_lparen :: lit "1))") None false
  = Throw (FunctionNameSpaces
             (length (lit "x ") + 7 + length (prefixText sampleHead)
              + length [c_space])).
Proof.
  apply (space_inside_function_name (lit "x ") sampleHead [c_space] (lit "L")
           [c_space] (lit "T") [] (lit "1))") None false);
    try reflexivity.
  discriminate.
Defined.



(** A text that ends inside the argument list of an invocation is
    unbalanced. *)
Theorem open_invocation_is_unbalanced pre args tail kc hack :
  noParen pre = true -> forallb wfArg args = true ->
  forallb inert tail = true ->
  tryParseKeymapsText (pre ++ marker ++ prefixText args ++ tail) kc hack
  = Throw Unbalanced.
Proof.
  intros Hpre Hwf Ht.
  destruct (behind_prefix pre args tail Hwf) as (f' & R & S1 & Hs & _).
  set (text := pre ++ marker ++ prefixText args ++ tail) in *.
  set (p := length pre + 7 + length (prefixText args)) in *.
  apply (parse_first_open pre (prefixText args ++ tail) kc hack (arr f')
           {| pos := p + length tail; pcount := 1 |}); auto; [|discriminate].
  apply R. rewrite <- (app_nil_r tail) in Hs.
  apply (reaches_inert text tail _ f' {| pos := p; pcount := 1 |} Hs Ht).
  apply (yields_intro text 0); [|discriminate].
  apply main_loop_eof. cbn [pos set_pos].
  unfold text, p. rewrite !length_app. change (length marker) with 7. lia.
Qed.

Lemma open_invocation_is_unbalanced_witness :
  tryParseKeymapsText
    (lit "x " ++ marker ++ prefixText sampleHead ++ lit " KC_C") None false
  = Throw Unbalanced.
Proof.
  apply (open_invocation_is_unbalanced (lit "x ") sampleHead (lit " KC_C")
           None false); reflexivity.
Defined.


(** ** Setting a key, again *)

Lemma set_key_core text kc bl pre c off e post al V :
  tryParseKeymapsText text kc false
  = Done (bl ++ (pre ++ AstWord c off e :: post) :: al, None) ->
  plainWord V = true ->
  let text' := firstn off text ++ V ++ skipn (off + length c) text in
  let moved := shiftNode (off + length c) (off + length V) in
  slice text off (off + length c) = c /\
  off + length c <= length text /\
  tryParseKeymapsText text' kc false
  = Done (bl ++ (pre ++ AstWord V off (shiftPos (off + length c)
                                         (off + length V) e)
                     :: map moved post) :: map (map moved) al, None) /\
  trySetKeymapsKey text (Z.of_nat (length bl)) (Z.of_nat (length pre)) V kc
  = Done text'.
Proof.
  intros Hparse HV text' moved.
  assert (Hp := Hparse). apply tryParseKeymapsText_Done in Hp.
  destruct Hp as (p & Hs & Hv & _).
  destruct (scan_nodes _ _ _ _ _ _ Hs) as (more & Em & Hmore).
  simpl in Em. subst more.
  assert (Hin : In (pre ++ AstWord c off e :: post)
                  (bl ++ (pre ++ AstWord c off e :: post) :: al))
    by (apply in_or_app; right; left; auto).
  assert (Hx : In (AstWord c off e) (pre ++ AstWord c off e :: post))
    by (apply in_or_app; right; left; auto).
  destruct (Hmore _ _ Hin Hx) as (_ & Hend & Hpl & Hspan).
  simpl in Hend.
  assert (He : e < length text) by lia.
  assert (Hsp := Hspan). destruct Hsp as (_ & _ & Hle & Hsl & _).
  destruct (scan_cross text c V off e HV Hspan He _ _ _ _ _ bl pre post al
              Hs eq_refl ltac:(lia)) as (m & Hs2).
  simpl app in Hs2. apply scan_enough in Hs2.
  assert (Hparse' :
    tryParseKeymapsText text' kc false
    = Done (bl ++ (pre ++ AstWord V off (shiftPos (off + length c)
                                           (off + length V) e)
                       :: map moved post) :: map (map moved) al, None)).
  { unfold tryParseKeymapsText, text'. rewrite Hs2. cbn [bind].
    rewrite (validate_lengths _ (bl ++ (pre ++ AstWord c off e :: post) :: al)).
    - rewrite Hv. reflexivity.
    - rewrite !map_app. simpl. rewrite !length_app. simpl.
      rewrite !length_map, map_map. f_equal. f_equal.
      apply map_ext. intros l. apply length_map. }
  split; [exact Hsl|]. split; [lia|]. split; [exact Hparse'|].
  unfold trySetKeymapsKey. rewrite Hparse. cbn [bind].
  rewrite index_app_middle, index_app_middle.
  simpl node_offset. simpl node_content.
  unfold substr0, substrFrom. fold text'. rewrite Hparse'. reflexivity.
Qed.

Lemma splice_again (text : str) off n V W m :
  off + n <= length text -> m = length V ->
  let t' := firstn off text ++ V ++ skipn (off + n) text in
  firstn off t' ++ W ++ skipn (off + m) t'
  = firstn off text ++ W ++ skipn (off + n) text.
Proof.
  intros H -> t'.
  assert (L : length (firstn off text) = off) by (rewrite length_firstn; lia).
  unfold t'. f_equal.
  - rewrite firstn_app, L, Nat.sub_diag, firstn_firstn. simpl.
    rewrite app_nil_r. f_equal. lia.
  - f_equal. rewrite app_assoc. apply skipn_app_length.
    rewrite length_app, L. reflexivity.
Qed.

(** Setting a Word key twice is setting it to the second value: the first
    value leaves no trace. *)
Theorem set_key_twice text kc bl pre c off e post al V W :
  tryParseKeymapsText text kc false
  = Done (bl ++ (pre ++ AstWord c off e :: post) :: al, None) ->
  plainWord V = true -> plainWord W = true ->
  let L := Z.of_nat (length bl) in
  let K := Z.of_nat (length pre) in
  exists t1 t2,
    trySetKeymapsKey text L K V kc = Done t1 /\
    trySetKeymapsKey t1 L K W kc = Done t2 /\
    trySetKeymapsKey text L K W kc = Done t2.
Proof.
  intros H HV HW L K.
  destruct (set_key_core _ _ _ _ _ _ _ _ _ V H HV) as (Hsl & Hlen & Hp1 & Hset1).
  destruct (set_key_core _ _ _ _ _ _ _ _ _ W H HW) as (_ & _ & _ & Hset2).
  destruct (set_key_core _ _ _ _ _ _ _ _ _ W Hp1 HW) as (_ & _ & _ & Hset3).
  rewrite (splice_again text off (length c) V W (length V) Hlen eq_refl) in Hset3.
  eauto.
Qed.

Lemma set_key_twice_witness :
  exists t1 t2,
    trySetKeymapsKey (lit "KEYMAP(A, KC_B , C)") 0 1 (lit "XY") None = Done t1 /\
    trySetKeymapsKey t1 0 1 (lit "Z") None = Done t2 /\
    trySetKeymapsKey (lit "KEYMAP(A, KC_B , C)") 0 1 (lit "Z") None = Done t2.
Proof.
  apply (set_key_twice (lit "KEYMAP(A, KC_B , C)") None []
           [AstWord (lit "A") 7 8] (lit "KC_B") 10 15 [AstWord (lit "C") 17 18]
           [] (lit "XY") (lit "Z")); reflexivity.
Defined.

(** Setting a Word key and then setting it back to its former content gives
    the text back. *)
Theorem set_key_undo text kc bl pre c off e post al V :
  tryParseKeymapsText text kc false
  = Done (bl ++ (pre ++ AstWord c off e :: post) :: al, None) ->
  plainWord V = true ->
  let L := Z.of_nat (length bl) in
  let K := Z.of_nat (length pre) in
  exists t1,
    trySetKeymapsKey text L K V kc = Done t1 /\
    trySetKeymapsKey t1 L K c kc = Done text.
Proof.
  intros H HV L K.
  destruct (set_key_core _ _ _ _ _ _ _ _ _ V H HV) as (Hsl & Hlen & Hp1 & Hset1).
  eexists. split; [exact Hset1|].
  unfold trySetKeymapsKey. rewrite Hp1. cbn [bind]. unfold L, K.
  rewrite index_app_middle.
  rewrite index_app_middle.
  simpl node_offset. simpl node_content. unfold substr0, substrFrom.
  rewrite (splice_again text off (length c) V c (length V) Hlen eq_refl).
  replace (firstn off text ++ c ++ skipn (off + length c) text) with text.
  - rewrite H. reflexivity.
  - assert (X : skipn off text = c ++ skipn (off + length c) text).
    { rewrite (skipn_slice text off (off + length c)) by lia.
      rewrite Hsl. reflexivity. }
    rewrite <- X. symmetry. apply firstn_skipn.
Qed.

Lemma set_key_undo_witness :
  exists t1,
    trySetKeymapsKey (lit "KEYMAP(A, KC_B , C)") 0 1 (lit "XY") None = Done t1 /\
    trySetKeymapsKey t1 0 1 (lit "KC_B") None = Done (lit "KEYMAP(A, KC_B , C)").
Proof.
  apply (set_key_undo (lit "KEYMAP(A, KC_B , C)") None []
           [AstWord (lit "A") 7 8] (lit "KC_B") 10 15 [AstWord (lit "C") 17 18]
           [] (lit "XY")); reflexivity.
Defined.
(** ** Values of the keys *)

Lemma AstNode_ind' (P : AstNode -> Prop) :
  (forall c o e, P (AstWord c o e)) ->
  (forall fn ps o e c, Forall P ps -> P (AstFunction fn ps o e c)) ->
  forall x, P x.
Proof.
  intros HW HF. fix IH 1. intros [c o e|fn ps o e c].
  - apply HW.
  - apply HF. revert ps. fix IHl 1. intros [|p ps].
    + constructor.
    + constructor; [apply IH|apply IHl].
Qed.

Lemma evalNode_shift {T : Type} (truthy : T -> bool) (executor : Executor T)
    b1 b2 x :
  evalNode truthy executor (shiftNode b1 b2 x) = evalNode truthy executor x.
Proof.
  induction x as [c o e|fn ps o e c IH] using AstNode_ind'; [reflexivity|].
  cbn [shiftNode evalNode]. rewrite map_map.
  replace (map (fun p => evalNode truthy executor (shiftNode b1 b2 p)) ps)
    with (map (evalNode truthy executor) ps); [reflexivity|].
  apply map_ext_in. intros p Hp. symmetry.
  rewrite Forall_forall in IH. apply IH. exact Hp.
Qed.

(** The table is consulted for the names of the calls of the node only:
    two tables that answer alike for these names, as to what [in] finds and
    as to what each call returns or throws, give the node the same outcome,
    the same value or the same exception. *)
Theorem eval_depends_on_called_names {T : Type} (truthy : T -> bool)
    (ex1 ex2 : Executor T) x :
  (forall nm, In nm (funcNames x) ->
     has ex1 nm = has ex2 nm /\
     forall params, call ex1 nm params = call ex2 nm params) ->
  evalKeyExpression truthy (INode x) ex1
  = evalKeyExpression truthy (INode x) ex2.
Proof.
  cbn [evalKeyExpression].
  induction x as [c o e|fn ps o e c IH] using AstNode_ind'; intros H;
    [reflexivity|].
  cbn [evalNode].
  replace (map (evalNode truthy ex2) ps) with (map (evalNode truthy ex1) ps).
  - destruct (H fn) as [Hh Hc]; [simpl; auto|].
    rewrite <- Hh. destruct (sequence _) as [vs|ex]; [|reflexivity].
    rewrite <- Hc. reflexivity.
  - apply map_ext_in. intros p Hp.
    rewrite Forall_forall in IH. apply (IH p Hp).
    intros nm Hnm. apply H. simpl. right.
    apply in_concat. exists (funcNames p). split; auto.
    apply in_map. exact Hp.
Qed.

Lemma eval_depends_on_called_names_witness :
  evalKeyExpression otherTruthy
    (INode (AstFunction (lit "LT") [AstWord (lit "1") 10 11] 7 12 (lit "LT(1)")))
    sampleExecutor
  = evalKeyExpression otherTruthy
      (INode (AstFunction (lit "LT") [AstWord (lit "1") 10 11] 7 12 (lit "LT(1)")))
      (plainObject [(lit "LT", fun _ => Returns (VString []));
                    (lit "MO", fun _ => Raises EngineTypeError)]).
Proof.
  apply (eval_depends_on_called_names otherTruthy sampleExecutor
           (plainObject [(lit "LT", fun _ => Returns (VString []));
                         (lit "MO", fun _ => Raises EngineTypeError)])).
  intros nm [<-|[]]. split; reflexivity.
Defined.

(** After a Word key is set, the keys of the new text evaluate as the keys
    of the old text did, to the same value or the same exception, but for
    the key that was set, which evaluates to the new value. *)
Theorem set_key_keeps_other_values {T : Type} (truthy : T -> bool)
    (executor : Executor T) text kc bl pre c off e post al V :
  tryParseKeymapsText text kc false
  = Done (bl ++ (pre ++ AstWord c off e :: post) :: al, None) ->
  plainWord V = true ->
  let outcome := evalNode truthy executor in
  exists t1 layers1,
    trySetKeymapsKey text (Z.of_nat (length bl)) (Z.of_nat (length pre)) V kc
    = Done t1 /\
    tryParseKeymapsText t1 kc false = Done (layers1, None) /\
    map (map outcome) layers1
    = map (map outcome) bl
        ++ (map outcome pre ++ Returns (VString V) :: map outcome post)
        :: map (map outcome) al.
Proof.
  intros H HV outcome.
  destruct (set_key_core _ _ _ _ _ _ _ _ _ V H HV) as (_ & _ & Hp1 & Hset1).
  eexists. eexists. split; [exact Hset1|]. split; [exact Hp1|].
  rewrite map_app. cbn [map]. rewrite map_app. cbn [map].
  f_equal. f_equal.
  - f_equal. f_equal. rewrite map_map. apply map_ext. intros x.
    apply evalNode_shift.
  - rewrite map_map. apply map_ext. intros l. rewrite map_map.
    apply map_ext. intros x. apply evalNode_shift.
Qed.

Lemma set_key_keeps_other_values_witness :
  exists t1 layers1,
    trySetKeymapsKey (lit "KEYMAP(LT(1), KC_B , valueOf(C))") 0 1 (lit "XY") None
    = Done t1 /\
    tryParseKeymapsText t1 None false = Done (layers1, None) /\
    map (map (evalNode otherTruthy sampleExecutor)) layers1
    = map (map (evalNode otherTruthy sampleExecutor)) []
        ++ (map (evalNode otherTruthy sampleExecutor)
              [AstFunction (lit "LT") [AstWord (lit "1") 10 11] 7 12
                 (lit "LT(1)")]
            ++ Returns (VString (lit "XY"))
            :: map (evalNode otherTruthy sampleExecutor)
                 [AstFunction (lit "valueOf") [AstWord (lit "C") 29 30] 21 31
                    (lit "valueOf(C)")])
        :: map (map (evalNode otherTruthy sampleExecutor)) [].
Proof.
  apply (set_key_keeps_other_values otherTruthy sampleExecutor
           (lit "KEYMAP(LT(1), KC_B , valueOf(C))") None []
           [AstFunction (lit "LT") [AstWord (lit "1") 10 11] 7 12 (lit "LT(1)")]
           (lit "KC_B") 14 19
           [AstFunction (lit "valueOf") [AstWord (lit "C") 29 30] 21 31
              (lit "valueOf(C)")] [] (lit "XY"));
    reflexivity.
Defined.

(** Setting a key that is a call replaces the text of its span, from its
    offset to its end. *)
Theorem set_key_on_call text kc layers L K l fn ps o e c V t' :
  tryParseKeymapsText text kc false = Done (layers, None) ->
  index layers L = Some l -> index l K = Some (AstFunction fn ps o e c) ->
  trySetKeymapsKey text L K V kc = Done t' ->
  c = slice text o e /\ o < e <= length text /\
  t' = firstn o text ++ V ++ skipn e text.
Proof.
  intros H Hl Hk Hset.
  assert (Hp := H). apply tryParseKeymapsText_Done in Hp.
  destruct Hp as (p & Hs & _ & _).
  destruct (scan_spans _ _ _ _ _ _ Hs) as (_ & more & Em & Hmore & _).
  simpl in Em. subst more.
  destruct (index_Some _ _ _ Hl) as [_ Il].
  destruct (index_Some _ _ _ Hk) as [_ Ik].
  destruct (Hmore l Il) as (_ & Ol & Hn).
  destruct (Hn _ Ik) as (_ & _ & Sp).
  assert (Oe := ordered_In _ _ Ol Ik). cbn [node_offset node_end] in Oe.
  cbn [nodeSpan] in Sp. destruct Sp as (_ & _ & _ & _ & Ec & Ee & _).
  split; [exact Ec|]. split; [lia|].
  unfold trySetKeymapsKey in Hset. rewrite H in Hset. cbn [bind] in Hset.
  rewrite Hl, Hk in Hset. bind_inv Hset. inversion Hset; subst t'.
  cbn [node_offset node_content]. unfold substr0, substrFrom.
  do 3 f_equal. rewrite Ec, slice_length by exact Ee. lia.
Qed.

Lemma set_key_on_call_witness :
  lit "LT(1)" = slice (lit "KEYMAP(LT(1), KC_B , C)") 7 12 /\
  7 < 12 <= length (lit "KEYMAP(LT(1), KC_B , C)") /\
  lit "KEYMAP(KC_A, KC_B , C)"
  = firstn 7 (lit "KEYMAP(LT(1), KC_B , C)") ++ lit "KC_A"
      ++ skipn 12 (lit "KEYMAP(LT(1), KC_B , C)").
Proof.
  apply (set_key_on_call (lit "KEYMAP(LT(1), KC_B , C)") None
           [[AstFunction (lit "LT") [AstWord (lit "1") 10 11] 7 12 (lit "LT(1)");
             AstWord (lit "KC_B") 14 19; AstWord (lit "C") 21 22]]
           0 0
           [AstFunction (lit "LT") [AstWord (lit "1") 10 11] 7 12 (lit "LT(1)");
            AstWord (lit "KC_B") 14 19; AstWord (lit "C") 21 22]
           (lit "LT") [AstWord (lit "1") 10 11] 7 12 (lit "LT(1)") (lit "KC_A")
           (lit "KEYMAP(KC_A, KC_B , C)")); reflexivity.
Defined.
(** ** Appending layers *)

Lemma append_core text kc layers :
  tryParseKeymapsText text kc false = Done (layers, None) ->
  let n := length layers in
  let k := length (hd [] layers) in
  exists p new,
    p <= length text /\ length new = k /\ layers <> [] /\
    scan text (length text) 0 [] = Done (layers, p) /\
    addLayerKeymaps text
    = Done (firstn p text ++ newLayerText n k ++ skipn p text) /\
    scan (firstn p text ++ newLayerText n k ++ skipn p text)
      (length (firstn p text ++ newLayerText n k ++ skipn p text)) 0 []
    = Done (layers ++ [new], p + length (newLayerText n k)) /\
    tryParseKeymapsText (firstn p text ++ newLayerText n k ++ skipn p text)
      kc false
    = Done (layers ++ [new], None).
Proof.
  intros H n k.
  apply tryParseKeymapsText_Done in H. destruct H as (p & Hs & Hv & _).
  assert (Hv' := validate_Done _ _ _ Hv).
  destruct Hv' as (k0 & rest & El & Hall & _).
  assert (Hend := scan_end _ _ _ _ _ _ Hs).
  destruct Hend as (_ & Hnone & more & Em & Hne & _ & Hp).
  simpl in Em. subst more.
  destruct Hp as [Hp Hr]; [rewrite El; discriminate|].
  assert (Hk : 1 <= k).
  { unfold k. rewrite El. simpl.
    assert (N : k0 <> []) by (apply Hne; rewrite El; left; auto).
    destruct k0; [congruence|simpl; lia]. }
  assert (Ek : k = length k0) by (unfold k; rewrite El; reflexivity).
  set (new := wordsAt (p + length (newLayerLead n) + 7)
                (repeat (bare placeholder) k)).
  assert (Ln : length new = k).
  { unfold new. rewrite wordsAt_length, repeat_length. reflexivity. }
  exists p, new.
  assert (Hparse : tryParseKeymapsText text None true = Done (layers, Some p)).
  { unfold tryParseKeymapsText. rewrite Hs. cbn [bind].
    rewrite (validate_None _ _ Hv). reflexivity. }
  split; [exact Hp|]. split; [exact Ln|].
  split; [rewrite El; discriminate|]. split; [exact Hs|]. split.
  { unfold n. rewrite Ek. rewrite El in Hparse |- *.
    apply addLayerKeymaps_Done. exact Hparse. }
  assert (Sc := scan_append text layers p n k Hs Hp Hk). cbv zeta in Sc.
  fold new in Sc. split; [exact Sc|].
  unfold tryParseKeymapsText. rewrite Sc. cbn [bind].
  rewrite El. rewrite validate_app.
  - reflexivity.
  - rewrite <- El. exact Hv.
  - rewrite Ln. exact Ek.
Qed.

Lemma splice_after (text : str) p N M :
  p <= length text ->
  let t1 := firstn p text ++ N ++ skipn p text in
  firstn (p + length N) t1 ++ M ++ skipn (p + length N) t1
  = firstn p text ++ N ++ M ++ skipn p text.
Proof.
  intros H t1.
  assert (L : length (firstn p text ++ N) = p + length N)
    by (rewrite length_app, length_firstn; lia).
  assert (E : t1 = (firstn p text ++ N) ++ skipn p text)
    by (unfold t1; apply app_assoc).
  rewrite E, <- L.
  rewrite firstn_app, firstn_all, Nat.sub_diag. cbn [firstn].
  rewrite app_nil_r, skipn_app, skipn_all, Nat.sub_diag. cbn [skipn app].
  rewrite <- !app_assoc. reflexivity.
Qed.

(** Appending a layer twice inserts the two new invocations one after the
    other at the position [p] where the parse of the text ends, which is
    just behind the closing parenthesis of its last invocation; they are
    numbered [n] and [n + 1], and the parser accepts the result as the old
    layers followed by two layers of as many keys. *)
Theorem append_layer_twice text kc layers :
  tryParseKeymapsText text kc false = Done (layers, None) ->
  let n := length layers in
  let k := length (hd [] layers) in
  exists p t1 t2 new1 new2,
    tryParseKeymapsText text None true = Done (layers, Some p) /\
    p <= length text /\ nth_error text (p - 1) = Some c_rparen /\
    indexOf marker text p = None /\
    addLayerKeymaps text = Done t1 /\ addLayerKeymaps t1 = Done t2 /\
    t1 = firstn p text ++ newLayerText n k ++ skipn p text /\
    t2 = firstn p text ++ newLayerText n k ++ newLayerText (n + 1) k
           ++ skipn p text /\
    tryParseKeymapsText t2 kc false = Done (layers ++ [new1; new2], None) /\
    length new1 = k /\ length new2 = k.
Proof.
  intros H n k.
  destruct (append_core text kc layers H)
    as (p & new1 & Hp & L1 & Hne & Hs & Ha1 & Hs1 & Hp1).
  fold n in Ha1, Hs1, Hp1. fold k in Ha1, Hs1, Hp1, L1.
  set (t1 := firstn p text ++ newLayerText n k ++ skipn p text) in *.
  destruct (append_core t1 kc (layers ++ [new1]) Hp1)
    as (p' & new2 & Hp' & L2 & _ & Hs' & Ha2 & _ & Hp2).
  assert (Ep : p' = p + length (newLayerText n k)) by congruence.
  clear Hs'. subst p'.
  assert (En : length (layers ++ [new1]) = n + 1)
    by (rewrite length_app; reflexivity).
  assert (Ek : length (hd [] (layers ++ [new1])) = k).
  { unfold k. destruct layers; [congruence|reflexivity]. }
  rewrite En, Ek in Ha2, Hp2. rewrite Ek in L2.
  unfold t1 in Ha2, Hp2.
  rewrite (splice_after text p _ _ Hp) in Ha2, Hp2.
  assert (Hv : validate layers None = Done tt).
  { apply tryParseKeymapsText_Done in H. destruct H as (p0 & _ & Hv & _).
    apply (validate_None _ _ Hv). }
  assert (Hend := scan_end _ _ _ _ _ _ Hs).
  destruct Hend as (_ & Hnone & more & Em & _ & _ & Hlast).
  simpl in Em. subst more. destruct (Hlast Hne) as [_ Hr].
  exists p, t1. eexists. exists new1, new2.
  split.
  { unfold tryParseKeymapsText. rewrite Hs. cbn [bind]. rewrite Hv.
    reflexivity. }
  split; [exact Hp|]. split; [exact Hr|]. split; [exact Hnone|].
  split; [exact Ha1|]. split; [exact Ha2|]. split; [reflexivity|].
  split; [reflexivity|].
  split; [|auto]. rewrite <- app_assoc in Hp2. exact Hp2.
Qed.

Lemma append_layer_twice_witness :
  exists p t1 t2 new1 new2,
    tryParseKeymapsText (lit "x KEYMAP(A,B) y") None true
    = Done ([[AstWord (lit "A") 9 10; AstWord (lit "B") 11 12]], Some p) /\
    p <= length (lit "x KEYMAP(A,B) y") /\
    nth_error (lit "x KEYMAP(A,B) y") (p - 1) = Some c_rparen /\
    indexOf marker (lit "x KEYMAP(A,B) y") p = None /\
    addLayerKeymaps (lit "x KEYMAP(A,B) y") = Done t1 /\
    addLayerKeymaps t1 = Done t2 /\
    t1 = firstn p (lit "x KEYMAP(A,B) y") ++ newLayerText 1 2
           ++ skipn p (lit "x KEYMAP(A,B) y") /\
    t2 = firstn p (lit "x KEYMAP(A,B) y") ++ newLayerText 1 2
           ++ newLayerText (1 + 1) 2 ++ skipn p (lit "x KEYMAP(A,B) y") /\
    tryParseKeymapsText t2 None false
    = Done ([[AstWord (lit "A") 9 10; AstWord (lit "B") 11 12]]
              ++ [new1; new2], None) /\
    length new1 = 2 /\ length new2 = 2.
Proof.
  apply (append_layer_twice (lit "x KEYMAP(A,B) y") None
           [[AstWord (lit "A") 9 10; AstWord (lit "B") 11 12]]).
  reflexivity.
Defined.

(** ** Setting two keys *)

Lemma index_split {A : Type} (l : list A) i x :
  index l i = Some x ->
  exists pre post, l = pre ++ x :: post /\ i = Z.of_nat (length pre).
Proof.
  unfold index. destruct (i <? 0)%Z eqn:E; [discriminate|].
  apply Z.ltb_ge in E. intros H.
  apply nth_error_split in H. destruct H as (pre & post & -> & Hl).
  exists pre, post. split; auto. lia.
Qed.

Lemma keyAt_split layers L K x :
  keyAt layers L K = Some x ->
  exists bl pre post al,
    layers = bl ++ (pre ++ x :: post) :: al /\
    L = Z.of_nat (length bl) /\ K = Z.of_nat (length pre).
Proof.
  unfold keyAt. destruct (index layers L) as [l|] eqn:El; [|discriminate].
  intros Hk. apply index_split in El. destruct El as (bl & al & -> & ->).
  apply index_split in Hk. destruct Hk as (pre & post & -> & ->).
  exists bl, pre, post, al. auto.
Qed.

Lemma index_app_left {A : Type} (l r : list A) i :
  (i < Z.of_nat (length l))%Z -> index (l ++ r) i = index l i.
Proof.
  intros H. unfold index. destruct (i <? 0)%Z eqn:E; auto.
  apply Z.ltb_ge in E. apply nth_error_app1. lia.
Qed.

Lemma index_app_right {A : Type} (l r : list A) i :
  (Z.of_nat (length l) <= i)%Z ->
  index (l ++ r) i = index r (i - Z.of_nat (length l)).
Proof.
  intros H. unfold index.
  replace (i <? 0)%Z with false by (symmetry; apply Z.ltb_ge; lia).
  replace (i - Z.of_nat (length l) <? 0)%Z with false
    by (symmetry; apply Z.ltb_ge; lia).
  rewrite nth_error_app2 by lia. f_equal. lia.
Qed.

Lemma index_map {A B : Type} (h : A -> B) (l : list A) i :
  index (map h l) i = option_map h (index l i).
Proof.
  unfold index. destruct (i <? 0)%Z; [reflexivity|]. apply nth_error_map.
Qed.

Lemma index_cons_tail {A : Type} (a : A) (l : list A) i :
  (0 < i)%Z -> index (a :: l) i = index l (i - 1).
Proof.
  intros H. change (a :: l) with ([a] ++ l).
  rewrite index_app_right by (simpl; lia). reflexivity.
Qed.

(** The keys before the one that was set stay as they are; those behind
    it move with the text. *)
Lemma keyAt_before bl pre (x x' : AstNode) post post' al al' L K :
  (L < Z.of_nat (length bl) \/
   L = Z.of_nat (length bl) /\ K < Z.of_nat (length pre))%Z ->
  keyAt (bl ++ (pre ++ x' :: post') :: al') L K
  = keyAt (bl ++ (pre ++ x :: post) :: al) L K.
Proof.
  intros [H|[-> H]]; unfold keyAt.
  - rewrite !index_app_left by exact H. reflexivity.
  - rewrite !index_app_middle, !index_app_left by exact H. reflexivity.
Qed.

Lemma keyAt_after bl pre (x x' : AstNode) post al m L K :
  (Z.of_nat (length bl) < L \/
   L = Z.of_nat (length bl) /\ Z.of_nat (length pre) < K)%Z ->
  keyAt (bl ++ (pre ++ x' :: map m post) :: map (map m) al) L K
  = option_map m (keyAt (bl ++ (pre ++ x :: post) :: al) L K).
Proof.
  intros [H|[-> H]]; unfold keyAt.
  - rewrite !index_app_right by lia.
    rewrite !index_cons_tail by lia. rewrite index_map.
    destruct (index al _) as [l|]; [|reflexivity].
    cbn [option_map]. apply index_map.
  - rewrite !index_app_middle, !index_app_right by lia.
    rewrite !index_cons_tail by lia. apply index_map.
Qed.

Lemma ordered_head a l :
  ordered (a :: l) -> forall y, In y l -> node_end a <= node_offset y.
Proof.
  revert a. induction l as [|b l IH]; intros a H y Hy; [contradiction|].
  cbn [ordered] in H. destruct H as (_ & Hab & Hbl).
  destruct Hy as [<-|Hy]; [exact Hab|].
  assert (Hb := Hbl). cbn [ordered] in Hb. destruct Hb as (Ob & _).
  specialize (IH b Hbl y Hy). lia.
Qed.

Lemma ordered_split pre x post :
  ordered (pre ++ x :: post) ->
  forall y, In y post -> node_end x <= node_offset y.
Proof.
  induction pre as [|a pre IH]; intros H.
  - apply ordered_head. exact H.
  - apply IH. cbn [app ordered] in H. tauto.
Qed.

Lemma layers_head la ls :
  layersOrdered (la :: ls) ->
  (forall l, In l ls -> l <> [] /\ ordered l) ->
  forall x lb y, In x la -> In lb ls -> In y lb -> node_end x <= node_offset y.
Proof.
  revert la. induction ls as [|lb0 ls IH]; intros la H Hall x lb y Hx Hlb Hy;
    [contradiction|].
  cbn [layersOrdered] in H. destruct H as (Hab & Hrest).
  destruct Hlb as [<-|Hlb].
  - specialize (Hab x y Hx Hy). lia.
  - destruct (Hall lb0 (or_introl eq_refl)) as [Hne Ho].
    destruct lb0 as [|z lb0]; [congruence|].
    assert (Hz : In z (z :: lb0)) by (left; reflexivity).
    specialize (Hab x z Hx Hz).
    assert (Oz := ordered_In _ _ Ho Hz).
    specialize (IH (z :: lb0) Hrest (fun l Hl => Hall l (or_intror Hl))
                  z lb y Hz Hlb Hy).
    lia.
Qed.

Lemma layers_split bl la al :
  layersOrdered (bl ++ la :: al) ->
  (forall l, In l (bl ++ la :: al) -> l <> [] /\ ordered l) ->
  forall x lb y, In x la -> In lb al -> In y lb -> node_end x <= node_offset y.
Proof.
  induction bl as [|b bl IH]; intros H Hall.
  - apply layers_head; [exact H|]. intros l Hl. apply Hall. right. exact Hl.
  - apply IH.
    + cbn [app layersOrdered] in H. tauto.
    + intros l Hl. apply Hall. right. exact Hl.
Qed.

(** In an accepted text a key ends before the keys of the later places
    start. *)
Lemma keyAt_order text kc layers bl pre x post al L K y :
  tryParseKeymapsText text kc false = Done (layers, None) ->
  layers = bl ++ (pre ++ x :: post) :: al ->
  keyAt layers L K = Some y ->
  (Z.of_nat (length bl) < L \/
   L = Z.of_nat (length bl) /\ Z.of_nat (length pre) < K)%Z ->
  node_end x <= node_offset y.
Proof.
  intros H El Hk Hord. apply tryParseKeymapsText_Done in H.
  destruct H as (p & Hs & _ & _).
  destruct (scan_spans _ _ _ _ _ _ Hs) as (_ & more & Em & Hmore & Om).
  simpl in Em. subst more.
  assert (Hall : forall l, In l layers -> l <> [] /\ ordered l).
  { intros l Hl. destruct (Hmore l Hl) as (A & B & _). auto. }
  rewrite El in Hk, Om, Hall. unfold keyAt in Hk.
  destruct Hord as [Hl|[-> Hkk]].
  - rewrite index_app_right, index_cons_tail in Hk by lia.
    destruct (index al _) as [lb|] eqn:Elb; [|discriminate].
    apply index_Some in Elb. apply index_Some in Hk.
    apply (layers_split bl _ al Om Hall x lb y); try tauto.
    apply in_or_app. right. left. reflexivity.
  - rewrite index_app_middle in Hk.
    rewrite index_app_right, index_cons_tail in Hk by lia.
    apply index_Some in Hk.
    destruct (Hall (pre ++ x :: post)) as [_ Ho];
      [apply in_or_app; right; left; reflexivity|].
    apply (ordered_split pre x post Ho). tauto.
Qed.

Lemma splice_commute (A X B Y C V1 V2 : str) :
  let text := A ++ X ++ B ++ Y ++ C in
  let o1 := length A in
  let o2 := length (A ++ X ++ B) in
  let t1 := firstn o1 text ++ V1 ++ skipn (o1 + length X) text in
  let t2 := firstn o2 text ++ V2 ++ skipn (o2 + length Y) text in
  let o2' := o2 - (o1 + length X) + (o1 + length V1) in
  firstn o2' t1 ++ V2 ++ skipn (o2' + length Y) t1
  = firstn o1 t2 ++ V1 ++ skipn (o1 + length X) t2.
Proof.
  intros text o1 o2 t1 t2 o2'.
  assert (E1 : t1 = A ++ V1 ++ B ++ Y ++ C).
  { unfold t1, text, o1. rewrite firstn_app, firstn_all, Nat.sub_diag.
    cbn [firstn]. rewrite app_nil_r. f_equal. f_equal.
    rewrite (app_assoc A X). apply skipn_app_length. rewrite !length_app; lia. }
  assert (E2 : t2 = A ++ X ++ B ++ V2 ++ C).
  { unfold t2, text, o2.
    replace (A ++ X ++ B ++ Y ++ C) with ((A ++ X ++ B) ++ Y ++ C)
      by (rewrite <- !app_assoc; reflexivity).
    rewrite firstn_app, firstn_all, Nat.sub_diag. cbn [firstn].
    rewrite app_nil_r, <- !app_assoc. do 4 f_equal.
    rewrite !app_assoc. apply skipn_app_length. rewrite !length_app. lia. }
  assert (Eo : o2' = length (A ++ V1 ++ B)).
  { unfold o2', o2, o1. rewrite !length_app. lia. }
  rewrite E1, E2, Eo.
  replace (A ++ V1 ++ B ++ Y ++ C) with ((A ++ V1 ++ B) ++ Y ++ C)
    by (rewrite <- !app_assoc; reflexivity).
  rewrite firstn_app, firstn_all, Nat.sub_diag. cbn [firstn].
  rewrite app_nil_r.
  replace (skipn (length (A ++ V1 ++ B) + length Y) ((A ++ V1 ++ B) ++ Y ++ C))
    with C.
  2:{ symmetry. rewrite (app_assoc _ Y C). apply skipn_app_length.
      rewrite !length_app; lia. }
  unfold o1. rewrite firstn_app, firstn_all, Nat.sub_diag. cbn [firstn].
  rewrite app_nil_r.
  replace (skipn (length A + length X) (A ++ X ++ B ++ V2 ++ C))
    with (B ++ V2 ++ C).
  2:{ symmetry. rewrite (app_assoc A X). apply skipn_app_length.
      rewrite !length_app; lia. }
  rewrite <- !app_assoc. reflexivity.
Qed.
Lemma word_span_le text kc hack layers e0 bl pre c o e post al :
  tryParseKeymapsText text kc hack = Done (layers, e0) ->
  layers = bl ++ (pre ++ AstWord c o e :: post) :: al ->
  o + length c <= e.
Proof.
  intros H El. apply tryParseKeymapsText_Done in H.
  destruct H as (p & Hs & _ & _).
  destruct (scan_spans _ _ _ _ _ _ Hs) as (_ & more & Em & Hmore & _).
  simpl in Em. subst more.
  destruct (Hmore (pre ++ AstWord c o e :: post)) as (_ & _ & Hn).
  { rewrite El. apply in_or_app. right. left. reflexivity. }
  destruct (Hn (AstWord c o e)) as (_ & _ & Sp).
  { apply in_or_app. right. left. reflexivity. }
  cbn [nodeSpan wordSpan] in Sp. tauto.
Qed.

Lemma text_in_five (text : str) o1 n1 o2 n2 :
  o1 + n1 <= o2 -> o2 + n2 <= length text ->
  text = firstn o1 text ++ slice text o1 (o1 + n1) ++ slice text (o1 + n1) o2
           ++ slice text o2 (o2 + n2) ++ skipn (o2 + n2) text.
Proof.
  intros H1 H2.
  rewrite <- (skipn_slice text o2 (o2 + n2)) by lia.
  rewrite <- (skipn_slice text (o1 + n1) o2) by lia.
  rewrite <- (skipn_slice text o1 (o1 + n1)) by lia.
  symmetry. apply firstn_skipn.
Qed.

(** Setting two Word keys of an accepted text gives the same text in
    either order. *)
Theorem set_keys_commute text kc layers L1 K1 L2 K2 c1 o1 e1 c2 o2 e2 V1 V2 :
  tryParseKeymapsText text kc false = Done (layers, None) ->
  keyAt layers L1 K1 = Some (AstWord c1 o1 e1) ->
  keyAt layers L2 K2 = Some (AstWord c2 o2 e2) ->
  (L1 < L2 \/ L1 = L2 /\ K1 < K2)%Z ->
  plainWord V1 = true -> plainWord V2 = true ->
  exists t1 t2 t,
    trySetKeymapsKey text L1 K1 V1 kc = Done t1 /\
    trySetKeymapsKey t1 L2 K2 V2 kc = Done t /\
    trySetKeymapsKey text L2 K2 V2 kc = Done t2 /\
    trySetKeymapsKey t2 L1 K1 V1 kc = Done t.
Proof.
  intros H Hk1 Hk2 Hord HV1 HV2.
  (* the first key, then the second *)
  destruct (keyAt_split _ _ _ _ Hk1) as (bl & pre & post & al & El & -> & ->).
  assert (H1 := H). rewrite El in H1.
  destruct (set_key_core _ _ _ _ _ _ _ _ _ V1 H1 HV1) as (Sl1 & Len1 & P1 & Set1).
  assert (Hle1 := word_span_le _ _ _ _ _ _ _ _ _ _ _ _ H El).
  assert (Hord12 := keyAt_order _ _ _ _ _ _ _ _ _ _ _ H El Hk2 ltac:(lia)).
  cbn [node_end node_offset] in Hord12.
  set (m1 := shiftNode (o1 + length c1) (o1 + length V1)) in *.
  assert (Hk2' : keyAt (bl ++ (pre ++ AstWord V1 o1
                                  (shiftPos (o1 + length c1) (o1 + length V1) e1)
                                :: map m1 post) :: map (map m1) al) L2 K2
                 = Some (m1 (AstWord c2 o2 e2))).
  { rewrite (keyAt_after bl pre (AstWord c1 o1 e1)) by lia.
    rewrite <- El, Hk2. reflexivity. }
  destruct (keyAt_split _ _ _ _ Hk2') as (bl' & pre' & post' & al' & El' & EL2 & EK2).
  rewrite El' in P1. cbn [m1 shiftNode] in P1.
  destruct (set_key_core _ _ _ _ _ _ _ _ _ V2 P1 HV2) as (_ & _ & _ & Set12).
  rewrite <- EL2, <- EK2 in Set12.
  (* the second key, then the first *)
  destruct (keyAt_split _ _ _ _ Hk2) as (bl2 & pre2 & post2 & al2 & El2 & EL2' & EK2').
  assert (H2 := H). rewrite El2 in H2.
  destruct (set_key_core _ _ _ _ _ _ _ _ _ V2 H2 HV2) as (Sl2 & Len2 & P2 & Set2).
  rewrite <- EL2', <- EK2' in Set2.
  set (m2 := shiftNode (o2 + length c2) (o2 + length V2)) in *.
  assert (Hk1' : keyAt (bl2 ++ (pre2 ++ AstWord V2 o2
                                  (shiftPos (o2 + length c2) (o2 + length V2) e2)
                                :: map m2 post2) :: map (map m2) al2)
                   (Z.of_nat (length bl)) (Z.of_nat (length pre))
                 = Some (AstWord c1 o1 e1)).
  { rewrite (keyAt_before bl2 pre2 (AstWord c2 o2 e2) _ post2 _ al2)
      by lia.
    rewrite <- El2. exact Hk1. }
  destruct (keyAt_split _ _ _ _ Hk1') as (bl3 & pre3 & post3 & al3 & El3 & EL3 & EK3).
  rewrite El3 in P2.
  destruct (set_key_core _ _ _ _ _ _ _ _ _ V1 P2 HV1) as (_ & _ & _ & Set21).
  rewrite <- EL3, <- EK3 in Set21.
  (* the two texts *)
  do 3 eexists. split; [exact Set1|]. split; [exact Set12|].
  split; [exact Set2|]. rewrite Set21. f_equal.
  assert (T5 := text_in_five text o1 (length c1) o2 (length c2)
                  ltac:(lia) Len2).
  rewrite Sl1, Sl2 in T5.
  set (A := firstn o1 text) in *.
  set (B := slice text (o1 + length c1) o2) in *.
  set (C := skipn (o2 + length c2) text) in *.
  assert (LA : length A = o1) by (unfold A; rewrite length_firstn; lia).
  assert (LB : length (A ++ c1 ++ B) = o2).
  { rewrite !length_app, LA. unfold B. rewrite slice_length by lia. lia. }
  assert (X := splice_commute A c1 B c2 C V1 V2). cbv zeta in X.
  rewrite <- T5, LA, LB in X. unfold shiftPos. symmetry. exact X.
Qed.

Lemma set_keys_commute_witness :
  exists t1 t2 t,
    trySetKeymapsKey (lit "KEYMAP(A, KC_B , C) KEYMAP(D,E,F)") 0 1 (lit "XY") None
    = Done t1 /\
    trySetKeymapsKey t1 1 0 (lit "Z") None = Done t /\
    trySetKeymapsKey (lit "KEYMAP(A, KC_B , C) KEYMAP(D,E,F)") 1 0 (lit "Z") None
    = Done t2 /\
    trySetKeymapsKey t2 0 1 (lit "XY") None = Done t.
Proof.
  apply (set_keys_commute (lit "KEYMAP(A, KC_B , C) KEYMAP(D,E,F)") None
           [[AstWord (lit "A") 7 8; AstWord (lit "KC_B") 10 15;
             AstWord (lit "C") 17 18];
            [AstWord (lit "D") 27 28; AstWord (lit "E") 29 30;
             AstWord (lit "F") 31 32]]
           0 1 1 0 (lit "KC_B") 10 15 (lit "D") 27 28 (lit "XY") (lit "Z"));
    try reflexivity.
  left. reflexivity.
Defined.
(** ** What a token is made of *)

Lemma forallb_slice (p : char -> bool) (t : str) a b :
  b <= length t -> (forall i, a <= i < b -> p (nth i t 0%N) = true) ->
  forallb p (slice t a b) = true.
Proof.
  intros Hb H. apply forallb_forall. intros x Hx.
  apply (In_nth _ _ 0%N) in Hx. destruct Hx as (j & Hj & <-).
  rewrite slice_length in Hj by exact Hb.
  unfold slice. rewrite nth_firstn.
  replace (j <? b - a) with true by (symmetry; apply Nat.ltb_lt; lia).
  rewrite nth_skipn. apply H. lia.
Qed.

Lemma token_clean (t : str) s e o tok :
  tokenWithoutSpaces (slice t s e) = (o, tok) -> tok <> [] ->
  existsb isWhite tok = false -> s < e -> e <= length t ->
  (forall i, s <= i < e -> isDelim (nth i t 0%N) = false) ->
  forallb tokenChar tok = true.
Proof.
  intros Et Hne Hw Hse He Hd.
  destruct (token_span t s e o tok Et Hne Hse He) as (T1 & T2 & _).
  assert (D : forallb (fun c => negb (isDelim c)) tok = true).
  { rewrite <- T2. apply forallb_slice; [lia|].
    intros i Hi. rewrite Hd by lia. reflexivity. }
  rewrite forallb_forall in D. apply forallb_forall. intros c Hc.
  unfold tokenChar. specialize (D c Hc). apply negb_true_iff in D. rewrite D.
  simpl. apply negb_true_iff.
  destruct (isWhite c) eqn:W; auto.
  assert (X : existsb isWhite tok = true)
    by (apply existsb_exists; exists c; auto).
  congruence.
Qed.

Section CleanTokens.

Variable expr : str.

(** Between [start] and [pos] the loop has seen no delimiter, unless it ran
    to the end of the text inside a comment. *)
Local Abbreviation fresh f g :=
  (length expr <= pos g \/
   start f <= pos g /\
   forall i, start f <= i < pos g -> isDelim (nth i expr 0%N) = false).

Lemma addWord_clean f e f' :
  addWord expr f e = Done f' -> e < length expr ->
  (forall i, start f <= i < e -> isDelim (nth i expr 0%N) = false) ->
  forallb cleanNode (arr f) = true -> forallb cleanNode (arr f') = true.
Proof.
  intros H Hl Hf Hc.
  destruct (addWord_cases _ _ _ _ H) as [->|(o & tok & Hs & Et & Hne & ->)];
    [exact Hc|].
  cbn [arr push]. rewrite forallb_app, Hc. cbn [forallb cleanNode andb].
  rewrite andb_true_r.
  assert (Hw : existsb isWhite tok = false).
  { unfold addWord in H.
    replace (e <=? start f) with false in H
      by (symmetry; apply Nat.leb_gt; exact Hs).
    rewrite Et in H. destruct tok; [congruence|]. simpl isEmpty in H.
    cbv iota in H. destruct (existsb isWhite _); [discriminate|reflexivity]. }
  apply (token_clean expr (start f) e o tok Et Hne Hw Hs); [lia|exact Hf].
Qed.

Lemma main_loop_clean_tokens n : forall f g a g',
  main_loop expr n f g = Done (a, g') -> fresh f g ->
  forallb cleanNode (arr f) = true -> forallb cleanNode a = true.
Proof.
  induction n as [|n IH]; intros f g a g' H Hf Hc.
  { simpl in H. destruct (length expr <=? pos g); [|discriminate].
    inversion H; subst. exact Hc. }
  rewrite main_loop_S in H.
  destruct (length expr <=? pos g) eqn:E; [inversion H; subst; exact Hc|].
  apply Nat.leb_gt in E. unfold loop_body in H.
  set (c := nth (pos g) expr 0%N) in *.
  set (g1 := set_pos g (pos g + 1)) in *.
  assert (Hf0 : start f <= pos g /\
                forall i, start f <= i < pos g -> isDelim (nth i expr 0%N) = false)
    by (destruct Hf as [Hf|Hf]; [lia|exact Hf]).
  destruct Hf0 as [Hst Hnd].
  assert (Empty : forall (f0 : frame) (g0 : shared),
            start f0 = pos g0 ->
            length expr <= pos g0 \/
            start f0 <= pos g0 /\
            forall i, start f0 <= i < pos g0 -> isDelim (nth i expr 0%N) = false).
  { intros f0 g0 E0. right. split; [lia|]. intros i Hi. lia. }
  bind_inv H. destruct a0 as [f1 g2].
  (* the first switch *)
  assert (Hfs : forallb cleanNode (arr f1) = true /\
                ((c =? c_bslash)%N = false -> (c =? c_slash)%N = false ->
                 f1 = f /\ g2 = g1) /\
                (isDelim c = false ->
                 length expr <= pos g2 \/
                 start f1 <= pos g2 /\
                 forall i, start f1 <= i < pos g2 ->
                           isDelim (nth i expr 0%N) = false)).
  { assert (Same : f1 = f /\ g2 = g1 ->
              forallb cleanNode (arr f1) = true /\
              ((c =? c_bslash)%N = false -> (c =? c_slash)%N = false ->
               f1 = f /\ g2 = g1) /\
              (isDelim c = false ->
               length expr <= pos g2 \/
               start f1 <= pos g2 /\
               forall i, start f1 <= i < pos g2 ->
                         isDelim (nth i expr 0%N) = false)).
    { intros [-> ->]. split; [exact Hc|]. split; [auto|].
      intros Hd. right. unfold g1. cbn [pos set_pos]. split; [lia|].
      intros i Hi. destruct (Nat.eq_dec i (pos g)) as [->|Ni]; [exact Hd|].
      apply Hnd. lia. }
    revert Hm. unfold firstSwitch.
    destruct (nth_error expr (pos g1)) as [nx|];
      [|intros X; inversion X; subst; apply Same; auto].
    destruct ((c =? c_bslash)%N && (nx =? c_nl)%N) eqn:B0.
    { intros X; inversion X; subst. cbn [arr set_start].
      split; [exact Hc|]. split.
      - intros B _. rewrite B in B0. discriminate.
      - intros _. apply Empty. reflexivity. }
    destruct ((c =? c_slash)%N && (nx =? c_star)%N) eqn:B1.
    { intros X. bind_inv X. destruct (blockComment _ _) as [p b] eqn:Eb.
      inversion X; subst. unfold g1 in Hm. cbn [pos set_pos] in Hm.
      rewrite Nat.add_sub in Hm.
      assert (Ca := addWord_clean _ _ _ Hm E Hnd Hc).
      split; [destruct b; exact Ca|]. split.
      - intros _ B. rewrite B in B1. discriminate.
      - intros _. destruct b.
        + apply Empty. reflexivity.
        + left. apply blockComment_open in Eb. rewrite length_skipn in Eb.
          unfold g1 in *. cbn [pos set_pos] in *. lia. }
    destruct ((c =? c_slash)%N && (nx =? c_slash)%N) eqn:B2.
    { intros X. bind_inv X. destruct (lineComment _ _) as [p b] eqn:Eb.
      inversion X; subst. unfold g1 in Hm. cbn [pos set_pos] in Hm.
      rewrite Nat.add_sub in Hm.
      assert (Ca := addWord_clean _ _ _ Hm E Hnd Hc).
      split; [destruct b; exact Ca|]. split.
      - intros _ B. rewrite B in B2. discriminate.
      - intros _. destruct b.
        + apply Empty. reflexivity.
        + left. apply lineComment_open in Eb. rewrite length_skipn in Eb.
          unfold g1 in *. cbn [pos set_pos] in *. lia. }
    intros X; inversion X; subst; apply Same; auto. }
  destruct Hfs as (Cf1 & Hsame & Hfresh).
  (* the second switch *)
  destruct (c =? c_space)%N eqn:Cs.
  { apply (IH _ _ _ _ H); [|exact Cf1]. apply Hfresh.
    apply N.eqb_eq in Cs. rewrite Cs. reflexivity. }
  destruct (c =? c_comma)%N eqn:Cc.
  { apply N.eqb_eq in Cc.
    destruct (Hsame ltac:(rewrite Cc; reflexivity) ltac:(rewrite Cc; reflexivity))
      as [-> ->].
    unfold g1 in H. cbn [pos set_pos] in H. rewrite Nat.add_sub in H.
    bind_inv H. bind_inv H.
    assert (Ca := addWord_clean _ _ _ Hm0 E Hnd Hc).
    apply ensureTokenExists_Done in Hm1. destruct Hm1 as (_ & Ea & _).
    apply (IH _ _ _ _ H).
    - apply Empty. reflexivity.
    - cbn [arr set_start]. rewrite Ea. exact Ca. }
  destruct (c =? c_lparen)%N eqn:Cl.
  { apply N.eqb_eq in Cl.
    destruct (Hsame ltac:(rewrite Cl; reflexivity) ltac:(rewrite Cl; reflexivity))
      as [-> ->].
    unfold g1 in H. cbn [pos set_pos] in H. rewrite Nat.add_sub in H.
    bind_inv H. destruct a0 as [f2 g3].
    apply addFunc_Done in Hm0.
    destruct Hm0 as (o & tok & ps & l & F1 & F2 & F3 & F4 & F5 & F6 & ->).
    assert (Cps : forallb cleanNode ps = true).
    { apply (IH _ _ _ _ F5); [|reflexivity]. apply Empty. reflexivity. }
    apply (IH _ _ _ _ H).
    - apply Empty. reflexivity.
    - cbn [arr set_start push]. rewrite forallb_app, Hc.
      cbn [forallb cleanNode]. rewrite Cps, !andb_true_r. cbn [andb].
      apply (token_clean expr (start f) (pos g) o tok F2 F3 F4 F1); [lia|].
      intros i Hi. apply Hnd. lia. }
  destruct (c =? c_rparen)%N eqn:Cr.
  { apply N.eqb_eq in Cr.
    destruct (Hsame ltac:(rewrite Cr; reflexivity) ltac:(rewrite Cr; reflexivity))
      as [-> ->].
    unfold g1 in H. cbn [pos set_pos] in H. rewrite Nat.add_sub in H.
    bind_inv H. bind_inv H. inversion H; subst.
    assert (Ca := addWord_clean _ _ _ Hm0 E Hnd Hc).
    apply ensureTokenExists_Done in Hm1. destruct Hm1 as (_ & Ea & _).
    rewrite Ea. exact Ca. }
  apply (IH _ _ _ _ H); [|exact Cf1]. apply Hfresh.
  unfold isDelim. rewrite Cc, Cl, Cr. reflexivity.
Qed.

End CleanTokens.

Lemma scan_clean_tokens text n : forall p kms kms' q,
  scan text n p kms = Done (kms', q) ->
  forallb (forallb cleanNode) kms = true ->
  forallb (forallb cleanNode) kms' = true.
Proof.
  induction n as [|n IH]; intros p kms kms' q H Hc; simpl in H.
  - destruct (indexOf marker text p); [discriminate|].
    inversion H; subst. exact Hc.
  - destruct (indexOf marker text p) as [i|]; [|inversion H; subst; exact Hc].
    bind_inv H. destruct a as [km g].
    destruct (pcount g =? 0)%Z; [|discriminate].
    apply (IH _ _ _ _ H). rewrite forallb_app, Hc. cbn [forallb].
    rewrite andb_true_r. cbn [andb].
    apply (main_loop_clean_tokens text _ _ _ _ _ Hm); [|reflexivity].
    right. cbn [start new_frame pos]. split; [lia|]. intros j Hj. lia.
Qed.

(** In an accepted text no Word and no name of a Function, at any depth,
    holds a comma, a parenthesis or a white character. *)
Theorem parsed_tokens_have_no_delimiter text kc hack layers e layer x :
  tryParseKeymapsText text kc hack = Done (layers, e) ->
  In layer layers -> In x layer -> cleanNode x = true.
Proof.
  intros H Hl Hx. apply tryParseKeymapsText_Done in H.
  destruct H as (p & Hs & _ & _).
  assert (C := scan_clean_tokens _ _ _ _ _ _ Hs eq_refl).
  rewrite forallb_forall in C. specialize (C layer Hl).
  rewrite forallb_forall in C. apply C. exact Hx.
Qed.

Lemma parsed_tokens_have_no_delimiter_witness :
  cleanNode (AstFunction (lit "LT")
               [AstWord (lit "1") 10 11; AstWord (lit "KC_A") 13 17]
               7 18 (lit "LT(1, KC_A)")) = true.
Proof.
  apply (parsed_tokens_have_no_delimiter (lit "KEYMAP(LT(1, KC_A) , KC_B )")
           None false
           [[AstFunction (lit "LT")
               [AstWord (lit "1") 10 11; AstWord (lit "KC_A") 13 17]
               7 18 (lit "LT(1, KC_A)");
             AstWord (lit "KC_B") 21 26]]
           None
           [AstFunction (lit "LT")
              [AstWord (lit "1") 10 11; AstWord (lit "KC_A") 13 17]
              7 18 (lit "LT(1, KC_A)");
            AstWord (lit "KC_B") 21 26]).
  - reflexivity.
  - simpl. auto.
  - simpl. auto.
Defined.

(** ** Setting a key and appending a layer *)

Lemma splice_append_commute (A X B C V N : str) :
  let text := A ++ X ++ B ++ C in
  let off := length A in
  let p := length (A ++ X ++ B) in
  let t1 := firstn off text ++ V ++ skipn (off + length X) text in
  let t2 := firstn p text ++ N ++ skipn p text in
  let p1 := p - (off + length X) + (off + length V) in
  firstn p1 t1 ++ N ++ skipn p1 t1
  = firstn off t2 ++ V ++ skipn (off + length X) t2.
Proof.
  intros text off p t1 t2 p1.
  assert (E1 : t1 = A ++ V ++ B ++ C).
  { unfold t1, text, off. rewrite firstn_app, firstn_all, Nat.sub_diag.
    cbn [firstn]. rewrite app_nil_r. f_equal. f_equal.
    rewrite (app_assoc A X). apply skipn_app_length. rewrite !length_app; lia. }
  assert (E2 : t2 = A ++ X ++ B ++ N ++ C).
  { unfold t2, text, p.
    replace (A ++ X ++ B ++ C) with ((A ++ X ++ B) ++ C)
      by (rewrite <- !app_assoc; reflexivity).
    rewrite firstn_app, firstn_all, Nat.sub_diag. cbn [firstn].
    rewrite app_nil_r, skipn_app, skipn_all, Nat.sub_diag. cbn [skipn app].
    rewrite <- !app_assoc. reflexivity. }
  assert (Ep : p1 = length (A ++ V ++ B)).
  { unfold p1, p, off. rewrite !length_app. lia. }
  rewrite E1, E2, Ep.
  replace (A ++ V ++ B ++ C) with ((A ++ V ++ B) ++ C)
    by (rewrite <- !app_assoc; reflexivity).
  rewrite firstn_app, firstn_all, Nat.sub_diag. cbn [firstn].
  rewrite app_nil_r, skipn_app, skipn_all, Nat.sub_diag. cbn [skipn app].
  unfold off. rewrite firstn_app, firstn_all, Nat.sub_diag. cbn [firstn].
  rewrite app_nil_r.
  replace (skipn (length A + length X) (A ++ X ++ B ++ N ++ C))
    with (B ++ N ++ C).
  2:{ symmetry. rewrite (app_assoc A X). apply skipn_app_length.
      rewrite !length_app; lia. }
  rewrite <- !app_assoc. reflexivity.
Qed.

Lemma text_in_four (text : str) o n p :
  o + n <= p -> p <= length text ->
  text = firstn o text ++ slice text o (o + n) ++ slice text (o + n) p
           ++ skipn p text.
Proof.
  intros H1 H2.
  rewrite <- (skipn_slice text (o + n) p) by lia.
  rewrite <- (skipn_slice text o (o + n)) by lia.
  symmetry. apply firstn_skipn.
Qed.

(** Setting a Word key and appending a layer give the same text in either
    order. *)
Theorem set_key_and_append_commute text kc bl pre c off e post al V :
  tryParseKeymapsText text kc false
  = Done (bl ++ (pre ++ AstWord c off e :: post) :: al, None) ->
  plainWord V = true ->
  let L := Z.of_nat (length bl) in
  let K := Z.of_nat (length pre) in
  exists t1 t2 t,
    trySetKeymapsKey text L K V kc = Done t1 /\ addLayerKeymaps t1 = Done t /\
    addLayerKeymaps text = Done t2 /\ trySetKeymapsKey t2 L K V kc = Done t.
Proof.
  intros H HV L K.
  set (layers := bl ++ (pre ++ AstWord c off e :: post) :: al) in *.
  (* appending to the text *)
  destruct (append_core text kc layers H)
    as (p & new & Hp & Ln & _ & Hs & Ha & _ & Hp2).
  set (n := length layers) in *. set (k := length (hd [] layers)) in *.
  (* the key lies before the end of the scan *)
  destruct (scan_nodes _ _ _ _ _ _ Hs) as (more & Em & Hmore).
  simpl in Em. subst more.
  assert (Hin : In (pre ++ AstWord c off e :: post) layers)
    by (apply in_or_app; right; left; auto).
  assert (Hx : In (AstWord c off e) (pre ++ AstWord c off e :: post))
    by (apply in_or_app; right; left; auto).
  destruct (Hmore _ _ Hin Hx) as (_ & Hend & _ & Hspan).
  cbn [node_end] in Hend.
  assert (He : e < length text) by lia.
  assert (Hsp := Hspan). destruct Hsp as (_ & _ & Hle & Hsl & _).
  (* setting the key of the text *)
  destruct (set_key_core _ _ _ _ _ _ _ _ _ V H HV) as (_ & Hlen & P1 & Set1).
  set (t1 := firstn off text ++ V ++ skipn (off + length c) text) in *.
  destruct (scan_cross text c V off e HV Hspan He _ _ _ _ _ bl pre post al
              Hs eq_refl ltac:(lia)) as (m & Hs1).
  simpl app in Hs1. apply scan_enough in Hs1. fold t1 in Hs1.
  destruct (append_core t1 kc _ P1)
    as (p1 & new1 & _ & _ & _ & Hs1' & Ha1 & _ & _).
  assert (Ep1 : p1 = shiftPos (off + length c) (off + length V) p) by congruence.
  assert (En : length (bl ++ (pre ++ AstWord V off
                                 (shiftPos (off + length c) (off + length V) e)
                               :: map (shiftNode (off + length c) (off + length V))
                                    post)
                           :: map (map (shiftNode (off + length c)
                                          (off + length V))) al) = n).
  { unfold n, layers. rewrite !length_app. cbn [length]. rewrite length_map.
    reflexivity. }
  assert (Ek : length (hd [] (bl ++ (pre ++ AstWord V off
                                 (shiftPos (off + length c) (off + length V) e)
                               :: map (shiftNode (off + length c) (off + length V))
                                    post)
                           :: map (map (shiftNode (off + length c)
                                          (off + length V))) al)) = k).
  { unfold k, layers. destruct bl as [|b0 bl0]; cbn [app hd]; [|reflexivity].
    rewrite !length_app. cbn [length]. rewrite length_map. reflexivity. }
  rewrite En, Ek, Ep1 in Ha1.
  (* setting the key of the text with the new layer *)
  assert (H2 : tryParseKeymapsText
                 (firstn p text ++ newLayerText n k ++ skipn p text) kc false
               = Done (bl ++ (pre ++ AstWord c off e :: post) :: (al ++ [new]),
                       None)).
  { rewrite Hp2. unfold layers. rewrite <- app_assoc. reflexivity. }
  destruct (set_key_core _ _ _ _ _ _ _ _ _ V H2 HV) as (_ & _ & _ & Set2).
  (* the two texts *)
  do 3 eexists. split; [exact Set1|]. split; [exact Ha1|].
  split; [exact Ha|]. fold L K in Set2. rewrite Set2. f_equal.
  assert (T4 := text_in_four text off (length c) p ltac:(lia) Hp).
  rewrite Hsl in T4.
  set (A := firstn off text) in *.
  set (B := slice text (off + length c) p) in *.
  set (C := skipn p text) in *.
  assert (LA : length A = off) by (unfold A; rewrite length_firstn; lia).
  assert (LB : length (A ++ c ++ B) = p).
  { rewrite !length_app, LA. unfold B. rewrite slice_length by lia. lia. }
  assert (X := splice_append_commute A c B C V (newLayerText n k)).
  cbv zeta in X. rewrite <- T4, LA, LB in X.
  unfold t1, shiftPos. symmetry. exact X.
Qed.

Lemma set_key_and_append_commute_witness :
  exists t1 t2 t,
    trySetKeymapsKey (lit "x KEYMAP(A, KC_B ) y") 0 1 (lit "XYZ") None = Done t1 /\
    addLayerKeymaps t1 = Done t /\
    addLayerKeymaps (lit "x KEYMAP(A, KC_B ) y") = Done t2 /\
    trySetKeymapsKey t2 0 1 (lit "XYZ") None = Done t.
Proof.
  apply (set_key_and_append_commute (lit "x KEYMAP(A, KC_B ) y") None []
           [AstWord (lit "A") 9 10] (lit "KC_B") 12 17 [] [] (lit "XYZ"));
    reflexivity.
Defined.

(** ** Comments that never end *)

Lemma blockComment_unclosed s : forall p,
  noClose s = true -> blockComment s p = (p + length s, false).
Proof.
  induction s as [|c s IH]; intros p H.
  - simpl. f_equal. lia.
  - destruct s as [|nx s'].
    + simpl. f_equal. lia.
    + cbn [noClose] in H. apply andb_true_iff in H. destruct H as [H1 H2].
      apply negb_true_iff in H1. rewrite blockComment_cons2, H1.
      rewrite IH by exact H2. f_equal. simpl. lia.
Qed.

Lemma lineComment_unclosed s : forall p,
  forallb (fun c => negb (c =? c_nl)%N) s = true ->
  lineComment s p = (p + length s, false).
Proof.
  induction s as [|c s IH]; intros p H.
  - simpl. f_equal. lia.
  - simpl in H. apply andb_true_iff in H. destruct H as [H1 H2].
    apply negb_true_iff in H1. simpl. rewrite H1, IH by exact H2.
    f_equal. lia.
Qed.

(** A comment that is opened inside the argument list of an invocation and
    never closed (a block comment without its end, a line comment without a
    newline) takes the rest of the text with it, the closing parenthesis
    included: the invocation is unbalanced. *)
Theorem unclosed_comment_is_unbalanced pre args w body kc hack :
  noParen pre = true -> forallb wfArg args = true ->
  forallb isWhite w = true ->
  (noClose (c_star :: body) = true ->
   tryParseKeymapsText
     (pre ++ marker ++ prefixText args ++ w ++ c_slash :: c_star :: body)
     kc hack = Throw Unbalanced) /\
  (forallb (fun c => negb (c =? c_nl)%N) body = true ->
   tryParseKeymapsText
     (pre ++ marker ++ prefixText args ++ w ++ c_slash :: c_slash :: body)
     kc hack = Throw Unbalanced).
Proof.
  intros Hpre Hwf Hw.
  assert (Run : forall star,
            (forall (f : frame) (g : shared) (text : str),
               skipn (pos g) text = star :: body ->
               forallb isWhite (slice text (start f) (pos g - 1)) = true ->
               firstSwitch text c_slash (Some star) f g
               = Done (f, set_pos g (pos g + length (star :: body)))) ->
            tryParseKeymapsText
              (pre ++ marker ++ prefixText args ++ w ++ c_slash :: star :: body)
              kc hack
            = Throw Unbalanced).
  { intros star Hfs.
    destruct (behind_prefix pre args (w ++ c_slash :: star :: body) Hwf)
      as (f' & R & S1 & Hs & _).
    set (text := pre ++ marker ++ prefixText args ++ w ++ c_slash :: star :: body)
      in *.
    set (p := length pre + 7 + length (prefixText args)) in *.
    apply (parse_first_open pre (prefixText args ++ w ++ c_slash :: star :: body)
             kc hack (arr f')
             {| pos := p + length w + 1 + length (star :: body); pcount := 1 |});
      auto; [|discriminate].
    apply R.
    apply (reaches_inert text w _ f' {| pos := p; pcount := 1 |} Hs
             (white_inert _ Hw)).
    assert (Sl := slice_here _ _ _ _ Hs). apply skipn_more in Hs.
    cbn [pos set_pos] in *.
    set (g0 := set_pos {| pos := p; pcount := 1 |} (p + length w)) in *.
    assert (Len : length text = p + length w + 1 + length (star :: body)).
    { assert (X : length (skipn (p + length w) text)
                  = length (c_slash :: star :: body)) by (rewrite Hs; reflexivity).
      rewrite length_skipn in X. cbn [length] in X |- *.
      apply (@skipn_cons_inv char 0%N) in Hs. lia. }
    apply (yields_intro text 1); [|discriminate].
    rewrite (main_loop_skip text c_slash _ 0 f' g0 Hs) by reflexivity.
    assert (Hs1 : skipn (pos g0 + 1) text = star :: body).
    { apply (@skipn_cons_inv char 0%N) in Hs. tauto. }
    rewrite (nth_error_skipn_hd text), Hs1. cbn [hd_error].
    rewrite (Hfs f' (set_pos g0 (pos g0 + 1)) text).
    - cbn [bind]. rewrite main_loop_eof.
      + reflexivity.
      + unfold g0. cbn [pos set_pos]. lia.
    - cbn [pos set_pos]. exact Hs1.
    - unfold g0. cbn [pos set_pos]. rewrite Nat.add_sub, S1, Sl. exact Hw. }
  split; intros Hb.
  - apply (Run c_star).
    intros f g text Hs Hwh. unfold firstSwitch.
    replace ((c_slash =? c_bslash)%N && (c_star =? c_nl)%N) with false
      by reflexivity.
    replace ((c_slash =? c_slash)%N && (c_star =? c_star)%N) with true
      by reflexivity.
    rewrite addWord_white by exact Hwh. cbn [bind].
    rewrite Hs, blockComment_unclosed by exact Hb. reflexivity.
  - apply (Run c_slash).
    intros f g text Hs Hwh. unfold firstSwitch.
    replace ((c_slash =? c_bslash)%N && (c_slash =? c_nl)%N) with false
      by reflexivity.
    replace ((c_slash =? c_slash)%N && (c_slash =? c_star)%N) with false
      by reflexivity.
    replace ((c_slash =? c_slash)%N && (c_slash =? c_slash)%N) with true
      by reflexivity.
    rewrite addWord_white by exact Hwh. cbn [bind].
    rewrite Hs, lineComment_unclosed by (simpl; exact Hb). reflexivity.
Qed.

Lemma unclosed_comment_is_unbalanced_witness :
  tryParseKeymapsText
    (lit "x " ++ marker ++ prefixText sampleHead ++ [c_space]
       ++ c_slash :: c_star :: lit " c ), KC_C)") None false
  = Throw Unbalanced /\
  tryParseKeymapsText
    (lit "x " ++ marker ++ prefixText sampleHead ++ [c_space]
       ++ c_slash :: c_slash :: lit " c ), KC_C)") None false
  = Throw Unbalanced.
Proof.
  destruct (unclosed_comment_is_unbalanced (lit "x ") sampleHead [c_space]
              (lit " c ), KC_C)") None false) as [B L]; try reflexivity.
  split; [apply B|apply L]; reflexivity.
Defined.

(** ** The expected number of keys *)

(** With an expected number of keys, what [trySetKeymapsKey] returns is a
    text whose layers all have that number of keys: a new value that would
    change the number of keys is refused. *)
Theorem set_key_keeps_key_count text L K V k t' :
  trySetKeymapsKey text L K V (Some k) = Done t' ->
  exists layers',
    tryParseKeymapsText t' (Some k) false = Done (layers', None) /\
    layers' <> [] /\
    forall l, In l layers' -> Z.of_nat (length l) = k.
Proof.
  unfold trySetKeymapsKey. intros H. bind_inv H. destruct a as [layers e].
  assert (Fin : forall t ls e0,
            tryParseKeymapsText t (Some k) false = Done (ls, e0) ->
            exists layers',
              tryParseKeymapsText t (Some k) false = Done (layers', None) /\
              layers' <> [] /\
              forall l, In l layers' -> Z.of_nat (length l) = k).
  { intros t ls e0 P. assert (P' := P).
    apply tryParseKeymapsText_Done in P'. destruct P' as (p & _ & Hv & ->).
    apply validate_Done in Hv. destruct Hv as (k0 & rest & -> & Hall & Hk).
    exists (k0 :: rest). split; [exact P|]. split; [discriminate|].
    intros l Hl. rewrite (Hall l Hl). apply Hk. reflexivity. }
  destruct (index layers L) as [l|].
  2:{ inversion H; subst. apply (Fin _ _ _ Hm). }
  destruct (index l K) as [x|].
  2:{ inversion H; subst. apply (Fin _ _ _ Hm). }
  bind_inv H. destruct a as [layers' e']. inversion H; subst.
  apply (Fin _ _ _ Hm0).
Qed.

Lemma set_key_keeps_key_count_witness :
  exists layers',
    tryParseKeymapsText (lit "KEYMAP(A,X)") (Some 2%Z) false
    = Done (layers', None) /\
    layers' <> [] /\
    forall l, In l layers' -> Z.of_nat (length l) = 2%Z.
Proof.
  apply (set_key_keeps_key_count (lit "KEYMAP(A,B)") 0 1 (lit "X") 2
           (lit "KEYMAP(A,X)")).
  reflexivity.
Defined.

(** ** Setting a key that is a Word or a Call *)

Lemma firstSwitch_slash t nx f g :
  nx = c_star \/ nx = c_slash ->
  firstSwitch t c_slash (Some nx) f g
  = (f' <- addWord t f (pos g - 1) ;;
     let '(p, closed) := skim nx (skipn (pos g) t) (pos g) in
     Done (if closed then set_start f' p else f', set_pos g p)).
Proof. intros [-> | ->]; reflexivity. Qed.

Lemma skim_shift nx r p q b p' :
  skim nx r p = (q, b) -> skim nx r p' = (q - p + p', b).
Proof.
  unfold skim. destruct (nx =? c_star)%N.
  - apply blockComment_shift.
  - apply lineComment_shift.
Qed.

Lemma skim_found nx r p q : skim nx r p = (q, true) -> p + 2 <= q.
Proof.
  unfold skim. destruct (nx =? c_star)%N.
  - apply blockComment_found.
  - apply lineComment_found.
Qed.

Lemma skim_open nx r p q : skim nx r p = (q, false) -> q = p + length r.
Proof.
  unfold skim. destruct (nx =? c_star)%N.
  - apply blockComment_open.
  - apply lineComment_open.
Qed.

Lemma closed_call t fn ps o e c :
  closed t (AstFunction fn ps o e c) = true ->
  exists l, last (map Some ps) None = Some l /\ closed t l = true /\
            nth_error t (node_end l) = Some c_rparen.
Proof.
  cbn [closed]. induction ps as [|p ps IH]; [discriminate|].
  destruct ps as [|p2 ps].
  - intros H. apply andb_true_iff in H. destruct H as [H1 H2].
    exists p. split; [reflexivity|]. split; [exact H1|].
    destruct (nth_error t (node_end p)) as [ch|]; [|discriminate].
    apply N.eqb_eq in H2. subst ch. reflexivity.
  - intros H. destruct (IH H) as (l & Hl & R). exists l. split; [|exact R].
    exact Hl.
Qed.

Lemma last_Some_app {A : Type} (a b : list A) x :
  last (map Some (a ++ b)) None = Some x ->
  (b = [] /\ last (map Some a) None = Some x)
  \/ (b <> [] /\ last (map Some b) None = Some x).
Proof.
  destruct b as [|y b].
  - rewrite app_nil_r. auto.
  - intros H. right. split; [discriminate|].
    induction a as [|z a IH]; [exact H|].
    apply IH. cbn [app map] in H. cbn [app map].
    destruct (a ++ y :: b) eqn:E; [destruct a; discriminate|exact H].
Qed.

(** No node that a run adds once [start] is past the offset of [x] is [x]. *)
Lemma no_later_node t x n f g a g' fl pre post f0 :
  main_loop t n f g = Done (a, g') ->
  pcount g' = (pcount g - 1)%Z ->
  start f <= pos g -> node_offset x < start f ->
  arr f = arr f0 ++ fl -> ~ In x fl ->
  a = arr f0 ++ pre ++ x :: post -> False.
Proof.
  intros Hr Hc Hs Ho Ea Hn Eq.
  destruct (main_loop_clean_new t n _ _ _ _ Hr Hc Hs) as (new & E & Hnew).
  rewrite E, Ea, <- app_assoc in Eq. apply app_inv_head in Eq.
  destruct (split_at_node _ _ _ _ _ Eq Hn) as (pre' & _ & E2).
  assert (Hin : In x new) by (rewrite E2; apply in_or_app; right; left; auto).
  apply Hnew in Hin. lia.
Qed.

(** A run whose last node ends at its closing parenthesis, with a closing
    parenthesis right at the end of that node, returns at this
    parenthesis. *)
Lemma closed_run t n : forall f g a g' new l,
  main_loop t n f g = Done (a, g') ->
  pcount g' = (pcount g - 1)%Z ->
  start f <= pos g ->
  a = arr f ++ new -> last (map Some new) None = Some l ->
  closed t l = true -> nth_error t (node_end l) = Some c_rparen ->
  pos g' = node_end l + 1.
Proof.
  induction n as [|n IH]; intros f g a g' new l Hr Hc Hs Ea Hl Hcl Hp.
  { simpl in Hr. destruct (length t <=? pos g); [|discriminate].
    injection Hr as _ Eg. rewrite <- Eg in Hc. lia. }
  destruct (main_loop_clean_inv _ _ _ _ _ _ Hr Hc) as [Hlt Hcases].
  cbv zeta in Hcases.
  (* a Word flushed at [pos g] is the last node only at a closing
     parenthesis *)
  assert (Hword : forall fl, last (map Some fl) None = Some l ->
            (forall x, In x fl -> exists c' o', x = AstWord c' o' (pos g)) ->
            nth (pos g) t 0%N = c_rparen).
  { intros fl Hfl Hw. apply last_Some_In in Hfl. apply Hw in Hfl.
    destruct Hfl as (c' & o' & ->). cbn [node_end] in Hp.
    apply nth_error_nth with (d := 0%N) in Hp. exact Hp. }
  (* the nodes of the run that follows are the last ones *)
  assert (Hrest : forall fl f1 g2,
            main_loop t n f1 g2 = Done (a, g') ->
            pcount g' = (pcount g2 - 1)%Z -> start f1 <= pos g2 ->
            arr f1 = arr f ++ fl ->
            exists new1, new = fl ++ new1 /\
              (new1 <> [] -> pos g' = node_end l + 1)).
  { intros fl f1 g2 Hrec Hc2 Hs2 Efl.
    destruct (main_loop_clean_new t n _ _ _ _ Hrec Hc2 Hs2) as (new1 & En & _).
    exists new1. split.
    - rewrite En, Efl, <- app_assoc in Ea. apply app_inv_head in Ea.
      symmetry. exact Ea.
    - intros Hne.
      assert (E : new = fl ++ new1).
      { rewrite En, Efl, <- app_assoc in Ea. apply app_inv_head in Ea.
        symmetry. exact Ea. }
      rewrite E in Hl. apply last_Some_app in Hl.
      destruct Hl as [[X _]|[_ Hl]]; [congruence|].
      apply (IH f1 g2 a g' new1 l Hrec Hc2 Hs2 En Hl Hcl Hp). }
  destruct Hcases as [(f1 & g2 & Hfs & Hp2 & Hpos & C1 & C2 & C3 & Hrec)
                     |[(Ec & f2 & f3 & Haw & Hens & Hrec)
                     |[(El & o & tok & ps & l0 & g2 & Hst & Htok & Hne & Hw
                           & Hin & Hp2 & Hl0 & Hrec)
                      |(Er & f2 & f3 & Haw & Hens & Ea3 & Eg3)]]].
  - destruct (triggers (nth (pos g) t 0%N) (nth_error t (pos g + 1))) eqn:Tr.
    + assert (Hnx : pos g + 1 < length t).
      { apply nth_error_Some. intros E. rewrite E in Tr. discriminate. }
      destruct (firstSwitch_loud _ _ _ _ _ _ _ Tr Hfs ltac:(simpl; lia)
                  ltac:(simpl; lia))
        as (P1 & P2 & _ & fl & Efl & Hfl).
      simpl in P1, Hfl. rewrite Nat.add_sub in Hfl.
      destruct P2 as [P2|P2].
      2:{ exfalso. rewrite (main_loop_eof t n f1 g2 P2) in Hrec.
          injection Hrec as _ Eg. rewrite <- Eg in Hc. lia. }
      destruct (Hrest fl f1 g2 Hrec ltac:(lia) ltac:(lia) Efl)
        as (new1 & En & Hgo).
      destruct new1 as [|y new1]; [|apply Hgo; discriminate].
      exfalso. rewrite app_nil_r in En. subst new.
      rewrite (Hword fl Hl Hfl) in C3. discriminate.
    + rewrite firstSwitch_quiet in Hfs by exact Tr.
      injection Hfs as Ef Eg. rewrite <- Ef, <- Eg in Hrec.
      apply (IH f _ a g' new l Hrec); auto; simpl; lia.
  - destruct (addWord_wordSpan _ _ _ _ Haw ltac:(lia)) as (fl & Efl & Hfl).
    assert (S3 := ensureTokenExists_Done _ _ _ Hens).
    destruct S3 as (S3 & S4 & _).
    destruct (Hrest fl _ _ Hrec ltac:(simpl; lia) ltac:(simpl; lia))
      as (new1 & En & Hgo).
    { simpl. rewrite S4. exact Efl. }
    destruct new1 as [|y new1]; [|apply Hgo; discriminate].
    exfalso. rewrite app_nil_r in En. subst new.
    assert (X : nth (pos g) t 0%N = c_rparen).
    { apply (Hword fl Hl). intros x Hx. apply Hfl in Hx. tauto. }
    rewrite Ec in X. discriminate.
  - assert (Mi := main_loop_mono _ _ _ _ _ _ Hin). simpl in Mi.
    set (node := AstFunction tok ps (start f + o) (node_end l0 + 1)
                   (slice t (start f + o) (node_end l0 + 1))) in *.
    destruct (Hrest [node] _ _ Hrec ltac:(simpl; lia) ltac:(simpl; lia)
                eq_refl) as (new1 & En & Hgo).
    destruct new1 as [|y new1]; [|apply Hgo; discriminate].
    subst new. cbn [app map last] in Hl. injection Hl as <-.
    destruct (closed_call _ _ _ _ _ _ Hcl) as (l1 & Hl1 & Hcl1 & Hp1).
    assert (l1 = l0) by congruence. subst l1.
    assert (Eg2 : pos g2 = node_end l0 + 1).
    { apply (IH (new_frame (pos g + 1)) (set_pos g (pos g + 1)) ps g2 ps l0 Hin);
        auto; simpl; lia. }
    cbn [node_end node] in Hp.
    destruct n as [|n'].
    { exfalso. simpl in Hrec.
      assert (L : node_end l0 + 1 < length t)
        by (apply nth_error_Some; rewrite Hp; discriminate).
      replace (length t <=? pos g2) with false in Hrec
        by (symmetry; apply Nat.leb_gt; lia).
      discriminate. }
    assert (L : pos g2 < length t)
      by (rewrite Eg2; apply nth_error_Some; rewrite Hp; discriminate).
    assert (Sk := skipn_nth_cons 0%N t (pos g2) L).
    rewrite Eg2 in Sk at 2. rewrite (nth_error_nth _ _ 0%N Hp) in Sk.
    rewrite (main_loop_rparen t _ n' _ (set_pcount g2 (pcount g2 + 1)) Sk)
      in Hrec.
    bind_inv Hrec. bind_inv Hrec. injection Hrec as _ Eg.
    rewrite <- Eg. unfold node. cbn [pos set_pos set_pcount node_end]. lia.
  - subst g'. cbn [pos set_pos set_pcount].
    destruct (addWord_wordSpan _ _ _ _ Haw ltac:(lia)) as (fl & Efl & Hfl).
    apply ensureTokenExists_Done in Hens. destruct Hens as (_ & E3 & _).
    rewrite Ea3, E3, Efl in Ea. apply app_inv_head in Ea. subst new.
    apply last_Some_In in Hl. apply Hfl in Hl.
    destruct Hl as (_ & (c' & o' & ->) & _). reflexivity.
Qed.
Section CallCross.

(** The text [t1] holds the Call [fn(ps)] from [off] to [e]; in [t2] the
    plain word [V] stands in its place. *)
Variable t1 : str.
Variables fn c V : str.
Variable ps : list AstNode.
Variables off e : nat.

Hypothesis HV : plainWord V = true.
Hypothesis Hc : c = slice t1 off e.
Hypothesis Hoe : off < e.
Hypothesis He : e <= length t1.
Hypothesis Hclosed : closed t1 (AstFunction fn ps off e c) = true.
Hypothesis Hflush : flushesAt t1 (flushPoint t1 e) = true.

Local Abbreviation b1 := (off + length c).
Local Abbreviation b2 := (off + length V).
Local Abbreviation t2 := (firstn off t1 ++ V ++ skipn (off + length c) t1).
Local Abbreviation target := (AstFunction fn ps off e c).
Local Abbreviation target' :=
  (AstWord V off (shiftPos (off + length c) (off + length V) (flushPoint t1 e))).
Local Abbreviation d := (flushPoint t1 e).
Local Abbreviation sh := (shiftPos (off + length c) (off + length V)).
Local Abbreviation shN := (shiftNode (off + length c) (off + length V)).
Local Abbreviation shF := (shiftFrame (off + length c) (off + length V)).
Local Abbreviation shG := (shiftShared (off + length c) (off + length V)).

Lemma call_b1 : b1 = e.
Proof. rewrite Hc, slice_length by exact He. lia. Qed.

Lemma call_length_firstn : length (firstn off t1) = off.
Proof. rewrite length_firstn. lia. Qed.

Lemma call_agree : agree off t1 t2.
Proof.
  split; [|split; [lia|]].
  - rewrite firstn_app, firstn_firstn, Nat.min_id, call_length_firstn.
    rewrite Nat.sub_diag. simpl. rewrite app_nil_r. reflexivity.
  - rewrite length_app, call_length_firstn. lia.
Qed.

Lemma call_suffix : skipn b1 t1 = skipn b2 t2.
Proof.
  rewrite app_assoc. rewrite skipn_app_length; [reflexivity|].
  rewrite length_app, call_length_firstn. reflexivity.
Qed.

Lemma call_le_b1 : b1 <= length t1.
Proof. rewrite call_b1. exact He. Qed.

Lemma call_b2 : b2 <= length t2.
Proof. rewrite !length_app, call_length_firstn. lia. Qed.

Lemma call_skipn_off : skipn off t2 = V ++ skipn b1 t1.
Proof. apply skipn_app_length. symmetry. apply call_length_firstn. Qed.

(** The white space behind the Call, and the character of the flush. *)
Lemma call_white :
  exists w ch rest,
    skipn e t1 = w ++ ch :: rest /\ forallb isWhite w = true /\
    flushPoint t1 e = e + length w /\
    skipn (flushPoint t1 e) t1 = ch :: rest /\
    (ch = c_comma \/ ch = c_rparen \/
     ch = c_slash /\ exists nx rest', rest = nx :: rest' /\
                      (nx = c_star \/ nx = c_slash)).
Proof.
  destruct (takeWhile_rest isWhite (skipn e t1)) as (r & Er & W & _).
  assert (Sd : skipn (flushPoint t1 e) t1 = r).
  { unfold flushPoint. apply (skipn_more t1 e _ r Er). }
  assert (F := Hflush). unfold flushesAt in F.
  rewrite nth_error_skipn_hd, Sd in F.
  destruct r as [|ch rest]; [discriminate|]. cbn [hd_error] in F.
  exists (takeWhile isWhite (skipn e t1)), ch, rest.
  split; [exact Er|]. split; [exact W|]. split; [reflexivity|].
  split; [exact Sd|].
  apply orb_true_iff in F. destruct F as [F|F].
  - apply orb_true_iff in F. destruct F as [F|F]; apply N.eqb_eq in F; auto.
  - apply andb_true_iff in F. destruct F as [F1 F2]. apply N.eqb_eq in F1.
    right. right. split; [exact F1|].
    assert (Sd1 : skipn (flushPoint t1 e + 1) t1 = rest).
    { apply (@skipn_cons_inv char 0%N) in Sd. tauto. }
    rewrite nth_error_skipn_hd, Sd1 in F2.
    destruct rest as [|nx rest']; [discriminate|]. cbn [hd_error] in F2.
    exists nx, rest'. split; [reflexivity|].
    apply orb_true_iff in F2. destruct F2 as [F2|F2]; apply N.eqb_eq in F2; auto.
Qed.

(** The run behind the flush, on the moved text. *)
Lemma call_tail n f f3 g3 a g' post :
  main_loop t1 n f3 g3 = Done (a, g') ->
  pcount g' = (pcount g3 - 1)%Z ->
  e <= start f3 -> start f3 <= pos g3 ->
  arr f3 = arr f ++ [target] ->
  a = arr f ++ target :: post ->
  main_loop t2 n
    {| start := sh (start f3); arr := arr f ++ [target'];
       lastToken := lastToken f3 |} (shG g3)
  = Done (arr f ++ target' :: map shN post, shG g').
Proof.
  intros Hr Hcl Hs Hp Ea Eq.
  destruct (main_loop_shift t1 t2 b1 b2 call_suffix call_le_b1 call_b2
              n f3 g3 a g' (arr f ++ [target']) Hr Hcl
              ltac:(rewrite call_b1; lia) Hp)
    as (new & En & Hr2).
  { rewrite Ea, !length_app. reflexivity. }
  rewrite Ea, Eq in En.
  replace (arr f ++ target :: post) with ((arr f ++ [target]) ++ post) in En
    by (rewrite <- app_assoc; reflexivity).
  apply app_inv_head in En. subst new.
  rewrite <- app_assoc in Hr2. exact Hr2.
Qed.

(** Where [t1] flushes nothing behind the Call, [t2] flushes the Word
    [V]. *)
Lemma call_addWord f lead :
  start f + length lead = off -> slice t1 (start f) off = lead ->
  forallb isWhite lead = true ->
  addWord t2 f (sh (flushPoint t1 e)) = Done (push f target').
Proof.
  intros Ho Sl Wl.
  destruct call_white as (w & ch & rest & Se & Ww & Ed & Sd & _).
  assert (B := call_b1).
  assert (Fo : firstn off t1 = firstn (start f) t1 ++ lead).
  { rewrite <- Ho at 1. rewrite firstn_add by lia. f_equal.
    replace (length lead) with (off - start f) by lia. exact Sl. }
  set (it := {| lead := lead; word := V; trail := w |}).
  assert (Hit : wfItem it = true).
  { unfold wfItem. simpl. rewrite Wl, HV, Ww. reflexivity. }
  assert (Sk : skipn (start f) t2 = itemText it ++ ch :: rest).
  { unfold itemText. simpl. rewrite Fo, B, Se, <- !app_assoc.
    apply skipn_app_length. rewrite length_firstn. lia. }
  assert (Es : sh (flushPoint t1 e) = start f + length (itemText it)).
  { unfold shiftPos, itemText. simpl. rewrite !length_app, Ed, B. lia. }
  rewrite (addWord_item t2 it f _ Hit).
  - simpl. rewrite Ho. reflexivity.
  - rewrite Es. apply slice_of_skipn with (r := ch :: rest). exact Sk.
Qed.

(** The run behind the Call: on [t1] the white space and the delimiter or
    comment that follow it flush nothing; on [t2] they flush [V]. *)
Lemma after_call n f f1 g a g' post lead :
  main_loop t1 n f1 g = Done (a, g') ->
  pcount g' = (pcount g - 1)%Z ->
  pos g = e -> start f1 = e ->
  arr f1 = arr f ++ [target] -> lastToken f1 = lastToken f ->
  start f + length lead = off -> slice t1 (start f) off = lead ->
  forallb isWhite lead = true ->
  a = arr f ++ target :: post ->
  exists m, main_loop t2 m f (set_pos g off)
            = Done (arr f ++ target' :: map shN post, shG g').
Proof.
  intros Hr Hcl Hp Hs1 Ea1 Lt1 Ho Sl Wl Eq.
  destruct call_white as (w & ch & rest & Se & Ww & Ed & Sd & Hch).
  assert (B := call_b1).
  assert (Hd : d < length t1).
  { apply (@skipn_cons_inv char 0%N) in Sd. tauto. }
  assert (Shd : sh d = b2 + length w) by (unfold shiftPos; lia).
  (* the white space behind the Call *)
  assert (Hr1 : main_loop t1 n f1 (set_pos g d) = Done (a, g')).
  { assert (X : main_loop t1 (length w + n) f1 g = Done (a, g'))
      by (apply (main_loop_more t1 n); [exact Hr|lia]).
    rewrite (main_loop_inert t1 w (ch :: rest) n f1 g) in X.
    - rewrite Hp, <- Ed in X. exact X.
    - rewrite Hp. exact Se.
    - apply white_inert. exact Ww. }
  destruct n as [|n].
  { exfalso. simpl in Hr1.
    replace (length t1 <=? d) with false in Hr1
      by (symmetry; apply Nat.leb_gt; exact Hd).
    discriminate. }
  assert (Aw : addWord t1 f1 d = Done f1).
  { apply addWord_white. rewrite Hs1.
    replace d with (e + length w) by lia.
    rewrite (slice_of_skipn t1 e w (ch :: rest) Se). exact Ww. }
  assert (Aw2 := call_addWord f lead Ho Sl Wl).
  (* the word and the white space on the other side *)
  assert (Hin : forall m,
            main_loop t2 (length (V ++ w) + m) f (set_pos g off)
            = main_loop t2 m f (shG (set_pos g d))).
  { intros m.
    rewrite (main_loop_inert t2 (V ++ w) (ch :: rest) m f (set_pos g off)).
    - f_equal. unfold shiftShared, set_pos. cbn [pos pcount]. f_equal.
      rewrite length_app. lia.
    - cbn [pos set_pos]. rewrite call_skipn_off, B, Se, <- app_assoc.
      reflexivity.
    - rewrite forallb_app. apply andb_true_iff. split.
      + apply plainWord_facts in HV. tauto.
      + apply white_inert. exact Ww. }
  assert (Sd1 : skipn (pos (set_pos g d)) t1 = ch :: rest) by exact Sd.
  assert (Sd2 : skipn (pos (shG (set_pos g d))) t2 = ch :: rest).
  { cbn [pos shiftShared set_pos].
    rewrite (skipn_shift t1 t2 b1 b2 call_suffix call_le_b1 call_b2) by lia.
    exact Sd. }
  assert (Eg1 : set_pos (shG (set_pos g d)) (pos (shG (set_pos g d)) + 1)
                = shG (set_pos (set_pos g d) (d + 1))).
  { unfold shiftShared, set_pos. cbn [pos pcount]. f_equal.
    unfold shiftPos. lia. }
  exists (length (V ++ w) + S n). rewrite Hin.
  destruct Hch as [-> |[-> |(-> & nx & rest' & -> & Hnx)]].
  - (* a comma *)
    rewrite (main_loop_comma t1 rest n f1 _ Sd1) in Hr1.
    cbn [pos set_pos] in Hr1. rewrite Aw in Hr1. cbn [bind] in Hr1.
    bind_inv Hr1.
    assert (S3 := ensureTokenExists_Done _ _ _ Hm).
    destruct S3 as (S3 & S4 & _ & S5).
    rewrite (main_loop_comma t2 rest n f _ Sd2).
    cbn [pos shiftShared set_pos] in *. rewrite Aw2. cbn [bind].
    rewrite (ensureTokenExists_same _ _ _ (push f target') _ Hm)
      by (simpl; rewrite ?Ea1, ?length_app; auto).
    cbn [bind].
    rewrite <- (call_tail n f _ _ a g' post Hr1); auto.
    + f_equal.
      * unfold set_start, push. cbn [start arr lastToken]. f_equal.
        unfold shiftPos. lia.
      * exact Eg1.
    + cbn [start set_start]. lia.
    + cbn [arr set_start]. rewrite S4. exact Ea1.
  - (* the closing parenthesis *)
    rewrite (main_loop_rparen t1 rest n f1 _ Sd1) in Hr1.
    cbn [pos set_pos] in Hr1. rewrite Aw in Hr1. cbn [bind] in Hr1.
    bind_inv Hr1.
    assert (S3 := ensureTokenExists_Done _ _ _ Hm).
    destruct S3 as (S3 & S4 & _ & S5).
    injection Hr1 as Ea Eg.
    rewrite (main_loop_rparen t2 rest n f _ Sd2).
    cbn [pos shiftShared set_pos] in *. rewrite Aw2. cbn [bind].
    rewrite (ensureTokenExists_same _ _ _ (push f target') _ Hm)
      by (simpl; rewrite ?Ea1, ?length_app; auto).
    cbn [bind arr push].
    assert (Ep : post = []).
    { rewrite <- Ea, S4, Ea1 in Eq.
      replace (arr f ++ target :: post) with ((arr f ++ [target]) ++ post) in Eq
        by (rewrite <- app_assoc; reflexivity).
      rewrite <- (app_nil_r (arr f ++ [target])) in Eq at 1.
      apply app_inv_head in Eq. auto. }
    rewrite Ep, <- Eg. cbn [map]. f_equal. f_equal.
    unfold shiftShared, set_pcount, set_pos. cbn [pos pcount]. f_equal.
    unfold shiftPos. lia.
  - (* a comment *)
    assert (Sd3 : skipn (d + 1) t1 = nx :: rest').
    { apply (@skipn_cons_inv char 0%N) in Sd. tauto. }
    rewrite (main_loop_skip t1 c_slash _ n f1 _ Sd1) in Hr1 by reflexivity.
    cbn [pos set_pos] in Hr1.
    rewrite (nth_error_skipn_hd t1), Sd3 in Hr1. cbn [hd_error] in Hr1.
    rewrite (firstSwitch_slash t1 nx _ _ Hnx) in Hr1.
    cbn [pos set_pos] in Hr1. rewrite Nat.add_sub, Aw in Hr1.
    cbn [bind] in Hr1.
    destruct (skim nx (skipn (d + 1) t1) (d + 1)) as [p b] eqn:Eb.
    cbn [bind] in Hr1.
    destruct b.
    2:{ exfalso. apply skim_open in Eb. rewrite length_skipn in Eb.
        rewrite main_loop_eof in Hr1 by (cbn [pos set_pos]; lia).
        injection Hr1 as _ Eg'. rewrite <- Eg' in Hcl.
        cbn [pcount set_pos] in Hcl. lia. }
    apply skim_found in Eb as Hfound.
    rewrite (main_loop_skip t2 c_slash _ n f _ Sd2) by reflexivity.
    rewrite Eg1.
    replace (pos (shG (set_pos g d)) + 1) with (sh (d + 1))
      by (cbn [pos shiftShared set_pos]; unfold shiftPos; lia).
    rewrite (nth_error_shift t1 t2 b1 b2 call_suffix call_le_b1 call_b2)
      by lia.
    rewrite (nth_error_skipn_hd t1), Sd3. cbn [hd_error].
    rewrite (firstSwitch_slash t2 nx _ _ Hnx).
    cbn [pos shiftShared set_pos].
    replace (sh (d + 1) - 1) with (sh d) by (unfold shiftPos; lia).
    rewrite Aw2. cbn [bind].
    rewrite (skipn_shift t1 t2 b1 b2 call_suffix call_le_b1 call_b2) by lia.
    rewrite (skim_shift nx _ _ _ _ (sh (d + 1)) Eb). cbn [bind].
    rewrite <- (call_tail n f _ _ a g' post Hr1); auto.
    + f_equal.
      * unfold set_start, push. cbn [start arr lastToken]. f_equal.
        -- unfold shiftPos. lia.
        -- exact (eq_sym Lt1).
      * unfold shiftShared, set_pos. cbn [pos pcount]. f_equal.
        unfold shiftPos. lia.
    + cbn [start set_start]. lia.
Qed.

Lemma call_not_word (fl : list AstNode) p :
  (forall x, In x fl -> exists c' o', x = AstWord c' o' p) ->
  ~ In target fl.
Proof.
  intros Hfl Hin. apply Hfl in Hin. destruct Hin as (c' & o' & E).
  discriminate.
Qed.

(** From [off] on: the loop comes to the opening parenthesis of the Call,
    runs over its parameters and stands behind it. *)
Lemma call_span n : forall f g a g' pre post,
  main_loop t1 n f g = Done (a, g') ->
  pcount g' = (pcount g - 1)%Z ->
  start f <= off -> off <= pos g ->
  a = arr f ++ pre ++ target :: post ->
  pre = [] /\
  exists lead m f1 g1,
    start f + length lead = off /\ slice t1 (start f) off = lead /\
    forallb isWhite lead = true /\
    main_loop t1 m f1 g1 = Done (a, g') /\
    pcount g1 = pcount g /\ pos g1 = e /\ start f1 = e /\
    arr f1 = arr f ++ [target] /\ lastToken f1 = lastToken f.
Proof.
  induction n as [|n IH]; intros f g a g' pre post Hr Hcl Hs Ho Ea.
  { simpl in Hr. destruct (length t1 <=? pos g); [|discriminate].
    injection Hr as _ Eg. rewrite <- Eg in Hcl. lia. }
  destruct (main_loop_clean_inv _ _ _ _ _ _ Hr Hcl) as [Hlt Hcases].
  cbv zeta in Hcases.
  destruct Hcases as [(f1 & g2 & Hfs & Hp2 & Hpos & C1 & C2 & C3 & Hrec)
                     |[(Ec & f2 & f3 & Haw & Hens & Hrec)
                     |[(El & o & tok & ps' & l & g2 & Hst & Htok & Hne & Hw
                           & Hin & Hp2 & Hl & Hrec)
                      |(Er & f2 & f3 & Haw & Hens & Ea3 & Eg3)]]].
  - destruct (triggers (nth (pos g) t1 0%N) (nth_error t1 (pos g + 1))) eqn:Tr.
    + exfalso.
      assert (Hnx : pos g + 1 < length t1).
      { apply nth_error_Some. intros E. rewrite E in Tr. discriminate. }
      destruct (firstSwitch_loud _ _ _ _ _ _ _ Tr Hfs ltac:(simpl; lia)
                  ltac:(simpl; lia))
        as (P1 & P2 & _ & fl & Efl & Hfl).
      simpl in P1, Hfl. rewrite Nat.add_sub in Hfl.
      destruct P2 as [P2|P2].
      * apply (no_later_node t1 target _ _ _ _ _ fl pre post f Hrec);
          cbn [node_offset]; auto; try lia.
        apply (call_not_word fl (pos g)); auto.
      * rewrite (main_loop_eof t1 n f1 g2 P2) in Hrec.
        injection Hrec as _ Eg. rewrite <- Eg in Hcl. lia.
    + rewrite firstSwitch_quiet in Hfs by exact Tr.
      injection Hfs as Ef Eg. rewrite <- Ef, <- Eg in Hrec.
      destruct (IH _ _ _ _ pre post Hrec ltac:(simpl; lia) Hs
                  ltac:(simpl; lia) Ea)
        as (Hpre & lead & m & f1' & g1' & H).
      split; [exact Hpre|]. exists lead, m, f1', g1'. exact H.
  - exfalso.
    destruct (addWord_wordSpan _ _ _ _ Haw ltac:(lia)) as (fl & Efl & Hfl).
    apply ensureTokenExists_Done in Hens. destruct Hens as (_ & E3 & _).
    apply (no_later_node t1 target _ _ _ _ _ fl pre post f Hrec);
      cbn [node_offset start set_start pos set_pos]; auto; try lia.
    + cbn [arr set_start]. rewrite E3. exact Efl.
    + apply (call_not_word fl (pos g)).
      intros x Hx. apply Hfl in Hx. tauto.
  - assert (Mi := main_loop_mono _ _ _ _ _ _ Hin). simpl in Mi.
    set (node := AstFunction tok ps' (start f + o) (node_end l + 1)
                   (slice t1 (start f + o) (node_end l + 1))) in *.
    destruct (main_loop_clean_new t1 n _ _ _ _ Hrec ltac:(simpl; lia)
                ltac:(simpl; lia)) as (new1 & En & Hnew).
    cbn [arr set_start push start] in En, Hnew.
    assert (Eq : pre ++ target :: post = node :: new1).
    { rewrite En, <- app_assoc in Ea. apply app_inv_head in Ea.
      symmetry. exact Ea. }
    destruct pre as [|y pre].
    2:{ exfalso. cbn [app] in Eq. injection Eq as _ Eq.
        assert (Hi : In target new1)
          by (rewrite <- Eq; apply in_or_app; right; left; auto).
        apply Hnew in Hi. cbn [node_offset] in Hi. lia. }
    cbn [app] in Eq. injection Eq as Efn Eps Eo Ee Ect Epost.
    split; [reflexivity|].
    destruct (closed_call _ _ _ _ _ _ Hclosed) as (l1 & Hl1 & Hcl1 & Hp1).
    rewrite <- Eps in Hl. assert (l1 = l) by congruence. subst l1.
    assert (Eg2 : pos g2 = node_end l + 1).
    { rewrite <- Eps in Hin.
      apply (closed_run t1 n (new_frame (pos g + 1)) (set_pos g (pos g + 1))
               ps g2 ps l Hin); auto; simpl; lia. }
    destruct (tokenWithoutSpaces_inv _ _ _ Htok Hne)
      as (lead & trail & Es & Lo & Wl & Wt).
    exists lead, n,
      (set_start (push f node) (pos g2)), (set_pcount g2 (pcount g2 + 1)).
    split; [lia|]. split.
    { assert (X : skipn (start f) t1
                  = slice t1 (start f) (pos g) ++ skipn (pos g) t1)
        by (apply skipn_slice; lia).
      rewrite Es, <- app_assoc in X.
      replace off with (start f + length lead) by lia.
      apply (slice_of_skipn t1 (start f) lead _ X). }
    split; [exact Wl|]. split; [exact Hrec|].
    split; [cbn [pcount set_pcount]; lia|].
    split; [cbn [pos set_pcount]; lia|].
    split; [cbn [start set_start]; lia|].
    split; [|reflexivity].
    cbn [arr set_start push]. unfold node.
    rewrite Efn, Eps, Eo, Ee, Ect. reflexivity.
  - exfalso.
    destruct (addWord_wordSpan _ _ _ _ Haw ltac:(lia)) as (fl & Efl & Hfl).
    apply ensureTokenExists_Done in Hens. destruct Hens as (_ & E3 & _).
    rewrite Ea3, E3, Efl in Ea. apply app_inv_head in Ea.
    assert (Hi : In target fl).
    { rewrite Ea. apply in_or_app. right. left. reflexivity. }
    revert Hi. apply (call_not_word fl (pos g)).
    intros x Hx. apply Hfl in Hx. tauto.
Qed.

(** From [off] on: the Call on one side, the word on the other. *)
Lemma at_call n f g a g' pre post :
  main_loop t1 n f g = Done (a, g') ->
  pcount g' = (pcount g - 1)%Z ->
  start f <= off -> pos g = off ->
  a = arr f ++ pre ++ target :: post ->
  pre = [] /\
  exists m, main_loop t2 m f g
            = Done (arr f ++ target' :: map shN post, shG g').
Proof.
  intros Hr Hcl Hs Hp Ea.
  destruct (call_span n f g a g' pre post Hr Hcl Hs ltac:(lia) Ea)
    as (Hpre & lead & m & f1 & g1 & Ho & Sl & Wl & Hr1 & Pc & Pe & Se & Ea1 & Lt).
  split; [exact Hpre|]. subst pre. cbn [app] in Ea.
  destruct (after_call m f f1 g1 a g' post lead Hr1 ltac:(lia) Pe Se Ea1 Lt
              Ho Sl Wl Ea) as (m' & Hm').
  exists m'. rewrite <- Hm'. f_equal.
  destruct g as [p0 c0]. unfold set_pos. cbn [pos pcount] in *.
  f_equal; [exact Hp|symmetry; exact Pc].
Qed.

Lemma call_first_char :
  exists v0, nth_error t2 off = Some v0 /\ plainChar v0 = true.
Proof.
  rewrite nth_error_skipn_hd, call_skipn_off.
  assert (P := HV). unfold plainWord in P. apply andb_true_iff in P.
  destruct P as [P1 P2]. destruct V as [|v0 V']; [discriminate|].
  exists v0. split; [reflexivity|]. simpl in P2.
  apply andb_true_iff in P2. tauto.
Qed.

(** The run that holds the Call, from a state before it. *)
Lemma call_cross n : forall f g a g' pre post,
  main_loop t1 n f g = Done (a, g') ->
  pcount g' = (pcount g - 1)%Z ->
  start f <= pos g -> pos g <= off ->
  a = arr f ++ pre ++ target :: post ->
  exists m, main_loop t2 m f g
            = Done (arr f ++ pre ++ target' :: map shN post, shG g').
Proof.
  induction n as [|n IH]; intros f g a g' pre post Hr Hcl Hs Hp Ea.
  { simpl in Hr. destruct (length t1 <=? pos g); [|discriminate].
    injection Hr as _ Eg. rewrite <- Eg in Hcl. lia. }
  destruct (Nat.eq_dec (pos g) off) as [Eo|No].
  { destruct (at_call (S n) f g a g' pre post Hr Hcl ltac:(lia) Eo Ea)
      as (-> & m & Hm).
    exists m. exact Hm. }
  assert (Ag := call_agree).
  destruct (main_loop_clean_inv _ _ _ _ _ _ Hr Hcl) as [Hlt Hcases].
  cbv zeta in Hcases.
  assert (Hlt2 : pos g < length t2) by (destruct Ag as (_ & _ & L); lia).
  assert (Hs2 := skipn_nth_cons 0%N t2 (pos g) Hlt2).
  rewrite <- (agree_nth off t1 t2) in Hs2 by (auto; lia).
  (* what the nodes flushed at this iteration are *)
  assert (Hfl : forall fl f1 g2,
             main_loop t1 n f1 g2 = Done (a, g') ->
             pcount g' = (pcount g2 - 1)%Z ->
             start f1 <= pos g2 -> pos g2 <= off ->
             arr f1 = arr f ++ fl -> ~ In target fl ->
             exists m, main_loop t2 m f1 g2
                       = Done (arr f ++ pre ++ target' :: map shN post,
                               shG g')).
  { intros fl f1 g2 Hrec Hc2 Hs1 Hp1 Efl Hn.
    destruct (main_loop_clean_new t1 n _ _ _ _ Hrec Hc2 Hs1)
      as (new & En & _).
    assert (Eq := Ea). rewrite En, Efl, <- app_assoc in Eq.
    apply app_inv_head in Eq.
    destruct (split_at_node _ _ _ _ _ Eq Hn) as (pre' & Ep & Enew).
    destruct (IH f1 g2 a g' pre' post Hrec Hc2 Hs1 Hp1) as (m & Hm).
    { rewrite En, Enew. reflexivity. }
    exists m. rewrite Hm, Efl, Ep, <- !app_assoc. reflexivity. }
  destruct Hcases as [(f1 & g2 & Hfs & Hp2 & Hpos & C1 & C2 & C3 & Hrec)
                     |[(Ec & f2 & f3 & Haw & Hens & Hrec)
                     |[(El & o & tok & ps' & l & g2 & Hst & Htok & Hne & Hw
                           & Hin & Hp2 & Hl & Hrec)
                      |(Er & f2 & f3 & Haw & Hens & Ea3 & Eg3)]]].
  - destruct (triggers (nth (pos g) t1 0%N) (nth_error t1 (pos g + 1))) eqn:Tr.
    + (* a comment or a continuation before the Call *)
      assert (Hnx : pos g + 1 < length t1).
      { apply nth_error_Some. intros E. rewrite E in Tr. discriminate. }
      destruct (firstSwitch_loud _ _ _ _ _ _ _ Tr Hfs ltac:(simpl; lia)
                  ltac:(simpl; lia))
        as (P1 & P2 & P3 & fl & Efl & Hwl).
      simpl in P1, Hwl. rewrite Nat.add_sub in Hwl.
      assert (M := main_loop_mono _ _ _ _ _ _ Hrec).
      destruct M as (_ & _ & M). specialize (M ltac:(lia)).
      destruct P2 as [P2|P2].
      2:{ exfalso. rewrite (main_loop_eof t1 n f1 g2 P2) in Hrec.
          injection Hrec as _ Eg. rewrite Eg in M. lia. }
      assert (Hnt : ~ In target fl)
        by (apply (call_not_word fl (pos g)); auto).
      destruct (Nat.lt_ge_cases off (pos g2)) as [L|L].
      { exfalso.
        apply (no_later_node t1 target _ _ _ _ _ fl pre post f Hrec);
          cbn [node_offset]; auto; lia. }
      destruct (Hfl fl f1 g2 Hrec ltac:(lia) ltac:(lia) L Efl Hnt)
        as (m & Hm).
      exists (S m).
      rewrite (main_loop_skip t2 _ _ m f g Hs2 C1 C2 C3).
      rewrite <- (agree_nth_error off t1 t2) by (auto; lia).
      rewrite (firstSwitch_agree t1 t2 off _ _ _ _ _ _ Hfs);
        auto; try (simpl; lia).
    + (* an inert character before the Call *)
      rewrite firstSwitch_quiet in Hfs by exact Tr.
      injection Hfs as Ef Eg. rewrite <- Ef, <- Eg in Hrec.
      destruct (Hfl [] f _ Hrec ltac:(simpl; lia) ltac:(simpl; lia)
                  ltac:(simpl; lia)) as (m & Hm).
      { rewrite app_nil_r. reflexivity. }
      { intros []. }
      exists (S m).
      rewrite (main_loop_skip t2 _ _ m f g Hs2 C1 C2 C3).
      rewrite firstSwitch_quiet; [exact Hm|].
      destruct (Nat.eq_dec (pos g + 1) off) as [E1|N1].
      * rewrite E1. destruct call_first_char as (v0 & -> & Pv).
        apply triggers_plain. exact Pv.
      * rewrite <- (agree_nth_error off t1 t2) by (auto; lia). exact Tr.
  - (* a comma before the Call *)
    destruct (addWord_wordSpan _ _ _ _ Haw ltac:(lia)) as (fl & Efl & Hwl).
    assert (S3 := ensureTokenExists_Done _ _ _ Hens).
    destruct S3 as (S3 & S4 & _).
    assert (S5 := addWord_Done _ _ _ _ Haw).
    destruct (Hfl fl _ _ Hrec ltac:(simpl; lia) ltac:(simpl; lia)
                ltac:(simpl; lia)) as (m & Hm).
    { simpl. rewrite S4. exact Efl. }
    { apply (call_not_word fl (pos g)).
      intros x Hx. apply Hwl in Hx. tauto. }
    exists (S m). rewrite Ec in Hs2.
    rewrite (main_loop_comma t2 _ m f g Hs2).
    rewrite <- (addWord_agree t1 t2 off) by (auto; lia).
    rewrite Haw. cbn [bind]. rewrite Hens. cbn [bind]. exact Hm.
  - (* a call before the Call *)
    assert (Mi := main_loop_mono _ _ _ _ _ _ Hin). simpl in Mi.
    set (node := AstFunction tok ps' (start f + o) (node_end l + 1)
                   (slice t1 (start f + o) (node_end l + 1))) in *.
    assert (Hnt : ~ In target [node]).
    { intros [X|[]]. unfold node in X. injection X as _ _ X _ _.
      destruct (tokenWithoutSpaces_inv _ _ _ Htok Hne)
        as (lead & trail & Es & Lo & _).
      assert (Ls := slice_length t1 (start f) (pos g) ltac:(lia)).
      rewrite Es, !length_app in Ls.
      destruct tok; [congruence|]. simpl in Ls. lia. }
    destruct (Nat.lt_ge_cases off (pos g2)) as [L|L].
    { exfalso.
      apply (no_later_node t1 target _ _ _ _ _ [node] pre post f Hrec);
        cbn [node_offset]; simpl; auto; lia. }
    destruct (Hfl [node] _ _ Hrec ltac:(simpl; lia) ltac:(simpl; lia)
                ltac:(simpl; lia) eq_refl Hnt) as (m & Hm).
    destruct (main_loop_clean_new t1 n _ _ _ _ Hin
                ltac:(simpl; lia) ltac:(simpl; lia)) as (newi & Ei & Hni).
    simpl in Ei. subst newi.
    assert (Hle := Hni l (last_Some_In _ _ Hl)).
    assert (Hin2 : main_loop t2 n (new_frame (pos g + 1))
                     (set_pos g (pos g + 1)) = Done (ps', g2)).
    { apply (main_loop_agree t1 t2 n _ _ _ _ Hin); [simpl; lia|].
      apply (agree_le off); auto. }
    exists (S (Nat.max n m)). rewrite El in Hs2.
    rewrite (main_loop_lparen t2 _ _ f g Hs2).
    unfold addFunc.
    replace (pos g <=? start f) with false by (symmetry; apply Nat.leb_gt; lia).
    rewrite <- (agree_slice off t1 t2) by (auto; lia).
    rewrite Htok. destruct tok as [|c0 tok]; [congruence|].
    simpl isEmpty. cbv iota. rewrite Hw.
    rewrite (main_loop_more t2 n _ _ _ _ Hin2) by lia.
    cbn [bind]. rewrite Hl.
    rewrite <- (agree_slice off t1 t2) by (auto; lia).
    cbn [bind].
    apply (main_loop_more t2 m); [exact Hm|lia].
  - (* the closing parenthesis before the Call *)
    exfalso.
    destruct (addWord_wordSpan _ _ _ _ Haw ltac:(lia)) as (fl & Efl & Hwl).
    apply ensureTokenExists_Done in Hens. destruct Hens as (_ & E3 & _).
    rewrite Ea3, E3, Efl in Ea. apply app_inv_head in Ea.
    assert (Hi : In target fl).
    { rewrite Ea. apply in_or_app. right. left. reflexivity. }
    revert Hi. apply (call_not_word fl (pos g)).
    intros x Hx. apply Hwl in Hx. tauto.
Qed.

Lemma scan_call_cross n : forall p kms kms' q bl pre post al,
  scan t1 n p kms = Done (kms', q) ->
  kms' = kms ++ bl ++ (pre ++ target :: post) :: al ->
  p <= off ->
  exists m, scan t2 m p kms
            = Done (kms ++ bl ++ (pre ++ target' :: map shN post)
                                   :: map (map shN) al,
                    sh q).
Proof.
  assert (Ag := call_agree).
  assert (Sf := call_suffix).
  assert (B1 := call_le_b1).
  assert (B2 := call_b2).
  assert (Bd := call_b1).
  induction n as [|n IH]; intros p kms kms' q bl pre post al H Ek Hp;
    simpl in H.
  { destruct (indexOf marker t1 p) eqn:E; [discriminate|].
    exfalso. injection H as E1 _. rewrite <- E1 in Ek.
    rewrite <- (app_nil_r kms) in Ek at 1. apply app_inv_head in Ek.
    destruct bl; discriminate. }
  destruct (indexOf marker t1 p) as [i|] eqn:E.
  2:{ exfalso. injection H as E1 _. rewrite <- E1 in Ek.
      rewrite <- (app_nil_r kms) in Ek at 1. apply app_inv_head in Ek.
      destruct bl; discriminate. }
  bind_inv H. destruct a as [km g].
  destruct (pcount g =? 0)%Z eqn:Ec; [|discriminate].
  assert (Ec' := Ec). apply Z.eqb_eq in Ec'.
  assert (Eb := indexOf_marker_bound _ _ _ E).
  assert (M := main_loop_mono _ _ _ _ _ _ Hm). simpl in M.
  destruct (main_loop_clean_new t1 _ _ _ _ _ Hm
              ltac:(simpl; lia) ltac:(simpl; lia)) as (new & En & Hn).
  simpl in En, Hn. subst new.
  destruct (scan_nodes _ _ _ _ _ _ H) as (more & Em & Hmore).
  rewrite Em, <- app_assoc in Ek. apply app_inv_head in Ek. simpl in Ek.
  destruct bl as [|l0 bl]; simpl in Ek; injection Ek as Ekm Emore.
  - (* the Call is in this layer *)
    assert (Hin : In target km)
      by (rewrite Ekm; apply in_or_app; right; left; auto).
    apply Hn in Hin. simpl in Hin.
    destruct (call_cross _ _ _ _ _ pre post Hm
                ltac:(simpl; lia) ltac:(simpl; lia) ltac:(simpl; lia) Ekm)
      as (m & Hr2).
    simpl app in Hr2. apply main_loop_enough in Hr2.
    destruct (scan_shift t1 t2 b1 b2 Sf B1 B2 _ _ _ _ _
                (kms ++ [pre ++ target' :: map shN post]) H ltac:(lia))
      as (more' & Em' & Hr3).
    rewrite Em in Em'. apply app_inv_head in Em'. subst more'.
    exists (S n). simpl.
    rewrite (agree_indexOf off t1 t2 p i Ag E) by lia.
    unfold main. rewrite Hr2. cbn [bind]. simpl pcount. rewrite Ec.
    simpl pos. rewrite Hr3, <- app_assoc, Emore. reflexivity.
  - (* the Call is in a later layer *)
    assert (Hpo : pos g <= off).
    { assert (Hin : In (pre ++ target :: post) more)
        by (rewrite Emore; apply in_or_app; right; left; auto).
      assert (Hx : In target (pre ++ target :: post))
        by (apply in_or_app; right; left; auto).
      destruct (Hmore _ _ Hin Hx) as (A & _). simpl in A. lia. }
    destruct (IH (pos g) (kms ++ [km]) kms' q bl pre post al H) as (m & Hr3).
    { rewrite Em, Emore, <- app_assoc. reflexivity. }
    { exact Hpo. }
    exists (S m). simpl.
    rewrite (agree_indexOf off t1 t2 p i Ag E) by lia.
    unfold main.
    rewrite (main_loop_enough t2 (length t1) _ _ (km, g)).
    + cbn [bind]. rewrite Ec. rewrite Hr3, <- app_assoc, Ekm. reflexivity.
    + apply (main_loop_agree t1 t2 _ _ _ _ _ Hm); [simpl; lia|].
      apply (agree_le off); auto.
Qed.

End CallCross.
Lemma flushPoint_at (t : str) a e :
  a <= e -> e < length t ->
  forallb isWhite (slice t a e) = true -> isWhite (nth e t 0%N) = false ->
  flushPoint t a = e.
Proof.
  intros Hae He W N. unfold flushPoint.
  rewrite (skipn_slice t a e) by lia.
  rewrite (@skipn_nth_cons char 0%N t e He).
  rewrite (takeWhile_app_stop isWhite _ _ _ W N).
  rewrite slice_length by lia. lia.
Qed.

(** Three ways in which a key that is set does not become the new value:
    a value with a comma makes two keys; a word set in the place of a Call
    joins the text that follows the Call without a delimiter; a Call whose
    recorded span stops before its closing parenthesis leaves that
    parenthesis behind, which then closes the invocation. *)
Lemma C2_counterexample :
  (trySetKeymapsKey (lit "KEYMAP(KC_A)") 0 0 (lit "X,Y") None
   = Done (lit "KEYMAP(X,Y)")
   /\ tryParseKeymapsText (lit "KEYMAP(X,Y)") None false
      = Done ([[AstWord (lit "X") 7 8; AstWord (lit "Y") 9 10]], None)
   /\ evalKeyExpression otherTruthy
        (INode (AstWord (lit "X") 7 8)) sampleExecutor
      <> Returns (VString (lit "X,Y")))
  /\ (tryParseKeymapsText (lit "KEYMAP(F(x)y, B)") None false
      = Done ([[AstFunction (lit "F") [AstWord (lit "x") 9 10] 7 11 (lit "F(x)");
                AstWord (lit "y") 11 12; AstWord (lit "B") 14 15]], None)
      /\ plainWord (lit "Q") = true
      /\ trySetKeymapsKey (lit "KEYMAP(F(x)y, B)") 0 0 (lit "Q") None
         = Done (lit "KEYMAP(Qy, B)")
      /\ tryParseKeymapsText (lit "KEYMAP(Qy, B)") None false
         = Done ([[AstWord (lit "Qy") 7 9; AstWord (lit "B") 11 12]], None)
      /\ evalKeyExpression otherTruthy
           (INode (AstWord (lit "Qy") 7 9)) sampleExecutor
         <> Returns (VString (lit "Q")))
  /\ (tryParseKeymapsText (lit "KEYMAP(LT(1, F(x) ), B)") None false
      = Done ([[AstFunction (lit "LT")
                  [AstWord (lit "1") 10 11;
                   AstFunction (lit "F") [AstWord (lit "x") 15 16] 13 17
                     (lit "F(x)")]
                  7 18 (lit "LT(1, F(x) ");
                AstWord (lit "B") 21 22]], None)
      /\ trySetKeymapsKey (lit "KEYMAP(LT(1, F(x) ), B)") 0 0 (lit "Q") None
         = Done (lit "KEYMAP(Q), B)")
      /\ tryParseKeymapsText (lit "KEYMAP(Q), B)") None false
         = Done ([[AstWord (lit "Q") 7 8]], None)).
Proof.
  repeat split; try reflexivity; vm_compute; discriminate.
Qed.

(** C2 (amended).  When the key [K] of the Layer [L] is a Word, or a Call
    that ends at its closing parenthesis with only white space between that
    parenthesis and the next comma, closing parenthesis or comment, and the
    new value [V] is a plain word, [trySetKeymapsKey] returns the text with
    the span [offset, offset + length content) of that node, which holds its
    content, replaced by [V] and nothing else changed.  Parsing the result
    yields the tree of the original text in which that node is the Word [V]
    at the same offset (so the key evaluates to [V]), the nodes before it
    are unchanged and the nodes after it keep their content, their
    positions being moved by the difference of the lengths. *)
Theorem C2_set_key text kc bl pre x post al V :
  tryParseKeymapsText text kc false
  = Done (bl ++ (pre ++ x :: post) :: al, None) ->
  settable text x = true ->
  plainWord V = true ->
  let off := node_offset x in
  let c := node_content x in
  let text' := firstn off text ++ V ++ skipn (off + length c) text in
  let moved := shiftNode (off + length c) (off + length V) in
  let key' :=
    AstWord V off (shiftPos (off + length c) (off + length V)
                     (flushPoint text (off + length c))) in
  slice text off (off + length c) = c /\
  off + length c <= length text /\
  trySetKeymapsKey text (Z.of_nat (length bl)) (Z.of_nat (length pre)) V kc
  = Done text' /\
  tryParseKeymapsText text' kc false
  = Done (bl ++ (pre ++ key' :: map moved post) :: map (map moved) al, None) /\
  (forall (T : Type) (truthy : T -> bool) (executor : Executor T),
     evalKeyExpression truthy (INode key') executor = Returns (VString V)) /\
  (forall y, node_content (moved y) = node_content y).
Proof.
  intros Hparse Hset HV off c text' moved key'.
  assert (Hp := Hparse). apply tryParseKeymapsText_Done in Hp.
  destruct Hp as (p & Hs & Hv & _).
  destruct (scan_spans _ _ _ _ _ _ Hs) as (_ & more & Em & Hmore & _).
  simpl in Em. subst more.
  assert (Hin : In (pre ++ x :: post) (bl ++ (pre ++ x :: post) :: al))
    by (apply in_or_app; right; left; auto).
  assert (Hx : In x (pre ++ x :: post))
    by (apply in_or_app; right; left; auto).
  destruct (Hmore _ Hin) as (_ & Ol & Hn).
  destruct (Hn _ Hx) as (_ & Hend & Sp).
  assert (Oe := ordered_In _ _ Ol Hx).
  assert (Core :
    slice text off (off + length c) = c /\ off + length c <= length text /\
    exists m q, scan text' m 0 []
      = Done (bl ++ (pre ++ key' :: map moved post) :: map (map moved) al, q)).
  { destruct x as [w o e|fn ps o e ct].
    - cbn [nodeSpan] in Sp. destruct Sp as (Hspan & He & Hd).
      assert (Hsp := Hspan). destruct Hsp as (_ & _ & Hle & Hsl & Wt).
      cbn [node_offset node_content] in off, c.
      assert (Fp : flushPoint text (off + length c) = e).
      { apply flushPoint_at; auto.
        destruct Hd as [<-|[<-|[<-|[]]]]; reflexivity. }
      destruct (scan_cross text w V o e HV Hspan He _ _ _ _ _ bl pre post al
                  Hs eq_refl ltac:(lia)) as (m & Hs2).
      split; [exact Hsl|]. split; [unfold off, c; lia|].
      exists m. eexists. unfold key'. rewrite Fp. exact Hs2.
    - cbn [nodeSpan] in Sp. destruct Sp as (_ & _ & _ & _ & Ec & Ee & _).
      cbn [node_offset node_content node_end] in off, c, Oe.
      cbn [settable] in Hset. apply andb_true_iff in Hset.
      destruct Hset as [Hcl Hfl].
      assert (Lc : off + length c = e).
      { unfold c, off. rewrite Ec, slice_length by exact Ee. lia. }
      destruct (scan_call_cross text fn ct V ps o e HV Ec Oe Ee Hcl Hfl
                  _ _ _ _ _ bl pre post al Hs eq_refl ltac:(lia)) as (m & Hs2).
      split; [rewrite Lc; symmetry; exact Ec|]. split; [rewrite Lc; exact Ee|].
      exists m. eexists. unfold key'.
      replace (flushPoint text (off + length c)) with (flushPoint text e)
        by (rewrite Lc; reflexivity).
      exact Hs2. }
  destruct Core as (Hsl & Hlen & m & q & Hs2).
  apply scan_enough in Hs2.
  assert (Hparse' :
    tryParseKeymapsText text' kc false
    = Done (bl ++ (pre ++ key' :: map moved post) :: map (map moved) al, None)).
  { unfold tryParseKeymapsText. rewrite Hs2. cbn [bind].
    rewrite (validate_lengths _ (bl ++ (pre ++ x :: post) :: al)).
    - rewrite Hv. reflexivity.
    - rewrite !map_app. simpl. rewrite !length_app. simpl.
      rewrite !length_map, map_map. f_equal. f_equal.
      apply map_ext. intros l. apply length_map. }
  split; [exact Hsl|]. split; [exact Hlen|]. split.
  { unfold trySetKeymapsKey. rewrite Hparse. cbn [bind].
    rewrite index_app_middle, index_app_middle.
    unfold substr0, substrFrom. fold off. fold c. fold text'.
    rewrite Hparse'. reflexivity. }
  split; [exact Hparse'|]. split; [reflexivity|].
  intros y. apply shiftNode_content.
Qed.

Lemma C2_set_key_witness :
  let text := lit "KEYMAP(KC_B, LT(1, F(X)) /* c */, KC_C) KEYMAP(F(X), Y, Z)" in
  let bl := @nil (list AstNode) in
  let pre := [AstWord (lit "KC_B") 7 11] in
  let x := AstFunction (lit "LT")
             [AstWord (lit "1") 16 17;
              AstFunction (lit "F") [AstWord (lit "X") 21 22] 19 23 (lit "F(X)")]
             13 24 (lit "LT(1, F(X))") in
  let post := [AstWord (lit "KC_C") 34 38] in
  let al := [[AstFunction (lit "F") [AstWord (lit "X") 49 50] 47 51 (lit "F(X)");
              AstWord (lit "Y") 53 54; AstWord (lit "Z") 56 57]] in
  let V := lit "MO_1" in
  let off := node_offset x in
  let c := node_content x in
  let text' := firstn off text ++ V ++ skipn (off + length c) text in
  let moved := shiftNode (off + length c) (off + length V) in
  let key' :=
    AstWord V off (shiftPos (off + length c) (off + length V)
                     (flushPoint text (off + length c))) in
  slice text off (off + length c) = c /\
  off + length c <= length text /\
  trySetKeymapsKey text (Z.of_nat (length bl)) (Z.of_nat (length pre)) V None
  = Done text' /\
  tryParseKeymapsText text' None false
  = Done (bl ++ (pre ++ key' :: map moved post) :: map (map moved) al, None) /\
  (forall (T : Type) (truthy : T -> bool) (executor : Executor T),
     evalKeyExpression truthy (INode key') executor = Returns (VString V)) /\
  (forall y, node_content (moved y) = node_content y).
Proof.
  apply (C2_set_key
           (lit "KEYMAP(KC_B, LT(1, F(X)) /* c */, KC_C) KEYMAP(F(X), Y, Z)")
           None []
           [AstWord (lit "KC_B") 7 11]
           (AstFunction (lit "LT")
              [AstWord (lit "1") 16 17;
               AstFunction (lit "F") [AstWord (lit "X") 21 22] 19 23 (lit "F(X)")]
              13 24 (lit "LT(1, F(X))"))
           [AstWord (lit "KC_C") 34 38]
           [[AstFunction (lit "F") [AstWord (lit "X") 49 50] 47 51 (lit "F(X)");
             AstWord (lit "Y") 53 54; AstWord (lit "Z") 56 57]]
           (lit "MO_1")).
  - reflexivity.
  - reflexivity.
  - reflexivity.
Defined.
